(** * Rotamer belief propagation (src/rotamer.cpp): a shallow embedding

    The development follows the source top down: the float interface the
    code computes with, the small fixed-size vectors, the two storages
    ([VecArrayStorage] for nodes, the AoSoA [SimdVecArrayStorage] for edges),
    [NodeHolder], [EdgeHolder], [calculate_n_elem] and the methods of
    [RotamerSidechain].  Theorems come after the definitions.

    Conventions.
    - [int] values are integers of [Z]; signed overflow is undefined in C++
      and is not part of the model: a theorem whose statement depends on
      computed [int] values staying in range lists them and asks that they
      are values of [int] ([fits_int]).  [unsigned] values are integers of [Z]
      in [0, 2^32) and every unsigned operation has its wrap-around written
      out ([wrap32]).
    - [float] is a parameter: a carrier with the operations the source
      applies to it ([FloatOps]).  Two instances are given, IEEE binary32
      built on the generic [SpecFloat] operations, and exact rationals.
      [FloatCompare] holds what the comparisons of both satisfy, NaN
      included; [FloatOrder] holds what they satisfy where no NaN occurs.
    - a call that dereferences a null holder pointer or throws is an
      [outcome] other than [Ok]. *)

From Stdlib Require Import ZArith Lia Bool QArith SpecFloat Permutation.
From stdpp Require Import base tactics option list gmap strings pretty.

(* ===================================================================== *)
(** ** Machine integers *)

Definition wrap32 (z : Z) : Z := (z mod 2 ^ 32)%Z.

(** An [unsigned] converted to [int] (two's complement). *)
Definition to_int (z : Z) : Z :=
  if (wrap32 z <? 2 ^ 31)%Z then wrap32 z else (wrap32 z - 2 ^ 32)%Z.

(** An [int] converted to [unsigned]. *)
Definition to_unsigned (z : Z) : Z := wrap32 z.

(** [range(n)]: the integers [0 .. n-1] in ascending order. *)
Definition range (n : Z) : list Z := map Z.of_nat (seq 0 (Z.to_nat n)).

(** [range(lo,hi)]. *)
Definition range2 (lo hi : Z) : list Z :=
  map (fun k => (lo + Z.of_nat k)%Z) (seq 0 (Z.to_nat (hi - lo))).

(** [constexpr const int UPPER_ROT = 4]. *)
Definition UPPER_ROT : Z := 4.

(* ===================================================================== *)
(** ** The float interface *)

Class FloatOps (F : Type) : Type := {
  f_zero  : F;                 (* 0.f    *)
  f_one   : F;                 (* 1.f    *)
  f_tiny  : F;                 (* 1e-10f *)
  f_huge  : F;                 (* 1e10f  *)
  f_tenth : F;                 (* 0.1f   *)
  fadd : F -> F -> F;
  fsub : F -> F -> F;
  fmul : F -> F -> F;
  fneg : F -> F;
  flt  : F -> F -> bool;       (* a < b  *)
  fle  : F -> F -> bool;       (* a <= b *)
  rcp  : F -> F                (* reciprocal; vector_math header *)
}.

(** [a > b] is [b < a]. *)
Definition fgt {F} `{FloatOps F} (a b : F) : bool := flt b a.

(** [std::max(a, b)] is [(a < b) ? b : a]. *)
Definition fmax {F} `{FloatOps F} (a b : F) : F := if flt a b then b else a.

(** The comparisons order the values: what holds of floats that are not
    NaN. *)
Class FloatOrder (F : Type) `{FloatOps F} : Prop := {
  fle_refl  : forall a : F, fle a a = true;
  fle_trans : forall a b c : F, fle a b = true -> fle b c = true -> fle a c = true;
  flt_fle   : forall a b : F, flt a b = true -> fle a b = true;
  nlt_fle   : forall a b : F, flt a b = false -> fle b a = true
}.

(** Multiplication read as exact: a commutative monoid.  Binary32
    multiplication is commutative and has unit 1, but rounds, so it is not
    associative. *)
Class FloatMulMonoid (F : Type) `{FloatOps F} : Prop := {
  fmul_comm  : forall a b : F, fmul a b = fmul b a;
  fmul_assoc : forall a b c : F, fmul a (fmul b c) = fmul (fmul a b) c;
  fmul_1_l   : forall a : F, fmul f_one a = a
}.

(** *** IEEE binary32 *)
Module Binary32.
Definition prec : Z := 24.
Definition emax : Z := 128.

Definition of_Z (z : Z) : spec_float := binary_normalize prec emax z 0 false.
Definition one : spec_float := of_Z 1.
Definition div (a b : spec_float) : spec_float := SFdiv prec emax a b.
Definition nan : spec_float := S754_nan.
Definition half : spec_float := div one (of_Z 2).

#[global] Instance ops : FloatOps spec_float := {|
  f_zero  := S754_zero false;
  f_one   := one;
  f_tiny  := div one (of_Z (10 ^ 10));
  f_huge  := of_Z (10 ^ 10);
  f_tenth := div one (of_Z 10);
  fadd := SFadd prec emax;
  fsub := SFsub prec emax;
  fmul := SFmul prec emax;
  fneg := SFopp;
  flt  := SFltb;
  fle  := SFleb;
  rcp  := div one
|}.
End Binary32.

(** *** Exact rationals *)
Module Exact.
#[global] Instance ops : FloatOps Q := {|
  f_zero  := 0%Q;
  f_one   := 1%Q;
  f_tiny  := (1 # 10000000000)%Q;
  f_huge  := (10000000000 # 1)%Q;
  f_tenth := (1 # 10)%Q;
  fadd := Qplus;
  fsub := Qminus;
  fmul := Qmult;
  fneg := Qopp;
  flt  := fun a b => negb (Qle_bool b a);
  fle  := Qle_bool;
  rcp  := Qinv
|}.
End Exact.

(* ===================================================================== *)
(** ** Outcomes of fallible calls *)

Inductive outcome (A : Type) : Type :=
| Ok (a : A)                 (* normal return *)
| Throw (msg : string)       (* [throw string(...)] *)
| Fault.                     (* null holder pointer dereferenced *)
Arguments Ok {A} a.
Arguments Throw {A} msg.
Arguments Fault {A}.

Definition bind {A B} (m : outcome A) (k : A -> outcome B) : outcome B :=
  match m with
  | Ok a => k a
  | Throw msg => Throw msg
  | Fault => Fault
  end.

Notation "'do' x <- m ; k" := (bind m (fun x => k))
  (at level 10, x name, m at level 100, k at level 200).

(** Left-to-right loop with early exit. *)
Fixpoint for_each {A S} (body : S -> A -> outcome S) (l : list A) (s : S) : outcome S :=
  match l with
  | [] => Ok s
  | a :: l' => do s' <- body s a; for_each body l' s'
  end.

(* ===================================================================== *)
(** ** Vec<D,float> *)

Section Rotamer.
Context {F : Type} {FO : FloatOps F}.

(** [logf] and [expf] of the C library. *)
Context (logf expf : F -> F).

(** [n_bit_rotamer], the width of the [rot] and [n_rot] fields of a packed
    id; a constant of the interaction_graph header, which is not in the
    sources. *)
Context (n_bit_rotamer : Z).

Definition Vec : Type := list F.

(** Component [i] of a vector ([r[i]]); 0 outside, where the source
    never reads. *)
Definition vnth (v : Vec) (i : Z) : F :=
  if (i <? 0)%Z then f_zero else nth (Z.to_nat i) v f_zero.

Definition vec_scale (s : F) (v : Vec) : Vec := map (fmul s) v.       (* s * v *)
Definition vec_scale_r (v : Vec) (s : F) : Vec := map (fun a => fmul a s) v. (* v * s *)
Definition vec_shift (s : F) (v : Vec) : Vec := map (fadd s) v.       (* s + v *)
Definition vec_mul (a b : Vec) : Vec := zip_with fmul a b.            (* a * b *)
Definition vec_add (a b : Vec) : Vec := zip_with fadd a b.            (* a + b *)
Definition vec_rcp (v : Vec) : Vec := map rcp v.

(** [extract<LO,HI>(v)]: components [LO .. HI-1]. *)
Definition extract (lo hi : Z) (v : Vec) : Vec :=
  take (Z.to_nat (hi - lo)) (drop (Z.to_nat lo) v).

(** Modelled from the spec: [max(Vec)] of the vector_math header, which is
    not in the sources; "rescale each new message by its max": the largest
    component, folded with [std::max] from component 0 on. *)
Definition vec_max (v : Vec) : F :=
  match v with
  | [] => f_zero
  | a :: v' => fold_left (fun acc y => fmax y acc) v' a
  end.

(** Modelled from the spec: [sum(Vec)] of the vector_math header, which is
    not in the sources; "L1-normalize": the components added from component
    0 on. *)
Definition vec_sum (v : Vec) : F :=
  match v with
  | [] => f_zero
  | a :: v' => fold_left fadd v' a
  end.

(** Modelled from the spec: [left_multiply_matrix(m, v)] of the vector_math
    header, which is not in the sources; "psi . v (matrix-vector: psi
    treated as R1 x R2)" with psi row-major: component [i] is
    [sum_j m[i*R2+j] * v[j]]. *)
Definition left_multiply_matrix (r1 r2 : Z) (m v : Vec) : Vec :=
  map (fun i => vec_sum (map (fun j => fmul (vnth m (i * r2 + j)) (vnth v j)) (range r2)))
      (range r1).

(** Modelled from the spec: [right_multiply_matrix(v, m)] of the vector_math
    header, which is not in the sources; "v . psi": component [j] is
    [sum_i v[i] * m[i*R2+j]]. *)
Definition right_multiply_matrix (r1 r2 : Z) (v m : Vec) : Vec :=
  map (fun j => vec_sum (map (fun i => fmul (vnth v i) (vnth m (i * r2 + j))) (range r1)))
      (range r2).

(** Modelled from the spec: [approx_normalized(v)] of the vector_math
    header, which is not in the sources; "divides by a cheap rescaler
    (e.g., reciprocal of the max component)". *)
Definition approx_normalized (v : Vec) : Vec := vec_scale_r v (rcp (vec_max v)).

(** [v[i] = a] on a local vector. *)
Definition vset (v : Vec) (i : Z) (a : F) : Vec :=
  if (i <? 0)%Z then v else <[Z.to_nat i := a]> v.

(* =================================================================== *)
(** ** Storage *)

(** Modelled from the spec: [VecArrayStorage] of the vector_math header,
    which is not in the sources; "NodeStore(R,E) is a plain dense array
    indexed (comp, elem)".  Only the accessor [a(comp, elem)] is used by
    the code, so the array is the table of its entries. *)
Definition VecArrayStorage : Type := Z -> Z -> F.

Definition va_set (a : VecArrayStorage) (c e : Z) (v : F) : VecArrayStorage :=
  fun c' e' => if ((c' =? c) && (e' =? e))%Z then v else a c' e'.

(** [fill(a, v)] on a node array. *)
Definition va_fill (v : F) : VecArrayStorage := fun _ _ => v.

Definition va_load_vec (d : Z) (a : VecArrayStorage) (idx : Z) : Vec :=
  map (fun k => a k idx) (range d).

Definition va_store_vec (a : VecArrayStorage) (idx : Z) (r : Vec) : VecArrayStorage :=
  fold_left (fun a' k => va_set a' k idx (vnth r k)) (range (Z.of_nat (length r))) a.

(** [constexpr static const int simd_width = 4]. *)
Definition simd_width : Z := 4.

(** Modelled from the spec: [round_up] of the vector_math header, which is
    not in the sources; "rounds E' up to a multiple of 4". *)
Definition round_up (i alignment : Z) : Z :=
  (alignment * ((i + alignment - 1) ÷ alignment))%Z.

(** The raw buffer [unique_ptr<float[]> x].  An access outside the
    allocation is undefined in the source: the model reads 0 and drops the
    write, and the theorems about an access state that it is inside. *)
Definition buf_get {A} (dflt : A) (x : list A) (k : Z) : A :=
  if (k <? 0)%Z then dflt else nth (Z.to_nat k) x dflt.

Definition buf_set {A} (x : list A) (k : Z) (v : A) : list A :=
  if (k <? 0)%Z then x else <[Z.to_nat k := v]> x.

Record SimdVecArrayStorage : Type := {
  elem_width : Z;
  n_elem : Z;
  x : list F
}.

(** Modelled from the spec: [new_aligned<T>(n, alignment)] of the
    vector_math header, which is not in the sources; the constructor of
    [EdgeHolder] fills [round_up(n, alignment)] cells of such an array, so
    that many are handed out.  The fresh cells are modelled as holding
    [dflt]. *)
Definition new_aligned {A} (dflt : A) (n alignment : Z) : list A :=
  replicate (Z.to_nat (round_up n alignment)) dflt.

Definition mk_SimdVecArrayStorage (elem_width_ n_elem_min_ : Z) : SimdVecArrayStorage :=
  let n := round_up n_elem_min_ simd_width in
  {| elem_width := elem_width_; n_elem := n;
     x := new_aligned f_zero (n * elem_width_) simd_width |}.

(** The offset computed by [operator()(i_comp, i_elem)]; [%] is C++
    remainder.  The source computes it in [int]: the values on the way are
    listed by [simd_index_ints]. *)
Definition simd_index (w i_comp i_elem : Z) : Z :=
  ((i_elem - Z.rem i_elem simd_width) * w + i_comp * simd_width
   + Z.rem i_elem simd_width)%Z.

Definition sv_get (a : SimdVecArrayStorage) (i_comp i_elem : Z) : F :=
  buf_get f_zero (x a) (simd_index (elem_width a) i_comp i_elem).

Definition sv_set (a : SimdVecArrayStorage) (i_comp i_elem : Z) (v : F)
  : SimdVecArrayStorage :=
  {| elem_width := elem_width a; n_elem := n_elem a;
     x := buf_set (x a) (simd_index (elem_width a) i_comp i_elem) v |}.

Definition load_vec (d : Z) (a : SimdVecArrayStorage) (idx : Z) : Vec :=
  map (fun k => sv_get a k idx) (range d).

Definition store_vec (a : SimdVecArrayStorage) (idx : Z) (r : Vec) : SimdVecArrayStorage :=
  fold_left (fun a' k => sv_set a' k idx (vnth r k)) (range (Z.of_nat (length r))) a.

(** [fill(v, fill_value)]: [fill_n] over the first [n_elem*elem_width]
    cells. *)
Definition fill (v : SimdVecArrayStorage) (fill_value : F) : SimdVecArrayStorage :=
  let n := Z.to_nat (n_elem v * elem_width v) in
  {| elem_width := elem_width v; n_elem := n_elem v;
     x := replicate (min n (length (x v))) fill_value ++ drop n (x v) |}.

(** The allocation invariant of the constructor. *)
Definition storage_wf (a : SimdVecArrayStorage) : Prop :=
  (0 <= elem_width a)%Z /\ (0 <= n_elem a)%Z /\
  Z.rem (n_elem a) simd_width = 0%Z /\
  Z.of_nat (length (x a)) = (n_elem a * elem_width a)%Z.

(* =================================================================== *)
(** ** NodeHolder *)

Record NodeHolder : Type := {
  n_rot : Z;
  nh_n_elem : Z;
  nh_prob : VecArrayStorage;
  nh_cur_belief : VecArrayStorage;
  nh_old_belief : VecArrayStorage
}.

Definition nh_reset (h : NodeHolder) : NodeHolder :=
  {| n_rot := n_rot h; nh_n_elem := nh_n_elem h;
     nh_prob := va_fill f_one;
     nh_cur_belief := nh_cur_belief h; nh_old_belief := nh_old_belief h |}.

Definition mk_NodeHolder (n_rot_ n_elem_ : Z) : NodeHolder :=
  nh_reset {| n_rot := n_rot_; nh_n_elem := n_elem_;
              nh_prob := va_fill f_zero;
              nh_cur_belief := va_fill f_one;
              nh_old_belief := va_fill f_one |}.

Definition nh_swap_beliefs (h : NodeHolder) : NodeHolder :=
  {| n_rot := n_rot h; nh_n_elem := nh_n_elem h; nh_prob := nh_prob h;
     nh_cur_belief := nh_old_belief h; nh_old_belief := nh_cur_belief h |}.

Definition set_nh_prob (h : NodeHolder) (p : VecArrayStorage) : NodeHolder :=
  {| n_rot := n_rot h; nh_n_elem := nh_n_elem h; nh_prob := p;
     nh_cur_belief := nh_cur_belief h; nh_old_belief := nh_old_belief h |}.

Definition set_nh_cur_belief (h : NodeHolder) (b : VecArrayStorage) : NodeHolder :=
  {| n_rot := n_rot h; nh_n_elem := nh_n_elem h; nh_prob := nh_prob h;
     nh_cur_belief := b; nh_old_belief := nh_old_belief h |}.

Definition set_nh_old_belief (h : NodeHolder) (b : VecArrayStorage) : NodeHolder :=
  {| n_rot := n_rot h; nh_n_elem := nh_n_elem h; nh_prob := nh_prob h;
     nh_cur_belief := nh_cur_belief h; nh_old_belief := b |}.

(** [finish_belief_update<N_ROT>(damping)]. *)
Definition finish_belief_update (N_ROT : Z) (damping : F) (h : NodeHolder) : NodeHolder :=
  set_nh_cur_belief h
    (fold_left (fun cur ne =>
        let b := va_load_vec N_ROT cur ne in
        let b' := vec_add (vec_scale (fmul (fsub f_one damping) (rcp (vec_max b))) b)
                          (vec_scale damping (va_load_vec N_ROT (nh_old_belief h) ne)) in
        va_store_vec cur ne b')
      (range (nh_n_elem h)) (nh_cur_belief h)).

(** The sequence of [(d, nn)] visited by the double loop of
    [max_deviation], outer loop first. *)
Definition loop2 (n_outer n_inner : Z) : list (Z * Z) :=
  flat_map (fun d => map (fun nn => (d, nn)) (range n_inner)) (range n_outer).

(** [NodeHolder::max_deviation()]. *)
Definition nh_max_deviation (h : NodeHolder) : F :=
  fold_left (fun dev '(d, nn) =>
               fmax (fsub (nh_cur_belief h d nn) (nh_old_belief h d nn)) dev)
            (loop2 (n_rot h) (nh_n_elem h)) f_zero.

(** [NodeHolder::calculate_marginals<N_ROT>()]. *)
Definition nh_calculate_marginals (N_ROT : Z) (h : NodeHolder) : NodeHolder :=
  set_nh_cur_belief h
    (fold_left (fun cur nn =>
        let b := va_load_vec N_ROT cur nn in
        va_store_vec cur nn (vec_scale_r b (rcp (vec_sum b))))
      (range (nh_n_elem h)) (nh_cur_belief h)).

(* =================================================================== *)
(** ** EdgeHolder *)

(** The two node holders an edge holder can refer to.  [EdgeHolder] keeps
  references [NodeHolder &nodes1, &nodes2]; [edges33] has both on
  [nodes3], so the holders live in one store and the references are
  names into it. *)
Inductive node_ref : Type := Nodes1 | Nodes3.

(** [struct EdgeLoc {int edge_num, dim, ne;}]. *)
Record EdgeLoc : Type := { edge_num : Z; dim : Z; ne : Z }.

Record Nodes : Type := { nodes1 : NodeHolder; nodes3 : NodeHolder }.

Definition deref (m : Nodes) (r : node_ref) : NodeHolder :=
  match r with Nodes1 => nodes1 m | Nodes3 => nodes3 m end.

Definition assign (m : Nodes) (r : node_ref) (h : NodeHolder) : Nodes :=
  match r with
  | Nodes1 => {| nodes1 := h; nodes3 := nodes3 m |}
  | Nodes3 => {| nodes1 := nodes1 m; nodes3 := h |}
  end.

Record EdgeHolder : Type := {
  n_rot1 : Z;
  n_rot2 : Z;
  n_edge : Z;
  eh_nodes1 : node_ref;
  eh_nodes2 : node_ref;
  prob : SimdVecArrayStorage;
  cur_belief : SimdVecArrayStorage;
  old_belief : SimdVecArrayStorage;
  marginal : SimdVecArrayStorage;
  edge_indices1 : list Z;
  edge_indices2 : list Z;
  nodes_to_edge : gmap Z Z;
  edge_loc : list EdgeLoc
}.

Definition set_prob (h : EdgeHolder) (p : SimdVecArrayStorage) : EdgeHolder :=
  {| n_rot1 := n_rot1 h; n_rot2 := n_rot2 h; n_edge := n_edge h;
     eh_nodes1 := eh_nodes1 h; eh_nodes2 := eh_nodes2 h;
     prob := p; cur_belief := cur_belief h; old_belief := old_belief h;
     marginal := marginal h;
     edge_indices1 := edge_indices1 h; edge_indices2 := edge_indices2 h;
     nodes_to_edge := nodes_to_edge h; edge_loc := edge_loc h |}.

Definition set_cur_belief (h : EdgeHolder) (b : SimdVecArrayStorage) : EdgeHolder :=
  {| n_rot1 := n_rot1 h; n_rot2 := n_rot2 h; n_edge := n_edge h;
     eh_nodes1 := eh_nodes1 h; eh_nodes2 := eh_nodes2 h;
     prob := prob h; cur_belief := b; old_belief := old_belief h;
     marginal := marginal h;
     edge_indices1 := edge_indices1 h; edge_indices2 := edge_indices2 h;
     nodes_to_edge := nodes_to_edge h; edge_loc := edge_loc h |}.

Definition set_old_belief (h : EdgeHolder) (b : SimdVecArrayStorage) : EdgeHolder :=
  {| n_rot1 := n_rot1 h; n_rot2 := n_rot2 h; n_edge := n_edge h;
     eh_nodes1 := eh_nodes1 h; eh_nodes2 := eh_nodes2 h;
     prob := prob h; cur_belief := cur_belief h; old_belief := b;
     marginal := marginal h;
     edge_indices1 := edge_indices1 h; edge_indices2 := edge_indices2 h;
     nodes_to_edge := nodes_to_edge h; edge_loc := edge_loc h |}.

Definition set_marginal (h : EdgeHolder) (b : SimdVecArrayStorage) : EdgeHolder :=
  {| n_rot1 := n_rot1 h; n_rot2 := n_rot2 h; n_edge := n_edge h;
     eh_nodes1 := eh_nodes1 h; eh_nodes2 := eh_nodes2 h;
     prob := prob h; cur_belief := cur_belief h; old_belief := old_belief h;
     marginal := b;
     edge_indices1 := edge_indices1 h; edge_indices2 := edge_indices2 h;
     nodes_to_edge := nodes_to_edge h; edge_loc := edge_loc h |}.

(** [EdgeHolder::reset()]. *)
Definition reset (h : EdgeHolder) : EdgeHolder :=
  {| n_rot1 := n_rot1 h; n_rot2 := n_rot2 h; n_edge := 0;
     eh_nodes1 := eh_nodes1 h; eh_nodes2 := eh_nodes2 h;
     prob := prob h; cur_belief := cur_belief h; old_belief := old_belief h;
     marginal := marginal h;
     edge_indices1 := edge_indices1 h; edge_indices2 := edge_indices2 h;
     nodes_to_edge := ∅; edge_loc := [] |}.

(** The constructor [EdgeHolder(nodes1_, nodes2_, max_n_edge)]; the sizes
    it computes in [int] are listed by [mk_EdgeHolder_ints]. *)
Definition mk_EdgeHolder (m : Nodes) (r1 r2 : node_ref) (max_n_edge : Z) : EdgeHolder :=
  let R1 := n_rot (deref m r1) in
  let R2 := n_rot (deref m r2) in
  reset
    {| n_rot1 := R1; n_rot2 := R2; n_edge := 0;
       eh_nodes1 := r1; eh_nodes2 := r2;
       prob := mk_SimdVecArrayStorage (R1 * R2) max_n_edge;
       cur_belief := fill (mk_SimdVecArrayStorage (R1 + R2) max_n_edge) f_one;
       old_belief := fill (mk_SimdVecArrayStorage (R1 + R2) max_n_edge) f_one;
       marginal := mk_SimdVecArrayStorage (R1 * R2) max_n_edge;
       edge_indices1 := new_aligned 0%Z max_n_edge simd_width;
       edge_indices2 := new_aligned 0%Z max_n_edge simd_width;
       nodes_to_edge := ∅; edge_loc := [] |}.

Definition swap_beliefs (h : EdgeHolder) : EdgeHolder :=
  set_old_belief (set_cur_belief h (old_belief h)) (cur_belief h).

(** [unsigned pr = (id1<<16) + id2]. *)
Definition edge_key (id1 id2 : Z) : Z :=
  wrap32 (wrap32 (Z.shiftl id1 16) + id2).

(** [EdgeHolder::add_to_edge(ne, prob_val, id1, rot1, id2, rot2)]. *)
Definition add_to_edge (ne_ : Z) (prob_val : F) (id1 rot1 id2 rot2 : Z)
           (h : EdgeHolder) : EdgeHolder :=
  let pr := edge_key id1 id2 in
  let '(idx, h1) :=
    match nodes_to_edge h !! pr with
    | None =>
        let idx := to_unsigned (n_edge h) in
        (idx,
         {| n_rot1 := n_rot1 h; n_rot2 := n_rot2 h; n_edge := (n_edge h + 1)%Z;
            eh_nodes1 := eh_nodes1 h; eh_nodes2 := eh_nodes2 h;
            prob := fold_left (fun p j => sv_set p j (to_int idx) f_one)
                              (range (n_rot1 h * n_rot2 h)) (prob h);
            cur_belief := cur_belief h; old_belief := old_belief h;
            marginal := marginal h;
            edge_indices1 := buf_set (edge_indices1 h) idx (to_int id1);
            edge_indices2 := buf_set (edge_indices2 h) idx (to_int id2);
            nodes_to_edge := <[pr := to_unsigned (n_edge h)]> (nodes_to_edge h);
            edge_loc := edge_loc h |})
    | Some idx => (idx, h)
    end in
  let j := to_int (wrap32 (rot1 * to_unsigned (n_rot2 h1) + rot2)) in
  {| n_rot1 := n_rot1 h1; n_rot2 := n_rot2 h1; n_edge := n_edge h1;
     eh_nodes1 := eh_nodes1 h1; eh_nodes2 := eh_nodes2 h1;
     prob := sv_set (prob h1) j (to_int idx)
                    (fmul (sv_get (prob h1) j (to_int idx)) prob_val);
     cur_belief := cur_belief h1; old_belief := old_belief h1;
     marginal := marginal h1;
     edge_indices1 := edge_indices1 h1; edge_indices2 := edge_indices2 h1;
     nodes_to_edge := nodes_to_edge h1;
     edge_loc := edge_loc h1 ++ [{| edge_num := ne_; dim := j; ne := to_int idx |}] |}.

(** [EdgeHolder::move_edge_prob_to_node2()]. *)
Definition move_edge_prob_to_node2 (h : EdgeHolder) (m : Nodes) : Nodes :=
  fold_left (fun m' e =>
      let nr := buf_get 0%Z (edge_indices2 h) e in
      fold_left (fun m'' no =>
          let nd := deref m'' (eh_nodes2 h) in
          assign m'' (eh_nodes2 h)
            (set_nh_prob nd (va_set (nh_prob nd) no nr
                                    (fmul (nh_prob nd no nr) (sv_get (prob h) no e)))))
        (range (n_rot2 h)) m')
    (range (n_edge h)) m.

(** [EdgeHolder::max_deviation()]. *)
Definition max_deviation (h : EdgeHolder) : F :=
  fold_left (fun dev '(d, nn) =>
               fmax (fsub (sv_get (cur_belief h) d nn) (sv_get (old_belief h) d nn)) dev)
            (loop2 (n_rot1 h + n_rot2 h) (n_edge h)) f_zero.

(** [EdgeHolder::calculate_marginals<N_ROT1,N_ROT2>()]. *)
Definition calculate_marginals (N_ROT1 N_ROT2 : Z) (m : Nodes) (h : EdgeHolder)
  : EdgeHolder :=
  set_marginal h
    (fold_left (fun mg e =>
        let b1 := va_load_vec N_ROT1 (nh_cur_belief (deref m (eh_nodes1 h)))
                              (buf_get 0%Z (edge_indices1 h) e) in
        let b2 := va_load_vec N_ROT2 (nh_cur_belief (deref m (eh_nodes2 h)))
                              (buf_get 0%Z (edge_indices2 h) e) in
        let b := load_vec (N_ROT1 + N_ROT2) (cur_belief h) e in
        let bc1 := vec_mul b1 (vec_rcp (vec_shift f_tiny (extract 0 N_ROT1 b))) in
        let bc2 := vec_mul b2 (vec_rcp (vec_shift f_tiny
                                          (extract N_ROT1 (N_ROT1 + N_ROT2) b))) in
        let p := fold_left (fun p '(no1, no2) =>
                     let i := (no1 * N_ROT1 + no2)%Z in
                     vset p i (fmul (vnth p i) (fmul (vnth bc1 no1) (vnth bc2 no2))))
                   (loop2 N_ROT1 N_ROT2) (load_vec (N_ROT1 * N_ROT2) (prob h) e) in
        store_vec mg e (vec_scale_r p (rcp (vec_sum p))))
      (range (n_edge h)) (marginal h)).

(** The rescaled messages computed for edge [e] by [update_beliefs]:
    [cur_edge_belief1] and [cur_edge_belief2] after the two [*=]. *)
Definition cur_edge_beliefs (N_ROT1 N_ROT2 : Z) (m : Nodes) (h : EdgeHolder) (e : Z)
  : Vec * Vec :=
  let n1 := buf_get 0%Z (edge_indices1 h) e in
  let n2 := buf_get 0%Z (edge_indices2 h) e in
  let old_node_belief1 := va_load_vec N_ROT1 (nh_old_belief (deref m (eh_nodes1 h))) n1 in
  let old_node_belief2 := va_load_vec N_ROT2 (nh_old_belief (deref m (eh_nodes2 h))) n2 in
  let ep := load_vec (N_ROT1 * N_ROT2) (prob h) e in
  let b := load_vec (N_ROT1 + N_ROT2) (old_belief h) e in
  let old_edge_belief1 := extract 0 N_ROT1 b in
  let old_edge_belief2 := extract N_ROT1 (N_ROT1 + N_ROT2) b in
  let cur_edge_belief1 :=
    left_multiply_matrix N_ROT1 N_ROT2 ep
      (vec_mul old_node_belief2 (vec_rcp old_edge_belief2)) in
  let cur_edge_belief2 :=
    right_multiply_matrix N_ROT1 N_ROT2
      (vec_mul old_node_belief1 (vec_rcp old_edge_belief1)) ep in
  (vec_scale_r cur_edge_belief1 (rcp (vec_max cur_edge_belief1)),
   vec_scale_r cur_edge_belief2 (rcp (vec_max cur_edge_belief2))).

(** The vector [neb] that [update_beliefs] stores for an edge: started at
    [damping * old_belief], then every component assigned. *)
Definition new_edge_belief (N_ROT1 N_ROT2 : Z) (damping : F)
           (old_b cur_edge_belief1 cur_edge_belief2 : Vec) : Vec :=
  let neb := vec_scale damping old_b in
  let neb := fold_left (fun v i =>
                 vset v i (fmul (fsub f_one damping) (vnth cur_edge_belief1 i)))
               (range N_ROT1) neb in
  fold_left (fun v i =>
      vset v (i + N_ROT1) (fmul (fsub f_one damping) (vnth cur_edge_belief2 i)))
    (range N_ROT2) neb.

(** One turn of the loop of [update_beliefs] over the edges. *)
Definition update_beliefs_edge (N_ROT1 N_ROT2 : Z) (damping : F)
           (st : Nodes * EdgeHolder) (e : Z) : Nodes * EdgeHolder :=
  let '(m, h) := st in
  let n1 := buf_get 0%Z (edge_indices1 h) e in
  let n2 := buf_get 0%Z (edge_indices2 h) e in
  let '(cur_edge_belief1, cur_edge_belief2) := cur_edge_beliefs N_ROT1 N_ROT2 m h e in
  let neb := new_edge_belief N_ROT1 N_ROT2 damping
               (load_vec (N_ROT1 + N_ROT2) (old_belief h) e)
               cur_edge_belief1 cur_edge_belief2 in
  let h' := set_cur_belief h (store_vec (cur_belief h) e neb) in
  let nd1 := deref m (eh_nodes1 h) in
  let m1 := assign m (eh_nodes1 h)
              (set_nh_cur_belief nd1
                 (va_store_vec (nh_cur_belief nd1) n1
                    (approx_normalized
                       (vec_mul cur_edge_belief1
                                (va_load_vec N_ROT1 (nh_cur_belief nd1) n1))))) in
  let nd2 := deref m1 (eh_nodes2 h) in
  let m2 := assign m1 (eh_nodes2 h)
              (set_nh_cur_belief nd2
                 (va_store_vec (nh_cur_belief nd2) n2
                    (approx_normalized
                       (vec_mul cur_edge_belief2
                                (va_load_vec N_ROT2 (nh_cur_belief nd2) n2))))) in
  (m2, h').

(** [EdgeHolder::update_beliefs<N_ROT1,N_ROT2>(damping)]. *)
Definition update_beliefs (N_ROT1 N_ROT2 : Z) (damping : F) (m : Nodes) (h : EdgeHolder)
  : Nodes * EdgeHolder :=
  fold_left (update_beliefs_edge N_ROT1 N_ROT2 damping) (range (n_edge h)) (m, h).

(** [NodeHolder::node_free_energy<N_ROT>(nn)]. *)
Definition node_free_energy (N_ROT : Z) (h : NodeHolder) (nn : Z) : F :=
  let b0 := va_load_vec N_ROT (nh_cur_belief h) nn in
  let b := vec_scale_r b0 (rcp (vec_sum b0)) in
  let pr := va_load_vec N_ROT (nh_prob h) nn in
  fold_left (fun en no =>
      fadd en (fmul (vnth b no)
                    (logf (fmul (fadd f_tiny (vnth b no))
                                (rcp (fadd f_tiny (vnth pr no)))))))
    (range N_ROT) f_zero.

(** [EdgeHolder::edge_free_energy<N_ROT1,N_ROT2>(ne)]. *)
Definition edge_free_energy (N_ROT1 N_ROT2 : Z) (m : Nodes) (h : EdgeHolder) (e : Z)
  : F :=
  let b1 := va_load_vec N_ROT1 (nh_cur_belief (deref m (eh_nodes1 h)))
                        (buf_get 0%Z (edge_indices1 h) e) in
  let b2 := va_load_vec N_ROT2 (nh_cur_belief (deref m (eh_nodes2 h)))
                        (buf_get 0%Z (edge_indices2 h) e) in
  let p := load_vec (N_ROT1 * N_ROT2) (marginal h) e in
  let pr := load_vec (N_ROT1 * N_ROT2) (prob h) e in
  fold_left (fun en '(no1, no2) =>
      let i := (no1 * N_ROT1 + no2)%Z in
      fadd en (fmul (vnth p i)
                    (logf (fmul (fadd f_tiny (vnth p i))
                                (rcp (fadd f_tiny
                                        (fmul (fmul (vnth pr i) (vnth b1 no1))
                                              (vnth b2 no2))))))))
    (loop2 N_ROT1 N_ROT2) f_zero.

(* ===================================================================== *)
(** ** The collaborators of RotamerSidechain *)

(** The part of [InteractionGraph<BT>] (interaction_graph header, not in
    the sources) the rotamer code reads and writes; [ig_state] stands for
    what the graph keeps to itself (positions, derivative buffers). *)
Context {G : Type}.

Record InteractionGraph : Type := {
  n_elem1 : Z;
  id1 : list Z;                       (* packed unsigned ids *)
  loc1 : list Z;                      (* [loc1[n].index] *)
  ig_n_edge : Z;
  ig_edge_indices1 : list Z;
  ig_edge_indices2 : list Z;
  edge_value : list F;
  edge_sensitivity : Z -> F;          (* raw buffer, by source-edge number *)
  ig_state : G
}.

(** [igraph.compute_edges()]. *)
Context (compute_edges : InteractionGraph -> InteractionGraph).

(** [igraph.propagate_derivatives()]: the graph takes the sensitivities
    and accumulates derivatives in its own state. *)
Context (igraph_propagate_derivatives : InteractionGraph -> G).

Definition set_edge_sensitivity (g : InteractionGraph) (k : Z) (v : F) : InteractionGraph :=
  {| n_elem1 := n_elem1 g; id1 := id1 g; loc1 := loc1 g; ig_n_edge := ig_n_edge g;
     ig_edge_indices1 := ig_edge_indices1 g; ig_edge_indices2 := ig_edge_indices2 g;
     edge_value := edge_value g;
     edge_sensitivity := fun k' => if (k' =? k)%Z then v else edge_sensitivity g k';
     ig_state := ig_state g |}.

Definition set_ig_state (g : InteractionGraph) (st : G) : InteractionGraph :=
  {| n_elem1 := n_elem1 g; id1 := id1 g; loc1 := loc1 g; ig_n_edge := ig_n_edge g;
     ig_edge_indices1 := ig_edge_indices1 g; ig_edge_indices2 := ig_edge_indices2 g;
     edge_value := edge_value g; edge_sensitivity := edge_sensitivity g;
     ig_state := st |}.

(** A [CoordNode] of [prob_nodes]: [coords().value] and [coords().deriv]. *)
Record CoordNode : Type := {
  value : VecArrayStorage;
  deriv : VecArrayStorage
}.

(** [enum ComputeMode] (deriv_engine header). *)
Inductive ComputeMode : Type := DerivMode | PotentialAndDerivMode.

Definition ComputeMode_eqb (a b : ComputeMode) : bool :=
  match a, b with
  | DerivMode, DerivMode | PotentialAndDerivMode, PotentialAndDerivMode => true
  | _, _ => false
  end.

(* ===================================================================== *)
(** ** Decoding a packed id *)

(** [unsigned selector = (1u<<n_bit_rotamer) - 1u]. *)
Definition selector : Z := wrap32 (wrap32 (Z.shiftl 1 n_bit_rotamer) - 1).

(** [rot = id & selector; id >>= n_bit_rotamer; n_rot = id & selector;
    id >>= n_bit_rotamer] on an [unsigned id]: the triple
    [(rot, n_rot, id)]. *)
Definition decode_id (id : Z) : Z * Z * Z :=
  let rot := Z.land id selector in
  let id := Z.shiftr id n_bit_rotamer in
  let n_rot_ := Z.land id selector in
  let id := Z.shiftr id n_bit_rotamer in
  (rot, n_rot_, id).

(* ===================================================================== *)
(** ** calculate_n_elem *)

(** [result.at(k) = v] on the [array<int,UPPER_ROT>]. *)
Definition array_at_set (result : list Z) (k v : Z) : outcome (list Z) :=
  if ((0 <=? k) && (k <? Z.of_nat (length result)))%Z
  then Ok (<[Z.to_nat k := v]> result)
  else Throw "array::at".

(** [calculate_n_elem(igraph)].  The second loop visits the keys of an
    [unordered_map], in an order the language leaves open; it only decides
    which of several counts a message names. *)
Definition calculate_n_elem (g : InteractionGraph) : outcome (list Z) :=
  let result := replicate (Z.to_nat UPPER_ROT) 0%Z in
  do unique_ids <-
     for_each (fun (unique_ids : gmap Z (gset Z)) n =>
         let '(rot, n_rot_, id) := decode_id (buf_get 0%Z (id1 g) n) in
         if (n_rot_ <=? rot)%Z then Throw "invalid rotamer number"
         else Ok (<[n_rot_ := {[id]} ∪ default ∅ (unique_ids !! n_rot_)]> unique_ids))
       (range (n_elem1 g)) ∅;
  for_each (fun result '(k, ids) =>
      if (UPPER_ROT <=? k)%Z then Throw ("invalid rotamer count " +:+ pretty k)
      else array_at_set result k (Z.of_nat (size ids)))
    (map_to_list unique_ids) result.

(* ===================================================================== *)
(** ** RotamerSidechain *)

Inductive edge_ref : Type := Edges11 | Edges13 | Edges33.

Record RotamerSidechain : Type := {
  prob_nodes : list CoordNode;
  prob_slot : list Z;
  igraph : InteractionGraph;
  n_elem_rot : list Z;
  nodes : Nodes;
  edges11 : EdgeHolder;
  edges13 : EdgeHolder;
  edges33 : EdgeHolder;
  damping : F;
  max_iter : Z;
  tol : F;
  iteration_chunk_size : Z;
  energy_fresh_relative_to_derivative : bool;
  potential : F
}.

(** [node_holders_matrix[n_rot]] as the constructor leaves it: [None] is
    the null pointer.  An index of [UPPER_ROT] or more is outside the
    array, which is as undefined as following the null pointer. *)
Definition node_holders_matrix (n : Z) : option node_ref :=
  if (n =? 1)%Z then Some Nodes1 else if (n =? 3)%Z then Some Nodes3 else None.

(** [edge_holders_matrix[n_rot1][n_rot2]]. *)
Definition edge_holders_matrix (n1 n2 : Z) : option edge_ref :=
  if ((n1 =? 1) && (n2 =? 1))%Z then Some Edges11
  else if ((n1 =? 1) && (n2 =? 3))%Z then Some Edges13
  else if ((n1 =? 3) && (n2 =? 3))%Z then Some Edges33
  else None.

Definition get_edges (s : RotamerSidechain) (r : edge_ref) : EdgeHolder :=
  match r with Edges11 => edges11 s | Edges13 => edges13 s | Edges33 => edges33 s end.

Definition with_holders (s : RotamerSidechain) (m : Nodes) (e11 e13 e33 : EdgeHolder)
  : RotamerSidechain :=
  {| prob_nodes := prob_nodes s; prob_slot := prob_slot s; igraph := igraph s;
     n_elem_rot := n_elem_rot s; nodes := m;
     edges11 := e11; edges13 := e13; edges33 := e33;
     damping := damping s; max_iter := max_iter s; tol := tol s;
     iteration_chunk_size := iteration_chunk_size s;
     energy_fresh_relative_to_derivative := energy_fresh_relative_to_derivative s;
     potential := potential s |}.

Definition set_nodes (s : RotamerSidechain) (m : Nodes) : RotamerSidechain :=
  with_holders s m (edges11 s) (edges13 s) (edges33 s).

Definition set_edges (s : RotamerSidechain) (r : edge_ref) (h : EdgeHolder)
  : RotamerSidechain :=
  match r with
  | Edges11 => with_holders s (nodes s) h (edges13 s) (edges33 s)
  | Edges13 => with_holders s (nodes s) (edges11 s) h (edges33 s)
  | Edges33 => with_holders s (nodes s) (edges11 s) (edges13 s) h
  end.

Definition set_igraph (s : RotamerSidechain) (g : InteractionGraph) : RotamerSidechain :=
  {| prob_nodes := prob_nodes s; prob_slot := prob_slot s; igraph := g;
     n_elem_rot := n_elem_rot s; nodes := nodes s;
     edges11 := edges11 s; edges13 := edges13 s; edges33 := edges33 s;
     damping := damping s; max_iter := max_iter s; tol := tol s;
     iteration_chunk_size := iteration_chunk_size s;
     energy_fresh_relative_to_derivative := energy_fresh_relative_to_derivative s;
     potential := potential s |}.

Definition set_prob_nodes (s : RotamerSidechain) (pn : list CoordNode) : RotamerSidechain :=
  {| prob_nodes := pn; prob_slot := prob_slot s; igraph := igraph s;
     n_elem_rot := n_elem_rot s; nodes := nodes s;
     edges11 := edges11 s; edges13 := edges13 s; edges33 := edges33 s;
     damping := damping s; max_iter := max_iter s; tol := tol s;
     iteration_chunk_size := iteration_chunk_size s;
     energy_fresh_relative_to_derivative := energy_fresh_relative_to_derivative s;
     potential := potential s |}.

Definition set_fresh (s : RotamerSidechain) (b : bool) : RotamerSidechain :=
  {| prob_nodes := prob_nodes s; prob_slot := prob_slot s; igraph := igraph s;
     n_elem_rot := n_elem_rot s; nodes := nodes s;
     edges11 := edges11 s; edges13 := edges13 s; edges33 := edges33 s;
     damping := damping s; max_iter := max_iter s; tol := tol s;
     iteration_chunk_size := iteration_chunk_size s;
     energy_fresh_relative_to_derivative := b;
     potential := potential s |}.

Definition set_potential (s : RotamerSidechain) (en : F) : RotamerSidechain :=
  {| prob_nodes := prob_nodes s; prob_slot := prob_slot s; igraph := igraph s;
     n_elem_rot := n_elem_rot s; nodes := nodes s;
     edges11 := edges11 s; edges13 := edges13 s; edges33 := edges33 s;
     damping := damping s; max_iter := max_iter s; tol := tol s;
     iteration_chunk_size := iteration_chunk_size s;
     energy_fresh_relative_to_derivative := energy_fresh_relative_to_derivative s;
     potential := en |}.

(** The member initialisers of the constructor
    [RotamerSidechain(grp, pos_node_, prob_nodes_)]; the values read from
    the configuration group are arguments, and the shape check, the slot
    requests (which produce [prob_slot]) and the loggers are left out.
    [potential] starts at 0. *)
Definition mk_RotamerSidechain (g : InteractionGraph) (pn : list CoordNode)
           (slots : list Z) (damping_ : F) (max_iter_ : Z) (tol_ : F)
           (iteration_chunk_size_ : Z) : outcome RotamerSidechain :=
  do ner <- calculate_n_elem g;
  let n1 := buf_get 0%Z ner 1 in
  let n3 := buf_get 0%Z ner 3 in
  let m := {| nodes1 := mk_NodeHolder 1 n1; nodes3 := mk_NodeHolder 3 n3 |} in
  Ok {| prob_nodes := pn; prob_slot := slots; igraph := g; n_elem_rot := ner;
        nodes := m;
        edges11 := mk_EdgeHolder m Nodes1 Nodes1 (n1 * (n1 + 1) ÷ 2);
        edges13 := mk_EdgeHolder m Nodes1 Nodes3 (n1 * n3);
        edges33 := mk_EdgeHolder m Nodes3 Nodes3 (n3 * (n3 + 1) ÷ 2);
        damping := damping_; max_iter := max_iter_; tol := tol_;
        iteration_chunk_size := iteration_chunk_size_;
        energy_fresh_relative_to_derivative := false;
        potential := f_zero |}.

(** One turn of the first loop of [fill_holders]: bead [n] multiplies
    its Boltzmann factor into its node probability. *)
Definition fill_holders_node (s : RotamerSidechain) (m : Nodes) (n : Z) : outcome Nodes :=
  let '(rot, n_rot_, id) := decode_id (buf_get 0%Z (id1 (igraph s)) n) in
  let index := buf_get 0%Z (loc1 (igraph s)) n in
  let energy := fold_left (fun en a => fadd en (a 0%Z index))
                          (map value (prob_nodes s)) f_zero in
  match node_holders_matrix n_rot_ with
  | None => Fault
  | Some r =>
      let nd := deref m r in
      Ok (assign m r
            (set_nh_prob nd
               (va_set (nh_prob nd) rot id
                       (fmul (nh_prob nd rot id) (expf (fneg energy))))))
  end.

(** One turn of the second loop of [fill_holders]: edge [e] of the graph
    goes to the holder of its two rotamer counts. *)
Definition fill_holders_edge (s : RotamerSidechain) (e : Z) : outcome RotamerSidechain :=
  let hi := wrap32 (Z.shiftl selector n_bit_rotamer) in
  let g := igraph s in
  let a := to_int (buf_get 0%Z (id1 g) (buf_get 0%Z (ig_edge_indices1 g) e)) in
  let b := to_int (buf_get 0%Z (id1 g) (buf_get 0%Z (ig_edge_indices2 g) e)) in
  let prob_ := expf (fneg (buf_get f_zero (edge_value g) e)) in
  let '(a, b) :=
    if (Z.land (to_unsigned b) hi <? Z.land (to_unsigned a) hi)%Z
    then (b, a) else (a, b) in
  let rot1 := Z.land (to_unsigned a) selector in
  let a := Z.shiftr a n_bit_rotamer in
  let rot2 := Z.land (to_unsigned b) selector in
  let b := Z.shiftr b n_bit_rotamer in
  let n_rot1_ := Z.land (to_unsigned a) selector in
  let a := Z.shiftr a n_bit_rotamer in
  let n_rot2_ := Z.land (to_unsigned b) selector in
  let b := Z.shiftr b n_bit_rotamer in
  match edge_holders_matrix n_rot1_ n_rot2_ with
  | None => Fault
  | Some r =>
      Ok (set_edges s r
            (add_to_edge e prob_ (to_unsigned a) rot1 (to_unsigned b) rot2
                         (get_edges s r)))
  end.

(** The resets at the head of [fill_holders]. *)
Definition reset_holders (s : RotamerSidechain) : RotamerSidechain :=
  with_holders s
    {| nodes1 := nh_reset (nodes1 (nodes s)); nodes3 := nh_reset (nodes3 (nodes s)) |}
    (reset (reset (edges11 s))) (reset (edges13 s)) (reset (edges33 s)).

(** The last loop of [fill_holders]: the (1,k) holders, k >= 2, fold their
    edges into the node probabilities. *)
Definition move_edges_to_nodes (s : RotamerSidechain) : RotamerSidechain :=
  fold_left (fun s k =>
      match edge_holders_matrix 1 k with
      | None => s
      | Some r => set_nodes s (move_edge_prob_to_node2 (get_edges s r) (nodes s))
      end)
    (range2 2 UPPER_ROT) s.

(** [RotamerSidechain::fill_holders()]. *)
Definition fill_holders (s : RotamerSidechain) : outcome RotamerSidechain :=
  let s := reset_holders s in
  do m <- for_each (fill_holders_node s) (range (n_elem1 (igraph s))) (nodes s);
  let s := set_nodes s m in
  let s := set_igraph s (compute_edges (igraph s)) in
  do s <- for_each fill_holders_edge (range (ig_n_edge (igraph s))) s;
  Ok (move_edges_to_nodes s).

(** [RotamerSidechain::calculate_energy_from_marginals()]. *)
Definition calculate_energy_from_marginals (s : RotamerSidechain) : F :=
  let en := f_zero in
  let en := fold_left (fun en nn => fadd en (node_free_energy 1 (nodes1 (nodes s)) nn))
                      (range (nh_n_elem (nodes1 (nodes s)))) en in
  let en := fold_left (fun en nn => fadd en (node_free_energy 3 (nodes3 (nodes s)) nn))
                      (range (nh_n_elem (nodes3 (nodes s)))) en in
  let en := fold_left (fun en e => fadd en (fneg (logf (sv_get (prob (edges11 s)) 0 e))))
                      (range (n_edge (edges11 s))) en in
  fold_left (fun en e => fadd en (edge_free_energy 3 3 (nodes s) (edges33 s) e))
            (range (n_edge (edges33 s))) en.

(** The three loops of [propagate_derivatives] that write
    [igraph.edge_sensitivity]. *)
Definition write_edge_sensitivities (s : RotamerSidechain) : InteractionGraph :=
  let g := fold_left (fun g el => set_edge_sensitivity g (edge_num el) f_one)
                     (edge_loc (edges11 s)) (igraph s) in
  let g := fold_left (fun g el =>
               set_edge_sensitivity g (edge_num el)
                 (nh_cur_belief (nodes3 (nodes s)) (dim el)
                                (buf_get 0%Z (edge_indices2 (edges13 s)) (ne el))))
                     (edge_loc (edges13 s)) g in
  fold_left (fun g el =>
      set_edge_sensitivity g (edge_num el) (sv_get (marginal (edges33 s)) (dim el) (ne el)))
    (edge_loc (edges33 s)) g.

(** [deriv_1body[i](0, slot) = v]. *)
Definition set_deriv (pn : list CoordNode) (i slot : Z) (v : F) : list CoordNode :=
  match pn !! Z.to_nat i with
  | None => pn
  | Some c =>
      <[Z.to_nat i := {| value := value c; deriv := va_set (deriv c) 0 slot v |}]> pn
  end.

(** [RotamerSidechain::propagate_derivatives()]. *)
Definition propagate_derivatives (s : RotamerSidechain) : outcome RotamerSidechain :=
  let g := write_edge_sensitivities s in
  let g := set_ig_state g (igraph_propagate_derivatives g) in
  let s := set_igraph s g in
  let n_prob_nodes := Z.of_nat (length (prob_nodes s)) in
  do pn <-
     for_each (fun pn n =>
         let '(rot, n_rot_, id) := decode_id (buf_get 0%Z (id1 (igraph s)) n) in
         for_each (fun pn i =>
             match node_holders_matrix n_rot_ with
             | None => Fault
             | Some r =>
                 Ok (set_deriv pn i (buf_get 0%Z (prob_slot s) (n * n_prob_nodes + i))
                               (nh_cur_belief (deref (nodes s) r) rot id))
             end)
           (range n_prob_nodes) pn)
       (range (n_elem1 (igraph s))) (prob_nodes s);
  Ok (set_prob_nodes s pn).

(** [RotamerSidechain::calculate_new_beliefs(damping_for_this_iteration)];
    [copy(nodes3.prob, nodes3.cur_belief)] overwrites the current beliefs of
    [nodes3] with its probabilities. *)
Definition calculate_new_beliefs (damping_for_this_iteration : F) (s : RotamerSidechain)
  : RotamerSidechain :=
  let m := assign (nodes s) Nodes3
             (set_nh_cur_belief (nodes3 (nodes s)) (nh_prob (nodes3 (nodes s)))) in
  let '(m, e33) := update_beliefs 3 3 damping_for_this_iteration m (edges33 s) in
  let m := assign m Nodes3 (finish_belief_update 3 damping_for_this_iteration (nodes3 m)) in
  with_holders s m (edges11 s) (edges13 s) e33.

(** The seeding loop of [solve_for_marginals] on one holder:
    [old_belief(no,ne) = prob(no,ne)]. *)
Definition seed_old_belief (h : NodeHolder) : NodeHolder :=
  set_nh_old_belief h
    (fold_left (fun ob '(no, e) => va_set ob no e (nh_prob h no e))
               (loop2 (n_rot h) (nh_n_elem h)) (nh_old_belief h)).

(** The body of the [for] loop of [solve_for_marginals] without the
    deviation: [iteration_chunk_size] sweeps. *)
Definition sweep_chunk (s : RotamerSidechain) : RotamerSidechain :=
  fold_left (fun s _ =>
      let s := with_holders s (assign (nodes s) Nodes3 (nh_swap_beliefs (nodes3 (nodes s))))
                 (edges11 s) (edges13 s) (swap_beliefs (edges33 s)) in
      calculate_new_beliefs (damping s) s)
    (range (iteration_chunk_size s)) s.

(** The [for] loop of [solve_for_marginals]; [fuel] bounds the number of
    turns and [None] means it ran out.  The counter [iter] is an [int] in
    the source; it stays one when
    [max_iter + iteration_chunk_size <= 2^31]. *)
Fixpoint solve_loop (fuel : nat) (s : RotamerSidechain) (max_dev : F) (iter : Z)
  : option (RotamerSidechain * (Z * F)) :=
  if fgt max_dev (tol s) && (iter <? max_iter s)%Z then
    match fuel with
    | O => None
    | S fuel' =>
        let s := sweep_chunk s in
        solve_loop fuel' s
                   (fmax (nh_max_deviation (nodes3 (nodes s))) (max_deviation (edges33 s)))
                   (iter + iteration_chunk_size s)%Z
    end
  else Some (s, (iter, max_dev)).

(** [solve_for_marginals()] up to its [for] loop: the old node beliefs
    seeded with the probabilities, the old edge beliefs of [edges33] set to
    1, one sweep with damping 0.1 and the swap of the node beliefs. *)
Definition solve_init (s : RotamerSidechain) : RotamerSidechain :=
  let m := fold_left (fun m k =>
               match node_holders_matrix k with
               | None => m
               | Some r => assign m r (seed_old_belief (deref m r))
               end)
             (range UPPER_ROT) (nodes s) in
  let s := with_holders s m (edges11 s) (edges13 s)
             (set_old_belief (edges33 s) (fill (old_belief (edges33 s)) f_one)) in
  let s := calculate_new_beliefs f_tenth s in
  set_nodes s (assign (nodes s) Nodes3 (nh_swap_beliefs (nodes3 (nodes s)))).

(** [solve_for_marginals()] after its [for] loop: the two
    [calculate_marginals]. *)
Definition solve_finish (s : RotamerSidechain) : RotamerSidechain :=
  let m := assign (nodes s) Nodes3 (nh_calculate_marginals 3 (nodes3 (nodes s))) in
  with_holders s m (edges11 s) (edges13 s) (calculate_marginals 3 3 m (edges33 s)).

(** [RotamerSidechain::solve_for_marginals()]: the state it leaves and the
    pair [(iter, max_deviation)] it returns. *)
Definition solve_for_marginals (fuel : nat) (s : RotamerSidechain)
  : option (RotamerSidechain * (Z * F)) :=
  match solve_loop fuel (solve_init s) f_huge 0 with
  | None => None
  | Some (s, r) => Some (solve_finish s, r)
  end.

(** [RotamerSidechain::compute_value(mode)]; the [printf] is left out. *)
Definition compute_value (fuel : nat) (mode : ComputeMode) (s : RotamerSidechain)
  : option (outcome RotamerSidechain) :=
  let s := set_fresh s (ComputeMode_eqb mode PotentialAndDerivMode) in
  match fill_holders s with
  | Throw msg => Some (Throw msg)
  | Fault => Some Fault
  | Ok s =>
      match solve_for_marginals fuel s with
      | None => None
      | Some (s, _) =>
          Some (do s <- propagate_derivatives s;
                Ok (if ComputeMode_eqb mode PotentialAndDerivMode
                    then set_potential s (calculate_energy_from_marginals s)
                    else s))
      end
  end.

(* ===================================================================== *)
(** ** Notions used to state the theorems *)

(** The accumulation [dev = max(g p, dev)] over a list of positions. *)
Definition running_max {P} (g : P -> F) (l : list P) (d0 : F) : F :=
  fold_left (fun dev p => fmax (g p) dev) l d0.

(** The characterisation shared by the two holders: [r] is the largest of
    0 and the signed differences [diff d nn] over the visited positions. *)
Definition is_clamped_max (diff : Z -> Z -> F) (n_outer n_inner : Z) (r : F) : Prop :=
  fle f_zero r = true /\
  (forall d nn, (0 <= d < n_outer)%Z -> (0 <= nn < n_inner)%Z ->
                fle (diff d nn) r = true) /\
  (r = f_zero \/
   exists d nn, (0 <= d < n_outer)%Z /\ (0 <= nn < n_inner)%Z /\ r = diff d nn) /\
  ((forall d nn, (0 <= d < n_outer)%Z -> (0 <= nn < n_inner)%Z ->
                 fle (diff d nn) f_zero = true) ->
   fle r f_zero = true).

(** The configuration read at construction is not written by the solver. *)
Definition same_config (s s' : RotamerSidechain) : Prop :=
  tol s' = tol s /\ max_iter s' = max_iter s /\
  iteration_chunk_size s' = iteration_chunk_size s /\ damping s' = damping s.

(** The terms [calculate_energy_from_marginals] adds up, in the order it
    adds them. *)
Definition energy_terms (s : RotamerSidechain) : list F :=
  map (node_free_energy 1 (nodes1 (nodes s))) (range (nh_n_elem (nodes1 (nodes s)))) ++
  map (node_free_energy 3 (nodes3 (nodes s))) (range (nh_n_elem (nodes3 (nodes s)))) ++
  map (fun e => fneg (logf (sv_get (prob (edges11 s)) 0 e))) (range (n_edge (edges11 s))) ++
  map (edge_free_energy 3 3 (nodes s) (edges33 s)) (range (n_edge (edges33 s))).

(** The source-edge numbers recorded in the three [edge_loc] lists. *)
Definition all_edge_nums (s : RotamerSidechain) : list Z :=
  map edge_num (edge_loc (edges11 s)) ++ map edge_num (edge_loc (edges13 s)) ++
  map edge_num (edge_loc (edges33 s)).

(** What the solver leaves alone in the edge holders: all of [edges11] and
    [edges13], and the [edge_loc] of [edges33]. *)
Definition same_edge_maps (s s' : RotamerSidechain) : Prop :=
  edges11 s' = edges11 s /\ edges13 s' = edges13 s /\
  edge_loc (edges33 s') = edge_loc (edges33 s).

(** The edge belief C1 reads in the spec:
    [(1-d)*[m_cur_1; m_cur_2] + d*old_belief]. *)
Definition damped_edge_belief (damping_ : F) (old_b cur1 cur2 : Vec) : Vec :=
  vec_add (vec_scale (fsub f_one damping_) (cur1 ++ cur2)) (vec_scale damping_ old_b).

(** One call [add_to_edge(ne, prob_val, id1, rot1, id2, rot2)]. *)
Record Call : Type := {
  c_ne : Z; c_prob : F; c_id1 : Z; c_rot1 : Z; c_id2 : Z; c_rot2 : Z
}.

Definition apply_call (h : EdgeHolder) (c : Call) : EdgeHolder :=
  add_to_edge (c_ne c) (c_prob c) (c_id1 c) (c_rot1 c) (c_id2 c) (c_rot2 c) h.

(** A sequence of calls, first call first. *)
Definition run_calls (cs : list Call) (h : EdgeHolder) : EdgeHolder :=
  fold_left apply_call cs h.

Definition call_pair (c : Call) : Z * Z := (c_id1 c, c_id2 c).

(** The number of distinct node-id pairs of a sequence of calls. *)
Definition n_distinct_pairs (cs : list Call) : nat :=
  size (list_to_set (map call_pair cs) : gset (Z * Z)).

(** The product, from 1 and in call order, of the [prob_val] of the calls
    that carry the pair [(a, b)] and the rotamers [(r1, r2)]. *)
Definition call_product (cs : list Call) (a b r1 r2 : Z) : F :=
  fold_left fmul
    (map c_prob
         (filter (fun c => c_id1 c = a /\ c_id2 c = b /\ c_rot1 c = r1 /\ c_rot2 c = r2)
                 cs))
    f_one.

(** [idx] is an edge slot allocated to the pair [(a, b)]. *)
Definition is_slot (h : EdgeHolder) (a b idx : Z) : Prop :=
  (0 <= idx < n_edge h)%Z /\
  buf_get 0%Z (edge_indices1 h) idx = a /\ buf_get 0%Z (edge_indices2 h) idx = b.

(** A call within the limits of the holder: ids below [2^16] and rotamers
    below the rotamer counts. *)
Definition valid_call (h : EdgeHolder) (c : Call) : Prop :=
  (0 <= c_id1 c < 2 ^ 16)%Z /\ (0 <= c_id2 c < 2 ^ 16)%Z /\
  (0 <= c_rot1 c < n_rot1 h)%Z /\ (0 <= c_rot2 c < n_rot2 h)%Z.

(** The allocation invariant of the constructor of [EdgeHolder], as far as
    [add_to_edge] depends on it. *)
Definition edge_holder_wf (h : EdgeHolder) : Prop :=
  storage_wf (prob h) /\
  elem_width (prob h) = (n_rot1 h * n_rot2 h)%Z /\
  (0 <= n_rot1 h)%Z /\ (0 <= n_rot2 h)%Z /\
  (n_rot1 h * n_rot2 h < 2 ^ 31)%Z /\ (n_elem (prob h) < 2 ^ 31)%Z /\
  Z.of_nat (length (edge_indices1 h)) = n_elem (prob h) /\
  Z.of_nat (length (edge_indices2 h)) = n_elem (prob h).

(** The state of a holder after the calls [cs] from [reset h0]: the counts,
    the key map and the slots. *)
Definition calls_inv (h0 : EdgeHolder) (cs : list (Call)) (h : EdgeHolder) : Prop :=
  n_rot1 h = n_rot1 h0 /\ n_rot2 h = n_rot2 h0 /\
  edge_holder_wf h /\ n_elem (prob h) = n_elem (prob h0) /\
  n_edge h = Z.of_nat (n_distinct_pairs cs) /\
  (forall k idx, nodes_to_edge h !! k = Some idx ->
     exists a b, (a, b) ∈ map call_pair cs /\ k = edge_key a b) /\
  (forall idx, (0 <= idx < n_edge h)%Z ->
     exists a b, (a, b) ∈ map call_pair cs /\
                 nodes_to_edge h !! edge_key a b = Some idx) /\
  (forall a b, (a, b) ∈ map call_pair cs ->
     exists idx, nodes_to_edge h !! edge_key a b = Some idx /\
       is_slot h a b idx /\
       forall r1 r2, (0 <= r1 < n_rot1 h0)%Z -> (0 <= r2 < n_rot2 h0)%Z ->
         sv_get (prob h) (r1 * n_rot2 h0 + r2) idx = call_product cs a b r1 r2).

(** [idx] is the one slot of the pair [(a, b)]. *)
Definition unique_slot (h : EdgeHolder) (a b idx : Z) : Prop :=
  is_slot h a b idx /\ forall i, is_slot h a b i -> i = idx.

(** C6 as it reads: the runs of [cs] and of [cs'] from [reset h0] give
    every pair one slot holding the products, and [n_edge] is the number of
    distinct pairs in both. *)
Definition order_independent (h0 : EdgeHolder) (cs cs' : list (Call)) : Prop :=
  let h := run_calls cs (reset h0) in
  let h' := run_calls cs' (reset h0) in
  n_edge h = Z.of_nat (n_distinct_pairs cs) /\
  n_edge h' = Z.of_nat (n_distinct_pairs cs) /\
  forall a b, (a, b) ∈ map call_pair cs ->
    exists idx idx',
      unique_slot h a b idx /\ unique_slot h' a b idx' /\
      forall r1 r2, (0 <= r1 < n_rot1 h0)%Z -> (0 <= r2 < n_rot2 h0)%Z ->
        sv_get (prob h) (r1 * n_rot2 h0 + r2) idx = call_product cs a b r1 r2 /\
        sv_get (prob h') (r1 * n_rot2 h0 + r2) idx' = call_product cs a b r1 r2.

(** The [rot] and [n_rot] fields of bead [n]. *)
Definition bead_rot (g : InteractionGraph) (n : Z) : Z :=
  (decode_id (buf_get 0%Z (id1 g) n)).1.1.

Definition bead_n_rot (g : InteractionGraph) (n : Z) : Z :=
  (decode_id (buf_get 0%Z (id1 g) n)).1.2.

(** What a turn of the loop of [update_beliefs] leaves as it was: the
    potentials, the old edge beliefs, the edge maps and the old node
    beliefs. *)
Definition edge_frame (st0 st : Nodes * EdgeHolder) : Prop :=
  prob st.2 = prob st0.2 /\ old_belief st.2 = old_belief st0.2 /\
  edge_indices1 st.2 = edge_indices1 st0.2 /\
  edge_indices2 st.2 = edge_indices2 st0.2 /\
  eh_nodes1 st.2 = eh_nodes1 st0.2 /\ eh_nodes2 st.2 = eh_nodes2 st0.2 /\
  n_edge st.2 = n_edge st0.2 /\
  nh_old_belief (nodes1 st.1) = nh_old_belief (nodes1 st0.1) /\
  nh_old_belief (nodes3 st.1) = nh_old_belief (nodes3 st0.1).

(** [(1-d)*[m_cur_1; m_cur_2]] for edge [e]. *)
Definition scaled_messages (N_ROT1 N_ROT2 : Z) (damping_ : F) (m : Nodes)
           (h : EdgeHolder) (e : Z) : Vec :=
  vec_scale (fsub f_one damping_)
            ((cur_edge_beliefs N_ROT1 N_ROT2 m h e).1 ++
             (cur_edge_beliefs N_ROT1 N_ROT2 m h e).2).

End Rotamer.

Arguments Vec F : clear implicits.
Arguments VecArrayStorage F : clear implicits.
Arguments SimdVecArrayStorage F : clear implicits.
Arguments NodeHolder F : clear implicits.
Arguments Nodes F : clear implicits.
Arguments EdgeHolder F : clear implicits.
Arguments CoordNode F : clear implicits.
Arguments InteractionGraph F G : clear implicits.
Arguments RotamerSidechain F G : clear implicits.
Arguments Call F : clear implicits.

(* ===================================================================== *)
(** ** Further methods and the notions used to state their properties *)

Section CountNotions.
Context {F : Type} {FO : FloatOps F} {G : Type}.
Context (n_bit_rotamer : Z).

(** The residue field of bead [n]. *)
Definition bead_residue (g : InteractionGraph F G) (n : Z) : Z :=
  (decode_id n_bit_rotamer (buf_get 0%Z (id1 g) n)).2.

(** The residue ids of the beads of [l] whose rotamer count is [k]. *)
Definition residues_with (g : InteractionGraph F G) (l : list Z) (k : Z) : gset Z :=
  list_to_set (map (bead_residue g)
                   (filter (fun n => bead_n_rot n_bit_rotamer g n = k) l)).
End CountNotions.

Section EdgeLocNotions.
Context {F : Type} {FO : FloatOps F}.

(** The [EdgeLoc] entry that belongs to a call: the source edge, the flat
    rotamer index and a slot of the pair of the call. *)
Definition loc_of_call (h : EdgeHolder F) (c : Call F) (el : EdgeLoc) : Prop :=
  edge_num el = c_ne c /\
  dim el = (c_rot1 c * n_rot2 h + c_rot2 c)%Z /\
  (0 <= dim el < n_rot1 h * n_rot2 h)%Z /\
  is_slot h (c_id1 c) (c_id2 c) (ne el).
End EdgeLocNotions.

Section NodeStandardize.
Context {F : Type} {FO : FloatOps F}.

(** [NodeHolder::standardize_probs()]. *)
Definition nh_standardize_probs (h : NodeHolder F) : NodeHolder F :=
  set_nh_prob h
    (fold_left (fun p ne =>
        let max_prob :=
          fold_left (fun max_prob no => if fgt (p no ne) max_prob then p no ne else max_prob)
                    (range (n_rot h)) f_tiny in
        let inv_max_prob := rcp max_prob in
        fold_left (fun p' no => va_set p' no ne (fmul (p' no ne) inv_max_prob))
                  (range (n_rot h)) p)
      (range (nh_n_elem h)) (nh_prob h)).

(** The value [max_prob] reaches for element [ne]. *)
Definition max_prob_of (p : Z -> F) (n : Z) : F :=
  fold_left (fun max_prob no => if fgt (p no) max_prob then p no else max_prob)
            (range n) f_tiny.
End NodeStandardize.

Section EdgeStandardize.
Context {F : Type} {FO : FloatOps F}.

(** [EdgeHolder::standardize_probs()]. *)
Definition standardize_probs (h : EdgeHolder F) : EdgeHolder F :=
  set_prob h
    (fold_left (fun p ne =>
        let max_prob :=
          fold_left (fun max_prob nd =>
                       if fgt (sv_get p nd ne) max_prob then sv_get p nd ne else max_prob)
                    (range (n_rot1 h * n_rot2 h)) f_tiny in
        let inv_max_prob := rcp max_prob in
        fold_left (fun p' nd => sv_set p' nd ne (fmul (sv_get p' nd ne) inv_max_prob))
                  (range (n_rot1 h * n_rot2 h)) p)
      (range (n_edge h)) (prob h)).

(** The factors [move_edge_prob_to_node2] multiplies into
    [nodes2.prob(no, nr)], in the order of the edges. *)
Definition absorbed_factors (h : EdgeHolder F) (no nr : Z) : list F :=
  map (fun e => sv_get (prob h) no e)
      (filter (fun e => buf_get 0%Z (edge_indices2 h) e = nr) (range (n_edge h))).
End EdgeStandardize.

Section MarginalNotions.
Context {F : Type} {FO : FloatOps F}.

(** The vector [p] that [EdgeHolder::calculate_marginals] normalises for
    edge [e]: the potential of the edge weighted by the two node beliefs
    with the edge's own messages divided out. *)
Definition marginal_weights (N_ROT1 N_ROT2 : Z) (m : Nodes F) (h : EdgeHolder F) (e : Z)
  : Vec F :=
  let b1 := va_load_vec N_ROT1 (nh_cur_belief (deref m (eh_nodes1 h)))
                        (buf_get 0%Z (edge_indices1 h) e) in
  let b2 := va_load_vec N_ROT2 (nh_cur_belief (deref m (eh_nodes2 h)))
                        (buf_get 0%Z (edge_indices2 h) e) in
  let b := load_vec (N_ROT1 + N_ROT2) (cur_belief h) e in
  let bc1 := vec_mul b1 (vec_rcp (vec_shift f_tiny (extract 0 N_ROT1 b))) in
  let bc2 := vec_mul b2 (vec_rcp (vec_shift f_tiny
                                    (extract N_ROT1 (N_ROT1 + N_ROT2) b))) in
  fold_left (fun p '(no1, no2) =>
      let i := (no1 * N_ROT1 + no2)%Z in
      vset p i (fmul (vnth p i) (fmul (vnth bc1 no1) (vnth bc2 no2))))
    (loop2 N_ROT1 N_ROT2) (load_vec (N_ROT1 * N_ROT2) (prob h) e).
End MarginalNotions.

Section FrameNotions.
Context {F : Type} {FO : FloatOps F} {G : Type}.
Context (logf expf : F -> F) (n_bit_rotamer : Z).
Context (compute_edges : InteractionGraph F G -> InteractionGraph F G).
Context (igraph_propagate_derivatives : InteractionGraph F G -> G).

(** [RotamerSidechain::ensure_fresh_energy()]. *)
Definition ensure_fresh_energy (fuel : nat) (s : RotamerSidechain F G)
  : option (outcome (RotamerSidechain F G)) :=
  if negb (energy_fresh_relative_to_derivative s)
  then compute_value logf expf n_bit_rotamer compute_edges igraph_propagate_derivatives
                     fuel PotentialAndDerivMode s
  else Some (Ok s).

(** What of a node holder is not a belief. *)
Definition nh_same_potential (h h' : NodeHolder F) : Prop :=
  nh_prob h' = nh_prob h /\ n_rot h' = n_rot h /\ nh_n_elem h' = nh_n_elem h.

(** What of an edge holder is neither a belief nor the marginal. *)
Definition eh_same_potential (h h' : EdgeHolder F) : Prop :=
  prob h' = prob h /\ n_edge h' = n_edge h /\
  n_rot1 h' = n_rot1 h /\ n_rot2 h' = n_rot2 h /\
  eh_nodes1 h' = eh_nodes1 h /\ eh_nodes2 h' = eh_nodes2 h /\
  edge_indices1 h' = edge_indices1 h /\ edge_indices2 h' = edge_indices2 h /\
  nodes_to_edge h' = nodes_to_edge h /\ edge_loc h' = edge_loc h.

(** What of a [RotamerSidechain] is not a holder. *)
Definition same_outside_holders (s s' : RotamerSidechain F G) : Prop :=
  prob_nodes s' = prob_nodes s /\ prob_slot s' = prob_slot s /\
  igraph s' = igraph s /\ n_elem_rot s' = n_elem_rot s /\
  damping s' = damping s /\ max_iter s' = max_iter s /\ tol s' = tol s /\
  iteration_chunk_size s' = iteration_chunk_size s /\
  energy_fresh_relative_to_derivative s' = energy_fresh_relative_to_derivative s /\
  potential s' = potential s.

(** What the solver leaves as it found it. *)
Definition solver_frame (s s' : RotamerSidechain F G) : Prop :=
  same_outside_holders s s' /\
  edges11 s' = edges11 s /\ edges13 s' = edges13 s /\
  eh_same_potential (edges33 s) (edges33 s') /\
  nh_same_potential (nodes1 (nodes s)) (nodes1 (nodes s')) /\
  nh_same_potential (nodes3 (nodes s)) (nodes3 (nodes s')).
End FrameNotions.

Section SettingsNotions.
Context {F : Type} {FO : FloatOps F} {G : Type}.

(** The configuration and the bookkeeping of a [RotamerSidechain]. *)
Definition same_settings (s s' : RotamerSidechain F G) : Prop :=
  prob_slot s' = prob_slot s /\ n_elem_rot s' = n_elem_rot s /\
  damping s' = damping s /\ max_iter s' = max_iter s /\ tol s' = tol s /\
  iteration_chunk_size s' = iteration_chunk_size s /\
  energy_fresh_relative_to_derivative s' = energy_fresh_relative_to_derivative s /\
  potential s' = potential s.
End SettingsNotions.

Section SlotNotions.
Context {F : Type} {FO : FloatOps F} {G : Type}.
Context (n_bit_rotamer : Z).

(** [prob_slot[n*n_prob_nodes+i]]: the slot of bead [n] in probability
    node [i]. *)
Definition slot_of (s : RotamerSidechain F G) (n i : Z) : Z :=
  buf_get 0%Z (prob_slot s) (n * Z.of_nat (length (prob_nodes s)) + i).

(** [node_holders_matrix[n_rot]->cur_belief(rot,id)] for bead [n]; [None]
    where the holder pointer is null. *)
Definition bead_belief (s : RotamerSidechain F G) (n : Z) : option F :=
  match node_holders_matrix (bead_n_rot n_bit_rotamer (igraph s) n) with
  | None => None
  | Some r => Some (nh_cur_belief (deref (nodes s) r)
                                  (bead_rot n_bit_rotamer (igraph s) n)
                                  (bead_residue n_bit_rotamer (igraph s) n))
  end.
End SlotNotions.

Section RouteNotions.
Context {F : Type} {FO : FloatOps F} {G : Type}.
Context (expf : F -> F) (n_bit_rotamer : Z).

(** The call [add_to_edge(e, expf(-edge_value[e]), id1, rot1, id2, rot2)] on
    the holder of the rotamer counts of the beads [b1] and [b2], with the
    fields of [b1] first. *)
Definition route_edge (s : RotamerSidechain F G) (e b1 b2 : Z)
  : outcome (RotamerSidechain F G) :=
  let g := igraph s in
  match edge_holders_matrix (bead_n_rot n_bit_rotamer g b1) (bead_n_rot n_bit_rotamer g b2) with
  | None => Fault
  | Some r =>
      Ok (set_edges s r
            (add_to_edge e (expf (fneg (buf_get f_zero (edge_value g) e)))
                         (bead_residue n_bit_rotamer g b1) (bead_rot n_bit_rotamer g b1)
                         (bead_residue n_bit_rotamer g b2) (bead_rot n_bit_rotamer g b2)
                         (get_edges s r)))
  end.
End RouteNotions.

Section ArrangeEnergies.
Context {F : Type} {FO : FloatOps F} {G : Type}.
Context (n_bit_rotamer : Z).

(** [v[k]] on a [vector<float>]; outside the vector the access is
    undefined, which the model reports as [Fault]. *)
Definition vec_read (v : list F) (k : Z) : outcome F :=
  if (k <? 0)%Z then Fault
  else match v !! Z.to_nat k with Some a => Ok a | None => Fault end.

(** [v[k] += a]. *)
Definition vec_add_at (v : list F) (k : Z) (a : F) : outcome (list F) :=
  do x <- vec_read v k; Ok (<[Z.to_nat k := fadd x a]> v).

(** [RotamerSidechain::arrange_energies(e1, e3)].  The state of the loop
    is the vector [energies], the position of [en_loc] in it and
    [known_ids]; a write through [en_loc] at the end of the vector is
    undefined ([Fault]). *)
Definition arrange_energies (s : RotamerSidechain F G) (e1 e3 : list F)
  : outcome (list F) :=
  let energies :=
    replicate (Z.to_nat (buf_get 0%Z (n_elem_rot s) 1 + buf_get 0%Z (n_elem_rot s) 3))
              f_zero in
  do st <-
     for_each (fun (st : list F * nat * gset Z) ne =>
         let '(energies, en_loc, known_ids) := st in
         let id := buf_get 0%Z (id1 (igraph s)) ne in
         if negb (Z.land id (selector n_bit_rotamer) =? 0)%Z then Ok st
         else if decide (id ∈ known_ids) then Ok st
         else
           let known_ids := {[id]} ∪ known_ids in
           let id := Z.shiftr id n_bit_rotamer in
           let n_rot_ := Z.land id (selector n_bit_rotamer) in
           let id := Z.shiftr id n_bit_rotamer in
           do v <- (if (n_rot_ =? 1)%Z then vec_read e1 id
                    else if (n_rot_ =? 3)%Z then vec_read e3 id
                    else Throw "impossible");
           if (en_loc <? length energies)%nat
           then Ok (<[en_loc := v]> energies, S en_loc, known_ids)
           else Fault)
       (range (n_elem1 (igraph s))) (energies, 0%nat, ∅);
  let '(energies, en_loc, _) := st in
  if (en_loc =? length energies)%nat then Ok energies
  else Throw "wrong number of residues".

(** The ids whose [rot] field is 0, each once, in the order the beads
    first show them. *)
Definition heads_from (acc : list Z) (ids : list Z) : list Z :=
  fold_left (fun acc id =>
      if negb (Z.land id (selector n_bit_rotamer) =? 0)%Z then acc
      else if decide (id ∈ acc) then acc else acc ++ [id])
    ids acc.

Definition residue_heads (g : InteractionGraph F G) : list Z :=
  heads_from [] (map (buf_get 0%Z (id1 g)) (range (n_elem1 g))).

(** The entry of [e1] or [e3] that belongs to the residue of a packed
    id; [None] where [arrange_energies] throws or leaves the vectors. *)
Definition head_energy (e1 e3 : list F) (id : Z) : option F :=
  let '(_, n_rot_, res) := decode_id n_bit_rotamer id in
  if (res <? 0)%Z then None
  else if (n_rot_ =? 1)%Z then e1 !! Z.to_nat res
  else if (n_rot_ =? 3)%Z then e3 !! Z.to_nat res
  else None.

(** The state of the loop of [arrange_energies] after the heads [acc]. *)
Definition arranged (e1 e3 : list F) (N : nat) (acc : list Z)
           (st : list F * nat * gset Z) : Prop :=
  st.2 = list_to_set acc /\ st.1.2 = length acc /\ (length acc <= N)%nat /\
  Forall2 (fun id v => head_energy e1 e3 id = Some v) acc (take (length acc) st.1.1) /\
  length st.1.1 = N.
End ArrangeEnergies.

Section OneBodyEnergy.
Context {F : Type} {FO : FloatOps F} {G : Type}.
Context (n_bit_rotamer : Z).

(** [RotamerSidechain::rotamer_1body_energy(prob_node_index)]. *)
Definition rotamer_1body_energy (s : RotamerSidechain F G) (prob_node_index : Z)
  : outcome (list F) :=
  let e1 := replicate (Z.to_nat (nh_n_elem (nodes1 (nodes s)))) f_zero in
  let e3 := replicate (Z.to_nat (nh_n_elem (nodes3 (nodes s)))) f_zero in
  if (prob_node_index <? 0)%Z then Fault
  else
    match prob_nodes s !! Z.to_nat prob_node_index with
    | None => Fault
    | Some c =>
        let energy_1body := value c in
        do e <-
           for_each (fun (e : list F * list F) n =>
               let '(e1, e3) := e in
               let '(rot, n_rot_, id) :=
                 decode_id n_bit_rotamer (buf_get 0%Z (id1 (igraph s)) n) in
               let index := buf_get 0%Z (loc1 (igraph s)) n in
               if (n_rot_ =? 1)%Z then
                 do e1' <- vec_add_at e1 id
                             (fmul (nh_cur_belief (nodes1 (nodes s)) rot id)
                                   (energy_1body 0%Z index));
                 Ok (e1', e3)
               else if (n_rot_ =? 3)%Z then
                 do e3' <- vec_add_at e3 id
                             (fmul (nh_cur_belief (nodes3 (nodes s)) rot id)
                                   (energy_1body 0%Z index));
                 Ok (e1, e3')
               else Throw "impossible")
             (range (n_elem1 (igraph s))) (e1, e3);
        arrange_energies n_bit_rotamer s e.1 e.2
    end.

(** The term bead [n] adds: its belief times its one-body energy in the
    probability node [c]. *)
Definition one_body_term (s : RotamerSidechain F G) (c : CoordNode F) (n : Z) : F :=
  let g := igraph s in
  fmul (nh_cur_belief (if (bead_n_rot n_bit_rotamer g n =? 1)%Z
                       then nodes1 (nodes s) else nodes3 (nodes s))
                      (bead_rot n_bit_rotamer g n) (bead_residue n_bit_rotamer g n))
       (value c 0%Z (buf_get 0%Z (loc1 g) n)).

(** The terms of the beads of [l] with rotamer count [k] and residue
    [res], added from 0 in the order of the beads. *)
Definition residue_1body (s : RotamerSidechain F G) (c : CoordNode F) (l : list Z)
           (k res : Z) : F :=
  fold_left fadd
    (map (one_body_term s c)
         (filter (fun n => bead_n_rot n_bit_rotamer (igraph s) n = k /\
                           bead_residue n_bit_rotamer (igraph s) n = res) l))
    f_zero.

(** Bead [n] has a holder and its residue is an element of it. *)
Definition bead_supported (s : RotamerSidechain F G) (n : Z) : Prop :=
  let g := igraph s in
  (bead_n_rot n_bit_rotamer g n = 1%Z /\
   (0 <= bead_residue n_bit_rotamer g n < nh_n_elem (nodes1 (nodes s)))%Z) \/
  (bead_n_rot n_bit_rotamer g n = 3%Z /\
   (0 <= bead_residue n_bit_rotamer g n < nh_n_elem (nodes3 (nodes s)))%Z).
End OneBodyEnergy.

Section ResidueEnergies.
Context {F : Type} {FO : FloatOps F} {G : Type}.
Context (logf : F -> F) (n_bit_rotamer : Z).

(** [a + 0.5*en] as [e[k] += 0.5*en] computes it: [0.5] is a [double], so
    the product and the sum are evaluated in [double] and the result is
    converted to [float]. *)
Context (add_half : F -> F -> F).

(** [v[k] += 0.5*en]. *)
Definition vec_add_half_at (v : list F) (k : Z) (en : F) : outcome (list F) :=
  do x <- vec_read v k; Ok (<[Z.to_nat k := add_half x en]> v).

(** [RotamerSidechain::residue_free_energies()].  An access outside [e1] or
    [e3] is a [Fault]; the two vectors are built with [nodes1.n_elem] and
    [nodes3.n_elem] entries, read as 0 entries when the count is negative. *)
Definition residue_free_energies (s : RotamerSidechain F G) : outcome (list F) :=
  let m := nodes s in
  let e1 := replicate (Z.to_nat (nh_n_elem (nodes1 m))) f_zero in
  let e3 := replicate (Z.to_nat (nh_n_elem (nodes3 m))) f_zero in
  do e1 <- for_each (fun e1 nn => vec_add_at e1 nn (node_free_energy logf 1 (nodes1 m) nn))
                    (range (nh_n_elem (nodes1 m))) e1;
  do e3 <- for_each (fun e3 nn => vec_add_at e3 nn (node_free_energy logf 3 (nodes3 m) nn))
                    (range (nh_n_elem (nodes3 m))) e3;
  do e1 <- for_each (fun e1 ne =>
                let en := fneg (logf (sv_get (prob (edges11 s)) 0 ne)) in
                do e1 <- vec_add_half_at e1 (buf_get 0%Z (edge_indices1 (edges11 s)) ne) en;
                vec_add_half_at e1 (buf_get 0%Z (edge_indices2 (edges11 s)) ne) en)
              (range (n_edge (edges11 s))) e1;
  do e3 <- for_each (fun e3 ne =>
                let en := edge_free_energy logf 3 3 m (edges33 s) ne in
                do e3 <- vec_add_half_at e3 (buf_get 0%Z (edge_indices1 (edges33 s)) ne) en;
                vec_add_half_at e3 (buf_get 0%Z (edge_indices2 (edges33 s)) ne) en)
              (range (n_edge (edges33 s))) e3;
  arrange_energies n_bit_rotamer s e1 e3.
End ResidueEnergies.

(** [a + 0.5*en] in exact arithmetic. *)
Definition exact_add_half (a en : Q) : Q := (a + (1 # 2) * en)%Q.

(** The sum of a list of rationals, from 0 and from the left. *)
Definition sumQ (v : list Q) : Q := fold_left Qplus v 0%Q.

(** The rotamer count and the residue of a packed id. *)
Definition id_key (n_bit_rotamer : Z) (id : Z) : Z * Z :=
  ((decode_id n_bit_rotamer id).1.2, (decode_id n_bit_rotamer id).2).

(** The entry of [e1] or [e3] for a key. *)
Definition key_energy (e1 e3 : list Q) (key : Z * Z) : Q :=
  if (key.1 =? 1)%Z then vnth e1 key.2 else vnth e3 key.2.

(** *** The comparisons of IEEE floats *)

(** What the comparisons [<] and [<=] of IEEE floats satisfy, NaN
    included: [0.f <= 0.f]; [<=] is transitive; [a < b] gives [a <= b]; and
    two values that each compare [<=] to themselves are comparable.  A NaN
    compares false with everything, itself included. *)
Class FloatCompare (F : Type) `{FloatOps F} : Prop := {
  fc_zero  : fle f_zero f_zero = true;
  fc_trans : forall a b c : F, fle a b = true -> fle b c = true -> fle a c = true;
  fc_lt_le : forall a b : F, flt a b = true -> fle a b = true;
  fc_total : forall a b : F,
      fle a a = true -> fle b b = true -> flt a b = false -> fle b a = true
}.

(** [a] is not a NaN: [a <= a] holds. *)
Definition not_nan {F} `{FloatOps F} (a : F) : Prop := fle a a = true.

(** No signed difference of the double loop is a NaN. *)
Definition differences_not_nan {F} `{FloatOps F} (diff : Z -> Z -> F)
           (n_outer n_inner : Z) : Prop :=
  forall d nn, (0 <= d < n_outer)%Z -> (0 <= nn < n_inner)%Z -> not_nan (diff d nn).

(** A binary32 value is a NaN. *)
Definition sf_is_nan (a : spec_float) : bool :=
  match a with S754_nan => true | _ => false end.

(** The rank of a binary32 value that is not NaN in the order of
    [SFcompare]: the class (infinities, negative, zero, positive), then the
    exponent, then the mantissa. *)
Definition sf_rank (a : spec_float) : Z * Z * Z :=
  match a with
  | S754_nan => (0, 0, 0)
  | S754_zero _ => (0, 0, 0)
  | S754_infinity s => (if s then -2 else 2, 0, 0)
  | S754_finite s m e => if s then (-1, - e, - Z.pos m) else (1, e, Z.pos m)
  end%Z.

(** The order of the ranks: lexicographic. *)
Definition rank_le (p q : Z * Z * Z) : Prop :=
  (p.1.1 < q.1.1 \/ (p.1.1 = q.1.1 /\ (p.1.2 < q.1.2 \/ (p.1.2 = q.1.2 /\ p.2 <= q.2))))%Z.

Definition rank_lt (p q : Z * Z * Z) : Prop :=
  (p.1.1 < q.1.1 \/ (p.1.1 = q.1.1 /\ (p.1.2 < q.1.2 \/ (p.1.2 = q.1.2 /\ p.2 < q.2))))%Z.

(** [|s - 1| <= 1e-6] by the float comparisons, [f_millionth] being
    [1e-6f]. *)
Definition within_tolerance {F} `{FloatOps F} (f_millionth s : F) : bool :=
  fle (fsub s f_one) f_millionth && fle (fsub f_one s) f_millionth.

(** *** The range of [int] *)

(** [z] is a value of the type [int]. *)
Definition fits_int (z : Z) : Prop := (- 2 ^ 31 <= z < 2 ^ 31)%Z.

(** The [int] values [round_up(i, simd_width)] computes, as [round_up] is
    modelled. *)
Definition round_up_ints (i : Z) : list Z :=
  [i + simd_width - 1; (i + simd_width - 1) ÷ simd_width; round_up i simd_width]%Z.

(** The [int] values the constructor of [SimdVecArrayStorage] computes:
    [n_elem], the number of cells [n_elem*elem_width], and its rounding
    inside [new_aligned]. *)
Definition mk_SimdVecArrayStorage_ints (elem_width_ n_elem_min_ : Z) : list Z :=
  let n := round_up n_elem_min_ simd_width in
  round_up_ints n_elem_min_ ++ [n * elem_width_]%Z ++ round_up_ints (n * elem_width_).

(** The [int] values [operator()(i_comp, i_elem)] computes, subexpression
    by subexpression, the offset last. *)
Definition simd_index_ints (w i_comp i_elem : Z) : list Z :=
  [Z.rem i_elem simd_width;
   i_elem - Z.rem i_elem simd_width;
   (i_elem - Z.rem i_elem simd_width) * w;
   i_comp * simd_width;
   (i_elem - Z.rem i_elem simd_width) * w + i_comp * simd_width;
   simd_index w i_comp i_elem]%Z.

(** The [int] values the constructor
    [EdgeHolder(nodes1_, nodes2_, max_n_edge)] computes: the two element
    widths, the values of the constructor of a storage of either width (its
    cell count is computed again by [fill], and the rounded capacity again
    for the two index arrays), and the argument of [edge_loc.reserve], a
    call that is otherwise without effect in the model. *)
Definition mk_EdgeHolder_ints (R1 R2 max_n_edge : Z) : list Z :=
  [R1 * R2; R1 + R2]%Z
  ++ mk_SimdVecArrayStorage_ints (R1 * R2) max_n_edge
  ++ mk_SimdVecArrayStorage_ints (R1 + R2) max_n_edge
  ++ [R1 * R2 * max_n_edge]%Z.

(** The [int] values the member initialisers of [RotamerSidechain] compute
    from [n1 = n_elem_rot[1]] and [n3 = n_elem_rot[3]]: the three
    capacities with their subexpressions, and the values of the three
    [EdgeHolder] constructors. *)
Definition mk_RotamerSidechain_ints (n1 n3 : Z) : list Z :=
  [n1 + 1; n1 * (n1 + 1); n1 * (n1 + 1) ÷ 2; n1 * n3;
   n3 + 1; n3 * (n3 + 1); n3 * (n3 + 1) ÷ 2]%Z
  ++ mk_EdgeHolder_ints 1 1 (n1 * (n1 + 1) ÷ 2)
  ++ mk_EdgeHolder_ints 1 3 (n1 * n3)
  ++ mk_EdgeHolder_ints 3 3 (n3 * (n3 + 1) ÷ 2).

(* ===================================================================== *)
(** ** Concrete inputs used by the examples *)

(** Two 3-rotamer residues whose beliefs all dropped from 1 to 1/2. *)
Definition ex_nh_decreased : NodeHolder Q :=
  set_nh_cur_belief (mk_NodeHolder 3 2) (va_fill (1 # 2)%Q).

(** The same holder after residue 1 raised its rotamer 2 to 5/4. *)
Definition ex_nh_one_raised : NodeHolder Q :=
  set_nh_cur_belief ex_nh_decreased (va_set (va_fill (1 # 2)%Q) 2 1 (5 # 4)%Q).

Definition ex_nodes : Nodes Q :=
  {| nodes1 := mk_NodeHolder 1 1; nodes3 := mk_NodeHolder 3 2 |}.

(** One (3,3) edge between residues 0 and 1, fed by two beads. *)
Definition ex_edges33 : EdgeHolder Q :=
  add_to_edge 1 (1 # 4)%Q 0 0 1 0
    (add_to_edge 0 (1 # 2)%Q 0 0 1 0 (mk_EdgeHolder ex_nodes Nodes3 Nodes3 3)).

(** The result of an [outcome], or a fallback. *)
Definition from_ok {A} (dflt : A) (o : outcome A) : A :=
  match o with Ok a => a | _ => dflt end.

Section ExampleInputs.
Context {F : Type} {FO : FloatOps F}.

(** A graph of eight beads with 4-bit fields: residues 0 and 1 of the
    3-rotamer class with one bead per rotamer (ids [0x030..0x032] and
    [0x130..0x132]) and residues 0 and 1 of the 1-rotamer class (ids
    [0x010], [0x110]); four edges of value 0: a (3,3) edge, a (1,3) edge
    given with the 3-rotamer bead first, a second bead pair on the (3,3)
    edge, and a (1,1) edge. *)
Definition ex_graph : InteractionGraph F unit :=
  {| n_elem1 := 8; id1 := [48; 49; 50; 304; 305; 306; 16; 272]%Z;
     loc1 := [0; 1; 2; 3; 4; 5; 6; 7]%Z;
     ig_n_edge := 4;
     ig_edge_indices1 := [0; 1; 2; 6]%Z; ig_edge_indices2 := [3; 6; 4; 7]%Z;
     edge_value := [f_zero; f_zero; f_zero; f_zero];
     edge_sensitivity := fun _ => f_zero;
     ig_state := tt |}.

(** A stand-in for [expf], exact at 0, the only energy of the examples. *)
Definition ex_expf (v : F) : F := fadd f_one v.

(** A stand-in for [logf], exact at 1. *)
Definition ex_logf (v : F) : F := fsub v f_one.

(** The solver the constructor builds on [ex_graph] with one probability
    node, damping 0.1, [max_iter = 4], [tol = 1e-10] and chunks of 2. *)
Definition ex_state0 : RotamerSidechain F unit :=
  from_ok
    {| prob_nodes := []; prob_slot := []; igraph := ex_graph; n_elem_rot := [];
       nodes := {| nodes1 := mk_NodeHolder 1 0; nodes3 := mk_NodeHolder 3 0 |};
       edges11 := mk_EdgeHolder {| nodes1 := mk_NodeHolder 1 0;
                                   nodes3 := mk_NodeHolder 3 0 |} Nodes1 Nodes1 0;
       edges13 := mk_EdgeHolder {| nodes1 := mk_NodeHolder 1 0;
                                   nodes3 := mk_NodeHolder 3 0 |} Nodes1 Nodes3 0;
       edges33 := mk_EdgeHolder {| nodes1 := mk_NodeHolder 1 0;
                                   nodes3 := mk_NodeHolder 3 0 |} Nodes3 Nodes3 0;
       damping := f_zero; max_iter := 0; tol := f_zero;
       iteration_chunk_size := 0; energy_fresh_relative_to_derivative := false;
       potential := f_zero |}
    (mk_RotamerSidechain 4 ex_graph
       [{| value := va_fill f_zero; deriv := va_fill f_zero |}]
       [0; 1; 2; 3; 4; 5; 6; 7]%Z
       f_tenth 4 f_tiny 2).

(** [ex_state0] after [fill_holders], after [solve_for_marginals] and after
    [propagate_derivatives]. *)
Definition ex_state1 : RotamerSidechain F unit :=
  from_ok ex_state0 (fill_holders ex_expf 4 id ex_state0).

Definition ex_state2 : RotamerSidechain F unit :=
  match solve_for_marginals 2 ex_state1 with
  | Some (s, _) => s
  | None => ex_state1
  end.

Definition ex_state3 : RotamerSidechain F unit :=
  from_ok ex_state2 (propagate_derivatives 4 (fun _ => tt) ex_state2).

(** Two 3-rotamer residues joined by one (3,3) edge of factor 1, as the
    constructor and one [add_to_edge] leave them: all beliefs are 1. *)
Definition ex_bp_nodes : Nodes F :=
  {| nodes1 := mk_NodeHolder 1 0; nodes3 := mk_NodeHolder 3 2 |}.

Definition ex_bp_edges : EdgeHolder F :=
  add_to_edge 0 f_one 0 0 1 0 (mk_EdgeHolder ex_bp_nodes Nodes3 Nodes3 3).

(** A graph whose only bead has the id [0x020]: residue 0 with
    [n_rot = 2], [rot = 0] (4-bit fields). *)
Definition ex_graph_two_rotamers : InteractionGraph F unit :=
  {| n_elem1 := 1; id1 := [32]%Z; loc1 := [0]%Z;
     ig_n_edge := 0; ig_edge_indices1 := []; ig_edge_indices2 := [];
     edge_value := [];
     edge_sensitivity := fun _ => f_zero;
     ig_state := tt |}.

(** [ex_state0] after [compute_value(PotentialAndDerivMode)]. *)
Definition ex_computed : RotamerSidechain F unit :=
  match compute_value ex_logf ex_expf 4 id (fun _ => tt) 2 PotentialAndDerivMode
                      ex_state0 with
  | Some (Ok s) => s
  | _ => ex_state0
  end.
End ExampleInputs.

(** An empty (3,3) holder with room for four edges. *)
Definition ex_holder : EdgeHolder Q := mk_EdgeHolder ex_nodes Nodes3 Nodes3 3.

(** Two calls whose pairs (0, 65536) and (1, 0) have the same key. *)
Definition ex_colliding_calls : list (Call Q) :=
  [ {| c_ne := 0; c_prob := (1 # 2)%Q; c_id1 := 0; c_rot1 := 0;
       c_id2 := 65536; c_rot2 := 0 |};
    {| c_ne := 1; c_prob := (1 # 4)%Q; c_id1 := 1; c_rot1 := 0;
       c_id2 := 0; c_rot2 := 0 |} ].

(** Three calls on two pairs, two of them on the same entry. *)
Definition ex_call_1 : Call Q :=
  {| c_ne := 0; c_prob := (1 # 2)%Q; c_id1 := 0; c_rot1 := 0; c_id2 := 1; c_rot2 := 2 |}.

Definition ex_call_2 : Call Q :=
  {| c_ne := 1; c_prob := (1 # 3)%Q; c_id1 := 1; c_rot1 := 1; c_id2 := 1; c_rot2 := 1 |}.

Definition ex_call_3 : Call Q :=
  {| c_ne := 2; c_prob := (1 # 5)%Q; c_id1 := 0; c_rot1 := 0; c_id2 := 1; c_rot2 := 2 |}.

Definition ex_calls : list (Call Q) := [ex_call_1; ex_call_2; ex_call_3].

(** Three calls on one entry of one pair, with factors that binary32
    rounds: 1/10, 1/10 and 1/7. *)
Definition ex_float_holder : EdgeHolder spec_float :=
  mk_EdgeHolder ex_bp_nodes Nodes3 Nodes3 3.

Definition ex_float_call (num den : Z) : Call spec_float :=
  {| c_ne := 0; c_prob := Binary32.div (Binary32.of_Z num) (Binary32.of_Z den);
     c_id1 := 0; c_rot1 := 0; c_id2 := 1; c_rot2 := 0 |}.

Definition ex_float_calls : list (Call spec_float) :=
  [ex_float_call 1 10; ex_float_call 1 10; ex_float_call 1 7].

(** A storage of width 6 for five elements. *)
Definition ex_storage : SimdVecArrayStorage Q := mk_SimdVecArrayStorage 6 5.

(** Two residues with probabilities 1/2, except 5/4 for rotamer 2 of
    residue 1. *)
Definition ex_nh_probs : NodeHolder Q :=
  set_nh_prob (mk_NodeHolder 3 2) (va_set (va_fill (1 # 2)%Q) 2 1 (5 # 4)%Q).

Section ExampleStates.
Context {F : Type} {FO : FloatOps F}.

(** [ex_state0] with [max_iter = 0]. *)
Definition ex_state_idle : RotamerSidechain F unit :=
  from_ok ex_state0
    (mk_RotamerSidechain 4 ex_graph
       [{| value := va_fill f_zero; deriv := va_fill f_zero |}]
       [0; 1; 2; 3; 4; 5; 6; 7]%Z f_tenth 0 f_tiny 2).

(** [ex_state0] with [tol = -1] and chunks of 0. *)
Definition ex_state_stuck : RotamerSidechain F unit :=
  from_ok ex_state0
    (mk_RotamerSidechain 4 ex_graph
       [{| value := va_fill f_zero; deriv := va_fill f_zero |}]
       [0; 1; 2; 3; 4; 5; 6; 7]%Z f_tenth 4 (fneg f_one) 0).

(** [ex_state0] after [compute_value(DerivMode)]. *)
Definition ex_computed_deriv : RotamerSidechain F unit :=
  match compute_value ex_logf ex_expf 4 id (fun _ => tt) 2 DerivMode ex_state0 with
  | Some (Ok s) => s
  | _ => ex_state0
  end.

(** The one-body energies of [ex_state2] in its probability node. *)
Definition ex_one_body : list F := from_ok [] (rotamer_1body_energy 4 ex_state2 0).
End ExampleStates.

(** The residue free energies of [ex_state1] in exact arithmetic. *)
Definition ex_residue_energies : list Q :=
  from_ok [] (residue_free_energies ex_logf 4 exact_add_half
                (ex_state1 : RotamerSidechain Q unit)).

(** Two 3-rotamer residues in binary32 whose beliefs all dropped from 1 to
    1/2, except that rotamer 2 of residue 1 rose to 5/4. *)
Definition ex_nh_raised32 : NodeHolder spec_float :=
  set_nh_cur_belief (mk_NodeHolder 3 2)
    (va_set (va_fill Binary32.half) 2 1 (Binary32.div (Binary32.of_Z 5) (Binary32.of_Z 4))).

(** The same residues with beliefs 1/2, except a NaN at rotamer 0 of
    residue 0. *)
Definition ex_nh_nan32 : NodeHolder spec_float :=
  set_nh_cur_belief (mk_NodeHolder 3 2) (va_set (va_fill Binary32.half) 0 0 Binary32.nan).

(** Two 3-rotamer residues in binary32 whose beliefs are all 0. *)
Definition ex_nh_zero32 : NodeHolder spec_float :=
  set_nh_cur_belief (mk_NodeHolder 3 2) (va_fill f_zero).

(** Two 3-rotamer residues in binary32 whose beliefs are all [2^-149], the
    smallest positive value. *)
Definition ex_nh_tiny32 : NodeHolder spec_float :=
  set_nh_cur_belief (mk_NodeHolder 3 2) (va_fill (S754_finite false 1 (-149))).

(** [1e-6f]. *)
Definition f_millionth32 : spec_float := Binary32.div Binary32.one (Binary32.of_Z (10 ^ 6)).

(** 200.f. *)
Definition f_two_hundred : spec_float := Binary32.of_Z 200.

(** A stand-in for [expf] in binary32, exact at 0 and at -200, where
    [expf] underflows to 0. *)
Definition ex_expf_underflow (v : spec_float) : spec_float :=
  if SFeqb v (SFopp f_two_hundred) then S754_zero false else fadd f_one v.

(** The solver of [ex_state0] in binary32 with a one-body energy of 200
    for the three rotamers of residue 0, after [fill_holders]: their
    Boltzmann factors [expf(-200)] are 0. *)
Definition ex_state_underflow : RotamerSidechain spec_float unit :=
  from_ok ex_state0
    (do s <- mk_RotamerSidechain 4 ex_graph
               [{| value := fun _ index => if (index <? 3)%Z then f_two_hundred else f_zero;
                   deriv := va_fill f_zero |}]
               [0; 1; 2; 3; 4; 5; 6; 7]%Z f_tenth 4 f_tiny 2;
     fill_holders ex_expf_underflow 4 id s).

(** [ex_state_underflow] after [solve_for_marginals]. *)
Definition ex_state_underflow_solved : RotamerSidechain spec_float unit :=
  match solve_for_marginals 1 ex_state_underflow with
  | Some (s, _) => s
  | None => ex_state_underflow
  end.

(* ===================================================================== *)
(** * Theorems *)

(** ** The exact instance obeys the laws *)

#[global] Instance exact_order : FloatOrder Q.
Proof.
  split; simpl.
  - intros a. apply Qle_bool_iff, Qle_refl.
  - intros a b c Hab Hbc. apply Qle_bool_iff.
    apply Qle_bool_iff in Hab. apply Qle_bool_iff in Hbc.
    eapply Qle_trans; eassumption.
  - intros a b Hlt. apply Qle_bool_iff, Qlt_le_weak, Qnot_le_lt.
    intros Hle. apply Qle_bool_iff in Hle. rewrite Hle in Hlt. discriminate.
  - intros a b Hlt. destruct (Qle_bool b a); [reflexivity | discriminate].
Qed.

#[global] Instance exact_mul : FloatMulMonoid Q.
Proof.
  split; simpl.
  - intros [a b] [c d]. unfold Qmult; simpl. f_equal; [apply Z.mul_comm | apply Pos.mul_comm].
  - intros [a b] [c d] [e f]. unfold Qmult; simpl.
    f_equal; [apply Z.mul_assoc | apply Pos.mul_assoc].
  - intros [a b]. unfold Qmult; simpl. destruct a; reflexivity.
Qed.

#[global] Instance exact_compare : FloatCompare Q.
Proof.
  split.
  - reflexivity.
  - apply fle_trans.
  - apply flt_fle.
  - intros a b _ _. apply nlt_fle.
Qed.

(** ** The comparisons of binary32 *)

Ltac rank_cases ea eb ma mb :=
  change (Pos.compare_cont Eq ma mb) with (Pos.compare ma mb);
  destruct (Z.compare_spec ea eb); destruct (Pos.compare_spec ma mb); simpl;
  (split; [intros; first [discriminate | repeat split; lia]
          | intros (? & ? & ?); first [reflexivity | lia]]).

Lemma SFleb_rank (a b : spec_float) :
  SFleb a b = true <->
  sf_is_nan a = false /\ sf_is_nan b = false /\ rank_le (sf_rank a) (sf_rank b).
Proof.
  unfold SFleb, rank_le.
  destruct a as [sa|sa| |sa ma ea], b as [sb|sb| |sb mb eb]; simpl;
    try destruct sa; try destruct sb; simpl;
    try (split; [intros; discriminate | intros (? & ? & ?); first [discriminate | lia]]);
    try (split; [intros _; repeat split; lia | reflexivity]);
    rank_cases ea eb ma mb.
Qed.

Lemma SFltb_rank (a b : spec_float) :
  SFltb a b = true <->
  sf_is_nan a = false /\ sf_is_nan b = false /\ rank_lt (sf_rank a) (sf_rank b).
Proof.
  unfold SFltb, rank_lt.
  destruct a as [sa|sa| |sa ma ea], b as [sb|sb| |sb mb eb]; simpl;
    try destruct sa; try destruct sb; simpl;
    try (split; [intros; discriminate | intros (? & ? & ?); first [discriminate | lia]]);
    try (split; [intros _; repeat split; lia | reflexivity]);
    rank_cases ea eb ma mb.
Qed.

Lemma SFleb_refl_iff (a : spec_float) : SFleb a a = true <-> sf_is_nan a = false.
Proof.
  rewrite SFleb_rank. unfold rank_le. split; [tauto|]. intros H. repeat split; try exact H. lia.
Qed.

#[global] Instance binary32_compare : FloatCompare spec_float.
Proof.
  split; simpl.
  - reflexivity.
  - intros a b c Hab Hbc. apply SFleb_rank in Hab as (Ha & Hb & Hab).
    apply SFleb_rank in Hbc as (_ & Hc & Hbc). apply SFleb_rank.
    split; [exact Ha|]. split; [exact Hc|]. unfold rank_le in *. lia.
  - intros a b Hlt. apply SFltb_rank in Hlt as (Ha & Hb & Hlt). apply SFleb_rank.
    split; [exact Ha|]. split; [exact Hb|]. unfold rank_le, rank_lt in *. lia.
  - intros a b Ha Hb Hlt. apply SFleb_refl_iff in Ha. apply SFleb_refl_iff in Hb.
    apply SFleb_rank. split; [exact Hb|]. split; [exact Ha|].
    destruct (SFltb a b) eqn:E; [discriminate|].
    assert (Hn : ~ rank_lt (sf_rank a) (sf_rank b)).
    { intros Hr. assert (SFltb a b = true) by (apply SFltb_rank; auto). congruence. }
    unfold rank_le, rank_lt in *. lia.
Qed.

(** ** Integer helpers *)

Lemma foldl_ext {A B} (f g : A -> B -> A) (l : list B) (a : A) :
  (forall a b, f a b = g a b) -> fold_left f l a = fold_left g l a.
Proof.
  intros Hfg. revert a. induction l as [|b l IH]; intros a; simpl; [reflexivity|].
  rewrite Hfg. apply IH.
Qed.

Lemma elem_of_range (n i : Z) : i ∈ range n <-> (0 <= i < n)%Z.
Proof.
  unfold range. rewrite list_elem_of_fmap. split.
  - intros (k & -> & Hk). apply elem_of_seq in Hk. lia.
  - intros Hi. exists (Z.to_nat i). split; [lia|]. apply elem_of_seq. lia.
Qed.

Lemma range_succ (n : Z) : (0 <= n)%Z -> range (n + 1) = range n ++ [n].
Proof.
  intros Hn. unfold range.
  replace (Z.to_nat (n + 1)) with (S (Z.to_nat n)) by lia.
  rewrite seq_S, map_app. simpl. f_equal. f_equal. lia.
Qed.

Lemma range_nonpos (n : Z) : (n <= 0)%Z -> range n = [].
Proof. intros Hn. unfold range. replace (Z.to_nat n) with 0%nat by lia. reflexivity. Qed.

Lemma NoDup_range (n : Z) : NoDup (range n).
Proof.
  unfold range. apply NoDup_fmap_2; [|apply NoDup_seq].
  intros a b Hab. lia.
Qed.

Lemma elem_of_loop2 (n_outer n_inner d nn : Z) :
  (d, nn) ∈ loop2 n_outer n_inner <-> (0 <= d < n_outer)%Z /\ (0 <= nn < n_inner)%Z.
Proof.
  unfold loop2. rewrite list_elem_of_In, in_flat_map. split.
  - intros (d' & Hd' & Hin). apply list_elem_of_In in Hd', Hin.
    apply list_elem_of_fmap in Hin as (nn' & Heq & Hnn'). inversion Heq; subst.
    apply elem_of_range in Hd', Hnn'. tauto.
  - intros [Hd Hnn]. exists d. split; apply list_elem_of_In.
    + by apply elem_of_range.
    + apply list_elem_of_fmap. exists nn. split; [reflexivity | by apply elem_of_range].
Qed.

Lemma wrap32_small (z : Z) : (0 <= z < 2 ^ 32)%Z -> wrap32 z = z.
Proof. intros Hz. unfold wrap32. apply Z.mod_small. exact Hz. Qed.

Lemma to_int_small (z : Z) : (0 <= z < 2 ^ 31)%Z -> to_int z = z.
Proof.
  intros Hz. unfold to_int. rewrite wrap32_small by lia.
  destruct (Z.ltb_spec z (2 ^ 31)); lia.
Qed.

Lemma to_unsigned_small (z : Z) : (0 <= z < 2 ^ 32)%Z -> to_unsigned z = z.
Proof. apply wrap32_small. Qed.

(** ** The AoSoA index *)

Lemma round_up_4 (n : Z) :
  (0 <= n)%Z -> (n <= round_up n 4 < n + 4)%Z /\ Z.rem (round_up n 4) 4 = 0%Z.
Proof.
  unfold round_up. intros Hn.
  Z.to_euclidean_division_equations. lia.
Qed.

Lemma round_up_4_nonpos (n : Z) : (n <= 0)%Z -> (round_up n 4 <= 0)%Z.
Proof.
  unfold round_up. intros Hn.
  Z.to_euclidean_division_equations. lia.
Qed.

Lemma round_up_4_multiple (n : Z) :
  (0 <= n)%Z -> Z.rem n 4 = 0%Z -> round_up n 4 = n.
Proof.
  unfold round_up. intros Hn Hr.
  Z.to_euclidean_division_equations. lia.
Qed.

Lemma split_quad (e : Z) :
  (0 <= e)%Z ->
  exists q r, e = (4 * q + r)%Z /\ (0 <= q)%Z /\ (0 <= r < 4)%Z /\ Z.rem e simd_width = r.
Proof.
  intros He. exists (e ÷ 4)%Z, (Z.rem e 4). unfold simd_width.
  Z.to_euclidean_division_equations. lia.
Qed.

Lemma simd_index_bounds (w n c e : Z) :
  Z.rem n simd_width = 0%Z -> (0 <= c < w)%Z -> (0 <= e < n)%Z ->
  (0 <= simd_index w c e < n * w)%Z.
Proof.
  intros Hn Hc He. destruct (split_quad e) as (q & r & -> & Hq & Hr & Hrem); [lia|].
  destruct (split_quad n) as (qn & rn & -> & Hqn & Hrn & Hremn); [lia|].
  unfold simd_index. rewrite Hrem. unfold simd_width. rewrite Hremn in Hn. subst rn.
  assert (q + 1 <= qn)%Z by lia.
  assert (0 <= q * w)%Z by nia.
  assert ((q + 1) * w <= qn * w)%Z by nia.
  lia.
Qed.

Lemma simd_index_inj (w c e c' e' : Z) :
  (0 <= c < w)%Z -> (0 <= e)%Z -> (0 <= c' < w)%Z -> (0 <= e')%Z ->
  simd_index w c e = simd_index w c' e' -> c = c' /\ e = e'.
Proof.
  intros Hc He Hc' He' Heq.
  destruct (split_quad e) as (q & r & -> & Hq & Hr & Hrem); [lia|].
  destruct (split_quad e') as (q' & r' & -> & Hq' & Hr' & Hrem'); [lia|].
  unfold simd_index in Heq. rewrite Hrem, Hrem' in Heq. unfold simd_width in Heq.
  assert (r = r') by lia. subst r'.
  assert (q * w + c = q' * w + c')%Z by lia.
  assert (q = q').
  { destruct (Z.lt_trichotomy q q') as [Hlt | [Heq' | Hgt]]; [|assumption|].
    - assert ((q + 1) * w <= q' * w)%Z by nia. lia.
    - assert ((q' + 1) * w <= q * w)%Z by nia. lia. }
  subst q'. lia.
Qed.

Section StorageTheory.
Context {F : Type} {FO : FloatOps F}.

Lemma mk_SimdVecArrayStorage_wf (w n_min : Z) :
  (0 <= w)%Z -> (0 <= n_min)%Z -> storage_wf (mk_SimdVecArrayStorage (F:=F) w n_min).
Proof.
  intros Hw Hmin. unfold storage_wf, mk_SimdVecArrayStorage, new_aligned; simpl.
  rewrite length_replicate. unfold simd_width.
  set (n := round_up n_min 4).
  assert (Hn : (0 <= n)%Z /\ Z.rem n 4 = 0%Z).
  { subst n. unfold round_up. Z.to_euclidean_division_equations. lia. }
  destruct Hn as [Hn Hr].
  assert (Hq : exists q, n = (4 * q)%Z /\ (0 <= q)%Z).
  { exists (n ÷ 4)%Z. Z.to_euclidean_division_equations. lia. }
  destruct Hq as (q & Hq & Hq0).
  assert (Hnw : (0 <= q * w)%Z) by nia.
  assert (Hm : round_up (n * w) 4 = (n * w)%Z).
  { rewrite Hq. replace (4 * q * w)%Z with (4 * (q * w))%Z by lia.
    generalize dependent (q * w)%Z. intros k Hk.
    unfold round_up. Z.to_euclidean_division_equations. lia. }
  rewrite Hm. repeat split; try assumption. nia.
Qed.

Lemma buf_get_set_eq {A} (d : A) (l : list A) (k : Z) (v : A) :
  (0 <= k < Z.of_nat (length l))%Z -> buf_get d (buf_set l k v) k = v.
Proof.
  intros Hk. unfold buf_get, buf_set.
  destruct (Z.ltb_spec k 0); [lia|].
  rewrite nth_lookup, list_lookup_insert_eq by lia. reflexivity.
Qed.

Lemma buf_get_set_ne {A} (d : A) (l : list A) (k k' : Z) (v : A) :
  k <> k' -> buf_get d (buf_set l k v) k' = buf_get d l k'.
Proof.
  intros Hk. unfold buf_get, buf_set.
  destruct (Z.ltb_spec k' 0); [reflexivity|].
  destruct (Z.ltb_spec k 0); [reflexivity|].
  rewrite !nth_lookup, list_lookup_insert_ne by lia. reflexivity.
Qed.

Lemma length_buf_set {A} (l : list A) (k : Z) (v : A) :
  length (buf_set l k v) = length l.
Proof. unfold buf_set. destruct (k <? 0)%Z; [reflexivity | apply length_insert]. Qed.

Lemma sv_set_wf (a : SimdVecArrayStorage F) (c e : Z) (v : F) :
  storage_wf a -> storage_wf (sv_set a c e v).
Proof.
  unfold storage_wf, sv_set; simpl. rewrite length_buf_set. tauto.
Qed.

Lemma sv_get_set_eq (a : SimdVecArrayStorage F) (c e : Z) (v : F) :
  storage_wf a -> (0 <= c < elem_width a)%Z -> (0 <= e < n_elem a)%Z ->
  sv_get (sv_set a c e v) c e = v.
Proof.
  intros (Hw & Hn & Hr & Hl) Hc He. unfold sv_get, sv_set; simpl.
  apply buf_get_set_eq. rewrite Hl. by apply simd_index_bounds.
Qed.

Lemma sv_get_set_ne (a : SimdVecArrayStorage F) (c e c' e' : Z) (v : F) :
  (0 <= c < elem_width a)%Z -> (0 <= e)%Z ->
  (0 <= c' < elem_width a)%Z -> (0 <= e')%Z ->
  (c, e) <> (c', e') ->
  sv_get (sv_set a c e v) c' e' = sv_get a c' e'.
Proof.
  intros Hc He Hc' He' Hne. unfold sv_get, sv_set; simpl.
  apply buf_get_set_ne. intros Heq.
  apply simd_index_inj in Heq as [-> ->]; [|assumption..]. by apply Hne.
Qed.

Lemma round_up_ints_fit (i : Z) :
  (0 <= i)%Z -> (round_up i simd_width < 2 ^ 31)%Z -> Forall fits_int (round_up_ints i).
Proof.
  intros Hi Hr. unfold round_up_ints, round_up, simd_width in *.
  assert (H : (0 <= (i + 4 - 1) ÷ 4 /\ i + 4 - 1 < 4 * ((i + 4 - 1) ÷ 4) + 4)%Z)
    by (Z.to_euclidean_division_equations; lia).
  repeat constructor; unfold fits_int; lia.
Qed.

Lemma mk_SimdVecArrayStorage_ints_fit (w n_min : Z) :
  (0 <= w)%Z -> (0 <= n_min)%Z -> (round_up n_min simd_width < 2 ^ 31)%Z ->
  (round_up n_min simd_width * w < 2 ^ 31)%Z ->
  Forall fits_int (mk_SimdVecArrayStorage_ints w n_min).
Proof.
  intros Hw Hn Hr Hc. unfold mk_SimdVecArrayStorage_ints. cbv zeta.
  assert (Hn0 : (0 <= round_up n_min simd_width)%Z).
  { pose proof (round_up_4 n_min Hn). unfold simd_width. lia. }
  assert (Hc0 : (0 <= round_up n_min simd_width * w)%Z) by (apply Z.mul_nonneg_nonneg; lia).
  assert (Hrr : round_up (round_up n_min simd_width * w) simd_width
                = (round_up n_min simd_width * w)%Z).
  { unfold simd_width. apply round_up_4_multiple; [exact Hc0|].
    destruct (round_up_4 n_min Hn) as [_ Hrem]. unfold simd_width in *.
    apply Z.rem_divide; [lia|]. apply Z.rem_divide in Hrem; [|lia].
    by apply Z.divide_mul_l. }
  apply Forall_app. split; [by apply round_up_ints_fit|].
  apply Forall_app. split; [repeat constructor; unfold fits_int; lia|].
  apply round_up_ints_fit; [exact Hc0 | rewrite Hrr; exact Hc].
Qed.

(** C9: the scalar accessor of [SimdVecArrayStorage] with element width
    [w] reads and writes the cell at offset
    [(e - e%4)*w + comp*4 + e%4]; for a storage made by the constructor
    ([n_elem] is [n_min] rounded up to a multiple of 4 and [n_elem*w] cells
    are allocated) with [n_elem*w < 2^31], every [0 <= comp < w] and
    [0 <= e < n_elem] give an offset inside the allocation, computed through
    values of [int] only, and two such pairs with the same offset are the
    same pair, so a write to one entry is read back there and leaves every
    other entry as it was. *)
Theorem simd_accessor_in_bounds_injective (w n_min comp e : Z) :
  let a := mk_SimdVecArrayStorage (F:=F) w n_min in
  (n_elem a * w < 2 ^ 31)%Z ->
  (0 <= comp < w)%Z -> (0 <= e < n_elem a)%Z ->
  Forall fits_int (mk_SimdVecArrayStorage_ints w n_min) /\
  Forall fits_int (simd_index_ints w comp e) /\
  n_elem a = round_up n_min 4 /\ Z.rem (n_elem a) 4 = 0%Z /\
  Z.of_nat (length (x a)) = (n_elem a * w)%Z /\
  simd_index w comp e = ((e - Z.rem e 4) * w + comp * 4 + Z.rem e 4)%Z /\
  sv_get a comp e = buf_get f_zero (x a) (simd_index w comp e) /\
  (0 <= simd_index w comp e < Z.of_nat (length (x a)))%Z /\
  (forall comp' e', (0 <= comp' < w)%Z -> (0 <= e' < n_elem a)%Z ->
     simd_index w comp e = simd_index w comp' e' -> comp = comp' /\ e = e') /\
  (forall v, x (sv_set a comp e v) = buf_set (x a) (simd_index w comp e) v /\
             sv_get (sv_set a comp e v) comp e = v /\
             forall comp' e', (0 <= comp' < w)%Z -> (0 <= e' < n_elem a)%Z ->
               (comp', e') <> (comp, e) ->
               sv_get (sv_set a comp e v) comp' e' = sv_get a comp' e').
Proof.
  intros a Hint Hc He.
  assert (Hmin : (0 <= n_min)%Z).
  { destruct (Z.le_gt_cases 0 n_min) as [Hn | Hn]; [exact Hn|].
    assert ((round_up n_min 4 <= 0)%Z) by (apply round_up_4_nonpos; lia).
    subst a. simpl in He. unfold simd_width in He. lia. }
  assert (Hwf : storage_wf a) by (apply mk_SimdVecArrayStorage_wf; lia).
  destruct Hwf as (Hw & Hn & Hr & Hl).
  assert (Hwf : storage_wf a) by (apply mk_SimdVecArrayStorage_wf; lia).
  change (elem_width a) with w in *.
  assert (Hb : (0 <= simd_index w comp e < n_elem a * w)%Z)
    by (by apply simd_index_bounds).
  split.
  { apply mk_SimdVecArrayStorage_ints_fit; [lia | exact Hmin | | exact Hint].
    change (round_up n_min simd_width) with (n_elem a). nia. }
  split.
  { unfold simd_index_ints. unfold simd_index in Hb.
    assert (Hrem : (0 <= Z.rem e simd_width < 4)%Z).
    { unfold simd_width. pose proof (Z.rem_bound_pos e 4). lia. }
    assert (Hq : (Z.rem e simd_width <= e)%Z).
    { unfold simd_width. pose proof (Z.rem_le e 4). lia. }
    unfold simd_index. unfold simd_width in *.
    repeat constructor; unfold fits_int; nia. }
  split; [reflexivity|]. split; [exact Hr|]. split; [exact Hl|].
  split; [reflexivity|]. split; [reflexivity|].
  split; [rewrite Hl; exact Hb|].
  split.
  - intros comp' e' Hc' He' Heq. eapply simd_index_inj; [..|exact Heq]; lia.
  - intros v. split; [reflexivity|]. split.
    + by apply sv_get_set_eq.
    + intros comp' e' Hc' He' Hne. apply sv_get_set_ne; try (simpl; lia).
      congruence.
Qed.
End StorageTheory.

Lemma simd_accessor_in_bounds_injective_witness :
  ((n_elem (mk_SimdVecArrayStorage (F:=spec_float) 6 5) * 6 < 2 ^ 31)%Z /\
   (0 <= 2 < 6)%Z /\ (0 <= 5 < 8)%Z) /\
  n_elem (mk_SimdVecArrayStorage (F:=spec_float) 6 5) = 8%Z /\
  simd_index 6 2 5 = 33%Z /\
  Z.of_nat (length (x (mk_SimdVecArrayStorage (F:=spec_float) 6 5))) = 48%Z /\
  Forall fits_int (simd_index_ints 6 2 5) /\
  (forall comp' e', (0 <= comp' < 6)%Z -> (0 <= e' < 8)%Z ->
     simd_index 6 2 5 = simd_index 6 comp' e' -> 2%Z = comp' /\ 5%Z = e').
Proof.
  assert (Hi : (n_elem (mk_SimdVecArrayStorage (F:=spec_float) 6 5) * 6 < 2 ^ 31)%Z)
    by (vm_compute; reflexivity).
  assert (Hc : (0 <= 2 < 6)%Z) by lia.
  assert (He : (0 <= 5 < n_elem (mk_SimdVecArrayStorage (F:=spec_float) 6 5))%Z)
    by (vm_compute; split; [discriminate | reflexivity]).
  destruct (simd_accessor_in_bounds_injective (F:=spec_float) 6 5 2 5 Hi Hc He)
    as (_ & Hints & _ & _ & _ & _ & _ & _ & Hinj & _).
  split; [split; [exact Hi | split; [exact Hc | lia]]|].
  split; [reflexivity|]. split; [reflexivity|].
  split; [reflexivity|]. split; [exact Hints | exact Hinj].
Defined.

(** C9, as stated, fails from [n_elem*w = 2^31] on.  The (3,3) edge holder
    of 21846 three-rotamer residues asks for
    [21846*21847/2 = 238634781] edges of width 9: [n_elem] is 238634784,
    the number of cells [n_elem*9] is not an [int], and for the in-range
    pair [comp = 8], [e = n_elem - 1] the offset [2147713055] is not an
    [int] either: the accessor cannot compute it, and the value the
    two's-complement wrap-around leaves is negative, outside the buffer. *)
Lemma simd_index_leaves_int :
  let w := 9%Z in
  let n := n_elem (mk_SimdVecArrayStorage (F:=spec_float) w 238634781) in
  n = 238634784%Z /\ (0 <= 8 < w)%Z /\ (0 <= n - 1 < n)%Z /\
  ~ fits_int (n * w) /\
  simd_index w 8 (n - 1) = 2147713055%Z /\
  ~ fits_int (simd_index w 8 (n - 1)) /\
  (to_int (simd_index w 8 (n - 1)) < 0)%Z.
Proof.
  intros w n.
  assert (En : n = 238634784%Z) by reflexivity.
  rewrite En. unfold w, fits_int.
  split; [reflexivity|]. split; [lia|]. split; [lia|].
  split; [vm_compute; intros [_ H]; discriminate|].
  split; [vm_compute; reflexivity|].
  split; [vm_compute; intros [_ H]; discriminate|].
  vm_compute. reflexivity.
Qed.

(** ** The deduplication key *)

Lemma edge_key_small (a1 a2 : Z) :
  (0 <= a1 < 2 ^ 16)%Z -> (0 <= a2 < 2 ^ 16)%Z ->
  edge_key a1 a2 = (a1 * 2 ^ 16 + a2)%Z.
Proof.
  intros H1 H2. unfold edge_key. rewrite Z.shiftl_mul_pow2 by lia.
  rewrite (wrap32_small (a1 * 2 ^ 16)) by lia.
  apply wrap32_small. lia.
Qed.

Lemma edge_key_inj (a1 a2 b1 b2 : Z) :
  (0 <= a1 < 2 ^ 16)%Z -> (0 <= a2 < 2 ^ 16)%Z ->
  (0 <= b1 < 2 ^ 16)%Z -> (0 <= b2 < 2 ^ 16)%Z ->
  edge_key a1 a2 = edge_key b1 b2 -> a1 = b1 /\ a2 = b2.
Proof.
  intros Ha1 Ha2 Hb1 Hb2. rewrite !edge_key_small by assumption. lia.
Qed.

(** ** max_deviation *)

Section DeviationTheory.
Context {F : Type} {FO : FloatOps F} {FC : FloatCompare F}.

Lemma fmax_ge_l (a b : F) : not_nan a -> fle a (fmax a b) = true.
Proof.
  intros Ha. unfold fmax. destruct (flt a b) eqn:E; [by apply fc_lt_le | exact Ha].
Qed.

Lemma fmax_ge_r (a b : F) : not_nan a -> not_nan b -> fle b (fmax a b) = true.
Proof.
  intros Ha Hb. unfold fmax. destruct (flt a b) eqn:E; [exact Hb | by apply fc_total].
Qed.

Lemma fmax_cases (a b : F) : fmax a b = a \/ fmax a b = b.
Proof. unfold fmax. destruct (flt a b); auto. Qed.

Lemma running_max_spec {P} (g : P -> F) (l : list P) (d0 : F) :
  not_nan d0 -> (forall p, p ∈ l -> not_nan (g p)) ->
  let r := running_max g l d0 in
  fle d0 r = true /\
  (forall p, p ∈ l -> fle (g p) r = true) /\
  (r = d0 \/ exists p, p ∈ l /\ r = g p).
Proof.
  revert d0. induction l as [|q l IH]; intros d0 H0 Hl; simpl.
  - split; [exact H0|]. split; [|by left].
    intros p Hp. by apply elem_of_nil in Hp.
  - assert (Hq : not_nan (g q)) by (apply Hl, elem_of_cons; by left).
    assert (Hm : not_nan (fmax (g q) d0))
      by (destruct (fmax_cases (g q) d0) as [-> | ->]; assumption).
    destruct (IH (fmax (g q) d0) Hm) as (Hd & Hall & Hex).
    { intros p Hp. apply Hl, elem_of_cons. by right. }
    split; [|split].
    + apply (fc_trans _ (fmax (g q) d0)); [by apply fmax_ge_r | exact Hd].
    + intros p Hp. apply elem_of_cons in Hp as [-> | Hp].
      * apply (fc_trans _ (fmax (g q) d0)); [by apply fmax_ge_l | exact Hd].
      * by apply Hall.
    + destruct Hex as [Hr | (p & Hp & Hr)].
      * destruct (fmax_cases (g q) d0) as [E | E].
        -- right. exists q. split; [apply elem_of_cons; by left | congruence].
        -- left. congruence.
      * right. exists p. split; [apply elem_of_cons; by right | exact Hr].
Qed.

Lemma nh_max_deviation_running (h : NodeHolder F) :
  nh_max_deviation h =
  running_max (fun p : Z * Z => fsub (nh_cur_belief h p.1 p.2) (nh_old_belief h p.1 p.2))
              (loop2 (n_rot h) (nh_n_elem h)) f_zero.
Proof.
  unfold nh_max_deviation, running_max. apply foldl_ext. by intros dev [d nn].
Qed.

Lemma max_deviation_running (h : EdgeHolder F) :
  max_deviation h =
  running_max (fun p : Z * Z =>
                 fsub (sv_get (cur_belief h) p.1 p.2) (sv_get (old_belief h) p.1 p.2))
              (loop2 (n_rot1 h + n_rot2 h) (n_edge h)) f_zero.
Proof.
  unfold max_deviation, running_max. apply foldl_ext. by intros dev [d nn].
Qed.

Lemma running_max_clamped (diff : Z -> Z -> F) (n_outer n_inner : Z) :
  differences_not_nan diff n_outer n_inner ->
  is_clamped_max diff n_outer n_inner
    (running_max (fun p : Z * Z => diff p.1 p.2) (loop2 n_outer n_inner) f_zero).
Proof.
  intros Hnn.
  destruct (running_max_spec (fun p : Z * Z => diff p.1 p.2)
                             (loop2 n_outer n_inner) f_zero) as (H0 & Hall & Hex).
  { apply fc_zero. }
  { intros [d nn] Hp. apply elem_of_loop2 in Hp as [Hd Hn]. by apply Hnn. }
  split; [exact H0|]. split; [|split].
  - intros d nn Hd Hn. apply (Hall (d, nn)). by apply elem_of_loop2.
  - destruct Hex as [Hr | ([d nn] & Hp & Hr)]; [by left|].
    right. exists d, nn. apply elem_of_loop2 in Hp as [Hd Hn]. auto.
  - intros Hdec. destruct Hex as [Hr | ([d nn] & Hp & Hr)].
    + rewrite Hr. apply fc_zero.
    + rewrite Hr. apply elem_of_loop2 in Hp as [Hd Hn]. simpl. by apply Hdec.
Qed.

(** A check of [differences_not_nan] by evaluation. *)
Lemma differences_not_nan_check (diff : Z -> Z -> F) (n_outer n_inner : Z) :
  forallb (fun p : Z * Z => fle (diff p.1 p.2) (diff p.1 p.2)) (loop2 n_outer n_inner) = true ->
  differences_not_nan diff n_outer n_inner.
Proof.
  intros Hall d nn Hd Hn. rewrite forallb_forall in Hall.
  apply (Hall (d, nn)). apply list_elem_of_In. by apply elem_of_loop2.
Qed.

(** C8: in a state where no signed difference [cur_belief - old_belief]
    is a NaN, [max_deviation()] of a [NodeHolder], and of an [EdgeHolder],
    returns the largest of 0 and the signed differences over all components
    and elements: it is at least 0 and at least every difference, it is 0
    or one of the differences, and when no component increased it is not
    above 0, whatever the size of the decreases.  The comparisons are those
    of IEEE floats ([FloatCompare]). *)
Theorem max_deviation_is_clamped_signed_max (nh : NodeHolder F) (eh : EdgeHolder F) :
  differences_not_nan (fun d nn => fsub (nh_cur_belief nh d nn) (nh_old_belief nh d nn))
                      (n_rot nh) (nh_n_elem nh) ->
  differences_not_nan (fun d nn => fsub (sv_get (cur_belief eh) d nn)
                                        (sv_get (old_belief eh) d nn))
                      (n_rot1 eh + n_rot2 eh) (n_edge eh) ->
  is_clamped_max (fun d nn => fsub (nh_cur_belief nh d nn) (nh_old_belief nh d nn))
                 (n_rot nh) (nh_n_elem nh) (nh_max_deviation nh) /\
  is_clamped_max (fun d nn => fsub (sv_get (cur_belief eh) d nn)
                                   (sv_get (old_belief eh) d nn))
                 (n_rot1 eh + n_rot2 eh) (n_edge eh) (max_deviation eh).
Proof.
  intros Hn He. split.
  - rewrite nh_max_deviation_running.
    by apply (running_max_clamped
             (fun d nn => fsub (nh_cur_belief nh d nn) (nh_old_belief nh d nn))).
  - rewrite max_deviation_running.
    by apply (running_max_clamped
             (fun d nn => fsub (sv_get (cur_belief eh) d nn) (sv_get (old_belief eh) d nn))).
Qed.
End DeviationTheory.

Lemma max_deviation_is_clamped_signed_max_witness :
  let nh := ex_nh_raised32 in
  let eh : EdgeHolder spec_float := ex_bp_edges in
  (is_clamped_max
     (fun d nn => fsub (nh_cur_belief nh d nn) (nh_old_belief nh d nn))
     3 2 (nh_max_deviation nh) /\
   is_clamped_max
     (fun d nn => fsub (sv_get (cur_belief eh) d nn) (sv_get (old_belief eh) d nn))
     6 1 (max_deviation eh)) /\
  nh_max_deviation nh = Binary32.div (Binary32.of_Z 1) (Binary32.of_Z 4) /\
  max_deviation eh = f_zero.
Proof.
  intros nh eh.
  assert (Hn : differences_not_nan
                 (fun d nn => fsub (nh_cur_belief nh d nn) (nh_old_belief nh d nn))
                 (n_rot nh) (nh_n_elem nh))
    by (apply differences_not_nan_check; vm_compute; reflexivity).
  assert (He : differences_not_nan
                 (fun d nn => fsub (sv_get (cur_belief eh) d nn) (sv_get (old_belief eh) d nn))
                 (n_rot1 eh + n_rot2 eh) (n_edge eh))
    by (apply differences_not_nan_check; vm_compute; reflexivity).
  split; [|split; vm_compute; reflexivity].
  exact (max_deviation_is_clamped_signed_max nh eh Hn He).
Defined.

(** C8, as stated, fails where a belief is a NaN: with [cur_belief(0,0)]
    a NaN and every other belief down from 1 to 1/2, the first turn stores
    the NaN difference in [dev] (the test [NaN < 0] is false), the second
    replaces it by [-1/2] (the test [-1/2 < NaN] is false), and
    [max_deviation()] returns [-1/2]: a negative value, and not the largest
    of 0 and the differences. *)
Lemma max_deviation_negative_after_nan :
  nh_max_deviation ex_nh_nan32 = fneg Binary32.half /\
  flt (nh_max_deviation ex_nh_nan32) f_zero = true /\
  fle f_zero (nh_max_deviation ex_nh_nan32) = false /\
  ~ is_clamped_max
      (fun d nn => fsub (nh_cur_belief ex_nh_nan32 d nn) (nh_old_belief ex_nh_nan32 d nn))
      (n_rot ex_nh_nan32) (nh_n_elem ex_nh_nan32) (nh_max_deviation ex_nh_nan32).
Proof.
  assert (E : nh_max_deviation ex_nh_nan32 = fneg Binary32.half) by (vm_compute; reflexivity).
  split; [exact E|]. split; [vm_compute; reflexivity|]. split; [vm_compute; reflexivity|].
  intros (H0 & _). rewrite E in H0. vm_compute in H0. discriminate.
Qed.

(** ** solve_for_marginals *)

Section SolveTheory.
Context {F : Type} {FO : FloatOps F} {G : Type}.

Lemma same_config_refl (s : RotamerSidechain F G) : same_config s s.
Proof. by repeat split. Qed.

Lemma same_config_trans (s1 s2 s3 : RotamerSidechain F G) :
  same_config s1 s2 -> same_config s2 s3 -> same_config s1 s3.
Proof. unfold same_config. intuition congruence. Qed.

Lemma with_holders_config (s : RotamerSidechain F G) m e11 e13 e33 :
  same_config s (with_holders s m e11 e13 e33).
Proof. by repeat split. Qed.

Lemma calculate_new_beliefs_config (d : F) (s : RotamerSidechain F G) :
  same_config s (calculate_new_beliefs d s).
Proof.
  unfold calculate_new_beliefs.
  destruct (update_beliefs 3 3 d _ _) as [m e33]. apply with_holders_config.
Qed.

Lemma sweep_chunk_config (s : RotamerSidechain F G) : same_config s (sweep_chunk s).
Proof.
  unfold sweep_chunk. generalize (range (iteration_chunk_size s)). intros l.
  assert (Hgen : forall s0, same_config s s0 ->
            same_config s
              (fold_left (fun (s1 : RotamerSidechain F G) (_ : Z) =>
                  let s2 := with_holders s1
                              (assign (nodes s1) Nodes3 (nh_swap_beliefs (nodes3 (nodes s1))))
                              (edges11 s1) (edges13 s1) (swap_beliefs (edges33 s1)) in
                  calculate_new_beliefs (damping s2) s2) l s0)).
  { induction l as [|j l IH]; intros s0 Hs0; simpl; [exact Hs0|].
    apply IH. eapply same_config_trans; [exact Hs0|].
    eapply same_config_trans; [apply with_holders_config|].
    apply calculate_new_beliefs_config. }
  apply Hgen, same_config_refl.
Qed.

Lemma solve_loop_mono (fuel fuel' : nat) (s : RotamerSidechain F G) md iter r :
  solve_loop fuel s md iter = Some r -> (fuel <= fuel')%nat ->
  solve_loop fuel' s md iter = Some r.
Proof.
  revert fuel' s md iter. induction fuel as [|fuel IH]; intros fuel' s md iter Hr Hle.
  - destruct fuel'; [exact Hr|]. simpl in *.
    destruct (fgt md (tol s) && (iter <? max_iter s)%Z); [discriminate | exact Hr].
  - destruct fuel' as [|fuel']; [lia|]. simpl in *.
    destruct (fgt md (tol s) && (iter <? max_iter s)%Z); [|exact Hr].
    apply IH; [exact Hr | lia].
Qed.

(** With a positive chunk size the loop ends within [max_iter - iter]
    turns, on a failed test, after a whole number of chunks. *)
Lemma solve_loop_terminates (fuel : nat) :
  forall (s : RotamerSidechain F G) md iter,
    (1 <= iteration_chunk_size s)%Z ->
    (Z.to_nat (max_iter s - iter) <= fuel)%nat ->
    exists s' iter' md',
      solve_loop fuel s md iter = Some (s', (iter', md')) /\
      same_config s s' /\
      (fgt md' (tol s) = false \/ (max_iter s <= iter')%Z) /\
      (iter' = iter \/ (iter' < max_iter s + iteration_chunk_size s)%Z) /\
      exists k, (0 <= k)%Z /\ iter' = (iter + k * iteration_chunk_size s)%Z.
Proof.
  induction fuel as [|fuel IH]; intros s md iter Hc Hfuel.
  - simpl. destruct (fgt md (tol s)) eqn:Eg; simpl.
    + destruct (Z.ltb_spec iter (max_iter s)); [lia|].
      exists s, iter, md. split; [reflexivity|]. split; [apply same_config_refl|].
      split; [by right|]. split; [by left|]. exists 0%Z. lia.
    + exists s, iter, md. split; [reflexivity|]. split; [apply same_config_refl|].
      split; [by left|]. split; [by left|]. exists 0%Z. lia.
  - simpl. destruct (fgt md (tol s) && (iter <? max_iter s)%Z) eqn:Et.
    + apply andb_true_iff in Et as [_ Hlt]. apply Z.ltb_lt in Hlt.
      destruct (sweep_chunk_config s) as (Ht & Hm & Hch & Hd).
      destruct (IH (sweep_chunk s)
                   (fmax (nh_max_deviation (nodes3 (nodes (sweep_chunk s))))
                         (max_deviation (edges33 (sweep_chunk s))))
                   (iter + iteration_chunk_size (sweep_chunk s))%Z)
        as (s' & iter' & md' & Hrun & Hcfg & Hexit & Hbound & k & Hk & Hiter).
      * rewrite Hch. exact Hc.
      * rewrite Hm, Hch. lia.
      * exists s', iter', md'. split; [exact Hrun|].
        split; [eapply same_config_trans; [apply sweep_chunk_config | exact Hcfg]|].
        rewrite Ht, Hm in Hexit. split; [exact Hexit|].
        rewrite Hm, Hch in Hbound. split; [right; lia|].
        exists (k + 1)%Z. rewrite Hch in Hiter. split; lia.
    + exists s, iter, md. split; [reflexivity|]. split; [apply same_config_refl|].
      split; [|split; [by left | exists 0%Z; lia]].
      apply andb_false_iff in Et as [Et | Et]; [by left|].
      right. apply Z.ltb_ge in Et. exact Et.
Qed.

Lemma solve_init_config (s : RotamerSidechain F G) : same_config s (solve_init s).
Proof.
  unfold solve_init.
  eapply same_config_trans; [apply with_holders_config|].
  eapply same_config_trans; [apply calculate_new_beliefs_config|].
  apply with_holders_config.
Qed.

Lemma solve_finish_config (s : RotamerSidechain F G) : same_config s (solve_finish s).
Proof. apply with_holders_config. Qed.

Section Ordered.
Context {FC : FloatCompare F}.

(** C4: with [iteration_chunk_size >= 1] and
    [max_iter + iteration_chunk_size <= 2^31], from every state,
    [solve_for_marginals] returns (some amount of fuel is enough, and any
    larger amount gives the same result); for the pair
    [(iter, max_deviation)] it returns, the loop test [max_deviation > tol]
    is false or [iter >= max_iter]; when neither [max_deviation] nor [tol]
    is a NaN, that is [max_deviation <= tol] or [iter >= max_iter];
    [iter] is a multiple of [iteration_chunk_size].  The counter stays in
    [0, 2^31), so the [int] of the source holds every value it takes. *)
Theorem solve_for_marginals_terminates (s : RotamerSidechain F G) :
  (1 <= iteration_chunk_size s)%Z ->
  (max_iter s + iteration_chunk_size s <= 2 ^ 31)%Z ->
  exists fuel s' iter max_dev,
    (forall fuel', (fuel <= fuel')%nat ->
                   solve_for_marginals fuel' s = Some (s', (iter, max_dev))) /\
    (fgt max_dev (tol s) = false \/ (max_iter s <= iter)%Z) /\
    (not_nan max_dev -> not_nan (tol s) ->
     fle max_dev (tol s) = true \/ (max_iter s <= iter)%Z) /\
    (exists k, (0 <= k)%Z /\ iter = (k * iteration_chunk_size s)%Z) /\
    (0 <= iter < 2 ^ 31)%Z /\
    (iter = 0%Z \/ (iter < max_iter s + iteration_chunk_size s)%Z).
Proof.
  intros Hc Hint.
  destruct (solve_init_config s) as (Ht & Hm & Hch & Hd).
  destruct (solve_loop_terminates (Z.to_nat (max_iter s)) (solve_init s) f_huge 0)
    as (s1 & iter & md & Hrun & Hcfg & Hexit & Hbound & k & Hk & Hiter).
  { rewrite Hch. exact Hc. }
  { rewrite Hm. lia. }
  rewrite Ht, Hm in Hexit. rewrite Hm, Hch in Hbound. rewrite Hch in Hiter.
  exists (Z.to_nat (max_iter s)), (solve_finish s1), iter, md.
  split; [|split; [|split; [|split; [|split]]]].
  - intros fuel' Hle. unfold solve_for_marginals.
    rewrite (solve_loop_mono _ fuel' _ _ _ _ Hrun Hle). reflexivity.
  - exact Hexit.
  - intros Hmd Htol. destruct Hexit as [Hgt | Hit]; [left | by right].
    unfold fgt in Hgt. by apply fc_total.
  - exists k. split; [exact Hk | lia].
  - nia.
  - exact Hbound.
Qed.
End Ordered.
End SolveTheory.

Lemma solve_for_marginals_terminates_witness :
  let s : RotamerSidechain spec_float unit := ex_state1 in
  ((1 <= iteration_chunk_size s)%Z /\
   (max_iter s + iteration_chunk_size s <= 2 ^ 31)%Z) /\
  exists fuel s' iter max_dev,
    (forall fuel', (fuel <= fuel')%nat ->
                   solve_for_marginals fuel' s = Some (s', (iter, max_dev))) /\
    (fgt max_dev (tol s) = false \/ (max_iter s <= iter)%Z) /\
    (not_nan max_dev -> not_nan (tol s) ->
     fle max_dev (tol s) = true \/ (max_iter s <= iter)%Z) /\
    (exists k, (0 <= k)%Z /\ iter = (k * iteration_chunk_size s)%Z) /\
    (0 <= iter < 2 ^ 31)%Z /\
    (iter = 0%Z \/ (iter < max_iter s + iteration_chunk_size s)%Z).
Proof.
  intros s.
  assert (Hc : (1 <= iteration_chunk_size s)%Z) by (vm_compute; discriminate).
  assert (Hi : (max_iter s + iteration_chunk_size s <= 2 ^ 31)%Z)
    by (vm_compute; discriminate).
  split; [split; [exact Hc | exact Hi]|].
  exact (solve_for_marginals_terminates s Hc Hi).
Defined.

(** C4, as stated, fails where the deviation is a NaN.  With a one-body
    energy of 200 on the three rotamers of residue 0, their probabilities
    are 0, the first sweep divides 0 by the largest belief 0, and
    [max_deviation] is a NaN after the first chunk: the loop test
    [max_deviation > tol] is false and the call returns with
    [iter = 2 < max_iter = 4] although [max_deviation <= tol] is false as
    well. *)
Lemma solve_for_marginals_returns_nan_deviation :
  let s := ex_state_underflow in
  iteration_chunk_size s = 2%Z /\ max_iter s = 4%Z /\
  exists s',
    (forall fuel, (1 <= fuel)%nat ->
                  solve_for_marginals fuel s = Some (s', (2%Z, Binary32.nan))) /\
    fle Binary32.nan (tol s) = false /\ (2 <? max_iter s)%Z = true.
Proof.
  intros s. split; [vm_compute; reflexivity|]. split; [vm_compute; reflexivity|].
  destruct (solve_for_marginals 1 s) as [[s' r]|] eqn:E; [|vm_compute in E; discriminate].
  assert (Er : r = (2%Z, Binary32.nan)).
  { assert (H : option_map snd (solve_for_marginals 1 s) = Some (2%Z, Binary32.nan))
      by (vm_compute; reflexivity).
    rewrite E in H. simpl in H. congruence. }
  subst r. exists s'. split; [|split; vm_compute; reflexivity].
  intros fuel Hf. unfold solve_for_marginals in *.
  destruct (solve_loop 1 (solve_init s) f_huge 0) as [[s1 r1]|] eqn:El; [|discriminate].
  rewrite (solve_loop_mono 1 fuel _ _ _ _ El Hf). exact E.
Qed.

(** ** calculate_energy_from_marginals *)

Section EnergyTheory.
Context {F : Type} {FO : FloatOps F} {G : Type}.
Context (logf expf : F -> F) (n_bit_rotamer : Z).
Context (compute_edges : InteractionGraph F G -> InteractionGraph F G).
Context (igraph_propagate_derivatives : InteractionGraph F G -> G).

Lemma fold_left_fadd_map {A} (g : A -> F) (l : list A) (a : F) :
  fold_left (fun en v => fadd en (g v)) l a = fold_left fadd (map g l) a.
Proof.
  revert a. induction l as [|v l IH]; intros a; simpl; [reflexivity | apply IH].
Qed.

Lemma calculate_energy_from_marginals_terms (s : RotamerSidechain F G) :
  calculate_energy_from_marginals logf s = fold_left fadd (energy_terms logf s) f_zero.
Proof.
  unfold calculate_energy_from_marginals, energy_terms.
  rewrite !fold_left_app, <- !fold_left_fadd_map. reflexivity.
Qed.

Lemma propagate_derivatives_holders (s s' : RotamerSidechain F G) :
  propagate_derivatives n_bit_rotamer igraph_propagate_derivatives s = Ok s' ->
  nodes s' = nodes s /\ edges11 s' = edges11 s /\ edges13 s' = edges13 s /\
  edges33 s' = edges33 s /\
  edge_sensitivity (igraph s') = edge_sensitivity (write_edge_sensitivities s).
Proof.
  unfold propagate_derivatives. intros Hp.
  match type of Hp with bind ?m _ = _ => destruct m as [pn| |]; simpl in Hp end;
    [|discriminate..].
  inversion Hp; subst. simpl. repeat split; reflexivity.
Qed.

Lemma calculate_energy_set_edges13 (s : RotamerSidechain F G) (h13 : EdgeHolder F) :
  calculate_energy_from_marginals logf (set_edges s Edges13 h13) =
  calculate_energy_from_marginals logf s.
Proof. reflexivity. Qed.

Lemma calculate_energy_set_potential (s : RotamerSidechain F G) (en : F) :
  calculate_energy_from_marginals logf (set_potential s en) =
  calculate_energy_from_marginals logf s.
Proof. reflexivity. Qed.

Lemma compute_value_ok (fuel : nat) (mode : ComputeMode) (s s' : RotamerSidechain F G) :
  compute_value logf expf n_bit_rotamer compute_edges igraph_propagate_derivatives
                fuel mode s = Some (Ok s') ->
  exists s1 s2 r s3,
    fill_holders expf n_bit_rotamer compute_edges
                 (set_fresh s (ComputeMode_eqb mode PotentialAndDerivMode)) = Ok s1 /\
    solve_for_marginals fuel s1 = Some (s2, r) /\
    propagate_derivatives n_bit_rotamer igraph_propagate_derivatives s2 = Ok s3 /\
    s' = if ComputeMode_eqb mode PotentialAndDerivMode
         then set_potential s3 (calculate_energy_from_marginals logf s3) else s3.
Proof.
  unfold compute_value. intros Hc.
  destruct (fill_holders expf n_bit_rotamer compute_edges _) as [s1| |] eqn:H1;
    [|discriminate Hc..].
  destruct (solve_for_marginals fuel s1) as [[s2 r]|] eqn:H2; [|discriminate Hc].
  destruct (propagate_derivatives n_bit_rotamer igraph_propagate_derivatives s2)
    as [s3| |] eqn:H3; unfold bind in Hc; [|discriminate Hc..].
  exists s1, s2, r, s3. injection Hc as Hc.
  split; [reflexivity|]. split; [exact H2|]. split; [exact H3|].
  symmetry. exact Hc.
Qed.

(** C2: when [compute_value] returns in [PotentialAndDerivMode], [potential]
    is the sum, accumulated from 0 in this order, of [node_free_energy<1>]
    over the elements of [nodes1], [node_free_energy<3>] over the elements
    of [nodes3], [-logf(edges11.prob(0,e))] over the edges of [edges11] and
    [edge_free_energy<3,3>(e)] over the edges of [edges33]; [edges13]
    contributes no term: the value is the same whatever [edges13] holds. *)
Theorem compute_value_potential_is_energy_sum
        (fuel : nat) (s s' : RotamerSidechain F G) :
  compute_value logf expf n_bit_rotamer compute_edges igraph_propagate_derivatives
                fuel PotentialAndDerivMode s = Some (Ok s') ->
  potential s' = fold_left fadd (energy_terms logf s') f_zero /\
  potential s' = calculate_energy_from_marginals logf s' /\
  forall h13 : EdgeHolder F,
    calculate_energy_from_marginals logf (set_edges s' Edges13 h13) = potential s'.
Proof.
  intros Hc. apply compute_value_ok in Hc as (s1 & s2 & r & s3 & _ & _ & _ & ->).
  change (ComputeMode_eqb PotentialAndDerivMode PotentialAndDerivMode) with true.
  cbv iota.
  assert (Hp : potential (set_potential s3 (calculate_energy_from_marginals logf s3)) =
               calculate_energy_from_marginals logf
                 (set_potential s3 (calculate_energy_from_marginals logf s3))).
  { rewrite calculate_energy_set_potential. reflexivity. }
  split; [|split].
  - rewrite Hp. apply calculate_energy_from_marginals_terms.
  - exact Hp.
  - intros h13. rewrite calculate_energy_set_edges13. symmetry. exact Hp.
Qed.
End EnergyTheory.

Lemma compute_value_potential_is_energy_sum_witness :
  let s' : RotamerSidechain spec_float unit := ex_computed in
  compute_value ex_logf ex_expf 4 id (fun _ => tt) 2 PotentialAndDerivMode ex_state0
  = Some (Ok s') /\
  potential s' = fold_left fadd (energy_terms ex_logf s') f_zero /\
  potential s' = calculate_energy_from_marginals ex_logf s' /\
  forall h13 : EdgeHolder spec_float,
    calculate_energy_from_marginals ex_logf (set_edges s' Edges13 h13) = potential s'.
Proof.
  intros s'.
  assert (Hc : compute_value ex_logf ex_expf 4 id (fun _ => tt) 2 PotentialAndDerivMode
                             ex_state0 = Some (Ok s'))
    by (vm_compute; reflexivity).
  split; [exact Hc|].
  exact (compute_value_potential_is_energy_sum ex_logf ex_expf 4 id (fun _ => tt)
           2 ex_state0 s' Hc).
Defined.

(** ** propagate_derivatives *)

Lemma bind_ok {A B} (m : outcome A) (k : A -> outcome B) (b : B) :
  bind m k = Ok b -> exists a, m = Ok a /\ k a = Ok b.
Proof. destruct m as [a| |]; simpl; [eauto | discriminate..]. Qed.

Lemma for_each_invariant {A S} (P : list A -> S -> Prop)
      (body : S -> A -> outcome S) (l : list A) (s s' : S) :
  P [] s ->
  (forall done a s1 s2, P done s1 -> a ∈ l -> body s1 a = Ok s2 -> P (done ++ [a]) s2) ->
  for_each body l s = Ok s' -> P l s'.
Proof.
  intros H0 Hstep.
  assert (Hgen : forall rest done s1,
             (forall a, a ∈ rest -> a ∈ l) -> P done s1 ->
             for_each body rest s1 = Ok s' -> P (done ++ rest) s').
  { induction rest as [|a rest IH]; intros done s1 Hsub Hd Hrun; simpl in Hrun.
    - injection Hrun as <-. by rewrite app_nil_r.
    - destruct (body s1 a) as [s2| |] eqn:Hb; simpl in Hrun; [|discriminate..].
      replace (done ++ a :: rest) with ((done ++ [a]) ++ rest)
        by (by rewrite <- app_assoc).
      apply (IH _ s2); [|eapply Hstep; eauto|exact Hrun].
      + intros a' Ha'. apply Hsub. apply elem_of_cons. by right.
      + apply Hsub. apply elem_of_cons. by left. }
  intros Hrun. apply (Hgen l [] s); auto.
Qed.

Section DerivTheory.
Context {F : Type} {FO : FloatOps F} {G : Type}.
Context (expf : F -> F) (n_bit_rotamer : Z).
Context (compute_edges : InteractionGraph F G -> InteractionGraph F G).
Context (igraph_propagate_derivatives : InteractionGraph F G -> G).

Lemma add_to_edge_edge_nums (e : Z) (p : F) (a r1 b r2 : Z) (h : EdgeHolder F) :
  map edge_num (edge_loc (add_to_edge e p a r1 b r2 h)) =
  map edge_num (edge_loc h) ++ [e].
Proof.
  unfold add_to_edge. destruct (nodes_to_edge h !! edge_key a b); simpl;
    by rewrite map_app.
Qed.

Lemma all_edge_nums_set_edges (s : RotamerSidechain F G) (r : edge_ref)
      (h : EdgeHolder F) (e : Z) :
  map edge_num (edge_loc h) = map edge_num (edge_loc (get_edges s r)) ++ [e] ->
  all_edge_nums (set_edges s r h) ≡ₚ e :: all_edge_nums s.
Proof.
  intros Hh. unfold all_edge_nums. destruct r; simpl in *; rewrite Hh.
  - rewrite <- app_assoc. simpl. by rewrite <- Permutation_middle.
  - rewrite <- !app_assoc. simpl.
    rewrite <- Permutation_middle. rewrite <- Permutation_middle. reflexivity.
  - rewrite !app_assoc. by rewrite <- Permutation_cons_append.
Qed.

Lemma fill_holders_edge_nums (s s' : RotamerSidechain F G) (e : Z) :
  fill_holders_edge expf n_bit_rotamer s e = Ok s' ->
  all_edge_nums s' ≡ₚ e :: all_edge_nums s /\ igraph s' = igraph s.
Proof.
  unfold fill_holders_edge.
  destruct (Z.land _ _ <? Z.land _ _)%Z;
    (destruct (edge_holders_matrix _ _) as [r|]; [|discriminate]);
    intros Hs; injection Hs as <-;
    (split; [apply all_edge_nums_set_edges, add_to_edge_edge_nums | by destruct r]).
Qed.

Lemma move_edges_to_nodes_edges (s : RotamerSidechain F G) :
  edges11 (move_edges_to_nodes s) = edges11 s /\
  edges13 (move_edges_to_nodes s) = edges13 s /\
  edges33 (move_edges_to_nodes s) = edges33 s /\
  igraph (move_edges_to_nodes s) = igraph s.
Proof.
  unfold move_edges_to_nodes. generalize (range2 2 UPPER_ROT). intros l.
  revert s. induction l as [|k l IH]; intros s; simpl; [by repeat split|].
  destruct (edge_holders_matrix 1 k) as [r|]; [|apply IH].
  destruct (IH (set_nodes s (move_edge_prob_to_node2 (get_edges s r) (nodes s))))
    as (H1 & H2 & H3 & H4).
  rewrite H1, H2, H3, H4. by repeat split.
Qed.

(** After [fill_holders] the three [edge_loc] lists together hold every
    source-edge number of the graph exactly once. *)
Lemma fill_holders_all_edge_nums (s s' : RotamerSidechain F G) :
  fill_holders expf n_bit_rotamer compute_edges s = Ok s' ->
  all_edge_nums s' ≡ₚ range (ig_n_edge (igraph s')).
Proof.
  unfold fill_holders. intros Hf.
  apply bind_ok in Hf as (m & _ & Hf). cbv zeta in Hf.
  apply bind_ok in Hf as (s2 & He & Hf). injection Hf as <-.
  destruct (move_edges_to_nodes_edges s2) as (H1 & H2 & H3 & H4).
  unfold all_edge_nums at 1. rewrite H1, H2, H3, H4. fold (all_edge_nums s2).
  match type of He with
  | for_each _ ?l ?st = _ =>
      assert (Hinv : all_edge_nums s2 ≡ₚ l /\ igraph s2 = igraph st)
  end.
  { eapply (for_each_invariant
              (fun done st' => all_edge_nums st' ≡ₚ done /\ igraph st' = _));
      [| |exact He].
    - split; reflexivity.
    - intros done a st st' [Hd Hgd] _ Hb.
      apply fill_holders_edge_nums in Hb as [Hb Hg']. split; [|congruence].
      rewrite Hb, Hd. apply Permutation_cons_append. }
  destruct Hinv as [Hp Hg]. rewrite Hg. exact Hp.
Qed.

Lemma same_edge_maps_refl (s : RotamerSidechain F G) : same_edge_maps s s.
Proof. by repeat split. Qed.

Lemma same_edge_maps_trans (s1 s2 s3 : RotamerSidechain F G) :
  same_edge_maps s1 s2 -> same_edge_maps s2 s3 -> same_edge_maps s1 s3.
Proof. unfold same_edge_maps. intuition congruence. Qed.

Lemma update_beliefs_edge_loc (N1 N2 : Z) (d : F) (m : Nodes F) (h : EdgeHolder F) :
  edge_loc (update_beliefs N1 N2 d m h).2 = edge_loc h.
Proof.
  unfold update_beliefs. generalize (range (n_edge h)). intros l.
  assert (Hgen : forall st : Nodes F * EdgeHolder F,
             edge_loc (fold_left (update_beliefs_edge N1 N2 d) l st).2 = edge_loc st.2).
  { induction l as [|e l IH]; intros st; simpl; [reflexivity|].
    rewrite IH. destruct st as [m0 h0]. unfold update_beliefs_edge.
    destruct (cur_edge_beliefs N1 N2 m0 h0 e). reflexivity. }
  apply Hgen.
Qed.

Lemma calculate_new_beliefs_edge_maps (d : F) (s : RotamerSidechain F G) :
  same_edge_maps s (calculate_new_beliefs d s).
Proof.
  unfold calculate_new_beliefs.
  pose proof (update_beliefs_edge_loc 3 3 d
                (assign (nodes s) Nodes3
                   (set_nh_cur_belief (nodes3 (nodes s)) (nh_prob (nodes3 (nodes s)))))
                (edges33 s)) as Hu.
  destruct (update_beliefs 3 3 d _ _) as [m e33]. by repeat split.
Qed.

Lemma sweep_chunk_edge_maps (s : RotamerSidechain F G) : same_edge_maps s (sweep_chunk s).
Proof.
  unfold sweep_chunk. generalize (range (iteration_chunk_size s)). intros l.
  assert (Hgen : forall s0, same_edge_maps s s0 ->
            same_edge_maps s
              (fold_left (fun (s1 : RotamerSidechain F G) (_ : Z) =>
                  let s2 := with_holders s1
                              (assign (nodes s1) Nodes3 (nh_swap_beliefs (nodes3 (nodes s1))))
                              (edges11 s1) (edges13 s1) (swap_beliefs (edges33 s1)) in
                  calculate_new_beliefs (damping s2) s2) l s0)).
  { induction l as [|j l IH]; intros s0 Hs0; simpl; [exact Hs0|].
    apply IH. eapply same_edge_maps_trans; [exact Hs0|].
    eapply same_edge_maps_trans; [|apply calculate_new_beliefs_edge_maps].
    by repeat split. }
  apply Hgen, same_edge_maps_refl.
Qed.

Lemma solve_loop_edge_maps (fuel : nat) :
  forall (s s' : RotamerSidechain F G) md iter r,
    solve_loop fuel s md iter = Some (s', r) -> same_edge_maps s s'.
Proof.
  induction fuel as [|fuel IH]; intros s s' md iter r Hrun; simpl in Hrun.
  - destruct (fgt md (tol s) && (iter <? max_iter s)%Z); [discriminate|].
    injection Hrun as <- _. apply same_edge_maps_refl.
  - destruct (fgt md (tol s) && (iter <? max_iter s)%Z).
    + eapply same_edge_maps_trans; [apply sweep_chunk_edge_maps|].
      eapply IH. exact Hrun.
    + injection Hrun as <- _. apply same_edge_maps_refl.
Qed.

Lemma solve_for_marginals_edge_maps (fuel : nat) (s s' : RotamerSidechain F G) r :
  solve_for_marginals fuel s = Some (s', r) -> same_edge_maps s s'.
Proof.
  unfold solve_for_marginals. intros Hs.
  destruct (solve_loop fuel (solve_init s) f_huge 0) as [[s1 r1]|] eqn:Hl;
    [|discriminate].
  injection Hs as <- _.
  assert (Hi : same_edge_maps s (solve_init s)).
  { unfold solve_init.
    eapply same_edge_maps_trans; [|by repeat split].
    eapply same_edge_maps_trans; [|apply calculate_new_beliefs_edge_maps].
    by repeat split. }
  eapply same_edge_maps_trans; [exact Hi|].
  eapply same_edge_maps_trans; [eapply solve_loop_edge_maps; exact Hl|].
  by repeat split.
Qed.

Lemma same_edge_maps_nums (s s' : RotamerSidechain F G) :
  same_edge_maps s s' -> all_edge_nums s' = all_edge_nums s.
Proof. intros (H1 & H2 & H3). unfold all_edge_nums. by rewrite H1, H2, H3. Qed.

(** A loop [for(el: l) edge_sensitivity[el.edge_num] = val(el)]. *)
Lemma write_loop_other (val : EdgeLoc -> F) (l : list EdgeLoc)
      (g : InteractionGraph F G) (k : Z) :
  k ∉ map edge_num l ->
  edge_sensitivity
    (fold_left (fun g el => set_edge_sensitivity g (edge_num el) (val el)) l g) k
  = edge_sensitivity g k.
Proof.
  revert g. induction l as [|el l IH]; intros g Hk; simpl; [reflexivity|].
  simpl in Hk. apply not_elem_of_cons in Hk as [Hne Hk].
  rewrite IH by exact Hk. simpl.
  destruct (Z.eqb_spec k (edge_num el)); [contradiction | reflexivity].
Qed.

Lemma write_loop_written (val : EdgeLoc -> F) (l : list EdgeLoc)
      (g : InteractionGraph F G) (el : EdgeLoc) :
  NoDup (map edge_num l) -> el ∈ l ->
  edge_sensitivity
    (fold_left (fun g el => set_edge_sensitivity g (edge_num el) (val el)) l g)
    (edge_num el)
  = val el.
Proof.
  revert g. induction l as [|el0 l IH]; intros g Hnd Hin; simpl.
  - by apply elem_of_nil in Hin.
  - simpl in Hnd. apply NoDup_cons in Hnd as [Hfresh Hnd].
    apply elem_of_cons in Hin as [-> | Hin].
    + rewrite write_loop_other by exact Hfresh. simpl.
      by rewrite Z.eqb_refl.
    + by apply IH.
Qed.

(** C3: after [fill_holders], [solve_for_marginals] and
    [propagate_derivatives], for every entry [(src, dim, e)] of
    [edges11.edge_loc] the graph has [edge_sensitivity[src] = 1]; for every
    entry of [edges13.edge_loc] it has
    [nodes3.cur_belief(dim, edges13.edge_indices2[e])]; and for every entry
    of [edges33.edge_loc] it has [edges33.marginal(dim, e)]. *)
Theorem propagate_derivatives_edge_sensitivity
        (fuel : nat) (s0 s1 s2 s3 : RotamerSidechain F G) (r : Z * F) :
  fill_holders expf n_bit_rotamer compute_edges s0 = Ok s1 ->
  solve_for_marginals fuel s1 = Some (s2, r) ->
  propagate_derivatives n_bit_rotamer igraph_propagate_derivatives s2 = Ok s3 ->
  (forall el, el ∈ edge_loc (edges11 s3) ->
     edge_sensitivity (igraph s3) (edge_num el) = f_one) /\
  (forall el, el ∈ edge_loc (edges13 s3) ->
     edge_sensitivity (igraph s3) (edge_num el) =
     nh_cur_belief (nodes3 (nodes s3)) (dim el)
                   (buf_get 0%Z (edge_indices2 (edges13 s3)) (ne el))) /\
  (forall el, el ∈ edge_loc (edges33 s3) ->
     edge_sensitivity (igraph s3) (edge_num el) =
     sv_get (marginal (edges33 s3)) (dim el) (ne el)).
Proof.
  intros Hfill Hsolve Hprop.
  assert (Hnd : NoDup (all_edge_nums s2)).
  { rewrite (same_edge_maps_nums s1 s2)
      by (eapply solve_for_marginals_edge_maps; exact Hsolve).
    rewrite (fill_holders_all_edge_nums _ _ Hfill). apply NoDup_range. }
  apply propagate_derivatives_holders in Hprop as (Hn & H11 & H13 & H33 & Hsens).
  rewrite Hn, H11, H13, H33, Hsens. clear Hn H11 H13 H33 Hsens s3.
  unfold all_edge_nums in Hnd.
  apply NoDup_app in Hnd as (Hnd11 & Hdisj11 & Hnd).
  apply NoDup_app in Hnd as (Hnd13 & Hdisj13 & Hnd33).
  unfold write_edge_sensitivities.
  split; [|split]; intros el Hel.
  - assert (Hin : edge_num el ∈ map edge_num (edge_loc (edges11 s2)))
      by (by apply list_elem_of_fmap_2).
    specialize (Hdisj11 _ Hin). rewrite elem_of_app in Hdisj11.
    rewrite write_loop_other by tauto.
    rewrite write_loop_other by tauto.
    by rewrite (write_loop_written (fun _ => f_one)).
  - assert (Hin : edge_num el ∈ map edge_num (edge_loc (edges13 s2)))
      by (by apply list_elem_of_fmap_2).
    rewrite write_loop_other by (by apply Hdisj13).
    by rewrite (write_loop_written
                  (fun el => nh_cur_belief (nodes3 (nodes s2)) (dim el)
                               (buf_get 0%Z (edge_indices2 (edges13 s2)) (ne el)))).
  - by rewrite (write_loop_written
                  (fun el => sv_get (marginal (edges33 s2)) (dim el) (ne el))).
Qed.
End DerivTheory.

Lemma propagate_derivatives_edge_sensitivity_witness :
  let s0 : RotamerSidechain spec_float unit := ex_state0 in
  let s1 : RotamerSidechain spec_float unit := ex_state1 in
  let s2 : RotamerSidechain spec_float unit := ex_state2 in
  let s3 : RotamerSidechain spec_float unit := ex_state3 in
  fill_holders ex_expf 4 id s0 = Ok s1 /\
  solve_for_marginals 2 s1 = Some (s2, (2%Z, f_zero)) /\
  propagate_derivatives 4 (fun _ => tt) s2 = Ok s3 /\
  map edge_num (edge_loc (edges11 s3)) = [3%Z] /\
  map edge_num (edge_loc (edges13 s3)) = [1%Z] /\
  map edge_num (edge_loc (edges33 s3)) = [0%Z; 2%Z] /\
  (forall el, el ∈ edge_loc (edges11 s3) ->
     edge_sensitivity (igraph s3) (edge_num el) = f_one) /\
  (forall el, el ∈ edge_loc (edges13 s3) ->
     edge_sensitivity (igraph s3) (edge_num el) =
     nh_cur_belief (nodes3 (nodes s3)) (dim el)
                   (buf_get 0%Z (edge_indices2 (edges13 s3)) (ne el))) /\
  (forall el, el ∈ edge_loc (edges33 s3) ->
     edge_sensitivity (igraph s3) (edge_num el) =
     sv_get (marginal (edges33 s3)) (dim el) (ne el)).
Proof.
  intros s0 s1 s2 s3.
  assert (H1 : fill_holders ex_expf 4 id s0 = Ok s1) by (vm_compute; reflexivity).
  assert (H2 : solve_for_marginals 2 s1 = Some (s2, (2%Z, f_zero)))
    by (vm_compute; reflexivity).
  assert (H3 : propagate_derivatives 4 (fun _ => tt) s2 = Ok s3)
    by (vm_compute; reflexivity).
  split; [exact H1|]. split; [exact H2|]. split; [exact H3|].
  split; [vm_compute; reflexivity|]. split; [vm_compute; reflexivity|].
  split; [vm_compute; reflexivity|].
  exact (propagate_derivatives_edge_sensitivity ex_expf 4 id (fun _ => tt)
           2 s0 s1 s2 s3 (2%Z, f_zero) H1 H2 H3).
Defined.

(** ** update_beliefs *)

Section BeliefTheory.
Context {F : Type} {FO : FloatOps F}.

Lemma vset_insert (v : Vec F) (i : nat) (a : F) :
  vset v (Z.of_nat i) a = <[i := a]> v.
Proof.
  unfold vset. destruct (Z.ltb_spec (Z.of_nat i) 0); [lia|]. by rewrite Nat2Z.id.
Qed.

Lemma vnth_nth (v : Vec F) (i : nat) : vnth v (Z.of_nat i) = nth i v f_zero.
Proof.
  unfold vnth. destruct (Z.ltb_spec (Z.of_nat i) 0); [lia|]. by rewrite Nat2Z.id.
Qed.

Lemma map_vnth_range (v : Vec F) : map (vnth v) (range (Z.of_nat (length v))) = v.
Proof.
  unfold range. rewrite Nat2Z.id, map_map.
  apply list_eq. intros i. rewrite list_lookup_fmap.
  destruct (decide (i < length v)%nat) as [Hi | Hi].
  - rewrite lookup_seq_lt by exact Hi. simpl. rewrite vnth_nth.
    destruct (lookup_lt_is_Some_2 v i Hi) as [a Ha].
    rewrite Ha. f_equal. by apply nth_lookup_Some with (d := f_zero) in Ha.
  - rewrite lookup_seq_ge by lia. simpl. symmetry. apply lookup_ge_None. lia.
Qed.

(** A loop [for(i: range(n)) v[i+off] = g(i)] over a vector long enough. *)
Lemma fold_vset (n off : nat) (g : Z -> F) (v : Vec F) :
  (off + n <= length v)%nat ->
  fold_left (fun v i => vset v (i + Z.of_nat off) (g i)) (range (Z.of_nat n)) v =
  take off v ++ map g (range (Z.of_nat n)) ++ drop (off + n) v.
Proof.
  induction n as [|n IH]; intros Hlen.
  - simpl. by rewrite Nat.add_0_r, take_drop.
  - rewrite Nat2Z.inj_succ, <- Z.add_1_r, range_succ by lia.
    rewrite fold_left_app, IH by lia. simpl.
    replace (Z.of_nat n + Z.of_nat off)%Z with (Z.of_nat (off + n)) by lia.
    rewrite vset_insert.
    assert (Hoff : length (take off v) = off) by (apply length_take_le; lia).
    assert (Hmid : length (map g (range (Z.of_nat n))) = n).
    { unfold range. rewrite !length_map, length_seq. lia. }
    rewrite insert_app_r_alt by lia. rewrite Hoff.
    rewrite insert_app_r_alt by lia. rewrite Hmid.
    replace (off + n - off - n)%nat with 0%nat by lia.
    destruct (lookup_lt_is_Some_2 v (off + n)) as [y Hy]; [lia|].
    rewrite (drop_S _ _ _ Hy). simpl.
    rewrite map_app. simpl. rewrite <- app_assoc. simpl.
    replace (off + S n)%nat with (S (off + n)) by lia. reflexivity.
Qed.

(** The vector [update_beliefs] stores for an edge is [(1-d)] times the
    two rescaled messages: every component of [damping*old_belief] it was
    started with is overwritten. *)
Lemma new_edge_belief_overwrites (N1 N2 : nat) (d : F) (old_b c1 c2 : Vec F) :
  length old_b = (N1 + N2)%nat -> length c1 = N1 -> length c2 = N2 ->
  new_edge_belief (Z.of_nat N1) (Z.of_nat N2) d old_b c1 c2 =
  vec_scale (fsub f_one d) (c1 ++ c2).
Proof.
  intros Hold H1 H2. unfold new_edge_belief.
  rewrite (foldl_ext (fun v i => vset v i (fmul (fsub f_one d) (vnth c1 i)))
                     (fun v i => vset v (i + Z.of_nat 0)
                                      (fmul (fsub f_one d) (vnth c1 i))))
    by (intros v i; by rewrite Z.add_0_r).
  rewrite (fold_vset N1 0) by (unfold vec_scale; rewrite length_map; lia).
  rewrite (fold_vset N2 N1).
  2:{ simpl. rewrite length_app, length_map, length_drop.
      unfold range, vec_scale. rewrite !length_map, length_seq. lia. }
  simpl.
  assert (Hmid : forall c : Vec F,
             map (fun i => fmul (fsub f_one d) (vnth c i)) (range (Z.of_nat (length c)))
             = vec_scale (fsub f_one d) c).
  { intros c. rewrite <- (map_map (vnth c) (fmul (fsub f_one d))).
    by rewrite map_vnth_range. }
  rewrite <- H1, <- H2, !Hmid.
  rewrite take_app_length' by (unfold vec_scale; by rewrite length_map).
  rewrite drop_ge.
  2:{ rewrite length_app, length_drop. unfold vec_scale. rewrite !length_map. lia. }
  unfold vec_scale. by rewrite app_nil_r, map_app.
Qed.
End BeliefTheory.

Section BeliefLoopTheory.
Context {F : Type} {FO : FloatOps F}.

(** A loop [for(j: l) a(j, e) = g(j)] on a storage. *)
Lemma store_loop_spec (l : list Z) (a : SimdVecArrayStorage F) (e : Z) (g : Z -> F) :
  storage_wf a -> (0 <= e < n_elem a)%Z ->
  (forall j, j ∈ l -> (0 <= j < elem_width a)%Z) ->
  let a' := fold_left (fun p j => sv_set p j e (g j)) l a in
  storage_wf a' /\ elem_width a' = elem_width a /\ n_elem a' = n_elem a /\
  forall c' e', (0 <= c' < elem_width a)%Z -> (0 <= e')%Z ->
    sv_get a' c' e' = if decide (c' ∈ l /\ e' = e) then g c' else sv_get a c' e'.
Proof.
  revert a. induction l as [|j l IH]; intros a Hwf He Hl; cbv zeta; cbn [fold_left].
  - split; [exact Hwf|]. split; [reflexivity|]. split; [reflexivity|].
    intros c' e' Hc' He'.
    case_decide as Hd; [|reflexivity]. destruct Hd as [Hin _].
    by apply elem_of_nil in Hin.
  - destruct (IH (sv_set a j e (g j))) as (Hwf' & Hw' & Hn' & Hget).
    + by apply sv_set_wf.
    + exact He.
    + intros j' Hj'. apply Hl. apply elem_of_cons. by right.
    + split; [exact Hwf'|]. split; [exact Hw'|]. split; [exact Hn'|].
      intros c' e' Hc' He'. cbv zeta in Hget. rewrite Hget by assumption.
      assert (Hj : (0 <= j < elem_width a)%Z) by (apply Hl, elem_of_cons; by left).
      destruct (decide (c' ∈ l /\ e' = e)) as [[Hin ->]|Hnin].
      * rewrite decide_True; [reflexivity|]. split; [apply elem_of_cons; by right | done].
      * destruct (decide ((j, e) = (c', e'))) as [Heq | Hne].
        -- injection Heq as <- <-. rewrite sv_get_set_eq by assumption.
           rewrite decide_True; [reflexivity|]. split; [apply elem_of_cons; by left | done].
        -- rewrite sv_get_set_ne by (try lia; assumption).
           destruct (decide (c' ∈ j :: l /\ e' = e)) as [[Hin ->]|_]; [|reflexivity].
           apply elem_of_cons in Hin as [-> | Hin]; [congruence | tauto].
Qed.

Lemma store_vec_spec (a : SimdVecArrayStorage F) (e : Z) (r : Vec F) :
  storage_wf a -> (0 <= e < n_elem a)%Z -> Z.of_nat (length r) = elem_width a ->
  storage_wf (store_vec a e r) /\
  elem_width (store_vec a e r) = elem_width a /\
  n_elem (store_vec a e r) = n_elem a /\
  load_vec (elem_width a) (store_vec a e r) e = r /\
  forall e', (0 <= e')%Z -> e' <> e ->
    load_vec (elem_width a) (store_vec a e r) e' = load_vec (elem_width a) a e'.
Proof.
  intros Hwf He Hlen. unfold store_vec.
  destruct (store_loop_spec (range (Z.of_nat (length r))) a e (vnth r) Hwf He)
    as (Hwf' & Hw' & Hn' & Hget).
  { intros j Hj. apply elem_of_range in Hj. lia. }
  cbv zeta in Hget.
  split; [exact Hwf'|]. split; [exact Hw'|]. split; [exact Hn'|].
  unfold load_vec. split.
  - transitivity (map (vnth r) (range (Z.of_nat (length r))));
      [|apply map_vnth_range].
    rewrite <- Hlen. apply map_ext_in. intros k Hk. apply list_elem_of_In, elem_of_range in Hk.
    rewrite Hget by lia. rewrite decide_True; [reflexivity|].
    split; [apply elem_of_range; lia | reflexivity].
  - intros e' He' Hne. apply map_ext_in.
    intros k Hk. apply list_elem_of_In, elem_of_range in Hk.
    rewrite Hget by lia. rewrite decide_False; [reflexivity|]. tauto.
Qed.

Lemma edge_frame_refl (st : Nodes F * EdgeHolder F) : edge_frame st st.
Proof. by repeat split. Qed.

Lemma edge_frame_trans (st1 st2 st3 : Nodes F * EdgeHolder F) :
  edge_frame st1 st2 -> edge_frame st2 st3 -> edge_frame st1 st3.
Proof. unfold edge_frame. intuition congruence. Qed.

Lemma length_load_vec (d : Z) (a : SimdVecArrayStorage F) (e : Z) :
  length (load_vec d a e) = Z.to_nat d.
Proof. unfold load_vec, range. by rewrite !length_map, length_seq. Qed.

Lemma length_cur_edge_beliefs (N1 N2 : Z) (m : Nodes F) (h : EdgeHolder F) (e : Z) :
  length (cur_edge_beliefs N1 N2 m h e).1 = Z.to_nat N1 /\
  length (cur_edge_beliefs N1 N2 m h e).2 = Z.to_nat N2.
Proof.
  unfold cur_edge_beliefs, vec_scale_r, left_multiply_matrix, right_multiply_matrix,
    range. simpl. by rewrite !length_map, !length_seq.
Qed.

Lemma cur_edge_beliefs_frame (N1 N2 : Z) (st0 st : Nodes F * EdgeHolder F) (e : Z) :
  edge_frame st0 st ->
  cur_edge_beliefs N1 N2 st.1 st.2 e = cur_edge_beliefs N1 N2 st0.1 st0.2 e.
Proof.
  intros (Hp & Ho & H1 & H2 & Hn1 & Hn2 & _ & Hb1 & Hb3).
  unfold cur_edge_beliefs. rewrite Hp, Ho, H1, H2, Hn1, Hn2.
  assert (Hd : forall r, nh_old_belief (deref st.1 r) = nh_old_belief (deref st0.1 r))
    by (intros []; assumption).
  by rewrite !Hd.
Qed.

Lemma update_beliefs_edge_step (N1 N2 : Z) (d : F) (st : Nodes F * EdgeHolder F) (e : Z) :
  edge_frame st (update_beliefs_edge N1 N2 d st e) /\
  cur_belief (update_beliefs_edge N1 N2 d st e).2 =
  store_vec (cur_belief st.2) e
    (new_edge_belief N1 N2 d (load_vec (N1 + N2) (old_belief st.2) e)
       (cur_edge_beliefs N1 N2 st.1 st.2 e).1 (cur_edge_beliefs N1 N2 st.1 st.2 e).2).
Proof.
  destruct st as [m h]. cbn [fst snd]. unfold update_beliefs_edge.
  destruct (cur_edge_beliefs N1 N2 m h e) as [c1 c2].
  cbn [fst snd]. split; [|reflexivity].
  unfold edge_frame. simpl.
  destruct (eh_nodes1 h), (eh_nodes2 h); simpl; repeat split; reflexivity.
Qed.

(** What the loop of [update_beliefs] leaves in [cur_belief] for the
    edges it visited. *)
Lemma update_beliefs_loop (N1 N2 : nat) (d : F) (st0 : Nodes F * EdgeHolder F) :
  forall (l : list Z) (st : Nodes F * EdgeHolder F),
    NoDup l ->
    (forall e, e ∈ l -> (0 <= e < n_elem (cur_belief st.2))%Z) ->
    edge_frame st0 st ->
    storage_wf (cur_belief st.2) ->
    elem_width (cur_belief st.2) = Z.of_nat (N1 + N2) ->
    let st' := fold_left (update_beliefs_edge (Z.of_nat N1) (Z.of_nat N2) d) l st in
    forall e, (0 <= e)%Z ->
      load_vec (Z.of_nat (N1 + N2)) (cur_belief st'.2) e =
      if decide (e ∈ l)
      then scaled_messages (Z.of_nat N1) (Z.of_nat N2) d st0.1 st0.2 e
      else load_vec (Z.of_nat (N1 + N2)) (cur_belief st.2) e.
Proof.
  induction l as [|e0 l IH]; intros st Hnd Hin Hfr Hwf Hw; cbv zeta; cbn [fold_left].
  - intros e He. rewrite decide_False; [reflexivity | apply not_elem_of_nil].
  - apply NoDup_cons in Hnd as [Hfresh Hnd].
    destruct (update_beliefs_edge_step (Z.of_nat N1) (Z.of_nat N2) d st e0)
      as [Hstep Hcur].
    set (st1 := update_beliefs_edge (Z.of_nat N1) (Z.of_nat N2) d st e0) in *.
    destruct (length_cur_edge_beliefs (Z.of_nat N1) (Z.of_nat N2) st.1 st.2 e0)
      as [Hl1 Hl2].
    rewrite new_edge_belief_overwrites in Hcur
      by (rewrite ?length_load_vec, ?Hl1, ?Hl2; lia).
    assert (He0 : (0 <= e0 < n_elem (cur_belief st.2))%Z)
      by (apply Hin, elem_of_cons; by left).
    destruct (store_vec_spec (cur_belief st.2) e0
                (vec_scale (fsub f_one d)
                   ((cur_edge_beliefs (Z.of_nat N1) (Z.of_nat N2) st.1 st.2 e0).1 ++
                    (cur_edge_beliefs (Z.of_nat N1) (Z.of_nat N2) st.1 st.2 e0).2))
                Hwf He0)
      as (Hwf1 & Hw1 & Hn1 & Hsame & Hother).
    { unfold vec_scale. rewrite length_map, length_app, Hl1, Hl2, Hw. lia. }
    rewrite <- Hcur in Hwf1, Hw1, Hn1, Hsame, Hother.
    intros e He.
    rewrite (IH st1); try assumption.
    + destruct (decide (e ∈ l)) as [Hel | Hnel].
      * rewrite decide_True; [reflexivity | apply elem_of_cons; by right].
      * destruct (decide (e = e0)) as [-> | Hne].
        -- rewrite decide_True by (apply elem_of_cons; by left).
           rewrite <- Hw, Hsame. unfold scaled_messages.
           by rewrite (cur_edge_beliefs_frame _ _ st0 st e0 Hfr).
        -- rewrite decide_False.
           ++ rewrite <- Hw. by apply Hother.
           ++ intros Hc. apply elem_of_cons in Hc as [? | ?]; contradiction.
    + intros e' He'. rewrite Hn1. apply Hin, elem_of_cons. by right.
    + eapply edge_frame_trans; eassumption.
    + congruence.
Qed.

(** For every edge, [update_beliefs] leaves in [cur_belief] the vector
    [(1-d)*[m_cur_1; m_cur_2]] of the rescaled messages computed from the
    state it was called in: the old edge belief enters the messages only,
    with no weight [d] of its own. *)
Lemma update_beliefs_stores_scaled_messages (N1 N2 : nat) (d : F)
      (m : Nodes F) (h : EdgeHolder F) (e : Z) :
  storage_wf (cur_belief h) ->
  elem_width (cur_belief h) = Z.of_nat (N1 + N2) ->
  (n_edge h <= n_elem (cur_belief h))%Z ->
  (0 <= e < n_edge h)%Z ->
  load_vec (Z.of_nat (N1 + N2))
           (cur_belief (update_beliefs (Z.of_nat N1) (Z.of_nat N2) d m h).2) e =
  scaled_messages (Z.of_nat N1) (Z.of_nat N2) d m h e.
Proof.
  intros Hwf Hw Hcap He. unfold update_beliefs.
  rewrite (update_beliefs_loop N1 N2 d (m, h) (range (n_edge h)) (m, h)).
  - rewrite decide_True; [reflexivity | by apply elem_of_range].
  - apply NoDup_range.
  - intros e' He'. apply elem_of_range in He'. simpl. lia.
  - apply edge_frame_refl.
  - exact Hwf.
  - exact Hw.
  - lia.
Qed.
End BeliefLoopTheory.

(** C1, evaluated in binary32 on one edge with damping 1/2 and all old
    beliefs 1 (the state [solve_for_marginals] starts from): the two
    rescaled messages are 1, so the spec's
    [(1-d)*[m_1; m_2] + d*old_belief] is 1 in every component, while the
    vector the code stores is [(1-d)*[m_1; m_2]], 1/2 in every component:
    the old edge belief has weight 0, not d. *)
Theorem update_beliefs_drops_old_edge_belief :
  let d := Binary32.half in
  let nd : Nodes spec_float := ex_bp_nodes in
  let h : EdgeHolder spec_float := ex_bp_edges in
  let old_b := load_vec 6 (old_belief h) 0 in
  let cur := cur_edge_beliefs 3 3 nd h 0 in
  let stored := load_vec 6 (cur_belief (update_beliefs 3 3 d nd h).2) 0 in
  n_edge h = 1%Z /\
  old_b = replicate 6 Binary32.one /\
  cur = (replicate 3 Binary32.one, replicate 3 Binary32.one) /\
  damped_edge_belief d old_b cur.1 cur.2 = replicate 6 Binary32.one /\
  stored = replicate 6 Binary32.half /\
  stored = vec_scale (fsub f_one d) (cur.1 ++ cur.2) /\
  stored <> damped_edge_belief d old_b cur.1 cur.2.
Proof.
  vm_compute. do 6 (split; [reflexivity|]). intros Habs. discriminate Habs.
Qed.

(** ** Rotamer counts the holders do not support *)

Lemma for_each_throws {A S} (body : S -> A -> outcome S) (l : list A) (s : S) msg :
  for_each body l s = Throw msg -> exists s1 a, a ∈ l /\ body s1 a = Throw msg.
Proof.
  revert s. induction l as [|a l IH]; intros s Hrun; simpl in Hrun; [discriminate|].
  destruct (body s a) as [s'|msg'|] eqn:Hb; simpl in Hrun.
  - destruct (IH _ Hrun) as (s1 & a' & Hin & Hb'). exists s1, a'.
    split; [apply elem_of_cons; by right | exact Hb'].
  - injection Hrun as <-. exists s, a. split; [apply elem_of_cons; by left | exact Hb].
  - discriminate Hrun.
Qed.

Lemma for_each_faults {A S} (body : S -> A -> outcome S) (l : list A) (s : S) :
  (forall s1 a msg, body s1 a <> Throw msg) ->
  (exists a, a ∈ l /\ forall s1, body s1 a = Fault) ->
  for_each body l s = Fault.
Proof.
  intros Hnt (a & Hin & Hf). revert s. induction l as [|a' l IH]; intros s.
  - by apply elem_of_nil in Hin.
  - simpl. destruct (body s a') as [s'|msg|] eqn:Hb; simpl.
    + apply elem_of_cons in Hin as [-> | Hin]; [|by apply IH].
      rewrite Hf in Hb. discriminate.
    + exfalso. by eapply Hnt.
    + reflexivity.
Qed.

Section RejectTheory.
Context {F : Type} {FO : FloatOps F} {G : Type}.
Context (expf : F -> F) (n_bit_rotamer : Z).
Context (compute_edges : InteractionGraph F G -> InteractionGraph F G).

Lemma bead_rot_nonneg (g : InteractionGraph F G) (n : Z) :
  (0 <= buf_get 0%Z (id1 g) n)%Z -> (0 <= bead_rot n_bit_rotamer g n)%Z.
Proof.
  intros Hid. unfold bead_rot, decode_id. simpl. apply Z.land_nonneg. by left.
Qed.

(** The first loop of [calculate_n_elem]. *)
Lemma calculate_n_elem_first_loop (g : InteractionGraph F G) (l : list Z)
      (m : gmap Z (gset Z)) :
  let body := fun (unique_ids : gmap Z (gset Z)) n =>
    let '(rot, n_rot_, id) := decode_id n_bit_rotamer (buf_get 0%Z (id1 g) n) in
    if (n_rot_ <=? rot)%Z then Throw "invalid rotamer number"
    else Ok (<[n_rot_ := {[id]} ∪ default ∅ (unique_ids !! n_rot_)]> unique_ids) in
  ((exists n, n ∈ l /\ (bead_n_rot n_bit_rotamer g n <= bead_rot n_bit_rotamer g n)%Z) /\
   for_each body l m = Throw "invalid rotamer number") \/
  ((forall n, n ∈ l -> (bead_rot n_bit_rotamer g n < bead_n_rot n_bit_rotamer g n)%Z) /\
   exists m', for_each body l m = Ok m' /\
     forall k, is_Some (m' !! k) <->
               is_Some (m !! k) \/ exists n, n ∈ l /\ bead_n_rot n_bit_rotamer g n = k).
Proof.
  intros body. revert m. induction l as [|n l IH]; intros m.
  - right. split; [intros n Hn; by apply elem_of_nil in Hn|].
    exists m. split; [reflexivity|]. intros k. split; [by left|].
    intros [Hk | (n & Hn & _)]; [exact Hk | by apply elem_of_nil in Hn].
  - cbn [for_each]. unfold body at 1 3. unfold bead_rot, bead_n_rot in *.
    destruct (decode_id n_bit_rotamer (buf_get 0%Z (id1 g) n)) as [[rot nrot] id] eqn:Hd.
    destruct (Z.leb_spec nrot rot) as [Hle | Hlt]; cbn [bind].
    + left. split; [|reflexivity]. exists n. split; [apply elem_of_cons; by left|].
      rewrite Hd. exact Hle.
    + destruct (IH (<[nrot := {[id]} ∪ default ∅ (m !! nrot)]> m))
        as [[(n' & Hn' & Hbad) Hthrow] | [Hgood (m' & Hok & Hdom)]].
      * left. split; [|exact Hthrow]. exists n'. split; [apply elem_of_cons; by right|].
        exact Hbad.
      * right. split.
        { intros n' Hn'. apply elem_of_cons in Hn' as [-> | Hn'];
            [rewrite Hd; exact Hlt | by apply Hgood]. }
        exists m'. split; [exact Hok|]. intros k. rewrite Hdom.
        rewrite lookup_insert_is_Some. split.
        -- intros [[<- | [_ Hk]] | (n' & Hn' & Hk)].
           ++ right. exists n. split; [apply elem_of_cons; by left | by rewrite Hd].
           ++ by left.
           ++ right. exists n'. split; [apply elem_of_cons; by right | exact Hk].
        -- intros [Hk | (n' & Hn' & Hk)].
           ++ left. destruct (decide (nrot = k)); [by left | by right].
           ++ apply elem_of_cons in Hn' as [-> | Hn'].
              ** left. left. by rewrite Hd in Hk.
              ** right. exists n'. auto.
Qed.

(** The second loop of [calculate_n_elem]. *)
Lemma calculate_n_elem_second_loop (l : list (Z * gset Z)) (result : list Z) :
  let body := fun (result : list Z) '(k, ids) =>
    if (UPPER_ROT <=? k)%Z then Throw ("invalid rotamer count " +:+ pretty k)
    else array_at_set result k (Z.of_nat (size ids)) in
  length result = 4%nat ->
  ((exists k ids, (k, ids) ∈ l /\ (UPPER_ROT <= k)%Z) ->
   exists msg, for_each body l result = Throw msg) /\
  ((forall k ids, (k, ids) ∈ l -> (0 <= k < UPPER_ROT)%Z) ->
   exists r, for_each body l result = Ok r).
Proof.
  intros body. revert result. induction l as [|[k ids] l IH]; intros result Hlen.
  - split; [intros (k & ids & Hin & _); by apply elem_of_nil in Hin|].
    intros _. exists result. reflexivity.
  - simpl. unfold UPPER_ROT in *. split.
    + intros (k' & ids' & Hin & Hk').
      destruct (Z.leb_spec 4 k) as [Hle | Hlt]; simpl; [eauto|].
      unfold array_at_set.
      destruct ((0 <=? k) && (k <? Z.of_nat (length result)))%Z eqn:Hb; simpl; [|eauto].
      apply elem_of_cons in Hin as [Heq | Hin]; [injection Heq as -> ->; lia|].
      apply IH; [by rewrite length_insert | eauto].
    + intros Hall.
      assert (Hk : (0 <= k < 4)%Z) by (apply (Hall k ids), elem_of_cons; by left).
      destruct (Z.leb_spec 4 k) as [Hle | Hlt]; [lia|]. simpl.
      unfold array_at_set. rewrite Hlen.
      destruct (Z.leb_spec 0 k); [|lia]. destruct (Z.ltb_spec k (Z.of_nat 4)); [|lia].
      simpl. apply IH; [by rewrite length_insert|].
      intros k' ids' Hin. apply (Hall k' ids'), elem_of_cons. by right.
Qed.

(** [calculate_n_elem] throws exactly when some bead has [rot >= n_rot] or
    [n_rot >= UPPER_ROT]; it never follows a null pointer. *)
Lemma calculate_n_elem_throws_iff (g : InteractionGraph F G) :
  (forall n, (0 <= n < n_elem1 g)%Z -> (0 <= buf_get 0%Z (id1 g) n)%Z) ->
  ((exists msg, calculate_n_elem n_bit_rotamer g = Throw msg) <->
   exists n, (0 <= n < n_elem1 g)%Z /\
             ((bead_n_rot n_bit_rotamer g n <= bead_rot n_bit_rotamer g n)%Z \/ (UPPER_ROT <= bead_n_rot n_bit_rotamer g n)%Z)) /\
  calculate_n_elem n_bit_rotamer g <> Fault.
Proof.
  intros Hids. unfold calculate_n_elem.
  destruct (calculate_n_elem_first_loop g (range (n_elem1 g)) ∅)
    as [[(n & Hn & Hbad) Hthrow] | [Hgood (m' & Hok & Hdom)]];
    cbv zeta in *.
  - rewrite Hthrow. simpl. split; [|discriminate]. split; [|eauto].
    intros _. exists n. apply elem_of_range in Hn. auto.
  - rewrite Hok. cbn [bind].
    destruct (calculate_n_elem_second_loop (map_to_list m')
                (replicate (Z.to_nat UPPER_ROT) 0%Z)) as [Hthrow Hfine];
      [reflexivity|]. cbv zeta in *.
    assert (Hkeys : forall k ids, (k, ids) ∈ map_to_list m' ->
                      exists n, (0 <= n < n_elem1 g)%Z /\ bead_n_rot n_bit_rotamer g n = k).
    { intros k ids Hin. apply elem_of_map_to_list in Hin.
      destruct (proj1 (Hdom k)) as [Hk | (n & Hn & Hk)]; [by eexists| |].
      - rewrite lookup_empty in Hk. by destruct Hk.
      - exists n. apply elem_of_range in Hn. auto. }
    assert (Hdec : (exists n, (0 <= n < n_elem1 g)%Z /\ (UPPER_ROT <= bead_n_rot n_bit_rotamer g n)%Z) \/
                   ~ (exists n, (0 <= n < n_elem1 g)%Z /\ (UPPER_ROT <= bead_n_rot n_bit_rotamer g n)%Z)).
    { destruct (decide (Exists (fun n => (UPPER_ROT <= bead_n_rot n_bit_rotamer g n)%Z)
                               (range (n_elem1 g)))) as [Hex | Hnex].
      - left. apply Exists_exists in Hex as (n & Hn & Hbig).
        exists n. apply elem_of_range in Hn. auto.
      - right. intros (n & Hn & Hbig). apply Hnex, Exists_exists.
        exists n. split; [by apply elem_of_range | exact Hbig]. }
    destruct Hdec as [(n & Hn & Hbig) | Hnone].
    + destruct Hthrow as [msg Hmsg].
      * destruct (proj2 (Hdom (bead_n_rot n_bit_rotamer g n))) as [ids Hids'].
        { right. exists n. split; [by apply elem_of_range | reflexivity]. }
        exists (bead_n_rot n_bit_rotamer g n), ids. split; [by apply elem_of_map_to_list | exact Hbig].
      * rewrite Hmsg. split; [|discriminate]. split; [|eauto]. intros _.
        exists n. auto.
    + destruct Hfine as [r Hr].
      * intros k ids Hin. destruct (Hkeys k ids Hin) as (n & Hn & <-).
        assert (Hrn : n ∈ range (n_elem1 g)) by (by apply elem_of_range).
        pose proof (Hgood n Hrn). pose proof (bead_rot_nonneg g n (Hids n Hn)).
        split; [lia|]. destruct (Z.lt_ge_cases (bead_n_rot n_bit_rotamer g n) UPPER_ROT); [assumption|].
        exfalso. apply Hnone. eauto.
      * rewrite Hr. split; [|discriminate]. split; [intros [msg Hmsg]; discriminate|].
        intros (n & Hn & [Hbad | Hbig]).
        -- assert (Hrn : n ∈ range (n_elem1 g)) by (by apply elem_of_range).
           pose proof (Hgood n Hrn). lia.
        -- exfalso. apply Hnone. eauto.
Qed.

Lemma fill_holders_node_not_throw (s : RotamerSidechain F G) (m : Nodes F) (n : Z) msg :
  fill_holders_node expf n_bit_rotamer s m n <> Throw msg.
Proof.
  unfold fill_holders_node.
  destruct (decode_id n_bit_rotamer _) as [[rot nrot] id].
  destruct (node_holders_matrix nrot); discriminate.
Qed.

Lemma fill_holders_edge_not_throw (s : RotamerSidechain F G) (e : Z) msg :
  fill_holders_edge expf n_bit_rotamer s e <> Throw msg.
Proof.
  unfold fill_holders_edge.
  destruct (Z.land _ _ <? Z.land _ _)%Z;
    destruct (edge_holders_matrix _ _); discriminate.
Qed.

(** [fill_holders] has no [throw]: whatever the ids are, it raises no
    error. *)
Lemma fill_holders_never_throws (s : RotamerSidechain F G) msg :
  fill_holders expf n_bit_rotamer compute_edges s <> Throw msg.
Proof.
  unfold fill_holders. intros Hf.
  match type of Hf with
  | bind ?m1 _ = _ => destruct m1 as [m|msg1|] eqn:H1; cbn [bind] in Hf
  end.
  - cbv zeta in Hf.
    match type of Hf with
    | bind ?m2 _ = _ => destruct m2 as [s2|msg2|] eqn:H2; cbn [bind] in Hf
    end; [discriminate| |discriminate].
    apply for_each_throws in H2 as (s1 & e & _ & Hb).
    by apply fill_holders_edge_not_throw in Hb.
  - apply for_each_throws in H1 as (m1 & n & _ & Hb).
    by apply fill_holders_node_not_throw in Hb.
  - discriminate.
Qed.

(** A bead whose [n_rot] has no node holder makes [fill_holders] follow a
    null pointer. *)
Lemma fill_holders_faults (s : RotamerSidechain F G) :
  (exists n, (0 <= n < n_elem1 (igraph s))%Z /\
             node_holders_matrix (bead_n_rot n_bit_rotamer (igraph s) n) = None) ->
  fill_holders expf n_bit_rotamer compute_edges s = Fault.
Proof.
  intros (n & Hn & Hnull). unfold fill_holders.
  rewrite (for_each_faults (fill_holders_node expf n_bit_rotamer (reset_holders s))).
  - reflexivity.
  - intros m a msg. apply fill_holders_node_not_throw.
  - exists n. split; [by apply elem_of_range|].
    intros m. unfold fill_holders_node. unfold bead_n_rot in Hnull.
    change (igraph (reset_holders s)) with (igraph s).
    destruct (decode_id n_bit_rotamer _) as [[rot nrot] id]. simpl in Hnull.
    by rewrite Hnull.
Qed.

(** The one rotamer count that [calculate_n_elem] lets through and the
    holders do not support is 2. *)
Lemma unsupported_and_accepted_is_two (rot n_rot_ : Z) :
  (0 <= rot)%Z -> (rot < n_rot_)%Z -> (n_rot_ < UPPER_ROT)%Z ->
  node_holders_matrix n_rot_ = None -> n_rot_ = 2%Z.
Proof.
  unfold node_holders_matrix, UPPER_ROT. intros H0 H1 H2.
  destruct (Z.eqb_spec n_rot_ 1); [discriminate|].
  destruct (Z.eqb_spec n_rot_ 3); [discriminate|]. lia.
Qed.
End RejectTheory.

(** C5, evaluated on a graph whose only bead has [n_rot = 2] and
    [rot = 0] (id [0x020] with 4-bit fields): [calculate_n_elem] returns
    the counts [0,0,1,0] and the constructor succeeds, no error is thrown;
    [fill_holders] and [compute_value] then follow the null entry
    [node_holders_matrix[2]] instead of raising an error. *)
Theorem n_rot_two_is_not_rejected :
  forall (F : Type) (FO : FloatOps F) (logf expf : F -> F)
         (compute_edges : InteractionGraph F unit -> InteractionGraph F unit)
         (igraph_propagate_derivatives : InteractionGraph F unit -> unit)
         (pn : list (CoordNode F)) (slots : list Z) (d tol_ : F) (mi ch : Z)
         (fuel : nat) (mode : ComputeMode),
    decode_id 4 32 = (0, 2, 0)%Z /\
    calculate_n_elem 4 (ex_graph_two_rotamers (F:=F)) = Ok [0; 0; 1; 0]%Z /\
    exists s : RotamerSidechain F unit,
      mk_RotamerSidechain 4 ex_graph_two_rotamers pn slots d mi tol_ ch = Ok s /\
      fill_holders expf 4 compute_edges s = Fault /\
      compute_value logf expf 4 compute_edges igraph_propagate_derivatives
                    fuel mode s = Some Fault.
Proof.
  intros. split; [reflexivity|]. split; [vm_compute; reflexivity|].
  eexists. split; [vm_compute; reflexivity|]. split; reflexivity.
Qed.

(** ** add_to_edge *)

Section AddToEdgeTheory.
Context {F : Type} {FO : FloatOps F}.

Lemma flat_index_small (R1 R2 r1 r2 : Z) :
  (0 <= r1 < R1)%Z -> (0 <= r2 < R2)%Z -> (R1 * R2 < 2 ^ 31)%Z ->
  to_int (wrap32 (r1 * to_unsigned R2 + r2)) = (r1 * R2 + r2)%Z /\
  (0 <= r1 * R2 + r2 < R1 * R2)%Z.
Proof.
  intros H1 H2 Hw.
  assert (Hb : (0 <= r1 * R2 + r2 < R1 * R2)%Z) by nia.
  split; [|exact Hb].
  rewrite (to_unsigned_small R2) by nia.
  rewrite wrap32_small by lia. apply to_int_small. lia.
Qed.

Lemma flat_index_inj (R2 r1 r2 r1' r2' : Z) :
  (0 <= r2 < R2)%Z -> (0 <= r2' < R2)%Z -> (0 <= r1)%Z -> (0 <= r1')%Z ->
  (r1 * R2 + r2 = r1' * R2 + r2')%Z -> r1 = r1' /\ r2 = r2'.
Proof.
  intros H2 H2' H1 H1' Heq.
  assert (r1 = r1').
  { destruct (Z.lt_trichotomy r1 r1') as [Hlt | [Heq' | Hgt]]; [|assumption|].
    - assert ((r1 + 1) * R2 <= r1' * R2)%Z by nia. lia.
    - assert ((r1' + 1) * R2 <= r1 * R2)%Z by nia. lia. }
  subst r1'. lia.
Qed.

(** The loop [for(j: range(n)) prob(j, idx) = v]. *)
Lemma fill_slot_spec (l : list Z) (a : SimdVecArrayStorage F) (e : Z) (v : F) :
  storage_wf a -> (0 <= e < n_elem a)%Z ->
  (forall j, j ∈ l -> (0 <= j < elem_width a)%Z) ->
  let a' := fold_left (fun p j => sv_set p j e v) l a in
  storage_wf a' /\ elem_width a' = elem_width a /\ n_elem a' = n_elem a /\
  forall c' e', (0 <= c' < elem_width a)%Z -> (0 <= e')%Z ->
    sv_get a' c' e' = if decide (c' ∈ l /\ e' = e) then v else sv_get a c' e'.
Proof.
  revert a. induction l as [|j l IH]; intros a Hwf He Hl; cbv zeta; cbn [fold_left].
  - split; [exact Hwf|]. split; [reflexivity|]. split; [reflexivity|].
    intros c' e' Hc' He'.
    case_decide as Hd; [|reflexivity]. destruct Hd as [Hin _].
    by apply elem_of_nil in Hin.
  - destruct (IH (sv_set a j e v)) as (Hwf' & Hw' & Hn' & Hget).
    + by apply sv_set_wf.
    + exact He.
    + intros j' Hj'. apply Hl. apply elem_of_cons. by right.
    + split; [exact Hwf'|]. split; [exact Hw'|]. split; [exact Hn'|].
      intros c' e' Hc' He'. cbv zeta in Hget. rewrite Hget by assumption.
      assert (Hj : (0 <= j < elem_width a)%Z) by (apply Hl, elem_of_cons; by left).
      destruct (decide (c' ∈ l /\ e' = e)) as [[Hin ->]|Hnin].
      * rewrite decide_True; [reflexivity|]. split; [apply elem_of_cons; by right | done].
      * destruct (decide ((j, e) = (c', e'))) as [Heq | Hne].
        -- injection Heq as <- <-. rewrite sv_get_set_eq by assumption.
           rewrite decide_True; [reflexivity|]. split; [apply elem_of_cons; by left | done].
        -- rewrite sv_get_set_ne by (try lia; assumption).
           destruct (decide (c' ∈ j :: l /\ e' = e)) as [[Hin ->]|_]; [|reflexivity].
           apply elem_of_cons in Hin as [-> | Hin]; [congruence | tauto].
Qed.

Lemma n_distinct_pairs_snoc_new (cs : list (Call F)) (c : Call F) :
  call_pair c ∉ map call_pair cs ->
  n_distinct_pairs (cs ++ [c]) = S (n_distinct_pairs cs).
Proof.
  intros Hnew. unfold n_distinct_pairs. rewrite map_app. simpl.
  rewrite list_to_set_snoc_L, size_union, size_singleton; [lia|].
  intros p Hp Hp'. apply elem_of_singleton in Hp'. subst p.
  apply elem_of_list_to_set in Hp. contradiction.
Qed.

Lemma n_distinct_pairs_snoc_old (cs : list (Call F)) (c : Call F) :
  call_pair c ∈ map call_pair cs ->
  n_distinct_pairs (cs ++ [c]) = n_distinct_pairs cs.
Proof.
  intros Hold. unfold n_distinct_pairs. rewrite map_app. simpl.
  rewrite list_to_set_snoc_L. f_equal. apply set_eq. intros p.
  rewrite elem_of_union, elem_of_singleton, elem_of_list_to_set.
  split; [intros [Hp | ->]; assumption | by left].
Qed.

Lemma n_distinct_pairs_perm (cs cs' : list (Call F)) :
  cs ≡ₚ cs' -> n_distinct_pairs cs' = n_distinct_pairs cs.
Proof.
  intros Hp. unfold n_distinct_pairs. f_equal. apply set_eq. intros p.
  rewrite !elem_of_list_to_set. by rewrite Hp.
Qed.

Lemma call_product_snoc (cs : list (Call F)) (c : Call F) (a b r1 r2 : Z) :
  call_product (cs ++ [c]) a b r1 r2 =
  if decide (c_id1 c = a /\ c_id2 c = b /\ c_rot1 c = r1 /\ c_rot2 c = r2)
  then fmul (call_product cs a b r1 r2) (c_prob c)
  else call_product cs a b r1 r2.
Proof.
  unfold call_product. rewrite filter_app, map_app, fold_left_app.
  rewrite filter_cons, filter_nil. case_decide; reflexivity.
Qed.

Lemma call_product_no_call (cs : list (Call F)) (a b r1 r2 : Z) :
  (a, b) ∉ map call_pair cs -> call_product cs a b r1 r2 = f_one.
Proof.
  intros Hnot. unfold call_product.
  replace (filter _ cs) with (@nil (Call F)); [reflexivity|].
  symmetry. induction cs as [|c cs IH]; [reflexivity|].
  simpl in Hnot. apply not_elem_of_cons in Hnot as [Hne Hnot].
  rewrite filter_cons_False; [by apply IH|].
  intros (H1 & H2 & _). apply Hne. unfold call_pair. congruence.
Qed.

Lemma elem_of_call_pairs (cs : list (Call F)) (a b : Z) :
  (a, b) ∈ map call_pair cs <-> exists c, c ∈ cs /\ c_id1 c = a /\ c_id2 c = b.
Proof.
  rewrite list_elem_of_fmap. split.
  - intros (c & Hc & Hin). exists c. unfold call_pair in Hc.
    injection Hc as -> ->. auto.
  - intros (c & Hin & <- & <-). exists c. auto.
Qed.

Lemma add_to_edge_new (h : EdgeHolder F) (e : Z) (p : F) (a r1 b r2 : Z) :
  nodes_to_edge h !! edge_key a b = None ->
  (0 <= n_edge h < 2 ^ 31)%Z -> (0 <= a < 2 ^ 16)%Z -> (0 <= b < 2 ^ 16)%Z ->
  (0 <= r1 < n_rot1 h)%Z -> (0 <= r2 < n_rot2 h)%Z ->
  (n_rot1 h * n_rot2 h < 2 ^ 31)%Z ->
  let h' := add_to_edge e p a r1 b r2 h in
  let init := fold_left (fun p j => sv_set p j (n_edge h) f_one)
                        (range (n_rot1 h * n_rot2 h)) (prob h) in
  n_rot1 h' = n_rot1 h /\ n_rot2 h' = n_rot2 h /\ n_edge h' = (n_edge h + 1)%Z /\
  nodes_to_edge h' = <[edge_key a b := n_edge h]> (nodes_to_edge h) /\
  edge_indices1 h' = buf_set (edge_indices1 h) (n_edge h) a /\
  edge_indices2 h' = buf_set (edge_indices2 h) (n_edge h) b /\
  prob h' = sv_set init (r1 * n_rot2 h + r2) (n_edge h)
                   (fmul (sv_get init (r1 * n_rot2 h + r2) (n_edge h)) p) /\
  edge_loc h' = edge_loc h ++ [{| edge_num := e; dim := (r1 * n_rot2 h + r2)%Z;
                                  ne := n_edge h |}].
Proof.
  intros Hnone Hn Ha Hb Hr1 Hr2 Hw h' init. subst h' init.
  unfold add_to_edge. rewrite Hnone. cbv beta iota zeta.
  cbn [n_rot1 n_rot2 n_edge nodes_to_edge edge_indices1 edge_indices2 prob edge_loc].
  destruct (flat_index_small (n_rot1 h) (n_rot2 h) r1 r2 Hr1 Hr2 Hw) as [Hj _].
  rewrite Hj.
  rewrite (to_unsigned_small (n_edge h)) by lia.
  rewrite (to_int_small (n_edge h)) by lia.
  rewrite (to_int_small a), (to_int_small b) by lia.
  repeat split; reflexivity.
Qed.

Lemma add_to_edge_old (h : EdgeHolder F) (e : Z) (p : F) (a r1 b r2 idx : Z) :
  nodes_to_edge h !! edge_key a b = Some idx ->
  (0 <= idx < 2 ^ 31)%Z ->
  (0 <= r1 < n_rot1 h)%Z -> (0 <= r2 < n_rot2 h)%Z ->
  (n_rot1 h * n_rot2 h < 2 ^ 31)%Z ->
  let h' := add_to_edge e p a r1 b r2 h in
  n_rot1 h' = n_rot1 h /\ n_rot2 h' = n_rot2 h /\ n_edge h' = n_edge h /\
  nodes_to_edge h' = nodes_to_edge h /\
  edge_indices1 h' = edge_indices1 h /\ edge_indices2 h' = edge_indices2 h /\
  prob h' = sv_set (prob h) (r1 * n_rot2 h + r2) idx
                   (fmul (sv_get (prob h) (r1 * n_rot2 h + r2) idx) p) /\
  edge_loc h' = edge_loc h ++ [{| edge_num := e; dim := (r1 * n_rot2 h + r2)%Z;
                                  ne := idx |}].
Proof.
  intros Hsome Hn Hr1 Hr2 Hw h'. subst h'.
  unfold add_to_edge. rewrite Hsome. cbv beta iota zeta.
  cbn [n_rot1 n_rot2 n_edge nodes_to_edge edge_indices1 edge_indices2 prob edge_loc].
  destruct (flat_index_small (n_rot1 h) (n_rot2 h) r1 r2 Hr1 Hr2 Hw) as [Hj _].
  rewrite Hj. rewrite (to_int_small idx) by lia.
  repeat split; reflexivity.
Qed.

Lemma valid_pairs (h0 : EdgeHolder F) (cs : list (Call F)) (a b : Z) :
  (forall c, c ∈ cs -> valid_call h0 c) -> (a, b) ∈ map call_pair cs ->
  (0 <= a < 2 ^ 16)%Z /\ (0 <= b < 2 ^ 16)%Z.
Proof.
  intros Hv Hin. apply elem_of_call_pairs in Hin as (c & Hc & <- & <-).
  destruct (Hv c Hc) as (H1 & H2 & _). auto.
Qed.

Lemma calls_inv_init (h0 : EdgeHolder F) :
  edge_holder_wf h0 -> calls_inv h0 [] (reset h0).
Proof.
  intros Hwf. unfold calls_inv. simpl.
  split; [reflexivity|]. split; [reflexivity|]. split; [exact Hwf|].
  split; [reflexivity|]. split; [reflexivity|].
  split; [|split].
  - intros k idx Hk. by rewrite lookup_empty in Hk.
  - intros idx Hidx. lia.
  - intros a b Hin. by apply elem_of_nil in Hin.
Qed.

Lemma calls_inv_step_new (h0 h : EdgeHolder F) (cs : list (Call F)) (c : Call F) :
  calls_inv h0 cs h ->
  (forall c', c' ∈ cs ++ [c] -> valid_call h0 c') ->
  (Z.of_nat (n_distinct_pairs (cs ++ [c])) <= n_elem (prob h0))%Z ->
  nodes_to_edge h !! edge_key (c_id1 c) (c_id2 c) = None ->
  calls_inv h0 (cs ++ [c]) (apply_call h c).
Proof.
  intros (HR1 & HR2 & Hwf & Hne & Hcount & Hdom & Hsurj & Hslots) Hvalid Hcap Hlk.
  destruct Hwf as (Hswf & Hew & HR1nn & HR2nn & HW & Hcap31 & Hl1 & Hl2).
  assert (Hvc : valid_call h0 c).
  { apply Hvalid, elem_of_app. right. by apply list_elem_of_singleton. }
  destruct Hvc as (Ha & Hb & Hr1 & Hr2).
  assert (Hvcs : forall c', c' ∈ cs -> valid_call h0 c').
  { intros c' Hc'. apply Hvalid, elem_of_app. by left. }
  assert (Hnot : call_pair c ∉ map call_pair cs).
  { intros Hin. destruct (Hslots _ _ Hin) as (idx & Hidx & _). congruence. }
  rewrite n_distinct_pairs_snoc_new in Hcap by exact Hnot.
  assert (Hidx : (0 <= n_edge h < n_elem (prob h))%Z) by lia.
  rewrite <- HR1 in Hr1. rewrite <- HR2 in Hr2.
  destruct (add_to_edge_new h (c_ne c) (c_prob c) (c_id1 c) (c_rot1 c)
                            (c_id2 c) (c_rot2 c) Hlk)
    as (E1 & E2 & E3 & E4 & E5 & E6 & E7 & _); try assumption; [lia|].
  fold (apply_call h c) in E1, E2, E3, E4, E5, E6, E7.
  destruct (fill_slot_spec (range (n_rot1 h * n_rot2 h)) (prob h) (n_edge h) f_one
                           Hswf Hidx)
    as (Iwf & Iw & In & Iget).
  { intros j Hj. apply elem_of_range in Hj. lia. }
  set (init := fold_left (fun p j => sv_set p j (n_edge h) f_one)
                         (range (n_rot1 h * n_rot2 h)) (prob h)) in *.
  destruct (flat_index_small _ _ _ _ Hr1 Hr2 HW) as [_ Hjc].
  assert (Hkey : forall a' b', (a', b') ∈ map call_pair cs ->
                               edge_key a' b' <> edge_key (c_id1 c) (c_id2 c)).
  { intros a' b' Hin Heq. destruct (Hslots _ _ Hin) as (idx & Hi & _).
    rewrite Heq in Hi. congruence. }
  unfold calls_inv.
  split; [congruence|]. split; [congruence|].
  split.
  { unfold edge_holder_wf. rewrite E1, E2, E5, E6, E7, !length_buf_set. simpl.
    rewrite Iw, In. split; [by apply sv_set_wf|].
    repeat (split; [assumption|]). assumption. }
  split; [rewrite E7; simpl; congruence|].
  split; [rewrite E3, n_distinct_pairs_snoc_new by exact Hnot; lia|].
  split; [|split].
  - intros k idx Hk. rewrite E4 in Hk. rewrite map_app, map_cons.
    apply lookup_insert_Some in Hk as [[<- <-] | [Hne' Hk]].
    + exists (c_id1 c), (c_id2 c). split; [|reflexivity].
      apply elem_of_app. right. by apply list_elem_of_singleton.
    + destruct (Hdom _ _ Hk) as (a' & b' & Hin & ->). exists a', b'.
      split; [apply elem_of_app; by left | reflexivity].
  - intros idx Hi. rewrite E3 in Hi. rewrite E4, map_app, map_cons.
    destruct (decide (idx = n_edge h)) as [-> | Hne'].
    + exists (c_id1 c), (c_id2 c).
      split; [apply elem_of_app; right; by apply list_elem_of_singleton|].
      apply lookup_insert_eq.
    + destruct (Hsurj idx) as (a' & b' & Hin & Hlk'); [lia|].
      exists a', b'. split; [apply elem_of_app; by left|].
      rewrite lookup_insert_ne; [exact Hlk'|]. apply not_eq_sym. by apply Hkey.
  - intros a' b' Hin. rewrite map_app, map_cons in Hin.
    apply elem_of_app in Hin as [Hin | Hin].
    + destruct (Hslots _ _ Hin) as (idx & Hi & (Hir & Hi1 & Hi2) & Hprod).
      exists idx. rewrite E4.
      split; [rewrite lookup_insert_ne; [exact Hi|]; apply not_eq_sym; by apply Hkey|].
      split.
      * unfold is_slot. rewrite E3, E5, E6.
        rewrite !buf_get_set_ne by lia. repeat split; try assumption; lia.
      * intros r1 r2 Hr1' Hr2'. rewrite E7.
        rewrite <- HR1 in Hr1'. rewrite <- HR2 in Hr2'.
        destruct (flat_index_small _ _ _ _ Hr1' Hr2' HW) as [_ Hj].
        rewrite <- HR2. rewrite sv_get_set_ne.
        2-5: try (simpl; rewrite ?Iw, ?Hew; lia).
        2: { intros Heq. injection Heq as _ Heq. lia. }
        rewrite Iget by lia. rewrite decide_False by (intros [_ ?]; lia).
        rewrite HR2, Hprod by congruence.
        rewrite call_product_snoc. rewrite decide_False; [reflexivity|].
        intros (H1 & H2 & _). apply Hnot. unfold call_pair. by rewrite H1, H2.
    + apply list_elem_of_singleton in Hin. unfold call_pair in Hin.
      injection Hin as -> ->.
      exists (n_edge h). rewrite E4.
      split; [apply lookup_insert_eq|]. split.
      * unfold is_slot. rewrite E3, E5, E6.
        rewrite !buf_get_set_eq by lia. repeat split; lia.
      * intros r1 r2 Hr1' Hr2'. rewrite E7.
        rewrite <- HR1 in Hr1'. rewrite <- HR2 in Hr2'.
        destruct (flat_index_small _ _ _ _ Hr1' Hr2' HW) as [_ Hj].
        rewrite <- HR2. rewrite call_product_snoc.
        rewrite (call_product_no_call cs) by exact Hnot.
        destruct (decide (c_id1 c = c_id1 c /\ c_id2 c = c_id2 c /\
                          c_rot1 c = r1 /\ c_rot2 c = r2))
          as [(_ & _ & Hq1 & Hq2) | Hnm].
        -- subst r1 r2. rewrite sv_get_set_eq by (try exact Iwf; rewrite ?Iw, ?In, ?Hew; lia).
           rewrite Iget by lia. rewrite decide_True; [reflexivity|].
           split; [apply elem_of_range; lia | reflexivity].
        -- rewrite sv_get_set_ne.
           2-5: try (simpl; rewrite ?Iw, ?Hew; lia).
           2: { intros Heq. injection Heq as Heq.
                apply flat_index_inj in Heq as [Hx Hy]; lia. }
           rewrite Iget by lia. rewrite decide_True; [reflexivity|].
           split; [apply elem_of_range; lia | reflexivity].
Qed.

Lemma calls_inv_step_old (h0 h : EdgeHolder F) (cs : list (Call F)) (c : Call F)
      (idx : Z) :
  calls_inv h0 cs h ->
  (forall c', c' ∈ cs ++ [c] -> valid_call h0 c') ->
  (Z.of_nat (n_distinct_pairs (cs ++ [c])) <= n_elem (prob h0))%Z ->
  nodes_to_edge h !! edge_key (c_id1 c) (c_id2 c) = Some idx ->
  calls_inv h0 (cs ++ [c]) (apply_call h c).
Proof.
  intros (HR1 & HR2 & Hwf & Hne & Hcount & Hdom & Hsurj & Hslots) Hvalid Hcap Hlk.
  destruct Hwf as (Hswf & Hew & HR1nn & HR2nn & HW & Hcap31 & Hl1 & Hl2).
  assert (Hvc : valid_call h0 c).
  { apply Hvalid, elem_of_app. right. by apply list_elem_of_singleton. }
  destruct Hvc as (Ha & Hb & Hr1 & Hr2).
  assert (Hvcs : forall c', c' ∈ cs -> valid_call h0 c').
  { intros c' Hc'. apply Hvalid, elem_of_app. by left. }
  assert (Hold : call_pair c ∈ map call_pair cs).
  { destruct (Hdom _ _ Hlk) as (a' & b' & Hin & Heq).
    destruct (valid_pairs h0 cs a' b' Hvcs Hin) as [Ha' Hb'].
    apply edge_key_inj in Heq as [Hx Hy]; [|assumption..].
    unfold call_pair. by rewrite Hx, Hy. }
  rewrite n_distinct_pairs_snoc_old in Hcap by exact Hold.
  destruct (Hslots _ _ Hold) as (idx0 & Hlk0 & (Hir & Hi1 & Hi2) & Hprod).
  assert (idx0 = idx) by congruence. subst idx0.
  rewrite <- HR1 in Hr1. rewrite <- HR2 in Hr2.
  destruct (add_to_edge_old h (c_ne c) (c_prob c) (c_id1 c) (c_rot1 c)
                            (c_id2 c) (c_rot2 c) idx Hlk)
    as (E1 & E2 & E3 & E4 & E5 & E6 & E7 & _); try assumption; [lia|].
  fold (apply_call h c) in E1, E2, E3, E4, E5, E6, E7.
  destruct (flat_index_small _ _ _ _ Hr1 Hr2 HW) as [_ Hjc].
  assert (Hsub : forall a' b', (a', b') ∈ map call_pair (cs ++ [c]) ->
                               (a', b') ∈ map call_pair cs).
  { intros a' b' Hin. rewrite map_app, map_cons in Hin.
    apply elem_of_app in Hin as [Hin | Hin]; [exact Hin|].
    apply list_elem_of_singleton in Hin. by rewrite Hin. }
  unfold calls_inv.
  split; [congruence|]. split; [congruence|].
  split.
  { unfold edge_holder_wf. rewrite E1, E2, E5, E6, E7. simpl.
    split; [by apply sv_set_wf|].
    repeat (split; [assumption|]). assumption. }
  split; [rewrite E7; simpl; congruence|].
  split; [rewrite E3, n_distinct_pairs_snoc_old by exact Hold; lia|].
  split; [|split].
  - intros k i Hk. rewrite E4 in Hk.
    destruct (Hdom _ _ Hk) as (a' & b' & Hin & ->). exists a', b'.
    split; [rewrite map_app; apply elem_of_app; by left | reflexivity].
  - intros i Hi. rewrite E3 in Hi. rewrite E4.
    destruct (Hsurj i Hi) as (a' & b' & Hin & Hlk').
    exists a', b'. split; [rewrite map_app; apply elem_of_app; by left | exact Hlk'].
  - intros a' b' Hin. apply Hsub in Hin.
    destruct (Hslots _ _ Hin) as (idx' & Hlk' & (Hir' & Hi1' & Hi2') & Hprod').
    exists idx'. rewrite E4. split; [exact Hlk'|]. split.
    + unfold is_slot. rewrite E3, E5, E6. repeat split; try assumption; lia.
    + intros r1 r2 Hr1' Hr2'. rewrite E7.
      rewrite <- HR1 in Hr1'. rewrite <- HR2 in Hr2'.
      destruct (flat_index_small _ _ _ _ Hr1' Hr2' HW) as [_ Hj].
      rewrite <- HR2. rewrite call_product_snoc.
      destruct (decide (c_id1 c = a' /\ c_id2 c = b' /\ c_rot1 c = r1 /\ c_rot2 c = r2))
        as [(Hq1 & Hq2 & Hq3 & Hq4) | Hnm].
      * assert (idx' = idx) by (rewrite <- Hq1, <- Hq2 in Hlk'; congruence).
        subst idx'. rewrite <- Hq1, <- Hq2, <- Hq3, <- Hq4.
        rewrite sv_get_set_eq by (try exact Hswf; rewrite ?Hew; lia).
        rewrite HR2, Hprod by congruence. reflexivity.
      * rewrite sv_get_set_ne.
        2-5: try (rewrite ?Hew; lia).
        -- rewrite HR2. apply Hprod'; congruence.
        -- intros Heq. injection Heq as Heq1 Heq2. subst idx'.
           apply flat_index_inj in Heq1 as [Hx Hy]; [|lia..].
           apply Hnm. repeat split; congruence.
Qed.

Lemma calls_inv_step (h0 h : EdgeHolder F) (cs : list (Call F)) (c : Call F) :
  calls_inv h0 cs h ->
  (forall c', c' ∈ cs ++ [c] -> valid_call h0 c') ->
  (Z.of_nat (n_distinct_pairs (cs ++ [c])) <= n_elem (prob h0))%Z ->
  calls_inv h0 (cs ++ [c]) (apply_call h c).
Proof.
  intros Hinv Hvalid Hcap.
  destruct (nodes_to_edge h !! edge_key (c_id1 c) (c_id2 c)) as [idx|] eqn:Hlk.
  - by eapply calls_inv_step_old.
  - by apply calls_inv_step_new.
Qed.

Lemma n_distinct_pairs_snoc_le (cs : list (Call F)) (c : Call F) :
  (n_distinct_pairs cs <= n_distinct_pairs (cs ++ [c]))%nat.
Proof.
  destruct (decide (call_pair c ∈ map call_pair cs)) as [Hin | Hnin].
  - rewrite n_distinct_pairs_snoc_old by exact Hin. lia.
  - rewrite n_distinct_pairs_snoc_new by exact Hnin. lia.
Qed.

(** The state a sequence of calls within the limits leaves. *)
Lemma run_calls_inv (h0 : EdgeHolder F) (cs : list (Call F)) :
  edge_holder_wf h0 ->
  (forall c, c ∈ cs -> valid_call h0 c) ->
  (Z.of_nat (n_distinct_pairs cs) <= n_elem (prob h0))%Z ->
  calls_inv h0 cs (run_calls cs (reset h0)).
Proof.
  intros Hwf. induction cs as [|c cs IH] using rev_ind; intros Hvalid Hcap.
  - by apply calls_inv_init.
  - unfold run_calls. rewrite fold_left_app. simpl.
    apply calls_inv_step; [|exact Hvalid | exact Hcap].
    apply IH.
    + intros c' Hc'. apply Hvalid, elem_of_app. by left.
    + pose proof (n_distinct_pairs_snoc_le cs c). lia.
Qed.

Lemma calls_inv_slot (h0 h : EdgeHolder F) (cs : list (Call F)) (a b : Z) :
  calls_inv h0 cs h -> (a, b) ∈ map call_pair cs ->
  exists idx, unique_slot h a b idx /\
    forall r1 r2, (0 <= r1 < n_rot1 h0)%Z -> (0 <= r2 < n_rot2 h0)%Z ->
      sv_get (prob h) (r1 * n_rot2 h0 + r2) idx = call_product cs a b r1 r2.
Proof.
  intros (_ & _ & _ & _ & _ & _ & Hsurj & Hslots) Hin.
  destruct (Hslots _ _ Hin) as (idx & Hlk & Hslot & Hprod).
  exists idx. split; [|exact Hprod]. split; [exact Hslot|].
  intros i (Hir & Hi1 & Hi2).
  destruct (Hsurj i Hir) as (a' & b' & Hin' & Hlk').
  destruct (Hslots _ _ Hin') as (i' & Hlk'' & (_ & Hj1 & Hj2) & _).
  assert (i' = i) by congruence. subst i'.
  assert (a' = a) by congruence. assert (b' = b) by congruence. subst a' b'.
  congruence.
Qed.

(** C10: the key of [add_to_edge] is [(id1 << 16) + id2] in 32-bit unsigned
    arithmetic; on ids below [2^16] two keys are equal exactly when the
    pairs are equal, so two calls with such ids on a reset holder share an
    edge slot exactly when they carry the same pair; with an id of [2^16]
    or more, two different pairs of 32-bit ids can have the same key. *)
Theorem edge_key_injective_below_65536 :
  (forall id1 id2, edge_key id1 id2 = ((id1 * 2 ^ 16 mod 2 ^ 32 + id2) mod 2 ^ 32)%Z) /\
  (forall a1 a2 b1 b2,
      (0 <= a1 < 2 ^ 16)%Z -> (0 <= a2 < 2 ^ 16)%Z ->
      (0 <= b1 < 2 ^ 16)%Z -> (0 <= b2 < 2 ^ 16)%Z ->
      (edge_key a1 a2 = edge_key b1 b2 <-> a1 = b1 /\ a2 = b2)) /\
  (forall (h0 : EdgeHolder F) (c1 c2 : Call F),
      (n_rot1 h0 * n_rot2 h0 < 2 ^ 31)%Z ->
      valid_call h0 c1 -> valid_call h0 c2 ->
      exists el1 el2,
        edge_loc (run_calls [c1; c2] (reset h0)) = [el1; el2] /\
        (ne el1 = ne el2 <-> call_pair c1 = call_pair c2)) /\
  (exists a1 a2 b1 b2,
      (0 <= a1 < 2 ^ 32)%Z /\ (0 <= a2 < 2 ^ 32)%Z /\
      (0 <= b1 < 2 ^ 32)%Z /\ (0 <= b2 < 2 ^ 32)%Z /\
      (a1, a2) <> (b1, b2) /\ edge_key a1 a2 = edge_key b1 b2).
Proof.
  split; [|split; [|split]].
  - intros id1 id2. unfold edge_key, wrap32. rewrite Z.shiftl_mul_pow2 by lia.
    reflexivity.
  - intros a1 a2 b1 b2 Ha1 Ha2 Hb1 Hb2. split.
    + by apply edge_key_inj.
    + intros [-> ->]. reflexivity.
  - intros h0 c1 c2 HW (Ha1 & Hb1 & Hr11 & Hr12) (Ha2 & Hb2 & Hr21 & Hr22).
    unfold run_calls. cbn [fold_left].
    destruct (add_to_edge_new (reset h0) (c_ne c1) (c_prob c1) (c_id1 c1) (c_rot1 c1)
                              (c_id2 c1) (c_rot2 c1))
      as (E1 & E2 & E3 & E4 & _ & _ & _ & E8); try assumption;
      [apply lookup_empty | simpl; lia |].
    fold (apply_call (reset h0) c1) in E1, E2, E3, E4, E8.
    set (h1 := apply_call (reset h0) c1) in *.
    cbn [reset n_rot1 n_rot2 n_edge nodes_to_edge edge_loc] in E1, E2, E3, E4, E8.
    destruct (decide (edge_key (c_id1 c1) (c_id2 c1) = edge_key (c_id1 c2) (c_id2 c2)))
      as [Hk | Hk].
    + destruct (add_to_edge_old h1 (c_ne c2) (c_prob c2) (c_id1 c2) (c_rot1 c2)
                                (c_id2 c2) (c_rot2 c2) 0)
        as (_ & _ & _ & _ & _ & _ & _ & E8'); try (rewrite ?E1, ?E2; assumption);
        [rewrite E4, <- Hk; apply lookup_insert_eq | lia |].
      fold (apply_call h1 c2) in E8'. rewrite E8', E8. simpl.
      eexists _, _. split; [reflexivity|]. simpl. split; [|reflexivity].
      intros _. apply edge_key_inj in Hk as [H1 H2]; try assumption.
      unfold call_pair. by rewrite H1, H2.
    + destruct (add_to_edge_new h1 (c_ne c2) (c_prob c2) (c_id1 c2) (c_rot1 c2)
                                (c_id2 c2) (c_rot2 c2))
        as (_ & _ & _ & _ & _ & _ & _ & E8'); try (rewrite ?E1, ?E2; assumption);
        [rewrite E4, lookup_insert_ne by exact Hk; apply lookup_empty
        | rewrite E3; lia |].
      fold (apply_call h1 c2) in E8'. rewrite E8', E8, E3. simpl.
      eexists _, _. split; [reflexivity|]. simpl. split; [lia|].
      intros Hp. exfalso. apply Hk. unfold call_pair in Hp. by injection Hp as -> ->.
  - exists 0%Z, 65536%Z, 1%Z, 0%Z. repeat split; try lia; discriminate.
Qed.

Section ExactProducts.
Context {FM : FloatMulMonoid F}.

Lemma fold_left_fmul_perm (l l' : list F) :
  l ≡ₚ l' -> forall a, fold_left fmul l a = fold_left fmul l' a.
Proof.
  induction 1 as [|x l l' _ IH|x y l|l l' l'' _ IH1 _ IH2]; intros a; simpl.
  - reflexivity.
  - apply IH.
  - f_equal. rewrite <- !fmul_assoc. f_equal. apply fmul_comm.
  - by rewrite IH1.
Qed.

Lemma call_product_perm (cs cs' : list (Call F)) (a b r1 r2 : Z) :
  cs ≡ₚ cs' -> call_product cs' a b r1 r2 = call_product cs a b r1 r2.
Proof.
  intros Hp. unfold call_product. apply fold_left_fmul_perm.
  apply Permutation_map. by rewrite Hp.
Qed.

(** C6, within the limits of the key: from a reset holder, a sequence of calls with ids below
    [2^16] and rotamers below the rotamer counts, with no more distinct
    pairs than the holder has slots, and any permutation of it, give every
    node-id pair exactly one edge slot; the entry of that slot at each
    flat index [rot1*n_rot2 + rot2] is the product of the [prob_val] of the
    calls with that pair and those rotamers, and [n_edge] is the number of
    distinct pairs in both runs.  Products are read in exact arithmetic
    (multiplication associative and commutative with unit 1). *)
Theorem add_to_edge_order_independent_below_65536
        (h0 : EdgeHolder F) (cs cs' : list (Call F)) :
  edge_holder_wf h0 ->
  cs ≡ₚ cs' ->
  (forall c, c ∈ cs -> valid_call h0 c) ->
  (Z.of_nat (n_distinct_pairs cs) <= n_elem (prob h0))%Z ->
  order_independent h0 cs cs'.
Proof.
  intros Hwf Hperm Hvalid Hcap.
  assert (Hinv : calls_inv h0 cs (run_calls cs (reset h0)))
    by (by apply run_calls_inv).
  assert (Hinv' : calls_inv h0 cs' (run_calls cs' (reset h0))).
  { apply run_calls_inv; [exact Hwf| |].
    - intros c Hc. apply Hvalid. by rewrite Hperm.
    - by rewrite (n_distinct_pairs_perm cs cs'). }
  unfold order_independent. cbv zeta.
  split; [apply Hinv|].
  split; [rewrite <- (n_distinct_pairs_perm cs cs') by exact Hperm; apply Hinv'|].
  intros a b Hin.
  destruct (calls_inv_slot _ _ _ a b Hinv Hin) as (idx & Hu & Hprod).
  destruct (calls_inv_slot _ _ _ a b Hinv') as (idx' & Hu' & Hprod').
  { by rewrite <- Hperm. }
  exists idx, idx'. split; [exact Hu|]. split; [exact Hu'|].
  intros r1 r2 Hr1 Hr2. split; [by apply Hprod|].
  rewrite Hprod' by assumption. by apply call_product_perm.
Qed.
End ExactProducts.
End AddToEdgeTheory.

(** C6 as it reads fails from id [2^16] on: the pairs (0, 65536) and (1, 0)
    have the same key, so the second call finds the slot of the first and
    [n_edge] is 1 for two distinct pairs. *)
Lemma add_to_edge_merges_pairs_from_65536 :
  ~ order_independent ex_holder ex_colliding_calls ex_colliding_calls.
Proof.
  intros (Hn & _). vm_compute in Hn. discriminate Hn.
Qed.

Lemma add_to_edge_order_independent_below_65536_witness :
  edge_holder_wf ex_holder /\
  ex_calls ≡ₚ rev ex_calls /\
  (forall c, c ∈ ex_calls -> valid_call ex_holder c) /\
  (Z.of_nat (n_distinct_pairs ex_calls) <= n_elem (prob ex_holder))%Z /\
  order_independent ex_holder ex_calls (rev ex_calls).
Proof.
  assert (Hwf : edge_holder_wf ex_holder).
  { unfold edge_holder_wf, storage_wf. vm_compute.
    repeat split; try reflexivity; discriminate. }
  assert (Hperm : ex_calls ≡ₚ rev ex_calls) by apply Permutation_rev.
  assert (Hvalid : forall c, c ∈ ex_calls -> valid_call ex_holder c).
  { intros c Hc. unfold ex_calls in Hc.
    repeat (apply elem_of_cons in Hc as [-> | Hc]);
      [..|by apply elem_of_nil in Hc];
      unfold valid_call; vm_compute; repeat split; try reflexivity; discriminate. }
  assert (Hcap : (Z.of_nat (n_distinct_pairs ex_calls) <= n_elem (prob ex_holder))%Z).
  { vm_compute. discriminate. }
  split; [exact Hwf|]. split; [exact Hperm|]. split; [exact Hvalid|].
  split; [exact Hcap|].
  exact (add_to_edge_order_independent_below_65536 (FM := exact_mul)
           ex_holder ex_calls (rev ex_calls) Hwf Hperm Hvalid Hcap).
Defined.

Lemma edge_key_injective_below_65536_witness :
  (0 <= 3 < 2 ^ 16)%Z /\ (0 <= 7 < 2 ^ 16)%Z /\
  (edge_key 3 7 = edge_key 3 7 <-> 3%Z = 3%Z /\ 7%Z = 7%Z) /\
  edge_key 3 7 = 196615%Z /\
  (n_rot1 ex_holder * n_rot2 ex_holder < 2 ^ 31)%Z /\
  valid_call ex_holder ex_call_1 /\
  valid_call ex_holder ex_call_2 /\
  exists el1 el2,
    edge_loc (run_calls [ex_call_1; ex_call_2] (reset ex_holder))
    = [el1; el2] /\
    (ne el1 = ne el2 <-> call_pair ex_call_1 = call_pair ex_call_2).
Proof.
  destruct (edge_key_injective_below_65536 (F := Q)) as (Hf & Hinj & Hslot & _).
  assert (H3 : (0 <= 3 < 2 ^ 16)%Z) by lia.
  assert (H7 : (0 <= 7 < 2 ^ 16)%Z) by lia.
  assert (HW : (n_rot1 ex_holder * n_rot2 ex_holder < 2 ^ 31)%Z) by (vm_compute; reflexivity).
  assert (Hv0 : valid_call ex_holder ex_call_1)
    by (vm_compute; repeat split; try reflexivity; discriminate).
  assert (Hv1 : valid_call ex_holder ex_call_2)
    by (vm_compute; repeat split; try reflexivity; discriminate).
  split; [exact H3|]. split; [exact H7|].
  split; [exact (Hinj 3%Z 7%Z 3%Z 7%Z H3 H7 H3 H7)|]. split; [reflexivity|].
  split; [exact HW|]. split; [exact Hv0|]. split; [exact Hv1|].
  exact (Hslot ex_holder _ _ HW Hv0 Hv1).
Defined.

(** In binary32 the entry does depend on the order of the calls: the
    products [((1 * 1/10) * 1/10) * 1/7] and [((1 * 1/7) * 1/10) * 1/10]
    round to neighbouring floats.  The slot allocation is the same. *)
Lemma add_to_edge_rounded_products_depend_on_order :
  n_edge (run_calls ex_float_calls (reset ex_float_holder)) = 1%Z /\
  n_edge (run_calls (rev ex_float_calls) (reset ex_float_holder)) = 1%Z /\
  sv_get (prob (run_calls ex_float_calls (reset ex_float_holder))) 0 0
  <> sv_get (prob (run_calls (rev ex_float_calls) (reset ex_float_holder))) 0 0.
Proof.
  vm_compute. split; [reflexivity|]. split; [reflexivity|].
  intros Habs. discriminate Habs.
Qed.

(* ===================================================================== *)
(** * Further properties of the code *)

Section FillTheory.
Context {F : Type} {FO : FloatOps F}.

Lemma fill_wf (a : SimdVecArrayStorage F) (v : F) : storage_wf a -> storage_wf (fill a v).
Proof.
  unfold storage_wf, fill; simpl. intros (Hw & Hn & Hr & Hl).
  repeat split; try assumption.
  rewrite length_app, length_replicate, length_drop. lia.
Qed.

Lemma fill_get (a : SimdVecArrayStorage F) (v : F) (c e : Z) :
  storage_wf a -> (0 <= c < elem_width a)%Z -> (0 <= e < n_elem a)%Z ->
  sv_get (fill a v) c e = v.
Proof.
  intros (Hw & Hn & Hr & Hl) Hc He. unfold sv_get, fill; simpl.
  pose proof (simd_index_bounds (elem_width a) (n_elem a) c e Hr Hc He) as Hb.
  unfold buf_get. destruct (Z.ltb_spec (simd_index (elem_width a) c e) 0); [lia|].
  rewrite nth_lookup, lookup_app_l by (rewrite length_replicate; lia).
  rewrite lookup_replicate_2 by lia. reflexivity.
Qed.
End FillTheory.

Section StoreTheory.
Context {F : Type} {FO : FloatOps F}.

Lemma store_vec_get (a : SimdVecArrayStorage F) (e : Z) (r : Vec F) (c e' : Z) :
  storage_wf a -> (0 <= e < n_elem a)%Z -> (Z.of_nat (length r) <= elem_width a)%Z ->
  (0 <= c < elem_width a)%Z -> (0 <= e')%Z ->
  sv_get (store_vec a e r) c e'
  = if decide (c < Z.of_nat (length r) /\ e' = e)%Z then vnth r c else sv_get a c e'.
Proof.
  intros Hwf He Hlen Hc He'. unfold store_vec.
  destruct (store_loop_spec (range (Z.of_nat (length r))) a e (vnth r) Hwf He)
    as (_ & _ & _ & Hget).
  { intros j Hj. apply elem_of_range in Hj. lia. }
  cbv zeta in Hget. rewrite Hget by assumption.
  destruct (decide (c < Z.of_nat (length r) /\ e' = e)%Z) as [[H1 H2]|Hn].
  - rewrite decide_True; [reflexivity|]. split; [apply elem_of_range; lia | exact H2].
  - rewrite decide_False; [reflexivity|]. intros [H1 H2]. apply elem_of_range in H1.
    apply Hn. split; [lia | exact H2].
Qed.
End StoreTheory.

Lemma selector_ones (n : Z) : (0 <= n < 32)%Z -> selector n = Z.ones n.
Proof.
  intros Hn. unfold selector. rewrite Z.shiftl_1_l.
  assert (0 < 2 ^ n)%Z by (apply Z.pow_pos_nonneg; lia).
  assert (2 ^ n < 2 ^ 32)%Z by (apply Z.pow_lt_mono_r; lia).
  rewrite (wrap32_small (2 ^ n)) by lia. rewrite wrap32_small by lia.
  rewrite Z.ones_equiv. lia.
Qed.

Lemma decode_id_div_mod (n id : Z) :
  (0 <= n < 32)%Z ->
  decode_id n id = (id mod 2 ^ n, (id / 2 ^ n) mod 2 ^ n, id / 2 ^ n / 2 ^ n)%Z.
Proof.
  intros Hn. unfold decode_id. rewrite selector_ones by exact Hn.
  rewrite !Z.land_ones, !Z.shiftr_div_pow2 by lia. reflexivity.
Qed.

(** Decoding against packing. *)
Lemma decode_id_fields (n id rot nrot res : Z) :
  (0 <= n < 32)%Z ->
  decode_id n id = (rot, nrot, res) <->
  id = (res * 2 ^ (2 * n) + nrot * 2 ^ n + rot)%Z /\
  (0 <= rot < 2 ^ n)%Z /\ (0 <= nrot < 2 ^ n)%Z.
Proof.
  intros Hn. rewrite decode_id_div_mod by exact Hn.
  assert (Hp : (0 < 2 ^ n)%Z) by (apply Z.pow_pos_nonneg; lia).
  replace (2 ^ (2 * n))%Z with (2 ^ n * 2 ^ n)%Z by (rewrite <- Z.pow_add_r by lia; f_equal; lia).
  set (P := (2 ^ n)%Z) in *. split.
  - intros Heq. injection Heq as <- <- <-.
    pose proof (Z.div_mod id P ltac:(lia)).
    pose proof (Z.div_mod (id / P) P ltac:(lia)).
    pose proof (Z.mod_pos_bound id P Hp).
    pose proof (Z.mod_pos_bound (id / P) P Hp).
    split; [nia|]. split; assumption.
  - intros (-> & Hrot & Hnrot).
    assert (H1 : ((res * (P * P) + nrot * P + rot) / P = res * P + nrot)%Z).
    { replace (res * (P * P) + nrot * P + rot)%Z with (rot + (res * P + nrot) * P)%Z by lia.
      rewrite Z.div_add by lia. rewrite Z.div_small by lia. lia. }
    assert (H2 : ((res * (P * P) + nrot * P + rot) mod P = rot)%Z).
    { replace (res * (P * P) + nrot * P + rot)%Z with (rot + (res * P + nrot) * P)%Z by lia.
      rewrite Z.mod_add by lia. apply Z.mod_small. lia. }
    rewrite H1, H2. f_equal; [f_equal|].
    + replace (res * P + nrot)%Z with (nrot + res * P)%Z by lia.
      rewrite Z.mod_add by lia. apply Z.mod_small. lia.
    + replace (res * P + nrot)%Z with (nrot + res * P)%Z by lia.
      rewrite Z.div_add by lia. rewrite Z.div_small by lia. lia.
Qed.

(** X3: for a field width [0 <= n_bit_rotamer < 32], the decoding
    [rot = id & selector; id >>= n; n_rot = id & selector; id >>= n] yields
    [(rot, n_rot, res)] exactly when [id = res*2^(2n) + n_rot*2^n + rot] with
    [rot] and [n_rot] in [0, 2^n): the three fields are recovered without
    loss and are the only ones that pack to [id]. *)
Theorem decode_id_unpacks (n id rot nrot res : Z) :
  (0 <= n < 32)%Z ->
  decode_id n id = (rot, nrot, res) <->
  id = (res * 2 ^ (2 * n) + nrot * 2 ^ n + rot)%Z /\
  (0 <= rot < 2 ^ n)%Z /\ (0 <= nrot < 2 ^ n)%Z.
Proof. exact (decode_id_fields n id rot nrot res). Qed.

Lemma decode_id_unpacks_witness :
  (0 <= 4 < 32)%Z /\
  (decode_id 4 306 = (2, 3, 1)%Z <->
   306%Z = (1 * 2 ^ (2 * 4) + 3 * 2 ^ 4 + 2)%Z /\ (0 <= 2 < 2 ^ 4)%Z /\ (0 <= 3 < 2 ^ 4)%Z).
Proof.
  assert (Hn : (0 <= 4 < 32)%Z) by lia.
  split; [exact Hn|]. exact (decode_id_unpacks 4 306 2 3 1 Hn).
Defined.

Section CountTheory.
Context {F : Type} {FO : FloatOps F} {G : Type}.
Context (n_bit_rotamer : Z).

Lemma residues_with_cons (g : InteractionGraph F G) (n : Z) (l : list Z) (k : Z) :
  residues_with n_bit_rotamer g (n :: l) k
  = (if decide (bead_n_rot n_bit_rotamer g n = k)
     then {[bead_residue n_bit_rotamer g n]} else ∅) ∪ residues_with n_bit_rotamer g l k.
Proof.
  unfold residues_with. rewrite filter_cons.
  destruct (decide (bead_n_rot n_bit_rotamer g n = k)); simpl.
  - reflexivity.
  - by rewrite (left_id_L ∅ (∪)).
Qed.

Lemma calculate_n_elem_first_loop_sets (g : InteractionGraph F G) (l : list Z)
      (m m' : gmap Z (gset Z)) :
  for_each (fun (unique_ids : gmap Z (gset Z)) n =>
      let '(rot, n_rot_, id) := decode_id n_bit_rotamer (buf_get 0%Z (id1 g) n) in
      if (n_rot_ <=? rot)%Z then Throw "invalid rotamer number"
      else Ok (<[n_rot_ := {[id]} ∪ default ∅ (unique_ids !! n_rot_)]> unique_ids))
    l m = Ok m' ->
  (forall n, n ∈ l -> (bead_rot n_bit_rotamer g n < bead_n_rot n_bit_rotamer g n)%Z) /\
  forall k, default ∅ (m' !! k) = default ∅ (m !! k) ∪ residues_with n_bit_rotamer g l k.
Proof.
  revert m. induction l as [|n l IH]; intros m Hrun; cbn [for_each] in Hrun.
  - injection Hrun as <-. split; [intros n Hn; by apply elem_of_nil in Hn|].
    intros k. unfold residues_with. simpl. by rewrite (right_id_L ∅ (∪)).
  - destruct (decode_id n_bit_rotamer (buf_get 0%Z (id1 g) n)) as [[rot nrot] id] eqn:Hd.
    destruct (Z.leb_spec nrot rot) as [Hle | Hlt]; cbn [bind] in Hrun; [discriminate|].
    apply IH in Hrun as [Hgood Hsets]. split.
    + intros n' Hn'. apply elem_of_cons in Hn' as [-> | Hn']; [|by apply Hgood].
      unfold bead_rot, bead_n_rot. rewrite Hd. exact Hlt.
    + intros k. rewrite Hsets, residues_with_cons.
      unfold bead_n_rot, bead_residue. rewrite Hd. simpl.
      destruct (decide (nrot = k)) as [-> | Hne].
      * rewrite lookup_insert_eq. simpl.
        apply set_eq. intros y. rewrite !elem_of_union. tauto.
      * rewrite lookup_insert_ne by exact Hne. by rewrite (left_id_L ∅ (∪)).
Qed.

Lemma calculate_n_elem_second_loop_counts (l : list (Z * gset Z)) (result r : list Z) :
  NoDup l.*1 ->
  for_each (fun (result : list Z) '(k, ids) =>
      if (UPPER_ROT <=? k)%Z then Throw ("invalid rotamer count " +:+ pretty k)
      else array_at_set result k (Z.of_nat (size ids)))
    l result = Ok r ->
  length r = length result /\
  (forall k ids, (k, ids) ∈ l ->
     (0 <= k < UPPER_ROT)%Z /\ buf_get 0%Z r k = Z.of_nat (size ids)) /\
  (forall k, k ∉ l.*1 -> buf_get 0%Z r k = buf_get 0%Z result k).
Proof.
  revert result. induction l as [|[k0 ids0] l IH]; intros result Hnd Hrun;
    cbn [for_each] in Hrun.
  - injection Hrun as <-. split; [reflexivity|]. split; [|reflexivity].
    intros k ids Hin. by apply elem_of_nil in Hin.
  - destruct (Z.leb_spec UPPER_ROT k0) as [Hle | Hlt]; cbn [bind] in Hrun; [discriminate|].
    unfold array_at_set in Hrun.
    destruct ((0 <=? k0) && (k0 <? Z.of_nat (length result)))%Z eqn:Hb;
      cbn [bind] in Hrun; [|discriminate].
    apply andb_true_iff in Hb as [Hb1 Hb2].
    apply Z.leb_le in Hb1. apply Z.ltb_lt in Hb2.
    simpl in Hnd. apply NoDup_cons in Hnd as [Hnin Hnd].
    destruct (IH _ Hnd Hrun) as (Hlen & Hin & Hout).
    rewrite length_insert in Hlen. split; [exact Hlen|]. split.
    + intros k ids Hk. apply elem_of_cons in Hk as [Heq | Hk]; [|by apply Hin].
      injection Heq as -> ->. split; [lia|].
      rewrite Hout by exact Hnin. unfold buf_get.
      destruct (Z.ltb_spec k0 0); [lia|].
      rewrite nth_lookup, list_lookup_insert_eq by lia. reflexivity.
    + intros k Hk. simpl in Hk. apply not_elem_of_cons in Hk as [Hne Hk].
      rewrite Hout by exact Hk. unfold buf_get.
      destruct (Z.ltb_spec k 0); [reflexivity|].
      rewrite !nth_lookup, list_lookup_insert_ne by lia. reflexivity.
Qed.

(** The counts of a returning call. *)
Lemma calculate_n_elem_spec (g : InteractionGraph F G) (result : list Z) :
  calculate_n_elem n_bit_rotamer g = Ok result ->
  length result = 4%nat /\
  (forall n, (0 <= n < n_elem1 g)%Z ->
     (bead_rot n_bit_rotamer g n < bead_n_rot n_bit_rotamer g n < UPPER_ROT)%Z) /\
  (forall k, (0 <= k < UPPER_ROT)%Z ->
     buf_get 0%Z result k
     = Z.of_nat (size (residues_with n_bit_rotamer g (range (n_elem1 g)) k))) /\
  buf_get 0%Z result 0 = 0%Z.
Proof.
  unfold calculate_n_elem. intros Hrun.
  apply bind_ok in Hrun as (m' & H1 & H2).
  apply calculate_n_elem_first_loop_sets in H1 as [Hgood Hsets].
  apply calculate_n_elem_second_loop_counts in H2 as (Hlen & Hin & Hout);
    [|apply NoDup_fst_map_to_list].
  assert (Hcount : forall k, (0 <= k < UPPER_ROT)%Z ->
     buf_get 0%Z result k
     = Z.of_nat (size (residues_with n_bit_rotamer g (range (n_elem1 g)) k))).
  { intros k Hk. specialize (Hsets k). rewrite lookup_empty in Hsets. simpl in Hsets.
    rewrite (left_id_L ∅ (∪)) in Hsets. rewrite <- Hsets.
    destruct (m' !! k) as [ids|] eqn:Hmk.
    - apply elem_of_map_to_list in Hmk. by apply Hin in Hmk as [_ ->].
    - rewrite Hout.
      + replace (size (default (∅ : gset Z) None)) with 0%nat
          by (symmetry; apply size_empty).
        unfold buf_get, UPPER_ROT in *.
        destruct (Z.ltb_spec k 0); [reflexivity|].
        rewrite nth_lookup, lookup_replicate_2 by (simpl; lia). reflexivity.
      + intros Hk'. apply list_elem_of_fmap in Hk' as ([k' ids] & -> & Hk').
        apply elem_of_map_to_list in Hk'. simpl in Hmk. congruence. }
  split; [rewrite Hlen; reflexivity|]. split; [|split; [exact Hcount|]].
  - intros n Hn. split; [apply Hgood; by apply elem_of_range|].
    specialize (Hsets (bead_n_rot n_bit_rotamer g n)).
    destruct (m' !! bead_n_rot n_bit_rotamer g n) as [ids|] eqn:Hmk.
    + apply elem_of_map_to_list in Hmk. by apply Hin in Hmk as [[_ ?] _].
    + exfalso. rewrite lookup_empty in Hsets. simpl in Hsets.
      assert (Hel : bead_residue n_bit_rotamer g n
                    ∈ residues_with n_bit_rotamer g (range (n_elem1 g))
                        (bead_n_rot n_bit_rotamer g n)).
      { unfold residues_with. apply elem_of_list_to_set, list_elem_of_fmap.
        exists n. split; [reflexivity|]. apply list_elem_of_filter.
        split; [reflexivity | by apply elem_of_range]. }
      rewrite (left_id_L ∅ (∪)) in Hsets. rewrite <- Hsets in Hel.
      by apply elem_of_empty in Hel.
  - rewrite Hcount by (unfold UPPER_ROT; lia).
    replace (residues_with n_bit_rotamer g (range (n_elem1 g)) 0) with (∅ : gset Z);
      [by rewrite size_empty|].
    symmetry. apply set_eq. intros y. split; [|intros Hy; by apply elem_of_empty in Hy].
    unfold residues_with. intros Hy. exfalso.
    apply elem_of_list_to_set, list_elem_of_fmap in Hy as (n & _ & Hn).
    apply list_elem_of_filter in Hn as [Hz Hn].
    apply Hgood in Hn. rewrite Hz in Hn.
    assert (0 <= bead_rot n_bit_rotamer g n)%Z; [|lia].
    unfold bead_rot, decode_id. simpl. apply Z.land_nonneg. right.
    unfold selector, wrap32. apply Z.mod_pos_bound. lia.
Qed.

(** X4: when [calculate_n_elem] returns an array, the array has
    [UPPER_ROT = 4] entries, every bead has [rot < n_rot < UPPER_ROT],
    entry [k] is the number of distinct residue ids among the beads whose
    rotamer count is [k], and entry 0 is 0. *)
Theorem calculate_n_elem_counts_residues (g : InteractionGraph F G) (result : list Z) :
  calculate_n_elem n_bit_rotamer g = Ok result ->
  length result = 4%nat /\
  (forall n, (0 <= n < n_elem1 g)%Z ->
     (bead_rot n_bit_rotamer g n < bead_n_rot n_bit_rotamer g n < UPPER_ROT)%Z) /\
  (forall k, (0 <= k < UPPER_ROT)%Z ->
     buf_get 0%Z result k
     = Z.of_nat (size (residues_with n_bit_rotamer g (range (n_elem1 g)) k))) /\
  buf_get 0%Z result 0 = 0%Z.
Proof. exact (calculate_n_elem_spec g result). Qed.
End CountTheory.

Section EdgeLocTheory.
Context {F : Type} {FO : FloatOps F}.

Lemma mk_EdgeHolder_wf (m : Nodes F) (r1 r2 : node_ref) (max_n_edge : Z) :
  (0 <= n_rot (deref m r1))%Z -> (0 <= n_rot (deref m r2))%Z ->
  (n_rot (deref m r1) * n_rot (deref m r2) < 2 ^ 31)%Z ->
  (0 <= max_n_edge)%Z -> (round_up max_n_edge 4 < 2 ^ 31)%Z ->
  edge_holder_wf (mk_EdgeHolder m r1 r2 max_n_edge).
Proof.
  intros H1 H2 Hw Hm Hr. unfold edge_holder_wf, mk_EdgeHolder. simpl.
  split; [apply mk_SimdVecArrayStorage_wf; [nia | lia]|].
  split; [reflexivity|]. split; [exact H1|]. split; [exact H2|]. split; [exact Hw|].
  split; [exact Hr|].
  unfold new_aligned. rewrite length_replicate.
  pose proof (round_up_4 max_n_edge Hm). unfold simd_width. split; lia.
Qed.

Lemma apply_call_slots (h0 h : EdgeHolder F) (cs : list (Call F)) (c : Call F) :
  calls_inv h0 cs h ->
  (forall c', c' ∈ cs ++ [c] -> valid_call h0 c') ->
  (Z.of_nat (n_distinct_pairs (cs ++ [c])) <= n_elem (prob h0))%Z ->
  (forall a b idx, is_slot h a b idx -> is_slot (apply_call h c) a b idx) /\
  exists idx,
    edge_loc (apply_call h c)
    = edge_loc h ++ [{| edge_num := c_ne c;
                        dim := (c_rot1 c * n_rot2 h0 + c_rot2 c)%Z; ne := idx |}] /\
    is_slot (apply_call h c) (c_id1 c) (c_id2 c) idx.
Proof.
  intros Hinv Hvalid Hcap.
  pose proof (calls_inv_step _ _ _ _ Hinv Hvalid Hcap) as Hinv'.
  destruct Hinv as (Hr1 & Hr2 & Hwf & Hne & Hn & Hkeys & Hsurj & Hslots).
  destruct Hwf as (Hswf & Hew & Hr10 & Hr20 & Hw & Hnlt & Hl1 & Hl2).
  assert (Hvc : valid_call h0 c) by (apply Hvalid, elem_of_app; right; apply elem_of_cons; by left).
  destruct Hvc as (Ha & Hb & Hc1 & Hc2).
  pose proof (n_distinct_pairs_snoc_le cs c) as Hle.
  unfold apply_call.
  destruct (nodes_to_edge h !! edge_key (c_id1 c) (c_id2 c)) as [idx|] eqn:Hlk.
  - destruct (Hkeys _ _ Hlk) as (a & b & Hin & Hk).
    assert (Hab : (0 <= a < 2 ^ 16)%Z /\ (0 <= b < 2 ^ 16)%Z).
    { apply (valid_pairs h0 cs); [|exact Hin].
      intros c' Hc'. apply Hvalid, elem_of_app. by left. }
    destruct Hab as [Ha' Hb'].
    apply edge_key_inj in Hk as [<- <-]; [|assumption..].
    destruct (Hslots _ _ Hin) as (idx' & Hlk' & Hslot & _).
    assert (idx' = idx) by congruence. subst idx'.
    destruct Hslot as (Hidx & Hi1 & Hi2).
    destruct (add_to_edge_old h (c_ne c) (c_prob c) (c_id1 c) (c_rot1 c)
                (c_id2 c) (c_rot2 c) idx Hlk)
      as (E1 & E2 & E3 & E4 & E5 & E6 & E7 & E8); [lia | lia | lia | exact Hw |].
    split.
    + intros a' b' i (Hi & Hia & Hib). unfold is_slot. rewrite E3, E5, E6. auto.
    + exists idx. rewrite E8, Hr2. split; [reflexivity|].
      unfold is_slot. rewrite E3, E5, E6. auto.
  - assert (Hnew : call_pair c ∉ map call_pair cs).
    { intros Hin. destruct c as [e p a r1 b r2]. unfold call_pair in Hin. simpl in *.
      destruct (Hslots _ _ Hin) as (idx' & Hlk' & _). congruence. }
    rewrite n_distinct_pairs_snoc_new in Hcap by exact Hnew.
    destruct (add_to_edge_new h (c_ne c) (c_prob c) (c_id1 c) (c_rot1 c)
                (c_id2 c) (c_rot2 c) Hlk)
      as (E1 & E2 & E3 & E4 & E5 & E6 & E7 & E8); [lia.. | exact Hw |].
    split.
    + intros a' b' i (Hi & Hia & Hib). unfold is_slot. rewrite E3, E5, E6.
      rewrite !buf_get_set_ne by lia. split; [lia | auto].
    + exists (n_edge h). rewrite E8, Hr2. split; [reflexivity|].
      unfold is_slot. rewrite E3, E5, E6.
      rewrite !buf_get_set_eq by lia. split; [lia | auto].
Qed.

Lemma loc_of_call_mono (h h' : EdgeHolder F) (c : Call F) (el : EdgeLoc) :
  n_rot1 h' = n_rot1 h -> n_rot2 h' = n_rot2 h ->
  (forall a b idx, is_slot h a b idx -> is_slot h' a b idx) ->
  loc_of_call h c el -> loc_of_call h' c el.
Proof.
  intros E1 E2 Hmono (H1 & H2 & H3 & H4). unfold loc_of_call.
  rewrite E1, E2. auto.
Qed.

(** X6: after a sequence of [add_to_edge] calls from a reset holder, with
    ids below [2^16], rotamers below the rotamer counts and no more distinct
    pairs than slots, [edge_loc] has one entry per call, in call order; the
    entry of a call holds the call's source-edge number, the flat index
    [rot1*n_rot2 + rot2], which is below [n_rot1*n_rot2], and an allocated
    slot ([0 <= ne < n_edge]) whose recorded ids are the ids of the call; and
    [n_edge] does not exceed the allocated [n_elem]. *)
Theorem add_to_edge_records_locations (h0 : EdgeHolder F) (cs : list (Call F)) :
  edge_holder_wf h0 ->
  (forall c, c ∈ cs -> valid_call h0 c) ->
  (Z.of_nat (n_distinct_pairs cs) <= n_elem (prob h0))%Z ->
  let h := run_calls cs (reset h0) in
  Forall2 (loc_of_call h) cs (edge_loc h) /\
  (n_edge h <= n_elem (prob h))%Z.
Proof.
  intros Hwf. induction cs as [|c cs IH] using rev_ind; intros Hvalid Hcap h.
  - subst h. simpl. split; [constructor|]. destruct Hwf as ((_ & Hn & _) & _). exact Hn.
  - assert (Hvalid' : forall c', c' ∈ cs -> valid_call h0 c').
    { intros c' Hc'. apply Hvalid, elem_of_app. by left. }
    assert (Hcap' : (Z.of_nat (n_distinct_pairs cs) <= n_elem (prob h0))%Z).
    { pose proof (n_distinct_pairs_snoc_le cs c). lia. }
    specialize (IH Hvalid' Hcap'). cbv zeta in IH. destruct IH as (IH & _).
    pose proof (run_calls_inv h0 cs Hwf Hvalid' Hcap') as Hinv.
    pose proof (calls_inv_step _ _ _ _ Hinv Hvalid Hcap) as Hinv'.
    destruct (apply_call_slots _ _ _ _ Hinv Hvalid Hcap) as (Hmono & idx & Hloc & Hslot).
    assert (Hh : h = apply_call (run_calls cs (reset h0)) c).
    { subst h. unfold run_calls. by rewrite fold_left_app. }
    rewrite Hh.
    destruct Hinv as (Hr1 & Hr2 & _). destruct Hinv' as (Hr1' & Hr2' & Hwf' & Hne' & Hn' & _).
    split.
    + rewrite Hloc. apply Forall2_app.
      * eapply Forall2_impl; [exact IH|]. intros c' el Hc'.
        apply (loc_of_call_mono (run_calls cs (reset h0)) _ c' el);
          [congruence | congruence | exact Hmono | exact Hc'].
      * constructor; [|constructor].
        assert (Hvc : valid_call h0 c)
          by (apply Hvalid, elem_of_app; right; apply elem_of_cons; by left).
        destruct Hvc as (_ & _ & Hc1 & Hc2).
        unfold loc_of_call. simpl. rewrite Hr1', Hr2'.
        split; [reflexivity|]. split; [reflexivity|]. split; [nia | exact Hslot].
    + rewrite Hn', Hne'. exact Hcap.
Qed.
End EdgeLocTheory.

Section NodeTheory.
Context {F : Type} {FO : FloatOps F}.

(** A loop [for(k: l) a(k, idx) = g(k)] on a node array. *)
Lemma va_set_loop (l : list Z) (a : VecArrayStorage F) (idx : Z) (g : Z -> F) (c e : Z) :
  fold_left (fun a' k => va_set a' k idx (g k)) l a c e
  = if decide (c ∈ l /\ e = idx) then g c else a c e.
Proof.
  revert a. induction l as [|k l IH]; intros a; cbn [fold_left].
  - rewrite decide_False; [reflexivity|]. intros [Hin _]. by apply elem_of_nil in Hin.
  - rewrite IH. destruct (decide (c ∈ l /\ e = idx)) as [[Hin ->]|Hn].
    + rewrite decide_True; [reflexivity|]. split; [apply elem_of_cons; by right | reflexivity].
    + unfold va_set. destruct (Z.eqb_spec c k) as [-> | Hck];
        [destruct (Z.eqb_spec e idx) as [-> | Hei]|]; simpl.
      * rewrite decide_True; [reflexivity|]. split; [apply elem_of_cons; by left | reflexivity].
      * rewrite decide_False; [reflexivity|]. tauto.
      * rewrite decide_False; [reflexivity|]. intros [Hin ->].
        apply elem_of_cons in Hin as [-> | Hin]; [congruence | tauto].
Qed.

Lemma va_store_vec_get (a : VecArrayStorage F) (idx : Z) (r : Vec F) (c e : Z) :
  va_store_vec a idx r c e
  = if decide ((0 <= c < Z.of_nat (length r))%Z /\ e = idx) then vnth r c else a c e.
Proof.
  unfold va_store_vec. rewrite va_set_loop.
  destruct (decide ((0 <= c < Z.of_nat (length r))%Z /\ e = idx)) as [[H1 H2]|Hn].
  - rewrite decide_True; [reflexivity|]. split; [by apply elem_of_range | exact H2].
  - rewrite decide_False; [reflexivity|]. intros [H1 H2]. apply elem_of_range in H1. tauto.
Qed.

Lemma va_load_vec_ext (N : Z) (a a' : VecArrayStorage F) (e : Z) :
  (forall c, (0 <= c < N)%Z -> a' c e = a c e) ->
  va_load_vec N a' e = va_load_vec N a e.
Proof.
  intros Heq. unfold va_load_vec. apply map_ext_in. intros k Hk.
  apply list_elem_of_In, elem_of_range in Hk. by apply Heq.
Qed.

Lemma length_va_load_vec (N : Z) (a : VecArrayStorage F) (e : Z) :
  length (va_load_vec N a e) = Z.to_nat N.
Proof. unfold va_load_vec, range. by rewrite !length_map, length_seq. Qed.

Lemma vnth_va_load_vec (N : Z) (a : VecArrayStorage F) (e c : Z) :
  (0 <= c < N)%Z -> vnth (va_load_vec N a e) c = a c e.
Proof.
  intros Hc. unfold vnth, va_load_vec, range.
  destruct (Z.ltb_spec c 0); [lia|].
  rewrite nth_lookup, list_lookup_fmap, list_lookup_fmap.
  rewrite lookup_seq_lt by lia. simpl. f_equal. lia.
Qed.

(** A loop over the elements that rewrites each column from itself:
    [for(ne: l) store_vec(cur, ne, f(ne, load_vec<N>(cur, ne)))]. *)
Lemma va_column_loop (N : Z) (f : Z -> Vec F -> Vec F) (l : list Z)
      (a : VecArrayStorage F) (c e : Z) :
  NoDup l ->
  (forall ne v, length v = Z.to_nat N -> length (f ne v) = Z.to_nat N) ->
  fold_left (fun cur ne => va_store_vec cur ne (f ne (va_load_vec N cur ne))) l a c e
  = if decide ((0 <= c < N)%Z /\ e ∈ l) then vnth (f e (va_load_vec N a e)) c else a c e.
Proof.
  intros Hnd Hlen. revert a. induction l as [|ne l IH]; intros a; cbn [fold_left].
  - rewrite decide_False; [reflexivity|]. intros [_ Hin]. by apply elem_of_nil in Hin.
  - apply NoDup_cons in Hnd as [Hnin Hnd]. rewrite (IH Hnd).
    destruct (decide ((0 <= c < N)%Z /\ e ∈ l)) as [[Hc Hin]|Hn].
    + rewrite decide_True by (split; [exact Hc | apply elem_of_cons; by right]).
      f_equal. f_equal. apply va_load_vec_ext. intros c' Hc'.
      rewrite va_store_vec_get. rewrite decide_False; [reflexivity|].
      intros [_ ->]. contradiction.
    + rewrite va_store_vec_get, Hlen by apply length_va_load_vec.
      destruct (decide ((0 <= c < Z.of_nat (Z.to_nat N))%Z /\ e = ne)) as [[Hc ->]|Hn'].
      * rewrite decide_True; [reflexivity|]. split; [lia | apply elem_of_cons; by left].
      * rewrite decide_False; [reflexivity|]. intros [Hc Hin].
        apply elem_of_cons in Hin as [-> | Hin]; [apply Hn'; split; [lia | reflexivity] | tauto].
Qed.

Lemma vnth_zip_with (f : F -> F -> F) (u v : Vec F) (c : Z) :
  (0 <= c < Z.of_nat (length u))%Z -> (0 <= c < Z.of_nat (length v))%Z ->
  vnth (zip_with f u v) c = f (vnth u c) (vnth v c).
Proof.
  intros Hu Hv. unfold vnth. destruct (Z.ltb_spec c 0); [lia|].
  rewrite !nth_lookup, lookup_zip_with.
  destruct (lookup_lt_is_Some_2 u (Z.to_nat c)) as [x Hx]; [lia|].
  destruct (lookup_lt_is_Some_2 v (Z.to_nat c)) as [y Hy]; [lia|].
  rewrite Hx, Hy. reflexivity.
Qed.

Lemma vnth_map (f : F -> F) (v : Vec F) (c : Z) :
  (0 <= c < Z.of_nat (length v))%Z -> vnth (map f v) c = f (vnth v c).
Proof.
  intros Hv. unfold vnth. destruct (Z.ltb_spec c 0); [lia|].
  rewrite !nth_lookup, list_lookup_fmap.
  destruct (lookup_lt_is_Some_2 v (Z.to_nat c)) as [y Hy]; [lia|].
  rewrite Hy. reflexivity.
Qed.

(** X7: [NodeHolder::finish_belief_update<N>(d)] leaves [prob], [old_belief]
    and the dimensions as they were and replaces, for every element
    [0 <= e < n_elem] and component [0 <= c < N], the current belief by
    [((1-d) * rcp(max(b))) * b[c] + d * old_belief(c, e)], where [b] is the
    current belief vector of the element before the call; every other entry
    of [cur_belief] is unchanged.  The old belief enters with weight [d]. *)
Theorem finish_belief_update_mixes_old_belief (N : Z) (d : F) (h : NodeHolder F) :
  let h' := finish_belief_update N d h in
  nh_prob h' = nh_prob h /\ nh_old_belief h' = nh_old_belief h /\
  n_rot h' = n_rot h /\ nh_n_elem h' = nh_n_elem h /\
  forall c e,
    nh_cur_belief h' c e
    = if decide ((0 <= c < N)%Z /\ (0 <= e < nh_n_elem h)%Z)
      then fadd (fmul (fmul (fsub f_one d)
                            (rcp (vec_max (va_load_vec N (nh_cur_belief h) e))))
                      (nh_cur_belief h c e))
                (fmul d (nh_old_belief h c e))
      else nh_cur_belief h c e.
Proof.
  intros h'. subst h'. unfold finish_belief_update.
  split; [reflexivity|]. split; [reflexivity|]. split; [reflexivity|]. split; [reflexivity|].
  intros c e. cbn [nh_cur_belief set_nh_cur_belief].
  rewrite (va_column_loop N
    (fun ne b => vec_add (vec_scale (fmul (fsub f_one d) (rcp (vec_max b))) b)
                         (vec_scale d (va_load_vec N (nh_old_belief h) ne))));
    [|apply NoDup_range|].
  - destruct (decide ((0 <= c < N)%Z /\ e ∈ range (nh_n_elem h))) as [[Hc He]|Hn].
    + apply elem_of_range in He. rewrite decide_True by tauto.
      unfold vec_add, vec_scale.
      rewrite vnth_zip_with by (rewrite length_map, length_va_load_vec; lia).
      rewrite !vnth_map by (rewrite length_va_load_vec; lia).
      rewrite !vnth_va_load_vec by lia. reflexivity.
    + rewrite decide_False; [reflexivity|]. intros [Hc He]. apply Hn.
      split; [exact Hc | by apply elem_of_range].
  - intros ne v Hv. unfold vec_add, vec_scale.
    rewrite length_zip_with, !length_map, length_va_load_vec. lia.
Qed.
End NodeTheory.

Section NodeTheory2.
Context {F : Type} {FO : FloatOps F}.

(** The entries [NodeHolder::calculate_marginals] leaves. *)
Lemma nh_calculate_marginals_get (N : Z) (h : NodeHolder F) (c e : Z) :
  nh_cur_belief (nh_calculate_marginals N h) c e
  = if decide ((0 <= c < N)%Z /\ (0 <= e < nh_n_elem h)%Z)
    then fmul (nh_cur_belief h c e) (rcp (vec_sum (va_load_vec N (nh_cur_belief h) e)))
    else nh_cur_belief h c e.
Proof.
  unfold nh_calculate_marginals. cbn [nh_cur_belief set_nh_cur_belief].
  rewrite (va_column_loop N (fun ne b => vec_scale_r b (rcp (vec_sum b))));
    [|apply NoDup_range|].
  - destruct (decide ((0 <= c < N)%Z /\ e ∈ range (nh_n_elem h))) as [[Hc He]|Hn].
    + apply elem_of_range in He. rewrite decide_True by tauto.
      unfold vec_scale_r.
      rewrite (vnth_map (fun a => fmul a _)) by (rewrite length_va_load_vec; lia).
      rewrite vnth_va_load_vec by lia. reflexivity.
    + rewrite decide_False; [reflexivity|]. intros [Hc He]. apply Hn.
      split; [exact Hc | by apply elem_of_range].
  - intros ne v Hv. unfold vec_scale_r. by rewrite length_map.
Qed.

Lemma nh_calculate_marginals_load (N : Z) (h : NodeHolder F) (e : Z) :
  (0 <= e < nh_n_elem h)%Z ->
  va_load_vec N (nh_cur_belief (nh_calculate_marginals N h)) e
  = vec_scale_r (va_load_vec N (nh_cur_belief h) e)
                (rcp (vec_sum (va_load_vec N (nh_cur_belief h) e))).
Proof.
  intros He. unfold va_load_vec at 1 2, vec_scale_r. rewrite map_map.
  apply map_ext_in. intros k Hk. apply list_elem_of_In, elem_of_range in Hk.
  rewrite nh_calculate_marginals_get. rewrite decide_True by tauto. reflexivity.
Qed.

(** A loop [for(no: l) a(no, idx) = g(a(no, idx))] on a node array. *)
Lemma va_update_loop (l : list Z) (a : VecArrayStorage F) (idx : Z) (g : F -> F) (c e : Z) :
  NoDup l ->
  fold_left (fun a' k => va_set a' k idx (g (a' k idx))) l a c e
  = if decide (c ∈ l /\ e = idx) then g (a c e) else a c e.
Proof.
  intros Hnd. revert a. induction l as [|k l IH]; intros a; cbn [fold_left].
  - rewrite decide_False; [reflexivity|]. intros [Hin _]. by apply elem_of_nil in Hin.
  - apply NoDup_cons in Hnd as [Hnin Hnd]. rewrite (IH Hnd).
    unfold va_set.
    destruct (decide (c ∈ l /\ e = idx)) as [[Hin ->]|Hn].
    + rewrite decide_True by (split; [apply elem_of_cons; by right | reflexivity]).
      destruct (Z.eqb_spec c k) as [-> | Hck]; [contradiction | reflexivity].
    + destruct (Z.eqb_spec c k) as [-> | Hck];
        [destruct (Z.eqb_spec e idx) as [-> | Hei]|]; simpl.
      * rewrite decide_True; [reflexivity|]. split; [apply elem_of_cons; by left | reflexivity].
      * rewrite decide_False; [reflexivity|]. tauto.
      * rewrite decide_False; [reflexivity|]. intros [Hin ->].
        apply elem_of_cons in Hin as [-> | Hin]; [congruence | tauto].
Qed.

Lemma max_prob_of_ext (p p' : Z -> F) (n : Z) :
  (forall no, (0 <= no < n)%Z -> p' no = p no) -> max_prob_of p' n = max_prob_of p n.
Proof.
  intros Heq. unfold max_prob_of.
  assert (Hl : forall no, no ∈ range n -> p' no = p no)
    by (intros no Hno; apply Heq; by apply elem_of_range).
  generalize (f_tiny (F:=F)). induction (range n) as [|k l IH]; intros acc; [reflexivity|].
  cbn [fold_left]. rewrite (Hl k) by (apply elem_of_cons; by left).
  apply IH. intros no Hno. apply Hl, elem_of_cons. by right.
Qed.

Lemma nh_standardize_probs_get (h : NodeHolder F) (c e : Z) :
  nh_prob (nh_standardize_probs h) c e
  = if decide ((0 <= c < n_rot h)%Z /\ (0 <= e < nh_n_elem h)%Z)
    then fmul (nh_prob h c e) (rcp (max_prob_of (fun no => nh_prob h no e) (n_rot h)))
    else nh_prob h c e.
Proof.
  unfold nh_standardize_probs. cbn [nh_prob set_nh_prob].
  transitivity (if decide ((0 <= c < n_rot h)%Z /\ e ∈ range (nh_n_elem h))
    then fmul (nh_prob h c e) (rcp (max_prob_of (fun no => nh_prob h no e) (n_rot h)))
    else nh_prob h c e).
  2:{ destruct (decide ((0 <= c < n_rot h)%Z /\ e ∈ range (nh_n_elem h))) as [[Hc He]|Hn].
      - apply elem_of_range in He. by rewrite decide_True by tauto.
      - rewrite decide_False; [reflexivity|]. intros [Hc He]. apply Hn.
        split; [exact Hc | by apply elem_of_range]. }
  pose proof (NoDup_range (nh_n_elem h)) as Hnd.
  generalize (nh_prob h). induction (range (nh_n_elem h)) as [|ne l IH]; intros p;
    cbn [fold_left].
  - rewrite decide_False; [reflexivity|]. intros [_ Hin]. by apply elem_of_nil in Hin.
  - apply NoDup_cons in Hnd as [Hnin Hnd]. rewrite (IH Hnd).
    fold (max_prob_of (fun no => p no ne) (n_rot h)).
    set (inv := rcp (max_prob_of (fun no => p no ne) (n_rot h))).
    pose proof (fun c e => va_update_loop (range (n_rot h)) p ne (fun v => fmul v inv) c e
                             (NoDup_range _)) as Hstep.
    cbv beta in Hstep.
    destruct (decide ((0 <= c < n_rot h)%Z /\ e ∈ l)) as [[Hc Hin]|Hn].
    + rewrite decide_True by (split; [exact Hc | apply elem_of_cons; by right]).
      assert (Hne : e <> ne) by (intros ->; contradiction).
      rewrite Hstep. rewrite decide_False by tauto. f_equal. f_equal.
      apply max_prob_of_ext. intros no Hno. rewrite Hstep.
      rewrite decide_False by tauto. reflexivity.
    + rewrite Hstep.
      destruct (decide (c ∈ range (n_rot h) /\ e = ne)) as [[Hc ->]|Hn'].
      * apply elem_of_range in Hc.
        rewrite decide_True by (split; [exact Hc | apply elem_of_cons; by left]).
        reflexivity.
      * rewrite decide_False; [reflexivity|]. intros [Hc Hin].
        apply elem_of_cons in Hin as [-> | Hin]; [|tauto].
        apply Hn'. split; [by apply elem_of_range | reflexivity].
Qed.

Section NodeOrdered.
Context {FOrd : FloatOrder F}.

Lemma max_prob_of_spec (p : Z -> F) (n : Z) :
  fle f_tiny (max_prob_of p n) = true /\
  (forall no, (0 <= no < n)%Z -> fle (p no) (max_prob_of p n) = true) /\
  (max_prob_of p n = f_tiny \/ exists no, (0 <= no < n)%Z /\ max_prob_of p n = p no).
Proof.
  unfold max_prob_of.
  assert (Hgen : forall l acc,
    let r := fold_left (fun max_prob no => if fgt (p no) max_prob then p no else max_prob)
                       l acc in
    fle acc r = true /\ (forall no, no ∈ l -> fle (p no) r = true) /\
    (r = acc \/ exists no, no ∈ l /\ r = p no)).
  { induction l as [|k l IH]; intros acc; cbn [fold_left]; cbv zeta.
    - split; [apply fle_refl|]. split; [|by left].
      intros no Hno. by apply elem_of_nil in Hno.
    - destruct (IH (if fgt (p k) acc then p k else acc)) as (H1 & H2 & H3).
      cbv zeta in H1, H2, H3. unfold fgt in *.
      destruct (flt acc (p k)) eqn:Hlt.
      + split; [eapply fle_trans; [apply flt_fle; exact Hlt | exact H1]|]. split.
        * intros no Hno. apply elem_of_cons in Hno as [-> | Hno]; [exact H1 | by apply H2].
        * right. destruct H3 as [-> | (no & Hno & ->)].
          -- exists k. split; [apply elem_of_cons; by left | reflexivity].
          -- exists no. split; [apply elem_of_cons; by right | reflexivity].
      + split; [exact H1|]. split.
        * intros no Hno. apply elem_of_cons in Hno as [-> | Hno]; [|by apply H2].
          eapply fle_trans; [apply nlt_fle; exact Hlt | exact H1].
        * destruct H3 as [-> | (no & Hno & ->)]; [by left|].
          right. exists no. split; [apply elem_of_cons; by right | reflexivity]. }
  destruct (Hgen (range n) f_tiny) as (H1 & H2 & H3). cbv zeta in H1, H2, H3.
  split; [exact H1|]. split.
  - intros no Hno. apply H2. by apply elem_of_range.
  - destruct H3 as [-> | (no & Hno & ->)]; [by left|].
    right. exists no. split; [by apply elem_of_range | reflexivity].
Qed.

End NodeOrdered.
End NodeTheory2.

(** ** Exact arithmetic *)

Lemma fold_left_Qplus_proper (v : list Q) (a a' : Q) :
  (a == a')%Q -> (fold_left Qplus v a == fold_left Qplus v a')%Q.
Proof.
  revert a a'. induction v as [|y v IH]; intros a a' Ha; simpl; [exact Ha|].
  apply IH. by rewrite Ha.
Qed.

Lemma fold_left_Qplus_scale (v : list Q) (a s : Q) :
  (fold_left Qplus (map (fun y => y * s) v) (a * s) == fold_left Qplus v a * s)%Q.
Proof.
  revert a. induction v as [|y v IH]; intros a; simpl; [reflexivity|].
  rewrite <- IH. apply fold_left_Qplus_proper. ring.
Qed.

Lemma vec_sum_scale_exact (v : Vec Q) (s : Q) :
  (vec_sum (vec_scale_r v s) == vec_sum v * s)%Q.
Proof.
  destruct v as [|a v]; simpl; [ring|]. apply fold_left_Qplus_scale.
Qed.

Lemma fold_left_Qplus_nonneg (v : list Q) (a : Q) :
  (0 <= a)%Q -> Forall (Qle 0) v -> (0 <= fold_left Qplus v a)%Q.
Proof.
  revert a. induction v as [|y v IH]; intros a Ha Hv; simpl; [exact Ha|].
  inversion Hv; subst. apply IH; [|assumption].
  replace 0%Q with (0 + 0)%Q by reflexivity. by apply Qplus_le_compat.
Qed.

Lemma vec_sum_nonneg_exact (v : Vec Q) : Forall (Qle 0) v -> (0 <= vec_sum v)%Q.
Proof.
  destruct v as [|a v]; simpl; [intros _; apply Qle_refl|].
  intros Hv. inversion Hv; subst. by apply fold_left_Qplus_nonneg.
Qed.

Lemma normalised_exact (v : Vec Q) :
  ~ (vec_sum v == 0)%Q ->
  (vec_sum (vec_scale_r v (rcp (vec_sum v))) == 1)%Q /\
  (Forall (Qle 0) v -> Forall (Qle 0) (vec_scale_r v (rcp (vec_sum v)))).
Proof.
  intros Hs. split.
  - rewrite vec_sum_scale_exact. simpl. by apply Qmult_inv_r.
  - intros Hv. unfold vec_scale_r. apply Forall_fmap.
    eapply Forall_impl; [exact Hv|]. intros y Hy. simpl.
    apply Qmult_le_0_compat; [exact Hy|].
    apply Qinv_le_0_compat. by apply vec_sum_nonneg_exact.
Qed.

(** X10: with the float operations read as exact rational arithmetic, after
    [NodeHolder::calculate_marginals<N>()] the [N] components of an element
    [0 <= e < n_elem] whose beliefs did not add up to 0 add up to exactly 1,
    and they are not negative when the beliefs were not. *)
Theorem node_marginals_sum_to_one_exact (N : Z) (h : NodeHolder Q) (e : Z) :
  (0 <= e < nh_n_elem h)%Z ->
  ~ (vec_sum (va_load_vec N (nh_cur_belief h) e) == 0)%Q ->
  let b' := va_load_vec N (nh_cur_belief (nh_calculate_marginals N h)) e in
  (vec_sum b' == 1)%Q /\
  (Forall (Qle 0) (va_load_vec N (nh_cur_belief h) e) -> Forall (Qle 0) b').
Proof.
  intros He Hs b'. subst b'. rewrite nh_calculate_marginals_load by exact He.
  by apply normalised_exact.
Qed.

Lemma fle_exact (a b : Q) : fle a b = true <-> (a <= b)%Q.
Proof. apply Qle_bool_iff. Qed.

(** X9: with the float operations read as exact rational arithmetic, after
    [NodeHolder::standardize_probs()] no probability of an element
    [0 <= e < n_elem] exceeds 1, and an element that had a probability above
    [1e-10] has a probability equal to 1. *)
Theorem standardize_probs_largest_is_one_exact (h : NodeHolder Q) (e : Z) :
  (0 <= e < nh_n_elem h)%Z ->
  let h' := nh_standardize_probs h in
  (forall c, (0 <= c < n_rot h)%Z -> (nh_prob h' c e <= 1)%Q) /\
  ((exists c, (0 <= c < n_rot h)%Z /\ (f_tiny < nh_prob h c e)%Q) ->
   exists c, (0 <= c < n_rot h)%Z /\ (nh_prob h' c e == 1)%Q).
Proof.
  intros He h'. subst h'.
  destruct (max_prob_of_spec (fun no => nh_prob h no e) (n_rot h)) as (H1 & H2 & H3).
  set (m := max_prob_of (fun no => nh_prob h no e) (n_rot h)) in *.
  apply fle_exact in H1.
  assert (Hm : (0 < m)%Q).
  { eapply Qlt_le_trans; [|exact H1]. reflexivity. }
  split.
  - intros c Hc. rewrite nh_standardize_probs_get. rewrite decide_True by tauto.
    fold m. simpl. apply Qle_shift_div_r; [exact Hm|].
    rewrite Qmult_1_l. apply fle_exact. by apply H2.
  - intros (c & Hc & Hgt). destruct H3 as [Hmt | (c' & Hc' & Hm')].
    + exfalso. specialize (H2 c Hc). apply fle_exact in H2. rewrite Hmt in H2.
      apply (Qlt_irrefl f_tiny). eapply Qlt_le_trans; [exact Hgt | exact H2].
    + exists c'. split; [exact Hc'|]. rewrite nh_standardize_probs_get.
      rewrite decide_True by tauto. fold m. rewrite <- Hm'. simpl.
      apply Qmult_inv_r. intros Hz. rewrite Hz in Hm. by apply Qlt_irrefl in Hm.
Qed.

Section EdgeTheory.
Context {F : Type} {FO : FloatOps F}.

Lemma deref_assign_eq (m : Nodes F) (r : node_ref) (x : NodeHolder F) :
  deref (assign m r x) r = x.
Proof. by destruct r. Qed.

Lemma deref_assign_ne (m : Nodes F) (r r' : node_ref) (x : NodeHolder F) :
  r' <> r -> deref (assign m r x) r' = deref m r'.
Proof. destruct r, r'; simpl; congruence. Qed.

(** The inner loop of [move_edge_prob_to_node2] for one edge. *)
Lemma move_edge_inner (h : EdgeHolder F) (e nr : Z) (l : list Z) (m : Nodes F) :
  NoDup l ->
  let r := eh_nodes2 h in
  let m' := fold_left (fun m'' no =>
      let nd := deref m'' r in
      assign m'' r
        (set_nh_prob nd (va_set (nh_prob nd) no nr
                                (fmul (nh_prob nd no nr) (sv_get (prob h) no e)))))
    l m in
  (forall r', r' <> r -> deref m' r' = deref m r') /\
  nh_cur_belief (deref m' r) = nh_cur_belief (deref m r) /\
  nh_old_belief (deref m' r) = nh_old_belief (deref m r) /\
  n_rot (deref m' r) = n_rot (deref m r) /\
  nh_n_elem (deref m' r) = nh_n_elem (deref m r) /\
  forall no nr',
    nh_prob (deref m' r) no nr'
    = if decide (no ∈ l /\ nr' = nr)
      then fmul (nh_prob (deref m r) no nr) (sv_get (prob h) no e)
      else nh_prob (deref m r) no nr'.
Proof.
  intros Hnd r. revert m. induction l as [|k l IH]; intros m; cbn [fold_left]; cbv zeta.
  - do 5 (split; [reflexivity|]). intros no nr'.
    rewrite decide_False; [reflexivity|]. intros [Hin _]. by apply elem_of_nil in Hin.
  - apply NoDup_cons in Hnd as [Hnin Hnd].
    destruct (IH Hnd (assign m r
        (set_nh_prob (deref m r)
           (va_set (nh_prob (deref m r)) k nr
                   (fmul (nh_prob (deref m r) k nr) (sv_get (prob h) k e))))))
      as (H1 & H2 & H3 & H4 & H5 & H6).
    cbv zeta in H1, H2, H3, H4, H5, H6.
    rewrite deref_assign_eq in H2, H3, H4, H5, H6.
    split; [|split; [exact H2|split; [exact H3|split; [exact H4|split; [exact H5|]]]]].
    + intros r' Hr'. rewrite H1 by exact Hr'. by apply deref_assign_ne.
    + intros no nr'. rewrite H6. cbn [nh_prob set_nh_prob]. unfold va_set.
      destruct (decide (no ∈ l /\ nr' = nr)) as [[Hin ->]|Hn].
      * rewrite decide_True by (split; [apply elem_of_cons; by right | reflexivity]).
        destruct (Z.eqb_spec no k) as [-> | Hk]; [contradiction | reflexivity].
      * destruct (Z.eqb_spec no k) as [-> | Hk];
          [destruct (Z.eqb_spec nr' nr) as [-> | Hnr]|]; simpl.
        -- rewrite decide_True; [reflexivity|].
           split; [apply elem_of_cons; by left | reflexivity].
        -- rewrite decide_False; [reflexivity|]. tauto.
        -- rewrite decide_False; [reflexivity|]. intros [Hin ->].
           apply elem_of_cons in Hin as [-> | Hin]; [congruence | tauto].
Qed.

Lemma move_edge_outer (h : EdgeHolder F) (l : list Z) (m : Nodes F) :
  let r := eh_nodes2 h in
  let m' := fold_left (fun m' e =>
      let nr := buf_get 0%Z (edge_indices2 h) e in
      fold_left (fun m'' no =>
          let nd := deref m'' r in
          assign m'' r
            (set_nh_prob nd (va_set (nh_prob nd) no nr
                                    (fmul (nh_prob nd no nr) (sv_get (prob h) no e)))))
        (range (n_rot2 h)) m')
    l m in
  (forall r', r' <> r -> deref m' r' = deref m r') /\
  nh_cur_belief (deref m' r) = nh_cur_belief (deref m r) /\
  nh_old_belief (deref m' r) = nh_old_belief (deref m r) /\
  n_rot (deref m' r) = n_rot (deref m r) /\
  nh_n_elem (deref m' r) = nh_n_elem (deref m r) /\
  forall no nr,
    nh_prob (deref m' r) no nr
    = if decide (0 <= no < n_rot2 h)%Z
      then fold_left fmul
             (map (fun e => sv_get (prob h) no e)
                  (filter (fun e => buf_get 0%Z (edge_indices2 h) e = nr) l))
             (nh_prob (deref m r) no nr)
      else nh_prob (deref m r) no nr.
Proof.
  intros r. induction l as [|e l IH] using rev_ind; cbv zeta.
  - simpl. do 5 (split; [reflexivity|]). intros no nr. by destruct (decide _).
  - rewrite fold_left_app. cbn [fold_left].
    cbv zeta in IH. destruct IH as (H1 & H2 & H3 & H4 & H5 & H6).
    set (m1 := fold_left _ l m) in *.
    destruct (move_edge_inner h e (buf_get 0%Z (edge_indices2 h) e) (range (n_rot2 h)) m1
                (NoDup_range _)) as (I1 & I2 & I3 & I4 & I5 & I6).
    cbv zeta in I1, I2, I3, I4, I5, I6. fold r in I1, I2, I3, I4, I5, I6.
    split; [|split; [congruence|split; [congruence|split; [congruence|split; [congruence|]]]]].
    + intros r' Hr'. rewrite I1 by exact Hr'. by apply H1.
    + intros no nr. rewrite I6, filter_app, map_app, fold_left_app, !H6.
      rewrite filter_cons, filter_nil.
      destruct (decide (0 <= no < n_rot2 h)%Z) as [Hno | Hno].
      * destruct (decide (buf_get 0%Z (edge_indices2 h) e = nr)) as [<- | Hne].
        -- rewrite decide_True by (split; [by apply elem_of_range | reflexivity]).
           reflexivity.
        -- rewrite decide_False by (intros [_ Heq]; congruence). reflexivity.
      * rewrite decide_False; [reflexivity|]. intros [Hin _].
        apply elem_of_range in Hin. contradiction.
Qed.

(** X11: [EdgeHolder::move_edge_prob_to_node2()] changes nothing but the
    probabilities of its second node holder: for every rotamer
    [0 <= no < n_rot2] and every element [nr], [nodes2.prob(no, nr)] is
    multiplied, in the order of the edges, by [prob(no, e)] of each edge
    [e < n_edge] with [edge_indices2[e] = nr]; the other node holder, the
    beliefs and the dimensions are as they were. *)
Theorem move_edge_prob_to_node2_absorbs (h : EdgeHolder F) (m : Nodes F) :
  let r := eh_nodes2 h in
  let m' := move_edge_prob_to_node2 h m in
  (forall r', r' <> r -> deref m' r' = deref m r') /\
  nh_cur_belief (deref m' r) = nh_cur_belief (deref m r) /\
  nh_old_belief (deref m' r) = nh_old_belief (deref m r) /\
  n_rot (deref m' r) = n_rot (deref m r) /\
  nh_n_elem (deref m' r) = nh_n_elem (deref m r) /\
  forall no nr,
    nh_prob (deref m' r) no nr
    = if decide (0 <= no < n_rot2 h)%Z
      then fold_left fmul (absorbed_factors h no nr) (nh_prob (deref m r) no nr)
      else nh_prob (deref m r) no nr.
Proof. apply move_edge_outer. Qed.
End EdgeTheory.

Section EdgeTheory2.
Context {F : Type} {FO : FloatOps F}.

(** A loop [for(nd: l) a(nd, e) = g(a(nd, e))] on a storage. *)
Lemma sv_update_loop (l : list Z) (a : SimdVecArrayStorage F) (e : Z) (g : F -> F) :
  storage_wf a -> (0 <= e < n_elem a)%Z ->
  (forall j, j ∈ l -> (0 <= j < elem_width a)%Z) -> NoDup l ->
  let a' := fold_left (fun p j => sv_set p j e (g (sv_get p j e))) l a in
  storage_wf a' /\ elem_width a' = elem_width a /\ n_elem a' = n_elem a /\
  forall c' e', (0 <= c' < elem_width a)%Z -> (0 <= e')%Z ->
    sv_get a' c' e' = if decide (c' ∈ l /\ e' = e) then g (sv_get a c' e') else sv_get a c' e'.
Proof.
  revert a. induction l as [|j l IH]; intros a Hwf He Hl Hnd; cbv zeta; cbn [fold_left].
  - split; [exact Hwf|]. split; [reflexivity|]. split; [reflexivity|].
    intros c' e' Hc' He'. rewrite decide_False; [reflexivity|].
    intros [Hin _]. by apply elem_of_nil in Hin.
  - apply NoDup_cons in Hnd as [Hnin Hnd].
    assert (Hj : (0 <= j < elem_width a)%Z) by (apply Hl, elem_of_cons; by left).
    destruct (IH (sv_set a j e (g (sv_get a j e)))) as (Hwf' & Hw' & Hn' & Hget).
    + by apply sv_set_wf.
    + exact He.
    + intros j' Hj'. apply Hl. apply elem_of_cons. by right.
    + exact Hnd.
    + split; [exact Hwf'|]. split; [exact Hw'|]. split; [exact Hn'|].
      intros c' e' Hc' He'. cbv zeta in Hget. rewrite Hget by assumption.
      destruct (decide (c' ∈ l /\ e' = e)) as [[Hin ->]|Hnl].
      * rewrite decide_True by (split; [apply elem_of_cons; by right | done]).
        rewrite sv_get_set_ne; [reflexivity|lia|lia|lia|lia|].
        intros Heq. injection Heq as ->. contradiction.
      * destruct (decide ((j, e) = (c', e'))) as [Heq | Hne].
        -- injection Heq as <- <-. rewrite sv_get_set_eq by assumption.
           rewrite decide_True; [reflexivity|]. split; [apply elem_of_cons; by left | done].
        -- rewrite sv_get_set_ne by (try lia; assumption).
           destruct (decide (c' ∈ j :: l /\ e' = e)) as [[Hin ->]|_]; [|reflexivity].
           apply elem_of_cons in Hin as [-> | Hin]; [congruence | tauto].
Qed.

Lemma standardize_probs_loop (W : Z) (l : list Z) (p : SimdVecArrayStorage F) :
  storage_wf p -> elem_width p = W ->
  (forall e, e ∈ l -> (0 <= e < n_elem p)%Z) -> NoDup l ->
  let p' := fold_left (fun p ne =>
      let max_prob :=
        fold_left (fun max_prob nd =>
                     if fgt (sv_get p nd ne) max_prob then sv_get p nd ne else max_prob)
                  (range W) f_tiny in
      let inv_max_prob := rcp max_prob in
      fold_left (fun p' nd => sv_set p' nd ne (fmul (sv_get p' nd ne) inv_max_prob))
                (range W) p)
    l p in
  storage_wf p' /\ elem_width p' = W /\ n_elem p' = n_elem p /\
  forall c e, (0 <= c < W)%Z -> (0 <= e)%Z ->
    sv_get p' c e
    = if decide (e ∈ l)
      then fmul (sv_get p c e) (rcp (max_prob_of (fun nd => sv_get p nd e) W))
      else sv_get p c e.
Proof.
  revert p. induction l as [|ne l IH]; intros p Hwf Hw Hl Hnd; cbv zeta; cbn [fold_left].
  - split; [exact Hwf|]. split; [exact Hw|]. split; [reflexivity|].
    intros c e Hc He. rewrite decide_False; [reflexivity|]. apply not_elem_of_nil.
  - apply NoDup_cons in Hnd as [Hnin Hnd].
    fold (max_prob_of (fun nd => sv_get p nd ne) W).
    set (inv := rcp (max_prob_of (fun nd => sv_get p nd ne) W)).
    destruct (sv_update_loop (range W) p ne (fun v => fmul v inv) Hwf)
      as (Hwf1 & Hw1 & Hn1 & Hget1).
    { apply Hl, elem_of_cons. by left. }
    { intros j Hj. apply elem_of_range in Hj. lia. }
    { apply NoDup_range. }
    cbv zeta beta in Hget1. set (p1 := fold_left _ (range W) p) in *.
    destruct (IH p1 Hwf1) as (Hwf' & Hw' & Hn' & Hget).
    { congruence. }
    { intros e He. rewrite Hn1. apply Hl, elem_of_cons. by right. }
    { exact Hnd. }
    cbv zeta in Hget.
    split; [exact Hwf'|]. split; [exact Hw'|]. split; [exact (eq_trans Hn' Hn1)|].
    intros c e Hc He. rewrite Hget by assumption.
    destruct (decide (e ∈ l)) as [Hin | Hnin'].
    + rewrite decide_True by (apply elem_of_cons; by right).
      assert (Hne : e <> ne) by (intros ->; contradiction).
      rewrite Hget1 by lia. rewrite decide_False by tauto. f_equal. f_equal.
      apply max_prob_of_ext. intros nd Hnd'. rewrite Hget1 by lia.
      rewrite decide_False by tauto. reflexivity.
    + rewrite Hget1 by lia.
      destruct (decide (e = ne)) as [-> | Hne].
      * rewrite decide_True by (split; [by apply elem_of_range | reflexivity]).
        rewrite decide_True by (apply elem_of_cons; by left). reflexivity.
      * rewrite decide_False by tauto.
        rewrite decide_False; [reflexivity|].
        intros Hin. apply elem_of_cons in Hin as [-> | Hin]; tauto.
Qed.

Section EdgeOrdered.
Context {FOrd : FloatOrder F}.

End EdgeOrdered.

Lemma length_vset (v : Vec F) (i : Z) (a : F) : length (vset v i a) = length v.
Proof. unfold vset. destruct (i <? 0)%Z; [reflexivity | apply length_insert]. Qed.

Lemma length_marginal_weights (N1 N2 : Z) (m : Nodes F) (h : EdgeHolder F) (e : Z) :
  length (marginal_weights N1 N2 m h e) = Z.to_nat (N1 * N2).
Proof.
  unfold marginal_weights. cbv zeta.
  generalize (loop2 N1 N2). intros l.
  rewrite <- (length_load_vec (N1 * N2) (prob h) e).
  generalize (load_vec (N1 * N2) (prob h) e).
  induction l as [|[no1 no2] l IH]; intros p; cbn [fold_left]; [reflexivity|].
  rewrite IH. apply length_vset.
Qed.

(** The loop [for(e: l) store_vec(mg, e, g(e))]. *)
Lemma store_vec_loop (l : list Z) (g : Z -> Vec F) (a : SimdVecArrayStorage F) :
  storage_wf a ->
  (forall e, e ∈ l -> (0 <= e < n_elem a)%Z /\ Z.of_nat (length (g e)) = elem_width a) ->
  NoDup l ->
  let a' := fold_left (fun mg e => store_vec mg e (g e)) l a in
  storage_wf a' /\ elem_width a' = elem_width a /\ n_elem a' = n_elem a /\
  forall e, (0 <= e)%Z ->
    load_vec (elem_width a) a' e = if decide (e ∈ l) then g e else load_vec (elem_width a) a e.
Proof.
  revert a. induction l as [|e0 l IH]; intros a Hwf Hl Hnd; cbv zeta; cbn [fold_left].
  - split; [exact Hwf|]. split; [reflexivity|]. split; [reflexivity|].
    intros e He. rewrite decide_False; [reflexivity|]. apply not_elem_of_nil.
  - apply NoDup_cons in Hnd as [Hnin Hnd].
    destruct (Hl e0) as [He0 Hlen0]; [apply elem_of_cons; by left|].
    destruct (store_vec_spec a e0 (g e0) Hwf He0 Hlen0) as (Hwf1 & Hw1 & Hn1 & Hrt & Hfr).
    destruct (IH (store_vec a e0 (g e0)) Hwf1) as (Hwf' & Hw' & Hn' & Hget).
    { intros e He. rewrite Hw1, Hn1. apply Hl, elem_of_cons. by right. }
    { exact Hnd. }
    cbv zeta in Hget. rewrite Hw1 in Hget.
    split; [exact Hwf'|]. split; [congruence|]. split; [congruence|].
    intros e He. rewrite Hget by exact He.
    destruct (decide (e ∈ l)) as [Hin | Hnin'].
    + rewrite decide_True by (apply elem_of_cons; by right). reflexivity.
    + destruct (decide (e = e0)) as [-> | Hne].
      * rewrite decide_True by (apply elem_of_cons; by left). exact Hrt.
      * rewrite decide_False.
        -- apply Hfr; assumption.
        -- intros Hin. apply elem_of_cons in Hin as [-> | Hin]; tauto.
Qed.

Lemma calculate_marginals_load (N1 N2 : Z) (m : Nodes F) (h : EdgeHolder F) (e : Z) :
  storage_wf (marginal h) -> elem_width (marginal h) = (N1 * N2)%Z ->
  (n_edge h <= n_elem (marginal h))%Z -> (0 <= e < n_edge h)%Z ->
  load_vec (N1 * N2) (marginal (calculate_marginals N1 N2 m h)) e
  = vec_scale_r (marginal_weights N1 N2 m h e)
                (rcp (vec_sum (marginal_weights N1 N2 m h e))).
Proof.
  intros Hwf Hw Hcap He.
  destruct (store_vec_loop (range (n_edge h))
              (fun e => vec_scale_r (marginal_weights N1 N2 m h e)
                                    (rcp (vec_sum (marginal_weights N1 N2 m h e))))
              (marginal h) Hwf) as (_ & _ & _ & Hget).
  { intros e' He'. apply elem_of_range in He'. split; [lia|].
    unfold vec_scale_r. rewrite length_map, length_marginal_weights, Hw.
    destruct Hwf as (Hw0 & _). lia. }
  { apply NoDup_range. }
  cbv zeta in Hget. rewrite Hw in Hget.
  specialize (Hget e ltac:(lia)). rewrite decide_True in Hget by (apply elem_of_range; lia).
  exact Hget.
Qed.
End EdgeTheory2.

(** X13: with the float operations read as exact rational arithmetic, after
    [EdgeHolder::calculate_marginals<N1,N2>()] the [N1*N2] entries of
    [marginal] of an edge [e < n_edge] add up to exactly 1, provided the
    weighted potential [p] of the edge does not add up to 0, and they are
    not negative when the entries of [p] are not. *)
Theorem edge_marginals_sum_to_one_exact (N1 N2 : Z) (m : Nodes Q) (h : EdgeHolder Q) (e : Z) :
  storage_wf (marginal h) -> elem_width (marginal h) = (N1 * N2)%Z ->
  (n_edge h <= n_elem (marginal h))%Z -> (0 <= e < n_edge h)%Z ->
  ~ (vec_sum (marginal_weights N1 N2 m h e) == 0)%Q ->
  let mg := load_vec (N1 * N2) (marginal (calculate_marginals N1 N2 m h)) e in
  (vec_sum mg == 1)%Q /\
  (Forall (Qle 0) (marginal_weights N1 N2 m h e) -> Forall (Qle 0) mg).
Proof.
  intros Hwf Hw Hcap He Hs mg. subst mg.
  rewrite calculate_marginals_load by assumption. by apply normalised_exact.
Qed.

(** ** calculate_marginals *)

Lemma within_tolerance_exact (s : Q) :
  (s == 1)%Q -> within_tolerance (1 # 1000000)%Q s = true.
Proof.
  intros Hs. unfold within_tolerance. simpl. apply andb_true_iff.
  split; apply Qle_bool_iff; rewrite Hs; discriminate.
Qed.

Lemma va_load_vec_nonneg (N : Z) (a : VecArrayStorage Q) (i : Z) :
  Forall (Qle 0) (va_load_vec N a i) <-> forall r, (0 <= r < N)%Z -> (0 <= a r i)%Q.
Proof.
  unfold va_load_vec. rewrite Forall_fmap, Forall_forall. split.
  - intros H r Hr. apply (H r). by apply elem_of_range.
  - intros H r Hr. apply elem_of_range in Hr. by apply H.
Qed.




Section SolverFrame.
Context {F : Type} {FO : FloatOps F} {G : Type}.

Lemma nh_same_potential_refl (h : NodeHolder F) : nh_same_potential h h.
Proof. by repeat split. Qed.

Lemma nh_same_potential_trans (h1 h2 h3 : NodeHolder F) :
  nh_same_potential h1 h2 -> nh_same_potential h2 h3 -> nh_same_potential h1 h3.
Proof. unfold nh_same_potential. intuition congruence. Qed.

Lemma eh_same_potential_refl (h : EdgeHolder F) : eh_same_potential h h.
Proof. by repeat split. Qed.

Lemma eh_same_potential_trans (h1 h2 h3 : EdgeHolder F) :
  eh_same_potential h1 h2 -> eh_same_potential h2 h3 -> eh_same_potential h1 h3.
Proof. unfold eh_same_potential. intuition congruence. Qed.

Lemma same_outside_holders_refl (s : RotamerSidechain F G) : same_outside_holders s s.
Proof. by repeat split. Qed.

Lemma same_outside_holders_trans (s1 s2 s3 : RotamerSidechain F G) :
  same_outside_holders s1 s2 -> same_outside_holders s2 s3 -> same_outside_holders s1 s3.
Proof. unfold same_outside_holders. intuition congruence. Qed.

Lemma solver_frame_refl (s : RotamerSidechain F G) : solver_frame s s.
Proof.
  split; [apply same_outside_holders_refl|]. split; [reflexivity|]. split; [reflexivity|].
  split; [apply eh_same_potential_refl|]. split; apply nh_same_potential_refl.
Qed.

Lemma solver_frame_trans (s1 s2 s3 : RotamerSidechain F G) :
  solver_frame s1 s2 -> solver_frame s2 s3 -> solver_frame s1 s3.
Proof.
  intros (A1 & A2 & A3 & A4 & A5 & A6) (B1 & B2 & B3 & B4 & B5 & B6).
  split; [eapply same_outside_holders_trans; eassumption|].
  split; [congruence|]. split; [congruence|].
  split; [eapply eh_same_potential_trans; eassumption|].
  split; eapply nh_same_potential_trans; eassumption.
Qed.

Lemma with_holders_frame (s : RotamerSidechain F G) (m : Nodes F) (e33 : EdgeHolder F) :
  nh_same_potential (nodes1 (nodes s)) (nodes1 m) ->
  nh_same_potential (nodes3 (nodes s)) (nodes3 m) ->
  eh_same_potential (edges33 s) e33 ->
  solver_frame s (with_holders s m (edges11 s) (edges13 s) e33).
Proof.
  intros H1 H3 He. split; [by repeat split|]. split; [reflexivity|]. split; [reflexivity|].
  split; [exact He|]. split; assumption.
Qed.

Lemma update_beliefs_edge_potentials (N1 N2 : Z) (d : F) (st : Nodes F * EdgeHolder F)
      (e : Z) :
  let st' := update_beliefs_edge N1 N2 d st e in
  nh_same_potential (nodes1 st.1) (nodes1 st'.1) /\
  nh_same_potential (nodes3 st.1) (nodes3 st'.1) /\
  eh_same_potential st.2 st'.2.
Proof.
  destruct st as [m h]. unfold update_beliefs_edge.
  destruct (cur_edge_beliefs N1 N2 m h e) as [c1 c2]. cbv zeta.
  unfold nh_same_potential, eh_same_potential.
  destruct (eh_nodes1 h), (eh_nodes2 h); simpl; repeat split; reflexivity.
Qed.

Lemma update_beliefs_potentials (N1 N2 : Z) (d : F) (m : Nodes F) (h : EdgeHolder F) :
  let st' := update_beliefs N1 N2 d m h in
  nh_same_potential (nodes1 m) (nodes1 st'.1) /\
  nh_same_potential (nodes3 m) (nodes3 st'.1) /\
  eh_same_potential h st'.2.
Proof.
  unfold update_beliefs. generalize (range (n_edge h)). intros l.
  assert (Hgen : forall st,
    nh_same_potential (nodes1 m) (nodes1 st.1) /\
    nh_same_potential (nodes3 m) (nodes3 st.1) /\ eh_same_potential h st.2 ->
    let st' := fold_left (update_beliefs_edge N1 N2 d) l st in
    nh_same_potential (nodes1 m) (nodes1 st'.1) /\
    nh_same_potential (nodes3 m) (nodes3 st'.1) /\ eh_same_potential h st'.2).
  { induction l as [|e l IH]; intros st Hst; cbn [fold_left]; [exact Hst|].
    apply IH. destruct Hst as (A1 & A2 & A3).
    destruct (update_beliefs_edge_potentials N1 N2 d st e) as (B1 & B2 & B3).
    split; [eapply nh_same_potential_trans; eassumption|].
    split; [eapply nh_same_potential_trans; eassumption|].
    eapply eh_same_potential_trans; eassumption. }
  apply Hgen. simpl.
  split; [apply nh_same_potential_refl|]. split; [apply nh_same_potential_refl|].
  apply eh_same_potential_refl.
Qed.

Lemma calculate_new_beliefs_frame (d : F) (s : RotamerSidechain F G) :
  solver_frame s (calculate_new_beliefs d s).
Proof.
  unfold calculate_new_beliefs.
  set (m0 := assign (nodes s) Nodes3 _).
  pose proof (update_beliefs_potentials 3 3 d m0 (edges33 s)) as Hu.
  destruct (update_beliefs 3 3 d m0 (edges33 s)) as [m e33].
  cbv zeta in Hu. simpl in Hu. destruct Hu as (H1 & H3 & He).
  apply with_holders_frame; [exact H1| |exact He].
  simpl. eapply nh_same_potential_trans; [|eapply nh_same_potential_trans].
  - instantiate (1 := nodes3 m0). subst m0. simpl. by repeat split.
  - exact H3.
  - by repeat split.
Qed.

Lemma sweep_chunk_frame (s : RotamerSidechain F G) : solver_frame s (sweep_chunk s).
Proof.
  unfold sweep_chunk. generalize (range (iteration_chunk_size s)). intros l.
  assert (Hgen : forall s0, solver_frame s s0 ->
            solver_frame s
              (fold_left (fun (s1 : RotamerSidechain F G) (_ : Z) =>
                  let s2 := with_holders s1
                              (assign (nodes s1) Nodes3 (nh_swap_beliefs (nodes3 (nodes s1))))
                              (edges11 s1) (edges13 s1) (swap_beliefs (edges33 s1)) in
                  calculate_new_beliefs (damping s2) s2) l s0)).
  { induction l as [|j l IH]; intros s0 Hs0; simpl; [exact Hs0|].
    apply IH. eapply solver_frame_trans; [exact Hs0|].
    eapply solver_frame_trans; [|apply calculate_new_beliefs_frame].
    apply with_holders_frame; by repeat split. }
  apply Hgen, solver_frame_refl.
Qed.

Lemma solve_loop_frame (fuel : nat) :
  forall (s s' : RotamerSidechain F G) md iter r,
    solve_loop fuel s md iter = Some (s', r) -> solver_frame s s'.
Proof.
  induction fuel as [|fuel IH]; intros s s' md iter r Hrun; simpl in Hrun.
  - destruct (fgt md (tol s) && (iter <? max_iter s)%Z); [discriminate|].
    injection Hrun as <- _. apply solver_frame_refl.
  - destruct (fgt md (tol s) && (iter <? max_iter s)%Z).
    + apply IH in Hrun. eapply solver_frame_trans; [apply sweep_chunk_frame | exact Hrun].
    + injection Hrun as <- _. apply solver_frame_refl.
Qed.

Lemma seed_loop_potential (l : list Z) (m : Nodes F) :
  let m' := fold_left (fun m k =>
               match node_holders_matrix k with
               | None => m
               | Some r => assign m r (seed_old_belief (deref m r))
               end) l m in
  nh_same_potential (nodes1 m) (nodes1 m') /\ nh_same_potential (nodes3 m) (nodes3 m').
Proof.
  revert m. induction l as [|k l IH]; intros m; cbn [fold_left]; cbv zeta.
  - split; apply nh_same_potential_refl.
  - destruct (node_holders_matrix k) as [r|]; [|apply IH].
    destruct (IH (assign m r (seed_old_belief (deref m r)))) as [H1 H3].
    cbv zeta in H1, H3.
    split; (eapply nh_same_potential_trans; [|eassumption]); destruct r; by repeat split.
Qed.

Lemma solve_init_frame (s : RotamerSidechain F G) : solver_frame s (solve_init s).
Proof.
  unfold solve_init.
  destruct (seed_loop_potential (range UPPER_ROT) (nodes s)) as [H1 H3].
  cbv zeta in H1, H3.
  eapply solver_frame_trans; [apply with_holders_frame; [exact H1 | exact H3 |]|].
  { instantiate (1 := set_old_belief (edges33 s) (fill (old_belief (edges33 s)) f_one)).
    by repeat split. }
  eapply solver_frame_trans; [apply calculate_new_beliefs_frame|].
  apply with_holders_frame; by repeat split.
Qed.

Lemma solve_finish_frame (s : RotamerSidechain F G) : solver_frame s (solve_finish s).
Proof. unfold solve_finish. apply with_holders_frame; by repeat split. Qed.

(** The frame of a whole call. *)
Lemma solve_for_marginals_frame (fuel : nat) (s s' : RotamerSidechain F G) r :
  solve_for_marginals fuel s = Some (s', r) -> solver_frame s s'.
Proof.
  unfold solve_for_marginals. intros Hrun.
  destruct (solve_loop fuel (solve_init s) f_huge 0) as [[s1 r1]|] eqn:Hl; [|discriminate].
  injection Hrun as <- _. apply solve_loop_frame in Hl.
  eapply solver_frame_trans; [apply solve_init_frame|].
  eapply solver_frame_trans; [exact Hl | apply solve_finish_frame].
Qed.

(** X14: [solve_for_marginals()] writes beliefs and marginals only: when it
    returns, the probability nodes, the slots, the interaction graph, the
    configuration, the freshness flag and the stored potential, the holders
    [edges11] and [edges13], the potentials [prob], the edge count, the
    index arrays, the key map and [edge_loc] of [edges33], and [prob] and the
    dimensions of [nodes1] and [nodes3] are what they were. *)
Theorem solve_for_marginals_keeps_potentials (fuel : nat) (s s' : RotamerSidechain F G) r :
  solve_for_marginals fuel s = Some (s', r) -> solver_frame s s'.
Proof. exact (solve_for_marginals_frame fuel s s' r). Qed.

(** X15: when [max_iter <= 0], or when [1e10f > tol] is false, the loop of
    [solve_for_marginals()] is not entered: whatever the fuel, the call
    returns the pair [(0, 1e10f)] after the seeding sweep and the two
    [calculate_marginals], so the reported deviation is the initial
    [1e10f], not a measured one. *)
Theorem solve_for_marginals_without_sweep (fuel : nat) (s : RotamerSidechain F G) :
  (max_iter s <= 0)%Z \/ fgt f_huge (tol s) = false ->
  solve_for_marginals fuel s = Some (solve_finish (solve_init s), (0%Z, f_huge)).
Proof.
  intros Hc. unfold solve_for_marginals.
  destruct (solve_init_frame s) as ((_ & _ & _ & _ & _ & Hmi & Htol & _) & _).
  assert (Ht : fgt f_huge (tol (solve_init s)) && (0 <? max_iter (solve_init s))%Z = false).
  { rewrite Hmi, Htol. destruct Hc as [Hc | Hc].
    - apply andb_false_iff. right. apply Z.ltb_ge. exact Hc.
    - rewrite Hc. reflexivity. }
  destruct fuel; cbn [solve_loop]; rewrite Ht; reflexivity.
Qed.

(** X16: with [iteration_chunk_size = 0], [max_iter > 0] and a deviation of
    the seeded state above [tol], [solve_for_marginals()] does not return:
    the counter never advances and the state never changes, so no amount
    of fuel is enough. *)
Theorem solve_for_marginals_chunk_zero_diverges (s : RotamerSidechain F G) :
  iteration_chunk_size s = 0%Z -> (0 < max_iter s)%Z ->
  fgt f_huge (tol s) = true ->
  fgt (fmax (nh_max_deviation (nodes3 (nodes (solve_init s))))
            (max_deviation (edges33 (solve_init s)))) (tol s) = true ->
  forall fuel, solve_for_marginals fuel s = None.
Proof.
  intros Hch Hmi Hh Hd fuel. unfold solve_for_marginals.
  destruct (solve_init_frame s) as ((_ & _ & _ & _ & _ & Hmi' & Htol & Hch' & _) & _).
  set (s1 := solve_init s) in *.
  assert (Hsw : sweep_chunk s1 = s1).
  { unfold sweep_chunk. rewrite Hch', Hch. reflexivity. }
  assert (Hgen : forall fuel md, fgt md (tol s) = true -> solve_loop fuel s1 md 0 = None).
  { clear fuel. induction fuel as [|fuel IH]; intros md Hmd; cbn [solve_loop];
      rewrite Htol, Hmi', Hmd; (destruct (Z.ltb_spec 0 (max_iter s)); [|lia]);
      cbn [andb]; [reflexivity|].
    rewrite Hsw, Hch', Hch. apply IH. exact Hd. }
  rewrite Hgen by exact Hh. reflexivity.
Qed.
End SolverFrame.

Section FreshTheory.
Context {F : Type} {FO : FloatOps F} {G : Type}.
Context (logf expf : F -> F) (n_bit_rotamer : Z).
Context (compute_edges : InteractionGraph F G -> InteractionGraph F G).
Context (igraph_propagate_derivatives : InteractionGraph F G -> G).

Lemma same_settings_refl (s : RotamerSidechain F G) : same_settings s s.
Proof. by repeat split. Qed.

Lemma same_settings_trans (s1 s2 s3 : RotamerSidechain F G) :
  same_settings s1 s2 -> same_settings s2 s3 -> same_settings s1 s3.
Proof. unfold same_settings. intuition congruence. Qed.

Lemma fill_holders_edge_settings (s s' : RotamerSidechain F G) (e : Z) :
  fill_holders_edge expf n_bit_rotamer s e = Ok s' -> same_settings s s'.
Proof.
  unfold fill_holders_edge.
  destruct (Z.land _ _ <? Z.land _ _)%Z;
    (destruct (edge_holders_matrix _ _) as [r|]; [|discriminate]);
    intros Hs; injection Hs as <-; destruct r; by repeat split.
Qed.

Lemma move_edges_to_nodes_settings (s : RotamerSidechain F G) :
  same_settings s (move_edges_to_nodes s).
Proof.
  unfold move_edges_to_nodes. generalize (range2 2 UPPER_ROT). intros l.
  assert (Hgen : forall s0, same_settings s s0 ->
    same_settings s (fold_left (fun s k =>
      match edge_holders_matrix 1 k with
      | None => s
      | Some r => set_nodes s (move_edge_prob_to_node2 (get_edges s r) (nodes s))
      end) l s0)).
  { induction l as [|k l IH]; intros s0 Hs0; cbn [fold_left]; [exact Hs0|].
    apply IH. destruct (edge_holders_matrix 1 k); [|exact Hs0].
    eapply same_settings_trans; [exact Hs0 | by repeat split]. }
  apply Hgen, same_settings_refl.
Qed.

Lemma fill_holders_settings (s s' : RotamerSidechain F G) :
  fill_holders expf n_bit_rotamer compute_edges s = Ok s' -> same_settings s s'.
Proof.
  unfold fill_holders. intros Hf.
  apply bind_ok in Hf as (m & _ & Hf). cbv zeta in Hf.
  apply bind_ok in Hf as (s2 & He & Hf). injection Hf as <-.
  eapply same_settings_trans; [|apply move_edges_to_nodes_settings].
  eapply (for_each_invariant (fun _ st => same_settings s st)); [| |exact He].
  - by repeat split.
  - intros done a st st' Hst _ Hb. eapply same_settings_trans; [exact Hst|].
    eapply fill_holders_edge_settings. exact Hb.
Qed.

Lemma propagate_derivatives_settings (s s' : RotamerSidechain F G) :
  propagate_derivatives n_bit_rotamer igraph_propagate_derivatives s = Ok s' ->
  same_settings s s'.
Proof.
  unfold propagate_derivatives. intros Hp.
  apply bind_ok in Hp as (pn & _ & Hp). injection Hp as <-. by repeat split.
Qed.

Lemma solver_frame_settings (s s' : RotamerSidechain F G) :
  solver_frame s s' -> same_settings s s'.
Proof. intros ((? & ? & ? & ? & ? & ? & ? & ? & ? & ?) & _). by repeat split. Qed.

Lemma compute_value_settings (fuel : nat) (mode : ComputeMode) (s s' : RotamerSidechain F G) :
  compute_value logf expf n_bit_rotamer compute_edges igraph_propagate_derivatives
                fuel mode s = Some (Ok s') ->
  prob_slot s' = prob_slot s /\ n_elem_rot s' = n_elem_rot s /\
  damping s' = damping s /\ max_iter s' = max_iter s /\ tol s' = tol s /\
  iteration_chunk_size s' = iteration_chunk_size s /\
  energy_fresh_relative_to_derivative s' = ComputeMode_eqb mode PotentialAndDerivMode /\
  (mode = DerivMode -> potential s' = potential s).
Proof.
  intros Hc. apply compute_value_ok in Hc as (s1 & s2 & r & s3 & H1 & H2 & H3 & ->).
  apply fill_holders_settings in H1.
  apply solve_for_marginals_frame, solver_frame_settings in H2.
  apply propagate_derivatives_settings in H3.
  pose proof (same_settings_trans _ _ _ (same_settings_trans _ _ _ H1 H2) H3)
    as (A1 & A2 & A3 & A4 & A5 & A6 & A7 & A8).
  destruct mode; simpl in *.
  - do 6 (split; [assumption|]). split; [exact A7 | intros _; exact A8].
  - do 6 (split; [assumption|]). split; [exact A7 | discriminate].
Qed.

(** X17: when [compute_value(mode)] returns, the freshness flag is [true]
    in [PotentialAndDerivMode] and [false] in [DerivMode]; in [DerivMode]
    the stored [potential] is the one from before the call; the slots, the
    rotamer counts and the configuration are unchanged in both modes. *)
Theorem compute_value_deriv_mode_keeps_potential
        (fuel : nat) (mode : ComputeMode) (s s' : RotamerSidechain F G) :
  compute_value logf expf n_bit_rotamer compute_edges igraph_propagate_derivatives
                fuel mode s = Some (Ok s') ->
  energy_fresh_relative_to_derivative s'
  = match mode with PotentialAndDerivMode => true | DerivMode => false end /\
  (mode = DerivMode -> potential s' = potential s) /\
  prob_slot s' = prob_slot s /\ n_elem_rot s' = n_elem_rot s /\
  damping s' = damping s /\ max_iter s' = max_iter s /\ tol s' = tol s /\
  iteration_chunk_size s' = iteration_chunk_size s.
Proof.
  intros Hc. apply compute_value_settings in Hc
    as (A1 & A2 & A3 & A4 & A5 & A6 & A7 & A8).
  split; [rewrite A7; by destruct mode|]. auto 10.
Qed.

(** X18: after a [compute_value(PotentialAndDerivMode)] that returned,
    [ensure_fresh_energy()] returns at once and changes nothing; after a
    [compute_value(DerivMode)] it is a [compute_value(PotentialAndDerivMode)];
    whenever [ensure_fresh_energy()] returns, the freshness flag is set. *)
Theorem ensure_fresh_energy_after_compute_value
        (fuel fuel' : nat) (mode : ComputeMode) (s s' : RotamerSidechain F G) :
  compute_value logf expf n_bit_rotamer compute_edges igraph_propagate_derivatives
                fuel mode s = Some (Ok s') ->
  ensure_fresh_energy logf expf n_bit_rotamer compute_edges igraph_propagate_derivatives
                      fuel' s'
  = match mode with
    | PotentialAndDerivMode => Some (Ok s')
    | DerivMode =>
        compute_value logf expf n_bit_rotamer compute_edges igraph_propagate_derivatives
                      fuel' PotentialAndDerivMode s'
    end /\
  forall s'',
    ensure_fresh_energy logf expf n_bit_rotamer compute_edges igraph_propagate_derivatives
                        fuel' s' = Some (Ok s'') ->
    energy_fresh_relative_to_derivative s'' = true.
Proof.
  intros Hc. apply compute_value_settings in Hc as (_ & _ & _ & _ & _ & _ & A7 & _).
  unfold ensure_fresh_energy. rewrite A7. destruct mode; simpl.
  - split; [reflexivity|]. intros s'' Hc'.
    by apply compute_value_settings in Hc' as (_ & _ & _ & _ & _ & _ & A & _).
  - split; [reflexivity|]. intros s'' Heq. injection Heq as <-. exact A7.
Qed.
End FreshTheory.

Section DerivSlots.
Context {F : Type} {FO : FloatOps F} {G : Type}.
Context (n_bit_rotamer : Z).
Context (igraph_propagate_derivatives : InteractionGraph F G -> G).

Lemma write_loop_ids (val : EdgeLoc -> F) (l : list EdgeLoc) (g : InteractionGraph F G) :
  let g' := fold_left (fun g el => set_edge_sensitivity g (edge_num el) (val el)) l g in
  id1 g' = id1 g /\ n_elem1 g' = n_elem1 g.
Proof.
  revert g. induction l as [|el l IH]; intros g; cbn [fold_left]; cbv zeta; [by split|].
  destruct (IH (set_edge_sensitivity g (edge_num el) (val el))) as [H1 H2].
  cbv zeta in H1, H2. rewrite H1, H2. by split.
Qed.

Lemma write_edge_sensitivities_ids (s : RotamerSidechain F G) :
  id1 (write_edge_sensitivities s) = id1 (igraph s) /\
  n_elem1 (write_edge_sensitivities s) = n_elem1 (igraph s).
Proof.
  unfold write_edge_sensitivities.
  destruct (write_loop_ids (fun _ => f_one) (edge_loc (edges11 s)) (igraph s)) as [A1 A2].
  cbv zeta in A1, A2. set (g1 := fold_left _ (edge_loc (edges11 s)) (igraph s)) in *.
  destruct (write_loop_ids
              (fun el => nh_cur_belief (nodes3 (nodes s)) (dim el)
                           (buf_get 0%Z (edge_indices2 (edges13 s)) (ne el)))
              (edge_loc (edges13 s)) g1) as [B1 B2].
  cbv zeta in B1, B2. set (g2 := fold_left _ (edge_loc (edges13 s)) g1) in *.
  destruct (write_loop_ids
              (fun el => sv_get (marginal (edges33 s)) (dim el) (ne el))
              (edge_loc (edges33 s)) g2) as [C1 C2].
  cbv zeta in C1, C2. split; congruence.
Qed.

Lemma set_deriv_lookup (pn : list (CoordNode F)) (i slot : Z) (v : F) (k : nat) :
  (0 <= i)%Z ->
  length (set_deriv pn i slot v) = length pn /\
  set_deriv pn i slot v !! k
  = if decide (Z.of_nat k = i)
    then (fun c => {| value := value c; deriv := va_set (deriv c) 0 slot v |}) <$> pn !! k
    else pn !! k.
Proof.
  intros Hi. unfold set_deriv.
  destruct (pn !! Z.to_nat i) as [c|] eqn:Hc.
  - split; [apply length_insert|].
    destruct (decide (Z.of_nat k = i)) as [<- | Hne].
    + rewrite Nat2Z.id in *. rewrite list_lookup_insert_eq by (by eapply lookup_lt_Some).
      by rewrite Hc.
    + rewrite list_lookup_insert_ne by lia. reflexivity.
  - split; [reflexivity|].
    destruct (decide (Z.of_nat k = i)) as [<- | Hne]; [|reflexivity].
    rewrite Nat2Z.id in Hc. by rewrite Hc.
Qed.

(** The inner loop of the last part of [propagate_derivatives]: one bead
    writes one slot of every probability node. *)
Lemma deriv_inner_loop (o : option node_ref) (sigma : Z -> Z) (v : node_ref -> F)
      (l : list Z) (pn pn' : list (CoordNode F)) :
  (forall i, i ∈ l -> (0 <= i)%Z) ->
  for_each (fun pn i =>
      match o with
      | None => Fault
      | Some r => Ok (set_deriv pn i (sigma i) (v r))
      end) l pn = Ok pn' ->
  length pn' = length pn /\
  forall k c, pn !! k = Some c ->
    exists c', pn' !! k = Some c' /\ value c' = value c /\
      ((Z.of_nat k ∈ l /\ exists r, o = Some r /\ deriv c' 0%Z (sigma (Z.of_nat k)) = v r) \/
       ((Z.of_nat k ∉ l) /\ deriv c' = deriv c)) /\
      forall comp j, (comp <> 0%Z \/ j <> sigma (Z.of_nat k)) ->
        deriv c' comp j = deriv c comp j.
Proof.
  revert pn. induction l as [|i l IH]; intros pn Hl Hrun; cbn [for_each] in Hrun.
  - injection Hrun as <-. split; [reflexivity|]. intros k c Hc.
    exists c. split; [exact Hc|]. split; [reflexivity|]. split; [|reflexivity].
    right. split; [apply not_elem_of_nil | reflexivity].
  - destruct o as [r|]; [|discriminate]. cbn [bind] in Hrun.
    assert (Hi : (0 <= i)%Z) by (apply Hl, elem_of_cons; by left).
    destruct (IH (set_deriv pn i (sigma i) (v r))) as [Hlen Hk];
      [intros i' Hi'; apply Hl, elem_of_cons; by right | exact Hrun |].
    split; [rewrite Hlen; exact (proj1 (set_deriv_lookup pn i (sigma i) (v r) 0%nat Hi))|].
    intros k c Hc.
    destruct (set_deriv_lookup pn i (sigma i) (v r) k Hi) as [_ Hlk].
    rewrite Hc in Hlk. simpl in Hlk.
    destruct (decide (Z.of_nat k = i)) as [Hki | Hki].
    + destruct (Hk k _ Hlk) as (c' & Hc' & Hv & Hd & Hfr). simpl in Hv, Hfr.
      exists c'. split; [exact Hc'|]. split; [exact Hv|]. split.
      * left. split; [apply elem_of_cons; by left|]. exists r. split; [reflexivity|].
        destruct Hd as [(_ & r' & Hr' & Hd) | (_ & Hd)].
        -- injection Hr' as <-. exact Hd.
        -- rewrite Hd. simpl. unfold va_set. subst i. by rewrite !Z.eqb_refl.
      * intros comp j Hcj. rewrite Hfr by exact Hcj. unfold va_set.
        destruct (Z.eqb_spec comp 0) as [-> | Hc0]; [|reflexivity].
        destruct (Z.eqb_spec j (sigma i)) as [-> | Hj]; [|reflexivity].
        subst i. destruct Hcj; congruence.
    + destruct (Hk k _ Hlk) as (c' & Hc' & Hv & Hd & Hfr).
      exists c'. split; [exact Hc'|]. split; [exact Hv|]. split; [|exact Hfr].
      destruct Hd as [(Hin & Hd) | (Hnin & Hd)].
      * left. split; [apply elem_of_cons; by right | exact Hd].
      * right. split; [|exact Hd]. intros Hin.
        apply elem_of_cons in Hin as [Heq | Hin]; [congruence | contradiction].
Qed.

(** The outer loop of the last part of [propagate_derivatives]. *)
Lemma deriv_outer_loop (dec : Z -> Z * Z * Z) (sigma : Z -> Z -> Z) (m : Nodes F)
      (npn : Z) (l : list Z) (pn pn' : list (CoordNode F)) :
  for_each (fun pn n =>
      let '(rot, n_rot_, id) := dec n in
      for_each (fun pn i =>
          match node_holders_matrix n_rot_ with
          | None => Fault
          | Some r => Ok (set_deriv pn i (sigma n i) (nh_cur_belief (deref m r) rot id))
          end)
        (range npn) pn)
    l pn = Ok pn' ->
  Z.of_nat (length pn) = npn ->
  (forall n n' i, n ∈ l -> n' ∈ l -> (0 <= i < npn)%Z -> sigma n i = sigma n' i -> n = n') ->
  length pn' = length pn /\
  forall k c, pn !! k = Some c ->
    exists c', pn' !! k = Some c' /\ value c' = value c /\
      (forall n, n ∈ l ->
         exists r, node_holders_matrix (dec n).1.2 = Some r /\
           deriv c' 0%Z (sigma n (Z.of_nat k))
           = nh_cur_belief (deref m r) (dec n).1.1 (dec n).2) /\
      forall comp j, (comp <> 0%Z \/ forall n, n ∈ l -> j <> sigma n (Z.of_nat k)) ->
        deriv c' comp j = deriv c comp j.
Proof.
  revert pn. induction l as [|a l IH]; intros pn Hrun Hlen Hdist; cbn [for_each] in Hrun.
  - injection Hrun as <-. split; [reflexivity|]. intros k c Hc.
    exists c. split; [exact Hc|]. split; [reflexivity|]. split; [|reflexivity].
    intros n Hn. by apply elem_of_nil in Hn.
  - apply bind_ok in Hrun as (pn1 & Hin & Hrest).
    destruct (dec a) as [[rot nrot] id] eqn:Hd.
    apply (deriv_inner_loop (node_holders_matrix nrot) (sigma a)
             (fun r => nh_cur_belief (deref m r) rot id)) in Hin as [Hlen1 Hin];
      [|intros i Hi; apply elem_of_range in Hi; lia].
    apply IH in Hrest as [Hlen' Hrest]; [|congruence|].
    2:{ intros n n' i Hn Hn'. apply Hdist; apply elem_of_cons; by right. }
    split; [congruence|]. intros k c Hc.
    assert (Hk : (0 <= Z.of_nat k < npn)%Z).
    { apply lookup_lt_Some in Hc. lia. }
    destruct (Hin k c Hc) as (c1 & Hc1 & Hv1 & Hd1 & Hf1).
    destruct (Hrest k c1 Hc1) as (c' & Hc' & Hv' & Hd' & Hf').
    destruct Hd1 as [(_ & r & Hr & Hd1) | (Hnin & _)];
      [|exfalso; apply Hnin; by apply elem_of_range].
    exists c'. split; [exact Hc'|]. split; [congruence|]. split.
    + intros n Hn. apply elem_of_cons in Hn as [-> | Hn]; [|by apply Hd'].
      destruct (decide (Exists (fun n' => sigma n' (Z.of_nat k) = sigma a (Z.of_nat k)) l))
        as [Hex | Hnex].
      * apply Exists_exists in Hex as (n' & Hn' & Heq).
        assert (n' = a).
        { apply (Hdist n' a (Z.of_nat k)); [apply elem_of_cons; by right
                                           |apply elem_of_cons; by left|exact Hk|exact Heq]. }
        subst n'. by apply Hd'.
      * rewrite Hd. simpl. exists r. split; [exact Hr|].
        rewrite Hf'; [exact Hd1|]. right. intros n' Hn' Heq.
        apply Hnex, Exists_exists. exists n'. split; [exact Hn' | by symmetry].
    + intros comp j Hcj. rewrite Hf'.
      * apply Hf1. destruct Hcj as [Hc0 | Hj]; [by left|].
        right. apply Hj, elem_of_cons. by left.
      * destruct Hcj as [Hc0 | Hj]; [by left|].
        right. intros n Hn. apply Hj, elem_of_cons. by right.
Qed.

(** X20: when [propagate_derivatives()] returns and, in each probability
    node, different beads have different slots, the number of probability
    nodes and their [value] arrays are unchanged, and for every probability
    node [i] and every bead [n], component 0 of [deriv] at the slot
    [prob_slot[n*n_prob_nodes+i]] is the current belief
    [node_holders_matrix[n_rot]->cur_belief(rot, id)] of the bead; [deriv] is
    unchanged at every other component and at every index that is no slot
    of the node. *)
Theorem propagate_derivatives_writes_beliefs (s s' : RotamerSidechain F G) :
  propagate_derivatives n_bit_rotamer igraph_propagate_derivatives s = Ok s' ->
  (forall n n' i, (0 <= n < n_elem1 (igraph s))%Z -> (0 <= n' < n_elem1 (igraph s))%Z ->
     (0 <= i < Z.of_nat (length (prob_nodes s)))%Z ->
     slot_of s n i = slot_of s n' i -> n = n') ->
  length (prob_nodes s') = length (prob_nodes s) /\
  forall k c, prob_nodes s !! k = Some c ->
    exists c', prob_nodes s' !! k = Some c' /\ value c' = value c /\
      (forall n, (0 <= n < n_elem1 (igraph s))%Z ->
         bead_belief n_bit_rotamer s n = Some (deriv c' 0%Z (slot_of s n (Z.of_nat k)))) /\
      forall comp j,
        (comp <> 0%Z \/
         forall n, (0 <= n < n_elem1 (igraph s))%Z -> j <> slot_of s n (Z.of_nat k)) ->
        deriv c' comp j = deriv c comp j.
Proof.
  unfold propagate_derivatives. intros Hp Hdist. cbv zeta in Hp.
  apply bind_ok in Hp as (pn & Hrun & Hp). injection Hp as <-.
  cbn [prob_nodes set_prob_nodes set_igraph igraph prob_slot nodes set_ig_state
       id1 n_elem1] in *.
  destruct (write_edge_sensitivities_ids s) as [Hid Hne]. rewrite Hid, Hne in Hrun.
  apply (deriv_outer_loop
           (fun n => decode_id n_bit_rotamer (buf_get 0%Z (id1 (igraph s)) n))
           (slot_of s) (nodes s)) in Hrun as [Hlen Hrun]; [|reflexivity|].
  2:{ intros n n' i Hn Hn'. apply elem_of_range in Hn, Hn'. by apply Hdist. }
  split; [exact Hlen|]. intros k c Hc.
  destruct (Hrun k c Hc) as (c' & Hc' & Hv & Hd & Hf).
  exists c'. split; [exact Hc'|]. split; [exact Hv|]. split.
  - intros n Hn. destruct (Hd n) as (r & Hr & Hd'); [by apply elem_of_range|].
    unfold bead_belief, bead_n_rot, bead_rot, bead_residue. rewrite Hr, Hd'. reflexivity.
  - intros comp j Hcj. apply Hf. destruct Hcj as [Hc0 | Hj]; [by left|].
    right. intros n Hn. apply Hj. by apply elem_of_range.
Qed.
End DerivSlots.

Lemma land_field_mask (x n : Z) :
  (0 <= n)%Z ->
  Z.land x (Z.shiftl (Z.ones n) n) = Z.shiftl (Z.land (Z.shiftr x n) (Z.ones n)) n.
Proof.
  intros Hn. apply Z.bits_inj'. intros i Hi.
  rewrite Z.land_spec, !Z.shiftl_spec by lia.
  destruct (Z.lt_ge_cases i n) as [Hlt | Hge].
  - rewrite !(Z.testbit_neg_r _ (i - n)) by lia. apply andb_false_r.
  - rewrite Z.land_spec, Z.shiftr_spec by lia. f_equal. f_equal. lia.
Qed.

Lemma field_mask_value (n : Z) :
  (0 <= n <= 16)%Z -> wrap32 (Z.shiftl (selector n) n) = Z.shiftl (Z.ones n) n.
Proof.
  intros Hn. rewrite selector_ones by lia. apply wrap32_small.
  rewrite Z.shiftl_mul_pow2, Z.ones_equiv by lia.
  assert (0 < 2 ^ n)%Z by (apply Z.pow_pos_nonneg; lia).
  assert (2 ^ n <= 2 ^ 16)%Z by (apply Z.pow_le_mono_r; lia).
  change (2 ^ 16)%Z with 65536%Z in *. change (2 ^ 32)%Z with 4294967296%Z. nia.
Qed.

Section RouteTheory.
Context {F : Type} {FO : FloatOps F} {G : Type}.
Context (expf : F -> F) (n_bit_rotamer : Z).

Lemma int_decode (x : Z) :
  (0 <= n_bit_rotamer <= 16)%Z -> (0 <= x < 2 ^ 31)%Z ->
  let a := to_int x in
  let a1 := Z.shiftr a n_bit_rotamer in
  let a2 := Z.shiftr a1 n_bit_rotamer in
  (Z.land (to_unsigned a) (selector n_bit_rotamer),
   Z.land (to_unsigned a1) (selector n_bit_rotamer),
   to_unsigned a2) = decode_id n_bit_rotamer x /\
  Z.land (to_unsigned a) (wrap32 (Z.shiftl (selector n_bit_rotamer) n_bit_rotamer))
  = Z.shiftl (decode_id n_bit_rotamer x).1.2 n_bit_rotamer.
Proof.
  intros Hn Hx a a1 a2. subst a a1 a2. rewrite to_int_small by exact Hx.
  assert (Hs : forall y, (0 <= y < 2 ^ 31)%Z -> (0 <= Z.shiftr y n_bit_rotamer < 2 ^ 31)%Z).
  { intros y Hy. rewrite Z.shiftr_div_pow2 by lia.
    assert (0 < 2 ^ n_bit_rotamer)%Z by (apply Z.pow_pos_nonneg; lia).
    split; [apply Z.div_pos; lia|].
    apply Z.div_lt_upper_bound; [lia|]. nia. }
  pose proof (Hs x Hx) as H1. pose proof (Hs _ H1) as H2.
  rewrite !to_unsigned_small by lia.
  split; [reflexivity|].
  rewrite field_mask_value by exact Hn. rewrite land_field_mask by lia.
  unfold decode_id. simpl. rewrite selector_ones by lia. reflexivity.
Qed.

(** X21: for [n_bit_rotamer <= 16] and bead ids below [2^31], the edge loop
    of [fill_holders()] decodes the two ids of a graph edge as
    [calculate_n_elem] decodes a bead id, puts the bead with the smaller
    rotamer count first (the beads keep their order when the counts are
    equal) and calls [add_to_edge] on the holder of the two counts with the
    residue ids and rotamers in that order; so an edge between beads with
    rotamer counts in {1, 3} is accepted in either order. *)
Theorem fill_holders_edge_orders_pair (s : RotamerSidechain F G) (e : Z) :
  (0 <= n_bit_rotamer <= 16)%Z ->
  let g := igraph s in
  let b1 := buf_get 0%Z (ig_edge_indices1 g) e in
  let b2 := buf_get 0%Z (ig_edge_indices2 g) e in
  (0 <= buf_get 0%Z (id1 g) b1 < 2 ^ 31)%Z ->
  (0 <= buf_get 0%Z (id1 g) b2 < 2 ^ 31)%Z ->
  fill_holders_edge expf n_bit_rotamer s e
  = (if (bead_n_rot n_bit_rotamer g b2 <? bead_n_rot n_bit_rotamer g b1)%Z
     then route_edge expf n_bit_rotamer s e b2 b1
     else route_edge expf n_bit_rotamer s e b1 b2) /\
  ((bead_n_rot n_bit_rotamer g b1 = 1 \/ bead_n_rot n_bit_rotamer g b1 = 3)%Z ->
   (bead_n_rot n_bit_rotamer g b2 = 1 \/ bead_n_rot n_bit_rotamer g b2 = 3)%Z ->
   exists s', fill_holders_edge expf n_bit_rotamer s e = Ok s').
Proof.
  intros Hn g b1 b2 HA HB.
  destruct (int_decode _ Hn HA) as [HdA HmA]. destruct (int_decode _ Hn HB) as [HdB HmB].
  cbv zeta in HdA, HmA, HdB, HmB.
  assert (Hmain : fill_holders_edge expf n_bit_rotamer s e
    = (if (bead_n_rot n_bit_rotamer g b2 <? bead_n_rot n_bit_rotamer g b1)%Z
       then route_edge expf n_bit_rotamer s e b2 b1
       else route_edge expf n_bit_rotamer s e b1 b2)).
  { unfold fill_holders_edge. cbv zeta. fold g. fold b1. fold b2.
    rewrite HmA, HmB. fold (bead_n_rot n_bit_rotamer g b1) (bead_n_rot n_bit_rotamer g b2).
    assert (Hcmp : (Z.shiftl (bead_n_rot n_bit_rotamer g b2) n_bit_rotamer
                    <? Z.shiftl (bead_n_rot n_bit_rotamer g b1) n_bit_rotamer)%Z
                   = (bead_n_rot n_bit_rotamer g b2 <? bead_n_rot n_bit_rotamer g b1)%Z).
    { rewrite !Z.shiftl_mul_pow2 by lia.
      assert (0 < 2 ^ n_bit_rotamer)%Z by (apply Z.pow_pos_nonneg; lia).
      destruct (Z.ltb_spec (bead_n_rot n_bit_rotamer g b2) (bead_n_rot n_bit_rotamer g b1));
        [apply Z.ltb_lt | apply Z.ltb_ge]; nia. }
    rewrite Hcmp.
    destruct (bead_n_rot n_bit_rotamer g b2 <? bead_n_rot n_bit_rotamer g b1)%Z;
      unfold route_edge, bead_n_rot, bead_rot, bead_residue; fold g;
      rewrite <- HdA, <- HdB; reflexivity. }
  split; [exact Hmain|].
  intros H1 H2. rewrite Hmain. unfold route_edge. fold g.
  destruct H1 as [-> | ->], H2 as [-> | ->]; simpl; eauto.
Qed.
End RouteTheory.

Section ArrangeTheory.
Context {F : Type} {FO : FloatOps F} {G : Type}.
Context (n_bit_rotamer : Z).

Lemma bind_ok_intro {A B} (m : outcome A) (k : A -> outcome B) (a : A) (b : B) :
  m = Ok a -> k a = Ok b -> bind m k = Ok b.
Proof. intros -> Hk. exact Hk. Qed.

Lemma heads_from_prefix (acc ids : list Z) :
  exists rest, heads_from n_bit_rotamer acc ids = acc ++ rest.
Proof.
  revert acc. induction ids as [|id ids IH]; intros acc; cbn [heads_from fold_left].
  - exists []. by rewrite app_nil_r.
  - unfold heads_from in IH.
    destruct (negb _); [apply IH|]. destruct (decide _); [apply IH|].
    destruct (IH (acc ++ [id])) as [rest ->]. exists (id :: rest).
    by rewrite <- app_assoc.
Qed.

(** The value the [switch] of [arrange_energies] reads for a packed id. *)
Lemma arrange_read (e1 e3 : list F) (id : Z) :
  let i1 := Z.shiftr id n_bit_rotamer in
  let n_rot_ := Z.land i1 (selector n_bit_rotamer) in
  let i2 := Z.shiftr i1 n_bit_rotamer in
  forall v,
    (if (n_rot_ =? 1)%Z then vec_read e1 i2
     else if (n_rot_ =? 3)%Z then vec_read e3 i2 else Throw "impossible") = Ok v
    <-> head_energy n_bit_rotamer e1 e3 id = Some v.
Proof.
  intros i1 n_rot_ i2 v. unfold head_energy, decode_id. fold i1. fold n_rot_. fold i2.
  unfold vec_read.
  destruct (i2 <? 0)%Z.
  - destruct (n_rot_ =? 1)%Z; [|destruct (n_rot_ =? 3)%Z]; split; discriminate.
  - destruct (n_rot_ =? 1)%Z; [|destruct (n_rot_ =? 3)%Z].
    + destruct (e1 !! Z.to_nat i2); split; congruence.
    + destruct (e3 !! Z.to_nat i2); split; congruence.
    + split; discriminate.
Qed.


Lemma arrange_loop_forward (s : RotamerSidechain F G) (e1 e3 : list F) (N : nat)
      (l : list Z) (acc : list Z) (st st' : list F * nat * gset Z) :
  arranged n_bit_rotamer e1 e3 N acc st ->
  for_each (fun (st : list F * nat * gset Z) ne =>
      let '(energies, en_loc, known_ids) := st in
      let id := buf_get 0%Z (id1 (igraph s)) ne in
      if negb (Z.land id (selector n_bit_rotamer) =? 0)%Z then Ok st
      else if decide (id ∈ known_ids) then Ok st
      else
        let known_ids := {[id]} ∪ known_ids in
        let id := Z.shiftr id n_bit_rotamer in
        let n_rot_ := Z.land id (selector n_bit_rotamer) in
        let id := Z.shiftr id n_bit_rotamer in
        do v <- (if (n_rot_ =? 1)%Z then vec_read e1 id
                 else if (n_rot_ =? 3)%Z then vec_read e3 id
                 else Throw "impossible");
        if (en_loc <? length energies)%nat
        then Ok (<[en_loc := v]> energies, S en_loc, known_ids)
        else Fault)
    l st = Ok st' ->
  arranged n_bit_rotamer e1 e3 N
           (heads_from n_bit_rotamer acc (map (buf_get 0%Z (id1 (igraph s))) l)) st'.
Proof.
  revert acc st. induction l as [|a l IH]; intros acc st Hst Hrun; cbn [for_each] in Hrun.
  - injection Hrun as <-. exact Hst.
  - cbn [map heads_from fold_left]. fold (heads_from n_bit_rotamer).
    destruct st as [[en pos] known]. cbv zeta in Hrun.
    set (id := buf_get 0%Z (id1 (igraph s)) a) in *.
    destruct Hst as (Hk & Hp & Hle & Hf & Hlen). simpl in Hk, Hp, Hf, Hlen.
    destruct (negb (Z.land id (selector n_bit_rotamer) =? 0)%Z).
    { cbn [bind] in Hrun. eapply IH; [|exact Hrun]. by repeat split. }
    destruct (decide (id ∈ known)) as [Hin | Hnin].
    { cbn [bind] in Hrun. rewrite decide_True by (rewrite Hk in Hin; by apply elem_of_list_to_set in Hin).
      eapply IH; [|exact Hrun]. by repeat split. }
    rewrite decide_False by (intros Hin; apply Hnin; rewrite Hk; by apply elem_of_list_to_set).
    apply bind_ok in Hrun as (st1 & Hb & Hrun). apply bind_ok in Hb as (v & Hv & Hb).
    apply arrange_read in Hv.
    destruct (Nat.ltb_spec pos (length en)) as [Hlt | Hge]; [|discriminate].
    injection Hb as <-. eapply IH; [|exact Hrun].
    unfold arranged. simpl. rewrite length_app. simpl.
    split; [rewrite list_to_set_app_L, Hk; simpl; rewrite (right_id_L ∅ (∪)); apply (comm_L (∪))|].
    split; [lia|]. split; [lia|]. split; [|by rewrite length_insert].
    replace (length acc + 1)%nat with (S pos) by lia.
    rewrite (take_S_r _ _ v) by (apply list_lookup_insert_eq; lia).
    rewrite take_insert_ge by lia. apply Forall2_app; [by rewrite Hp|].
    constructor; [exact Hv | constructor].
Qed.

Lemma arrange_loop_backward (s : RotamerSidechain F G) (e1 e3 : list F) (N : nat)
      (l : list Z) (acc : list Z) (st : list F * nat * gset Z) :
  arranged n_bit_rotamer e1 e3 N acc st ->
  let heads := heads_from n_bit_rotamer acc (map (buf_get 0%Z (id1 (igraph s))) l) in
  Forall (fun id => is_Some (head_energy n_bit_rotamer e1 e3 id)) heads ->
  (length heads <= N)%nat ->
  exists st',
    for_each (fun (st : list F * nat * gset Z) ne =>
        let '(energies, en_loc, known_ids) := st in
        let id := buf_get 0%Z (id1 (igraph s)) ne in
        if negb (Z.land id (selector n_bit_rotamer) =? 0)%Z then Ok st
        else if decide (id ∈ known_ids) then Ok st
        else
          let known_ids := {[id]} ∪ known_ids in
          let id := Z.shiftr id n_bit_rotamer in
          let n_rot_ := Z.land id (selector n_bit_rotamer) in
          let id := Z.shiftr id n_bit_rotamer in
          do v <- (if (n_rot_ =? 1)%Z then vec_read e1 id
                   else if (n_rot_ =? 3)%Z then vec_read e3 id
                   else Throw "impossible");
          if (en_loc <? length energies)%nat
          then Ok (<[en_loc := v]> energies, S en_loc, known_ids)
          else Fault)
      l st = Ok st'.
Proof.
  revert acc st. induction l as [|a l IH]; intros acc st Hst heads Hok Hlen;
    cbn [for_each]; [eauto|].
  subst heads. cbn [map heads_from fold_left] in Hok, Hlen.
  fold (heads_from n_bit_rotamer) in Hok, Hlen.
  destruct st as [[en pos] known]. cbv zeta.
  set (id := buf_get 0%Z (id1 (igraph s)) a) in *.
  pose proof Hst as (Hk & Hp & Hle & Hf & Hl). simpl in Hk, Hp, Hf, Hl.
  destruct (negb (Z.land id (selector n_bit_rotamer) =? 0)%Z).
  { cbn [bind]. by eapply IH. }
  destruct (decide (id ∈ known)) as [Hin | Hnin].
  { cbn [bind]. rewrite decide_True in Hok, Hlen by (rewrite Hk in Hin; by apply elem_of_list_to_set in Hin).
    by eapply IH. }
  rewrite decide_False in Hok, Hlen by (intros Hin; apply Hnin; rewrite Hk; by apply elem_of_list_to_set).
  destruct (heads_from_prefix (acc ++ [id])
              (map (buf_get 0%Z (id1 (igraph s))) l)) as [rest Hrest].
  unfold heads_from in Hrest.
  assert (Hid : is_Some (head_energy n_bit_rotamer e1 e3 id)).
  { rewrite Hrest in Hok. apply Forall_app in Hok as [Hok _].
    apply Forall_app in Hok as [_ Hok]. by inversion Hok. }
  destruct Hid as [v Hv]. apply arrange_read in Hv. cbv zeta in Hv. rewrite Hv. cbn [bind].
  assert (Hpos : (pos < length en)%nat).
  { rewrite Hrest, !length_app in Hlen. simpl in Hlen. lia. }
  destruct (Nat.ltb_spec pos (length en)) as [_ | Hge]; [|lia].
  eapply IH; [|exact Hok|exact Hlen].
  apply arrange_read in Hv.
  unfold arranged. simpl. rewrite length_app. simpl.
  split; [rewrite list_to_set_app_L, Hk; simpl; rewrite (right_id_L ∅ (∪)); apply (comm_L (∪))|].
  split; [lia|]. split; [lia|]. split; [|by rewrite length_insert].
  replace (length acc + 1)%nat with (S pos) by lia.
  rewrite (take_S_r _ _ v) by (apply list_lookup_insert_eq; lia).
  rewrite take_insert_ge by lia. apply Forall2_app; [by rewrite Hp|].
  constructor; [exact Hv | constructor].
Qed.

(** What a returning call lists, and when a call returns. *)
Lemma arrange_energies_spec (s : RotamerSidechain F G) (e1 e3 r : list F) :
  arrange_energies n_bit_rotamer s e1 e3 = Ok r <->
  Forall2 (fun id v => head_energy n_bit_rotamer e1 e3 id = Some v)
          (residue_heads n_bit_rotamer (igraph s)) r /\
  length r = Z.to_nat (buf_get 0%Z (n_elem_rot s) 1 + buf_get 0%Z (n_elem_rot s) 3).
Proof.
  set (N := Z.to_nat (buf_get 0%Z (n_elem_rot s) 1 + buf_get 0%Z (n_elem_rot s) 3)).
  assert (Hinit : arranged n_bit_rotamer e1 e3 N []
                    (replicate N (f_zero (F:=F)), 0%nat, (∅ : gset Z))).
  { unfold arranged. simpl. split; [reflexivity|]. split; [reflexivity|].
    split; [lia|]. split; [constructor | apply length_replicate]. }
  unfold arrange_energies. fold N. split.
  - intros Hrun. apply bind_ok in Hrun as ([[en pos] known] & Hloop & Hend).
    apply (arrange_loop_forward s e1 e3 N _ [] _ _ Hinit) in Hloop.
    fold (residue_heads n_bit_rotamer (igraph s)) in Hloop.
    destruct Hloop as (_ & Hp & _ & Hf & Hl). simpl in Hp, Hf, Hl.
    destruct (Nat.eqb_spec pos (length en)) as [Heq | Hne]; [|discriminate].
    injection Hend as <-. split; [|exact Hl].
    rewrite <- Hp, Heq, firstn_all in Hf. exact Hf.
  - intros [Hf Hl].
    destruct (arrange_loop_backward s e1 e3 N (range (n_elem1 (igraph s))) [] _ Hinit)
      as [[[en pos] known] Hloop].
    + fold (residue_heads n_bit_rotamer (igraph s)).
      eapply Forall2_Forall_l; [exact Hf|].
      apply Forall_forall. intros v _ id Hv. by exists v.
    + fold (residue_heads n_bit_rotamer (igraph s)).
      apply Forall2_length in Hf. lia.
    + apply (bind_ok_intro _ _ _ _ Hloop). cbv beta iota.
      apply (arrange_loop_forward s e1 e3 N _ [] _ _ Hinit) in Hloop.
      fold (residue_heads n_bit_rotamer (igraph s)) in Hloop.
      destruct Hloop as (_ & Hp & _ & Hf' & Hl'). simpl in Hp, Hf', Hl'.
      pose proof (Forall2_length _ _ _ Hf) as Hlr.
      assert (Hpe : pos = length en) by lia.
      rewrite Hpe, Nat.eqb_refl. f_equal.
      rewrite <- Hp, Hpe, firstn_all in Hf'.
      clear -Hf Hf'. revert r en Hf Hf'.
      induction (residue_heads n_bit_rotamer (igraph s)) as [|id hs IH]; intros r en Hf Hf'.
      * inversion Hf; inversion Hf'; reflexivity.
      * inversion Hf; inversion Hf'; subst. f_equal; [congruence | by apply IH].
Qed.

(** X22: [arrange_energies(e1, e3)] returns a vector [r] exactly when [r]
    has [n_elem_rot[1] + n_elem_rot[3]] entries and lists, for the packed
    ids with [rot = 0] in the order in which the beads first show them, the
    entry [e1[id]] for a rotamer count of 1 and [e3[id]] for a count of 3,
    [id] being the residue field; in particular every such id then has a
    rotamer count of 1 or 3 and a residue inside its vector, and there are
    as many of them as entries. *)
Theorem arrange_energies_lists_residues (s : RotamerSidechain F G) (e1 e3 r : list F) :
  arrange_energies n_bit_rotamer s e1 e3 = Ok r <->
  Forall2 (fun id v => head_energy n_bit_rotamer e1 e3 id = Some v)
          (residue_heads n_bit_rotamer (igraph s)) r /\
  length r = Z.to_nat (buf_get 0%Z (n_elem_rot s) 1 + buf_get 0%Z (n_elem_rot s) 3).
Proof. exact (arrange_energies_spec s e1 e3 r). Qed.
End ArrangeTheory.

Section OneBodyTheory.
Context {F : Type} {FO : FloatOps F} {G : Type}.
Context (n_bit_rotamer : Z).

Lemma vec_add_at_ok (v v' : list F) (k : Z) (a : F) :
  vec_add_at v k a = Ok v' ->
  (0 <= k < Z.of_nat (length v))%Z /\ length v' = length v /\
  forall j, v' !! j = if decide (j = Z.to_nat k)
                      then (fun x => fadd x a) <$> v !! j else v !! j.
Proof.
  unfold vec_add_at, vec_read. intros Hr.
  destruct (Z.ltb_spec k 0); [discriminate|].
  destruct (v !! Z.to_nat k) as [x|] eqn:Hx; [|discriminate].
  cbn [bind] in Hr. injection Hr as <-.
  pose proof (lookup_lt_Some _ _ _ Hx).
  split; [lia|]. split; [apply length_insert|]. intros j.
  destruct (decide (j = Z.to_nat k)) as [-> | Hne].
  - rewrite list_lookup_insert_eq by lia. by rewrite Hx.
  - by rewrite list_lookup_insert_ne.
Qed.

Lemma residue_1body_snoc (s : RotamerSidechain F G) (c : CoordNode F) (l : list Z)
      (a k res : Z) :
  residue_1body n_bit_rotamer s c (l ++ [a]) k res
  = if decide (bead_n_rot n_bit_rotamer (igraph s) a = k /\
               bead_residue n_bit_rotamer (igraph s) a = res)
    then fadd (residue_1body n_bit_rotamer s c l k res) (one_body_term n_bit_rotamer s c a)
    else residue_1body n_bit_rotamer s c l k res.
Proof.
  unfold residue_1body. rewrite filter_app, filter_cons, filter_nil.
  destruct (decide _).
  - by rewrite map_app, fold_left_app.
  - by rewrite app_nil_r.
Qed.

(** What the accumulation loop of [rotamer_1body_energy] has built after
    the beads [done]. *)
Lemma one_body_loop (s : RotamerSidechain F G) (c : CoordNode F) (e e' : list F * list F) :
  length e.1 = Z.to_nat (nh_n_elem (nodes1 (nodes s))) ->
  length e.2 = Z.to_nat (nh_n_elem (nodes3 (nodes s))) ->
  (forall j v, e.1 !! j = Some v -> v = f_zero) ->
  (forall j v, e.2 !! j = Some v -> v = f_zero) ->
  for_each (fun (e : list F * list F) n =>
      let '(e1, e3) := e in
      let '(rot, n_rot_, id) :=
        decode_id n_bit_rotamer (buf_get 0%Z (id1 (igraph s)) n) in
      let index := buf_get 0%Z (loc1 (igraph s)) n in
      if (n_rot_ =? 1)%Z then
        do e1' <- vec_add_at e1 id
                    (fmul (nh_cur_belief (nodes1 (nodes s)) rot id) (value c 0%Z index));
        Ok (e1', e3)
      else if (n_rot_ =? 3)%Z then
        do e3' <- vec_add_at e3 id
                    (fmul (nh_cur_belief (nodes3 (nodes s)) rot id) (value c 0%Z index));
        Ok (e1, e3')
      else Throw "impossible")
    (range (n_elem1 (igraph s))) e = Ok e' ->
  let l := range (n_elem1 (igraph s)) in
  length e'.1 = length e.1 /\ length e'.2 = length e.2 /\
  (forall n, n ∈ l -> bead_supported n_bit_rotamer s n) /\
  (forall j v, e'.1 !! j = Some v ->
     v = residue_1body n_bit_rotamer s c l 1 (Z.of_nat j)) /\
  (forall j v, e'.2 !! j = Some v ->
     v = residue_1body n_bit_rotamer s c l 3 (Z.of_nat j)).
Proof.
  intros Hl1 Hl3 Hz1 Hz3 Hrun l.
  eapply (for_each_invariant
            (fun done (st : list F * list F) =>
               length st.1 = length e.1 /\ length st.2 = length e.2 /\
               (forall n, n ∈ done -> bead_supported n_bit_rotamer s n) /\
               (forall j v, st.1 !! j = Some v ->
                  v = residue_1body n_bit_rotamer s c done 1 (Z.of_nat j)) /\
               (forall j v, st.2 !! j = Some v ->
                  v = residue_1body n_bit_rotamer s c done 3 (Z.of_nat j))));
    [| |exact Hrun].
  - split; [reflexivity|]. split; [reflexivity|]. split; [|split; assumption].
    intros n Hn. by apply elem_of_nil in Hn.
  - intros done a [e1 e3] st2 (I1 & I3 & Is & Iv1 & Iv3) _ Hb. simpl in I1, I3, Iv1, Iv3.
    assert (Hdec : (bead_rot n_bit_rotamer (igraph s) a, bead_n_rot n_bit_rotamer (igraph s) a,
                    bead_residue n_bit_rotamer (igraph s) a)
                   = decode_id n_bit_rotamer (buf_get 0%Z (id1 (igraph s)) a)).
    { unfold bead_rot, bead_n_rot, bead_residue.
      by destruct (decode_id n_bit_rotamer _) as [[? ?] ?]. }
    rewrite <- Hdec in Hb. cbv zeta in Hb.
    set (k := bead_n_rot n_bit_rotamer (igraph s) a) in *.
    set (res := bead_residue n_bit_rotamer (igraph s) a) in *.
    destruct (Z.eqb_spec k 1) as [Hk1 | Hk1].
    + apply bind_ok in Hb as (e1' & Ha & Hb). injection Hb as <-.
      apply vec_add_at_ok in Ha as (Hres & Hlen & Hget). simpl.
      split; [congruence|]. split; [exact I3|]. split; [|split].
      * intros n Hn. apply elem_of_app in Hn as [Hn | Hn]; [by apply Is|].
        apply elem_of_cons in Hn as [-> | Hn]; [|by apply elem_of_nil in Hn].
        left. fold k res. split; [exact Hk1|]. rewrite I1, Hl1 in Hres. lia.
      * intros j v Hv. rewrite residue_1body_snoc. fold k res. rewrite Hget in Hv.
        destruct (decide (j = Z.to_nat res)) as [-> | Hne].
        -- rewrite decide_True by (split; [exact Hk1 | lia]).
           destruct (e1 !! Z.to_nat res) as [x|] eqn:Hx; [|discriminate].
           simpl in Hv. injection Hv as <-. rewrite <- (Iv1 _ _ Hx).
           unfold one_body_term. fold k res. rewrite Hk1. reflexivity.
        -- rewrite decide_False by (intros [_ Heq]; apply Hne; lia). by apply Iv1.
      * intros j v Hv. rewrite residue_1body_snoc. fold k res.
        rewrite decide_False by (intros [Heq _]; lia). by apply Iv3.
    + destruct (Z.eqb_spec k 3) as [Hk3 | Hk3]; [|discriminate].
      apply bind_ok in Hb as (e3' & Ha & Hb). injection Hb as <-.
      apply vec_add_at_ok in Ha as (Hres & Hlen & Hget). simpl.
      split; [exact I1|]. split; [congruence|]. split; [|split].
      * intros n Hn. apply elem_of_app in Hn as [Hn | Hn]; [by apply Is|].
        apply elem_of_cons in Hn as [-> | Hn]; [|by apply elem_of_nil in Hn].
        right. fold k res. split; [exact Hk3|]. rewrite I3, Hl3 in Hres. lia.
      * intros j v Hv. rewrite residue_1body_snoc. fold k res.
        rewrite decide_False by (intros [Heq _]; lia). by apply Iv1.
      * intros j v Hv. rewrite residue_1body_snoc. fold k res. rewrite Hget in Hv.
        destruct (decide (j = Z.to_nat res)) as [-> | Hne].
        -- rewrite decide_True by (split; [exact Hk3 | lia]).
           destruct (e3 !! Z.to_nat res) as [x|] eqn:Hx; [|discriminate].
           simpl in Hv. injection Hv as <-. rewrite <- (Iv3 _ _ Hx).
           unfold one_body_term. fold k res.
           destruct (Z.eqb_spec k 1); [contradiction | reflexivity].
        -- rewrite decide_False by (intros [_ Heq]; apply Hne; lia). by apply Iv3.
Qed.

(** X23: when [rotamer_1body_energy(i)] returns a vector [r], [i] is the
    index of a probability node, every bead has a rotamer count of 1 or 3
    and a residue id below the element count of its node holder, [r] has
    [n_elem_rot[1] + n_elem_rot[3]] entries, and the entry of each residue,
    in the order of [arrange_energies], is the sum, from 0 and in bead order,
    of [cur_belief(rot, id) * energy_1body(0, index)] over the beads of that
    residue. *)
Theorem rotamer_1body_energy_sums_beads (s : RotamerSidechain F G) (i : Z) (r : list F) :
  rotamer_1body_energy n_bit_rotamer s i = Ok r ->
  exists c,
    (0 <= i)%Z /\ prob_nodes s !! Z.to_nat i = Some c /\
    (forall n, (0 <= n < n_elem1 (igraph s))%Z -> bead_supported n_bit_rotamer s n) /\
    length r = Z.to_nat (buf_get 0%Z (n_elem_rot s) 1 + buf_get 0%Z (n_elem_rot s) 3) /\
    Forall2 (fun id v =>
               v = residue_1body n_bit_rotamer s c (range (n_elem1 (igraph s)))
                                 (decode_id n_bit_rotamer id).1.2
                                 (decode_id n_bit_rotamer id).2)
            (residue_heads n_bit_rotamer (igraph s)) r.
Proof.
  unfold rotamer_1body_energy. cbv zeta. intros Hrun.
  destruct (Z.ltb_spec i 0) as [|Hi]; [discriminate|].
  destruct (prob_nodes s !! Z.to_nat i) as [c|] eqn:Hc; [|discriminate].
  apply bind_ok in Hrun as ([e1 e3] & Hloop & Harr).
  apply one_body_loop in Hloop as (L1 & L3 & Hs & Hv1 & Hv3);
    [|apply length_replicate|apply length_replicate
     |intros j v Hv; apply lookup_replicate_1 in Hv; destruct Hv as [Hv _]; exact Hv
     |intros j v Hv; apply lookup_replicate_1 in Hv; destruct Hv as [Hv _]; exact Hv].
  simpl in Harr, L1, L3, Hv1, Hv3.
  apply arrange_energies_spec in Harr as [Hf Hlen].
  exists c. split; [exact Hi|]. split; [reflexivity|]. split; [|split; [exact Hlen|]].
  - intros n Hn. apply Hs. by apply elem_of_range.
  - eapply Forall2_impl; [exact Hf|]. intros id v. unfold head_energy.
    destruct (decode_id n_bit_rotamer id) as [[rot k] res]. cbn [fst snd].
    destruct (Z.ltb_spec res 0); [discriminate|].
    destruct (Z.eqb_spec k 1) as [-> | Hk1].
    + intros Hv. apply Hv1 in Hv. by rewrite Z2Nat.id in Hv by lia.
    + destruct (Z.eqb_spec k 3) as [-> | Hk3]; [|discriminate].
      intros Hv. apply Hv3 in Hv. by rewrite Z2Nat.id in Hv by lia.
Qed.
End OneBodyTheory.

(** A check of [Forall fits_int] by evaluation. *)
Lemma fits_int_check (l : list Z) :
  forallb (fun z => (- 2 ^ 31 <=? z)%Z && (z <? 2 ^ 31)%Z) l = true -> Forall fits_int l.
Proof.
  intros H. apply Forall_forall. intros z Hz. rewrite forallb_forall in H.
  apply list_elem_of_In, H, andb_true_iff in Hz as [H1 H2].
  apply Z.leb_le in H1. apply Z.ltb_lt in H2. split; assumption.
Qed.

Lemma mk_EdgeHolder_ints_fit (R1 R2 max_n_edge : Z) :
  Forall fits_int (mk_EdgeHolder_ints R1 R2 max_n_edge) ->
  (R1 * R2 < 2 ^ 31)%Z /\ (round_up max_n_edge simd_width < 2 ^ 31)%Z.
Proof.
  unfold mk_EdgeHolder_ints, mk_SimdVecArrayStorage_ints, round_up_ints. cbv zeta.
  rewrite !Forall_app, !Forall_cons. unfold fits_int. intuition lia.
Qed.

Section Invariants.
Context {F : Type} {FO : FloatOps F}.

(** X1: on a storage that satisfies the allocation invariant, [fill(v, c)]
    keeps the dimensions, the allocation length and the invariant, and
    every entry [(comp, e)] with [0 <= comp < elem_width] and
    [0 <= e < n_elem] reads [c] afterwards. *)
Theorem fill_sets_every_entry (a : SimdVecArrayStorage F) (v : F) :
  storage_wf a ->
  storage_wf (fill a v) /\ elem_width (fill a v) = elem_width a /\
  n_elem (fill a v) = n_elem a /\ length (x (fill a v)) = length (x a) /\
  forall c e, (0 <= c < elem_width a)%Z -> (0 <= e < n_elem a)%Z ->
    sv_get (fill a v) c e = v.
Proof.
  intros Hwf. split; [by apply fill_wf|]. split; [reflexivity|]. split; [reflexivity|].
  split.
  - destruct Hwf as (Hw & Hn & Hr & Hl). unfold fill. simpl.
    rewrite length_app, length_replicate, length_drop. lia.
  - intros c e Hc He. by apply fill_get.
Qed.

(** X2: [store_vec(a, e, r)] with a vector of [D <= elem_width] components
    writes the components [0 .. D-1] of element [e] and nothing else:
    [load_vec<D>(a, e)] gives [r] back, and every other entry, of element
    [e] or of another element, reads what it read before. *)
Theorem store_vec_writes_one_element (a : SimdVecArrayStorage F) (e : Z) (r : Vec F) :
  storage_wf a -> (0 <= e < n_elem a)%Z -> (Z.of_nat (length r) <= elem_width a)%Z ->
  load_vec (Z.of_nat (length r)) (store_vec a e r) e = r /\
  storage_wf (store_vec a e r) /\
  forall c e', (0 <= c < elem_width a)%Z -> (0 <= e')%Z ->
    sv_get (store_vec a e r) c e'
    = if decide (c < Z.of_nat (length r) /\ e' = e)%Z then vnth r c else sv_get a c e'.
Proof.
  intros Hwf He Hlen. split; [|split].
  - unfold load_vec.
    transitivity (map (vnth r) (range (Z.of_nat (length r)))); [|apply map_vnth_range].
    apply map_ext_in. intros k Hk. apply list_elem_of_In, elem_of_range in Hk.
    rewrite store_vec_get by (try assumption; lia).
    rewrite decide_True; [reflexivity|]. split; [lia | reflexivity].
  - unfold store_vec.
    apply (store_loop_spec (range (Z.of_nat (length r))) a e (vnth r) Hwf He).
    intros j Hj. apply elem_of_range in Hj. lia.
  - intros c e' Hc He'. by apply store_vec_get.
Qed.

(** X5: the constructor of [EdgeHolder], given rotamer counts and a
    capacity [max_n_edge] that are not negative and for which every [int]
    the constructor computes (the widths, the rounded capacity, the cell
    counts and the argument of [reserve]) is an [int], leaves a holder that
    satisfies the allocation invariant [add_to_edge] depends on: no edge, an
    empty key map and an empty [edge_loc], [n_elem] the capacity rounded up
    to a multiple of 4, index arrays of that length holding 0, and
    current and old beliefs that read 1 at every entry. *)
Theorem mk_EdgeHolder_establishes_invariant (m : Nodes F) (r1 r2 : node_ref)
        (max_n_edge : Z) :
  (0 <= n_rot (deref m r1))%Z -> (0 <= n_rot (deref m r2))%Z -> (0 <= max_n_edge)%Z ->
  Forall fits_int
         (mk_EdgeHolder_ints (n_rot (deref m r1)) (n_rot (deref m r2)) max_n_edge) ->
  let h := mk_EdgeHolder m r1 r2 max_n_edge in
  edge_holder_wf h /\ n_edge h = 0%Z /\ nodes_to_edge h = ∅ /\ edge_loc h = [] /\
  n_elem (prob h) = round_up max_n_edge 4 /\ (max_n_edge <= n_elem (prob h))%Z /\
  storage_wf (cur_belief h) /\ storage_wf (old_belief h) /\ storage_wf (marginal h) /\
  (forall e, buf_get 0%Z (edge_indices1 h) e = 0%Z /\ buf_get 0%Z (edge_indices2 h) e = 0%Z) /\
  forall c e, (0 <= c < n_rot1 h + n_rot2 h)%Z -> (0 <= e < n_elem (prob h))%Z ->
    sv_get (cur_belief h) c e = f_one /\ sv_get (old_belief h) c e = f_one.
Proof.
  intros H1 H2 Hm Hints h.
  apply mk_EdgeHolder_ints_fit in Hints as [Hw Hr].
  assert (Hb : storage_wf (mk_SimdVecArrayStorage (F:=F)
                 (n_rot (deref m r1) + n_rot (deref m r2)) max_n_edge))
    by (apply mk_SimdVecArrayStorage_wf; lia).
  split; [by apply mk_EdgeHolder_wf|].
  split; [reflexivity|]. split; [reflexivity|]. split; [reflexivity|].
  split; [reflexivity|].
  split; [subst h; simpl; pose proof (round_up_4 max_n_edge Hm); unfold simd_width; lia|].
  split; [by apply fill_wf|]. split; [by apply fill_wf|].
  split; [apply mk_SimdVecArrayStorage_wf; [nia | lia]|].
  split.
  - intros e. subst h. simpl. unfold new_aligned, buf_get.
    destruct (e <? 0)%Z; [by split|].
    destruct (decide (Z.to_nat e < Z.to_nat (round_up max_n_edge simd_width))%nat).
    + rewrite !nth_lookup, !lookup_replicate_2 by lia. by split.
    + rewrite !nth_overflow by (rewrite length_replicate; lia). by split.
  - intros c e Hc He. subst h. simpl in *. split; by apply fill_get.
Qed.
End Invariants.

Lemma fill_sets_every_entry_witness :
  storage_wf ex_storage /\ sv_get (fill ex_storage (1 # 2)%Q) 2 5 = (1 # 2)%Q.
Proof.
  assert (Hwf : storage_wf ex_storage).
  { unfold storage_wf. vm_compute. repeat split; try reflexivity; discriminate. }
  split; [exact Hwf|].
  destruct (fill_sets_every_entry ex_storage (1 # 2)%Q Hwf) as (_ & _ & _ & _ & Hget).
  apply Hget; vm_compute; split; try reflexivity; discriminate.
Defined.

Lemma store_vec_writes_one_element_witness :
  storage_wf ex_storage /\
  load_vec 3 (store_vec ex_storage 5 [1; 2; 3]%Q) 5 = [1; 2; 3]%Q /\
  sv_get (store_vec ex_storage 5 [1; 2; 3]%Q) 4 5 = 0%Q.
Proof.
  assert (Hwf : storage_wf ex_storage).
  { unfold storage_wf. vm_compute. repeat split; try reflexivity; discriminate. }
  assert (He : (0 <= 5 < n_elem ex_storage)%Z)
    by (vm_compute; split; [discriminate | reflexivity]).
  assert (Hl : (Z.of_nat (length [1; 2; 3]%Q) <= elem_width ex_storage)%Z)
    by (vm_compute; discriminate).
  destruct (store_vec_writes_one_element ex_storage 5 [1; 2; 3]%Q Hwf He Hl)
    as (Hload & _ & Hget).
  split; [exact Hwf|]. split; [exact Hload|]. reflexivity.
Defined.

Lemma calculate_n_elem_counts_residues_witness :
  calculate_n_elem 4 (ex_graph (F:=Q)) = Ok [0; 2; 0; 2]%Z /\
  size (residues_with 4 (ex_graph (F:=Q)) (range 8) 3) = 2%nat.
Proof.
  assert (H : calculate_n_elem 4 (ex_graph (F:=Q)) = Ok [0; 2; 0; 2]%Z)
    by (vm_compute; reflexivity).
  split; [exact H|].
  destruct (calculate_n_elem_counts_residues 4 ex_graph _ H) as (_ & _ & Hc & _).
  specialize (Hc 3%Z ltac:(unfold UPPER_ROT; lia)).
  change (buf_get 0%Z [0; 2; 0; 2]%Z 3) with 2%Z in Hc.
  change (n_elem1 (ex_graph (F:=Q))) with 8%Z in Hc. lia.
Defined.

Lemma mk_EdgeHolder_establishes_invariant_witness :
  Forall fits_int (mk_EdgeHolder_ints 3 3 3) /\
  edge_holder_wf (mk_EdgeHolder ex_nodes Nodes3 Nodes3 3) /\
  n_elem (prob (mk_EdgeHolder ex_nodes Nodes3 Nodes3 3)) = 4%Z.
Proof.
  assert (H1 : (0 <= n_rot (deref ex_nodes Nodes3))%Z) by (vm_compute; discriminate).
  assert (Hm : (0 <= 3)%Z) by lia.
  assert (Hi : Forall fits_int (mk_EdgeHolder_ints (n_rot (deref ex_nodes Nodes3))
                                                   (n_rot (deref ex_nodes Nodes3)) 3))
    by (apply fits_int_check; vm_compute; reflexivity).
  destruct (mk_EdgeHolder_establishes_invariant ex_nodes Nodes3 Nodes3 3 H1 H1 Hm Hi)
    as (Hwf & _ & _ & _ & Hn & _).
  split; [exact Hi|]. split; [exact Hwf | exact Hn].
Defined.

Lemma add_to_edge_records_locations_witness :
  Forall2 (loc_of_call (run_calls ex_calls (reset ex_holder))) ex_calls
          (edge_loc (run_calls ex_calls (reset ex_holder))).
Proof.
  assert (Hwf : edge_holder_wf ex_holder).
  { unfold edge_holder_wf, storage_wf. vm_compute.
    repeat split; try reflexivity; discriminate. }
  assert (Hvalid : forall c, c ∈ ex_calls -> valid_call ex_holder c).
  { intros c Hc. unfold ex_calls in Hc.
    repeat (apply elem_of_cons in Hc as [-> | Hc]);
      [..|by apply elem_of_nil in Hc];
      unfold valid_call; vm_compute; repeat split; try reflexivity; discriminate. }
  assert (Hcap : (Z.of_nat (n_distinct_pairs ex_calls) <= n_elem (prob ex_holder))%Z).
  { vm_compute. discriminate. }
  exact (proj1 (add_to_edge_records_locations ex_holder ex_calls Hwf Hvalid Hcap)).
Defined.


Lemma node_marginals_sum_to_one_exact_witness :
  (vec_sum (va_load_vec 3 (nh_cur_belief (nh_calculate_marginals 3 ex_nh_one_raised)) 1)
   == 1)%Q.
Proof.
  assert (He : (0 <= 1 < nh_n_elem ex_nh_one_raised)%Z)
    by (vm_compute; split; [discriminate | reflexivity]).
  assert (Hs : ~ (vec_sum (va_load_vec 3 (nh_cur_belief ex_nh_one_raised) 1) == 0)%Q)
    by (vm_compute; discriminate).
  exact (proj1 (node_marginals_sum_to_one_exact 3 ex_nh_one_raised 1 He Hs)).
Defined.

Lemma standardize_probs_largest_is_one_exact_witness :
  (0 <= 1 < nh_n_elem ex_nh_probs)%Z /\
  (nh_prob (nh_standardize_probs ex_nh_probs) 0%Z 1%Z <= 1)%Q /\
  exists c, (0 <= c < n_rot ex_nh_probs)%Z /\
            (nh_prob (nh_standardize_probs ex_nh_probs) c 1%Z == 1)%Q.
Proof.
  assert (He : (0 <= 1 < nh_n_elem ex_nh_probs)%Z)
    by (vm_compute; split; [discriminate | reflexivity]).
  destruct (standardize_probs_largest_is_one_exact ex_nh_probs 1 He) as [Hle Hone].
  split; [exact He|]. split.
  - apply Hle. vm_compute. split; [discriminate | reflexivity].
  - apply Hone. exists 2%Z. split; vm_compute; [split; [discriminate | reflexivity]|].
    reflexivity.
Defined.


Lemma edge_marginals_sum_to_one_exact_witness :
  (vec_sum (load_vec (3 * 3) (marginal (calculate_marginals 3 3 ex_nodes ex_edges33)) 0)
   == 1)%Q.
Proof.
  assert (Hwf : storage_wf (marginal ex_edges33)).
  { unfold storage_wf. vm_compute. repeat split; try reflexivity; discriminate. }
  assert (Hw : elem_width (marginal ex_edges33) = (3 * 3)%Z) by reflexivity.
  assert (Hcap : (n_edge ex_edges33 <= n_elem (marginal ex_edges33))%Z)
    by (vm_compute; discriminate).
  assert (He : (0 <= 0 < n_edge ex_edges33)%Z)
    by (vm_compute; split; [discriminate | reflexivity]).
  assert (Hs : ~ (vec_sum (marginal_weights 3 3 ex_nodes ex_edges33 0) == 0)%Q)
    by (vm_compute; discriminate).
  exact (proj1 (edge_marginals_sum_to_one_exact 3 3 ex_nodes ex_edges33 0
                  Hwf Hw Hcap He Hs)).
Defined.

Lemma buf_get_range (n k : Z) : (0 <= k < n)%Z -> buf_get 0%Z (range n) k = k.
Proof.
  intros Hk. unfold buf_get, range. destruct (Z.ltb_spec k 0); [lia|].
  rewrite nth_lookup, list_lookup_fmap, lookup_seq_lt by lia. simpl. lia.
Qed.

Lemma solve_for_marginals_keeps_potentials_witness :
  let s1 : RotamerSidechain spec_float unit := ex_state1 in
  let s2 : RotamerSidechain spec_float unit := ex_state2 in
  solve_for_marginals 2 s1 = Some (s2, (2%Z, f_zero)) /\ solver_frame s1 s2.
Proof.
  intros s1 s2.
  assert (H2 : solve_for_marginals 2 s1 = Some (s2, (2%Z, f_zero)))
    by (vm_compute; reflexivity).
  split; [exact H2|].
  exact (solve_for_marginals_keeps_potentials 2 s1 s2 _ H2).
Defined.

Lemma solve_for_marginals_without_sweep_witness :
  let s : RotamerSidechain spec_float unit := ex_state_idle in
  ((max_iter s <= 0)%Z \/ fgt f_huge (tol s) = false) /\
  solve_for_marginals 0 s = Some (solve_finish (solve_init s), (0%Z, f_huge)).
Proof.
  intros s.
  assert (H : (max_iter s <= 0)%Z \/ fgt f_huge (tol s) = false)
    by (left; vm_compute; discriminate).
  split; [exact H|].
  exact (solve_for_marginals_without_sweep 0 s H).
Defined.

Lemma solve_for_marginals_chunk_zero_diverges_witness :
  let s : RotamerSidechain spec_float unit := ex_state_stuck in
  iteration_chunk_size s = 0%Z /\ (0 < max_iter s)%Z /\
  forall fuel, solve_for_marginals fuel s = None.
Proof.
  intros s.
  assert (Hc : iteration_chunk_size s = 0%Z) by (vm_compute; reflexivity).
  assert (Hm : (0 < max_iter s)%Z) by (vm_compute; reflexivity).
  assert (Hh : fgt f_huge (tol s) = true) by (vm_compute; reflexivity).
  assert (Hd : fgt (fmax (nh_max_deviation (nodes3 (nodes (solve_init s))))
                         (max_deviation (edges33 (solve_init s)))) (tol s) = true)
    by (vm_compute; reflexivity).
  split; [exact Hc|]. split; [exact Hm|].
  exact (solve_for_marginals_chunk_zero_diverges s Hc Hm Hh Hd).
Defined.

Lemma compute_value_deriv_mode_keeps_potential_witness :
  let s : RotamerSidechain spec_float unit := ex_state0 in
  let s' : RotamerSidechain spec_float unit := ex_computed_deriv in
  compute_value ex_logf ex_expf 4 id (fun _ => tt) 2 DerivMode s = Some (Ok s') /\
  energy_fresh_relative_to_derivative s' = false /\ potential s' = potential s.
Proof.
  intros s s'.
  assert (Hc : compute_value ex_logf ex_expf 4 id (fun _ => tt) 2 DerivMode s
               = Some (Ok s')) by (vm_compute; reflexivity).
  destruct (compute_value_deriv_mode_keeps_potential ex_logf ex_expf 4 id (fun _ => tt)
              2 DerivMode s s' Hc) as (Hf & Hp & _).
  split; [exact Hc|]. split; [exact Hf | by apply Hp].
Defined.

Lemma ensure_fresh_energy_after_compute_value_witness :
  let s : RotamerSidechain spec_float unit := ex_state0 in
  let s' : RotamerSidechain spec_float unit := ex_computed in
  compute_value ex_logf ex_expf 4 id (fun _ => tt) 2 PotentialAndDerivMode s
  = Some (Ok s') /\
  ensure_fresh_energy ex_logf ex_expf 4 id (fun _ => tt) 2 s' = Some (Ok s').
Proof.
  intros s s'.
  assert (Hc : compute_value ex_logf ex_expf 4 id (fun _ => tt) 2 PotentialAndDerivMode s
               = Some (Ok s')) by (vm_compute; reflexivity).
  split; [exact Hc|].
  exact (proj1 (ensure_fresh_energy_after_compute_value ex_logf ex_expf 4 id (fun _ => tt)
                  2 2 PotentialAndDerivMode s s' Hc)).
Defined.

Lemma propagate_derivatives_writes_beliefs_witness :
  let s2 : RotamerSidechain spec_float unit := ex_state2 in
  let s3 : RotamerSidechain spec_float unit := ex_state3 in
  propagate_derivatives 4 (fun _ => tt) s2 = Ok s3 /\
  length (prob_nodes s3) = 1%nat /\
  exists c', prob_nodes s3 !! 0%nat = Some c' /\
    forall n, (0 <= n < 8)%Z -> bead_belief 4 s2 n = Some (deriv c' 0%Z (slot_of s2 n 0)).
Proof.
  intros s2 s3.
  assert (H3 : propagate_derivatives 4 (fun _ => tt) s2 = Ok s3)
    by (vm_compute; reflexivity).
  assert (En : n_elem1 (igraph s2) = 8%Z) by (vm_compute; reflexivity).
  assert (Ep : Z.of_nat (length (prob_nodes s2)) = 1%Z) by (vm_compute; reflexivity).
  assert (Es : prob_slot s2 = range 8) by (vm_compute; reflexivity).
  assert (Hslot : forall n, (0 <= n < 8)%Z -> slot_of s2 n 0 = n).
  { intros n Hn. unfold slot_of. rewrite Es, Ep.
    replace (n * 1 + 0)%Z with n by lia. by apply buf_get_range. }
  assert (Hdist : forall n n' i, (0 <= n < n_elem1 (igraph s2))%Z ->
            (0 <= n' < n_elem1 (igraph s2))%Z ->
            (0 <= i < Z.of_nat (length (prob_nodes s2)))%Z ->
            slot_of s2 n i = slot_of s2 n' i -> n = n').
  { rewrite En, Ep. intros n n' i Hn Hn' Hi Heq.
    assert (i = 0%Z) by lia. subst i.
    rewrite !Hslot in Heq by assumption. exact Heq. }
  destruct (propagate_derivatives_writes_beliefs 4 (fun _ => tt) s2 s3 H3 Hdist)
    as [Hlen Hnodes].
  assert (Hc : prob_nodes s2 !! 0%nat
               = Some {| value := va_fill f_zero; deriv := va_fill f_zero |})
    by (vm_compute; reflexivity).
  destruct (Hnodes 0%nat _ Hc) as (c' & Hc' & _ & Hb & _).
  split; [exact H3|]. split; [rewrite Hlen; vm_compute; reflexivity|].
  exists c'. split; [exact Hc'|]. rewrite En in Hb. exact Hb.
Defined.

Lemma fill_holders_edge_orders_pair_witness :
  let s : RotamerSidechain spec_float unit := ex_state0 in
  (bead_n_rot 4 (igraph s) 1 = 3 /\ bead_n_rot 4 (igraph s) 6 = 1)%Z /\
  fill_holders_edge ex_expf 4 s 1 = route_edge ex_expf 4 s 1 6 1.
Proof.
  intros s.
  assert (Hn : (0 <= 4 <= 16)%Z) by lia.
  assert (HA : (0 <= buf_get 0%Z (id1 (igraph s))
                        (buf_get 0%Z (ig_edge_indices1 (igraph s)) 1) < 2 ^ 31)%Z)
    by (vm_compute; split; [discriminate | reflexivity]).
  assert (HB : (0 <= buf_get 0%Z (id1 (igraph s))
                        (buf_get 0%Z (ig_edge_indices2 (igraph s)) 1) < 2 ^ 31)%Z)
    by (vm_compute; split; [discriminate | reflexivity]).
  split; [split; vm_compute; reflexivity|].
  exact (proj1 (fill_holders_edge_orders_pair ex_expf 4 s 1 Hn HA HB)).
Defined.

Lemma arrange_energies_lists_residues_witness :
  let s : RotamerSidechain spec_float unit := ex_state2 in
  residue_heads 4 (igraph s) = [48; 304; 16; 272]%Z /\
  Forall2 (fun id (v : spec_float) =>
             head_energy 4 [f_one; f_zero] [f_tenth; f_tiny] id = Some v)
          (residue_heads 4 (igraph s)) [f_tenth; f_tiny; f_one; f_zero].
Proof.
  intros s.
  assert (H : arrange_energies 4 s [f_one; f_zero] [f_tenth; f_tiny]
              = Ok [f_tenth; f_tiny; f_one; f_zero]) by (vm_compute; reflexivity).
  split; [vm_compute; reflexivity|].
  exact (proj1 (proj1 (arrange_energies_lists_residues 4 s _ _ _) H)).
Defined.

Lemma rotamer_1body_energy_sums_beads_witness :
  let s : RotamerSidechain spec_float unit := ex_state2 in
  rotamer_1body_energy 4 s 0 = Ok ex_one_body /\ length (ex_one_body (F:=spec_float)) = 4%nat /\
  forall n, (0 <= n < 8)%Z -> bead_supported 4 s n.
Proof.
  intros s.
  assert (H : rotamer_1body_energy 4 s 0 = Ok ex_one_body) by (vm_compute; reflexivity).
  destruct (rotamer_1body_energy_sums_beads 4 s 0 _ H) as (c & _ & _ & Hs & Hl & _).
  split; [exact H|]. split; [exact Hl | exact Hs].
Defined.

(** ** residue_free_energies *)

(** ** Sums in exact arithmetic *)

Lemma sumQ_from (v : list Q) (a : Q) : (fold_left Qplus v a == a + sumQ v)%Q.
Proof.
  unfold sumQ. revert a. induction v as [|y v IH]; intros a; simpl; [ring|].
  rewrite (IH (a + y)%Q), (IH (0 + y)%Q). ring.
Qed.

Lemma sumQ_cons (y : Q) (v : list Q) : (sumQ (y :: v) == y + sumQ v)%Q.
Proof. unfold sumQ at 1. simpl. rewrite sumQ_from. ring. Qed.

Lemma sumQ_app (u v : list Q) : (sumQ (u ++ v) == sumQ u + sumQ v)%Q.
Proof.
  induction u as [|y u IH]; simpl.
  - unfold sumQ at 2. simpl. ring.
  - rewrite !sumQ_cons, IH. ring.
Qed.

Lemma sumQ_perm (u v : list Q) : u ≡ₚ v -> (sumQ u == sumQ v)%Q.
Proof.
  induction 1 as [|y u v _ IH|y z u|u v w _ IH1 _ IH2].
  - reflexivity.
  - by rewrite !sumQ_cons, IH.
  - rewrite !sumQ_cons. ring.
  - by rewrite IH1.
Qed.

Lemma sumQ_insert (v : list Q) (k : nat) (x y : Q) :
  v !! k = Some x -> (sumQ (<[k := y]> v) == sumQ v + (y - x))%Q.
Proof.
  revert k. induction v as [|z v IH]; intros k Hk; [discriminate|].
  destruct k as [|k]; simpl in *.
  - injection Hk as ->. rewrite !sumQ_cons. ring.
  - rewrite !sumQ_cons, (IH k Hk). ring.
Qed.

Lemma sumQ_replicate_0 (n : nat) : (sumQ (replicate n 0%Q) == 0)%Q.
Proof.
  induction n as [|n IH]; simpl; [reflexivity|]. rewrite sumQ_cons, IH. ring.
Qed.

Lemma vec_read_ok {F} (v : list F) (k : Z) (x : F) :
  vec_read v k = Ok x <-> (0 <= k)%Z /\ v !! Z.to_nat k = Some x.
Proof.
  unfold vec_read. destruct (Z.ltb_spec k 0).
  - split; [discriminate | lia].
  - destruct (v !! Z.to_nat k); split; try discriminate; try (intros [_ ?]; congruence).
    intros Heq. injection Heq as ->. by split.
Qed.

Lemma vec_add_at_sum (v v' : list Q) (k : Z) (a : Q) :
  vec_add_at v k a = Ok v' -> length v' = length v /\ (sumQ v' == sumQ v + a)%Q.
Proof.
  unfold vec_add_at. intros Hr. apply bind_ok in Hr as (x & Hx & Hr).
  apply vec_read_ok in Hx as [_ Hx]. injection Hr as <-.
  split; [apply length_insert|]. rewrite (sumQ_insert _ _ x) by exact Hx. simpl. ring.
Qed.

Lemma vec_add_half_at_sum (v v' : list Q) (k : Z) (a : Q) :
  vec_add_half_at exact_add_half v k a = Ok v' ->
  length v' = length v /\ (sumQ v' == sumQ v + (1 # 2) * a)%Q.
Proof.
  unfold vec_add_half_at. intros Hr. apply bind_ok in Hr as (x & Hx & Hr).
  apply vec_read_ok in Hx as [_ Hx]. injection Hr as <-.
  split; [apply length_insert|]. rewrite (sumQ_insert _ _ x) by exact Hx.
  unfold exact_add_half. ring.
Qed.

(** A loop that adds [term n] somewhere in the vector for each [n]. *)
Lemma sum_loop {A} (body : list Q -> A -> outcome (list Q)) (term : A -> Q)
      (l : list A) (v v' : list Q) :
  (forall u a u', body u a = Ok u' -> length u' = length u /\ (sumQ u' == sumQ u + term a)%Q) ->
  for_each body l v = Ok v' ->
  length v' = length v /\ (sumQ v' == sumQ v + sumQ (map term l))%Q.
Proof.
  intros Hbody. revert v. induction l as [|a l IH]; intros v Hrun; cbn [for_each] in Hrun.
  - injection Hrun as <-. split; [reflexivity|]. unfold sumQ at 3. simpl. ring.
  - apply bind_ok in Hrun as (u & Hb & Hrun).
    apply Hbody in Hb as [Hl Hs]. apply IH in Hrun as [Hl' Hs'].
    split; [congruence|]. cbn [map]. rewrite sumQ_cons, Hs', Hs. ring.
Qed.

(** ** The heads of the residues *)

Lemma heads_from_spec (n_bit_rotamer : Z) (ids acc : list Z) :
  NoDup acc -> (forall id, id ∈ acc -> Z.land id (selector n_bit_rotamer) = 0%Z) ->
  NoDup (heads_from n_bit_rotamer acc ids) /\
  forall id, id ∈ heads_from n_bit_rotamer acc ids ->
             Z.land id (selector n_bit_rotamer) = 0%Z.
Proof.
  revert acc. induction ids as [|id ids IH]; intros acc Hnd Hrot; cbn [heads_from fold_left].
  - by split.
  - fold (heads_from n_bit_rotamer).
    destruct (Z.eqb_spec (Z.land id (selector n_bit_rotamer)) 0) as [Hz | Hnz];
      cbn [negb]; [|by apply IH].
    destruct (decide (id ∈ acc)) as [Hin | Hnin]; [by apply IH|].
    apply IH.
    + apply NoDup_app. split; [exact Hnd|]. split; [|apply NoDup_singleton].
      intros y Hy Hy'. apply elem_of_cons in Hy' as [-> | Hy']; [contradiction|].
      by apply elem_of_nil in Hy'.
    + intros y Hy. apply elem_of_app in Hy as [Hy | Hy]; [by apply Hrot|].
      apply elem_of_cons in Hy as [-> | Hy]; [exact Hz | by apply elem_of_nil in Hy].
Qed.

Lemma id_key_inj (n_bit_rotamer : Z) (a b : Z) :
  (0 <= n_bit_rotamer < 32)%Z ->
  Z.land a (selector n_bit_rotamer) = 0%Z -> Z.land b (selector n_bit_rotamer) = 0%Z ->
  id_key n_bit_rotamer a = id_key n_bit_rotamer b -> a = b.
Proof.
  intros Hn Ha Hb Hk. unfold id_key in Hk.
  destruct (decode_id n_bit_rotamer a) as [[ra ka] ia] eqn:Hda.
  destruct (decode_id n_bit_rotamer b) as [[rb kb] ib] eqn:Hdb.
  simpl in Hk. injection Hk as -> ->.
  assert (ra = 0%Z) by (unfold decode_id in Hda; injection Hda as <- _ _; exact Ha).
  assert (rb = 0%Z) by (unfold decode_id in Hdb; injection Hdb as <- _ _; exact Hb).
  subst ra rb.
  apply decode_id_fields in Hda as [-> _]; [|exact Hn].
  apply decode_id_fields in Hdb as [-> _]; [|exact Hn]. reflexivity.
Qed.

Lemma head_energy_key (n_bit_rotamer : Z) (e1 e3 : list Q) (id : Z) (v : Q) :
  head_energy n_bit_rotamer e1 e3 id = Some v ->
  v = key_energy e1 e3 (id_key n_bit_rotamer id) /\
  id_key n_bit_rotamer id
  ∈ map (fun j => (1%Z, j)) (range (Z.of_nat (length e1)))
    ++ map (fun j => (3%Z, j)) (range (Z.of_nat (length e3))).
Proof.
  unfold head_energy, id_key, key_energy.
  destruct (decode_id n_bit_rotamer id) as [[rot k] res]. cbn [fst snd].
  destruct (Z.ltb_spec res 0) as [|Hres]; [discriminate|].
  assert (Hv : forall (e : list Q), e !! Z.to_nat res = Some v ->
            v = vnth e res /\ res ∈ range (Z.of_nat (length e))).
  { intros e He. split.
    - unfold vnth. destruct (Z.ltb_spec res 0); [lia|].
      rewrite nth_lookup, He. reflexivity.
    - apply elem_of_range. apply lookup_lt_Some in He. lia. }
  destruct (Z.eqb_spec k 1) as [-> | Hk1].
  - intros He. apply Hv in He as [-> Hin]. split; [reflexivity|].
    apply elem_of_app. left. apply list_elem_of_fmap. eauto.
  - destruct (Z.eqb_spec k 3) as [-> | Hk3]; [|discriminate].
    intros He. apply Hv in He as [-> Hin]. split; [reflexivity|].
    apply elem_of_app. right. apply list_elem_of_fmap. eauto.
Qed.

Lemma sumQ_key_energy (e1 e3 : list Q) :
  (sumQ (map (key_energy e1 e3)
             (map (fun j => (1%Z, j)) (range (Z.of_nat (length e1)))
              ++ map (fun j => (3%Z, j)) (range (Z.of_nat (length e3)))))
   == sumQ e1 + sumQ e3)%Q.
Proof.
  rewrite map_app, sumQ_app, !map_map. unfold key_energy. cbn [fst snd Z.eqb Pos.eqb].
  change (map (fun x => vnth e1 x) (range (Z.of_nat (length e1))))
    with (map (vnth e1) (range (Z.of_nat (length e1)))).
  change (map (fun x => vnth e3 x) (range (Z.of_nat (length e3))))
    with (map (vnth e3) (range (Z.of_nat (length e3)))).
  rewrite !map_vnth_range. reflexivity.
Qed.

(** The vector [arrange_energies] returns adds up to the two vectors it
    reads, when these have as many entries as the rotamer counts say. *)
Lemma arrange_energies_sum {G} (n_bit_rotamer : Z) (s : RotamerSidechain Q G)
      (e1 e3 r : list Q) :
  (0 <= n_bit_rotamer < 32)%Z ->
  Z.to_nat (buf_get 0%Z (n_elem_rot s) 1 + buf_get 0%Z (n_elem_rot s) 3)
  = (length e1 + length e3)%nat ->
  arrange_energies n_bit_rotamer s e1 e3 = Ok r ->
  (sumQ r == sumQ e1 + sumQ e3)%Q.
Proof.
  intros Hn HN Harr. apply arrange_energies_spec in Harr as [Hf Hlen].
  destruct (heads_from_spec n_bit_rotamer
              (map (buf_get 0%Z (id1 (igraph s))) (range (n_elem1 (igraph s)))) [])
    as [Hnd Hrot]; [apply NoDup_nil_2 | intros id Hid; by apply elem_of_nil in Hid|].
  fold (residue_heads n_bit_rotamer (igraph s)) in Hnd, Hrot.
  set (heads := residue_heads n_bit_rotamer (igraph s)) in *.
  set (target := map (fun j => (1%Z, j)) (range (Z.of_nat (length e1)))
                 ++ map (fun j => (3%Z, j)) (range (Z.of_nat (length e3)))).
  assert (Hr : r = map (key_energy e1 e3) (map (id_key n_bit_rotamer) heads) /\
               forall id, id ∈ heads -> id_key n_bit_rotamer id ∈ target).
  { clear -Hf. induction Hf as [|id v hs r Hv Hf IH]; simpl.
    - split; [reflexivity|]. intros id Hid. by apply elem_of_nil in Hid.
    - apply head_energy_key in Hv as [-> Hin]. destruct IH as [-> IH].
      split; [reflexivity|]. intros id' Hid'.
      apply elem_of_cons in Hid' as [-> | Hid']; [exact Hin | by apply IH]. }
  destruct Hr as [-> Hsub].
  assert (Hperm : map (id_key n_bit_rotamer) heads ≡ₚ target).
  { apply submseteq_length_Permutation.
    - apply NoDup_submseteq.
      + apply NoDup_fmap_2_strong; [|exact Hnd].
        intros a b Ha Hb. apply id_key_inj; [exact Hn | by apply Hrot | by apply Hrot].
      + intros key Hkey. apply list_elem_of_fmap in Hkey as (id & -> & Hid).
        by apply Hsub.
    - rewrite !length_map in Hlen. rewrite length_map.
      subst target. rewrite length_app, !length_map.
      unfold range. rewrite !length_map, !length_seq, !Nat2Z.id. lia. }
  rewrite (sumQ_perm _ (map (key_energy e1 e3) target)) by (by apply Permutation_map).
  apply sumQ_key_energy.
Qed.

(** X24: with the float operations read as exact rational arithmetic, and
    [e += 0.5*en] as [e + en/2], the vector [residue_free_energies()]
    returns adds up to [calculate_energy_from_marginals()]: for a field width
    [0 <= n_bit_rotamer < 32] and node holders whose element counts are not
    negative and equal [n_elem_rot[1]] and [n_elem_rot[3]], every node and
    edge term is handed to exactly one or two residues and none is lost or
    counted twice by [arrange_energies]. *)
Theorem residue_free_energies_add_up_exact {G} (logf : Q -> Q) (n_bit_rotamer : Z)
        (s : RotamerSidechain Q G) (r : list Q) :
  (0 <= n_bit_rotamer < 32)%Z ->
  (0 <= nh_n_elem (nodes1 (nodes s)))%Z -> (0 <= nh_n_elem (nodes3 (nodes s)))%Z ->
  buf_get 0%Z (n_elem_rot s) 1 = nh_n_elem (nodes1 (nodes s)) ->
  buf_get 0%Z (n_elem_rot s) 3 = nh_n_elem (nodes3 (nodes s)) ->
  residue_free_energies logf n_bit_rotamer exact_add_half s = Ok r ->
  (sumQ r == calculate_energy_from_marginals logf s)%Q.
Proof.
  intros Hn H1 H3 E1 E3 Hrun. unfold residue_free_energies in Hrun. cbv zeta in Hrun.
  apply bind_ok in Hrun as (e1a & L1 & Hrun). apply bind_ok in Hrun as (e3a & L3 & Hrun).
  apply bind_ok in Hrun as (e1b & L11 & Hrun). apply bind_ok in Hrun as (e3b & L33 & Hrun).
  apply (sum_loop _ (node_free_energy logf 1 (nodes1 (nodes s)))) in L1 as [Hl1 S1];
    [|intros u a u'; apply vec_add_at_sum].
  apply (sum_loop _ (node_free_energy logf 3 (nodes3 (nodes s)))) in L3 as [Hl3 S3];
    [|intros u a u'; apply vec_add_at_sum].
  apply (sum_loop _ (fun ne => fneg (logf (sv_get (prob (edges11 s)) 0 ne)))) in L11
    as [Hl11 S11].
  2:{ intros u a u' Hb. cbv zeta in Hb. apply bind_ok in Hb as (u1 & Ha & Hb).
      apply vec_add_half_at_sum in Ha as [La Sa]. apply vec_add_half_at_sum in Hb as [Lb Sb].
      split; [congruence|]. rewrite Sb, Sa. ring. }
  apply (sum_loop _ (edge_free_energy logf 3 3 (nodes s) (edges33 s))) in L33 as [Hl33 S33].
  2:{ intros u a u' Hb. cbv zeta in Hb. apply bind_ok in Hb as (u1 & Ha & Hb).
      apply vec_add_half_at_sum in Ha as [La Sa]. apply vec_add_half_at_sum in Hb as [Lb Sb].
      split; [congruence|]. rewrite Sb, Sa. ring. }
  rewrite length_replicate in Hl1, Hl3.
  apply arrange_energies_sum in Hrun; [|exact Hn|rewrite E1, E3; lia].
  rewrite Hrun, S11, S33, S1, S3, !sumQ_replicate_0.
  rewrite calculate_energy_from_marginals_terms.
  change (fold_left fadd (energy_terms logf s) f_zero) with (sumQ (energy_terms logf s)).
  unfold energy_terms. rewrite !sumQ_app. ring.
Qed.

Lemma residue_free_energies_add_up_exact_witness :
  let s : RotamerSidechain Q unit := ex_state1 in
  residue_free_energies ex_logf 4 exact_add_half s = Ok ex_residue_energies /\
  length ex_residue_energies = 4%nat /\
  (sumQ ex_residue_energies == calculate_energy_from_marginals ex_logf s)%Q.
Proof.
  intros s.
  assert (Hn : (0 <= 4 < 32)%Z) by lia.
  assert (H1 : (0 <= nh_n_elem (nodes1 (nodes s)))%Z) by (vm_compute; discriminate).
  assert (H3 : (0 <= nh_n_elem (nodes3 (nodes s)))%Z) by (vm_compute; discriminate).
  assert (E1 : buf_get 0%Z (n_elem_rot s) 1 = nh_n_elem (nodes1 (nodes s)))
    by (vm_compute; reflexivity).
  assert (E3 : buf_get 0%Z (n_elem_rot s) 3 = nh_n_elem (nodes3 (nodes s)))
    by (vm_compute; reflexivity).
  assert (Hr : residue_free_energies ex_logf 4 exact_add_half s = Ok ex_residue_energies)
    by (vm_compute; reflexivity).
  split; [exact Hr|]. split; [vm_compute; reflexivity|].
  exact (residue_free_energies_add_up_exact ex_logf 4 s _ Hn H1 H3 E1 E3 Hr).
Defined.

(** ** The constructor of RotamerSidechain *)

Section ConstructorTheory.
Context {F : Type} {FO : FloatOps F} {G : Type}.
Context (n_bit_rotamer : Z).

Lemma mk_EdgeHolder_capacity (m : Nodes F) (r1 r2 : node_ref) (max_n_edge : Z) :
  (0 <= max_n_edge)%Z ->
  n_edge (mk_EdgeHolder m r1 r2 max_n_edge) = 0%Z /\
  (max_n_edge <= n_elem (prob (mk_EdgeHolder m r1 r2 max_n_edge)))%Z.
Proof.
  intros Hm. split; [reflexivity|]. simpl.
  pose proof (round_up_4 max_n_edge Hm). unfold simd_width. lia.
Qed.

(** X25: when the constructor of [RotamerSidechain] returns, every bead has
    [rot < n_rot < 4], [n_elem_rot[1]] and [n_elem_rot[3]] are the numbers
    [n1] and [n3] of distinct residues with 1 and with 3 rotamers, [nodes1]
    and [nodes3] have 1 and 3 rotamers and [n1] and [n3] elements, and,
    provided every [int] the initialisers compute from [n1] and [n3] (the
    capacities [n1*(n1+1)/2], [n1*n3] and [n3*(n3+1)/2] with their products,
    and the sizes inside the three [EdgeHolder] constructors) is an [int],
    each edge holder satisfies the allocation invariant, is empty and has
    room for its capacity; the energy is marked as not fresh. *)
Theorem mk_RotamerSidechain_sizes_holders (g : InteractionGraph F G)
        (pn : list (CoordNode F)) (slots : list Z) (d tol_ : F) (mi ch : Z)
        (s : RotamerSidechain F G) :
  let n1 := Z.of_nat (size (residues_with n_bit_rotamer g (range (n_elem1 g)) 1)) in
  let n3 := Z.of_nat (size (residues_with n_bit_rotamer g (range (n_elem1 g)) 3)) in
  Forall fits_int (mk_RotamerSidechain_ints n1 n3) ->
  mk_RotamerSidechain n_bit_rotamer g pn slots d mi tol_ ch = Ok s ->
  (forall n, (0 <= n < n_elem1 g)%Z ->
     (bead_rot n_bit_rotamer g n < bead_n_rot n_bit_rotamer g n < UPPER_ROT)%Z) /\
  buf_get 0%Z (n_elem_rot s) 1 = n1 /\ buf_get 0%Z (n_elem_rot s) 3 = n3 /\
  n_rot (nodes1 (nodes s)) = 1%Z /\ nh_n_elem (nodes1 (nodes s)) = n1 /\
  n_rot (nodes3 (nodes s)) = 3%Z /\ nh_n_elem (nodes3 (nodes s)) = n3 /\
  (edge_holder_wf (edges11 s) /\ n_edge (edges11 s) = 0%Z /\
   (n1 * (n1 + 1) ÷ 2 <= n_elem (prob (edges11 s)))%Z) /\
  (edge_holder_wf (edges13 s) /\ n_edge (edges13 s) = 0%Z /\
   (n1 * n3 <= n_elem (prob (edges13 s)))%Z) /\
  (edge_holder_wf (edges33 s) /\ n_edge (edges33 s) = 0%Z /\
   (n3 * (n3 + 1) ÷ 2 <= n_elem (prob (edges33 s)))%Z) /\
  energy_fresh_relative_to_derivative s = false.
Proof.
  intros n1 n3 Hints Hrun. unfold mk_RotamerSidechain in Hrun.
  apply bind_ok in Hrun as (ner & Hc & Hs).
  apply calculate_n_elem_spec in Hc as (_ & Hgood & Hcount & _).
  pose proof (Hcount 1%Z ltac:(unfold UPPER_ROT; lia)) as C1.
  pose proof (Hcount 3%Z ltac:(unfold UPPER_ROT; lia)) as C3.
  fold n1 in C1. fold n3 in C3.
  injection Hs as <-. cbn [n_elem_rot nodes nodes1 nodes3 edges11 edges13 edges33
                           energy_fresh_relative_to_derivative].
  rewrite !C1, !C3.
  unfold mk_RotamerSidechain_ints in Hints.
  apply Forall_app in Hints as (_ & Hints).
  apply Forall_app in Hints as (I11 & Hints).
  apply Forall_app in Hints as (I13 & I33).
  apply mk_EdgeHolder_ints_fit in I11 as [_ B11].
  apply mk_EdgeHolder_ints_fit in I13 as [_ B13].
  apply mk_EdgeHolder_ints_fit in I33 as [_ B33].
  unfold simd_width in B11, B13, B33.
  assert (P1 : (0 <= n1)%Z) by (subst n1; lia).
  assert (P3 : (0 <= n3)%Z) by (subst n3; lia).
  assert (Q11 : (0 <= n1 * (n1 + 1) ÷ 2)%Z) by (apply Z.quot_pos; nia).
  assert (Q33 : (0 <= n3 * (n3 + 1) ÷ 2)%Z) by (apply Z.quot_pos; nia).
  assert (Q13 : (0 <= n1 * n3)%Z) by nia.
  split; [exact Hgood|].
  do 6 (split; [reflexivity|]).
  split; [|split; [|split; [|reflexivity]]].
  - split; [apply mk_EdgeHolder_wf; simpl; lia|]. by apply mk_EdgeHolder_capacity.
  - split; [apply mk_EdgeHolder_wf; simpl; lia|]. by apply mk_EdgeHolder_capacity.
  - split; [apply mk_EdgeHolder_wf; simpl; lia|]. by apply mk_EdgeHolder_capacity.
Qed.
End ConstructorTheory.

Lemma mk_RotamerSidechain_sizes_holders_witness :
  let s : RotamerSidechain Q unit := ex_state0 in
  Forall fits_int (mk_RotamerSidechain_ints 2 2) /\
  mk_RotamerSidechain 4 ex_graph
      [{| value := va_fill f_zero; deriv := va_fill f_zero |}]
      [0; 1; 2; 3; 4; 5; 6; 7]%Z f_tenth 4 f_tiny 2 = Ok s /\
  buf_get 0%Z (n_elem_rot s) 1 = 2%Z /\ buf_get 0%Z (n_elem_rot s) 3 = 2%Z /\
  nh_n_elem (nodes3 (nodes s)) = 2%Z /\ edge_holder_wf (edges33 s) /\
  (3 <= n_elem (prob (edges33 s)))%Z.
Proof.
  intros s.
  assert (Hs : mk_RotamerSidechain 4 ex_graph
      [{| value := va_fill f_zero; deriv := va_fill f_zero |}]
      [0; 1; 2; 3; 4; 5; 6; 7]%Z f_tenth 4 f_tiny 2 = Ok s)
    by (vm_compute; reflexivity).
  assert (E1 : Z.of_nat (size (residues_with 4 (ex_graph (F:=Q))
                                 (range (n_elem1 (ex_graph (F:=Q)))) 1)) = 2%Z)
    by (vm_compute; reflexivity).
  assert (E3 : Z.of_nat (size (residues_with 4 (ex_graph (F:=Q))
                                 (range (n_elem1 (ex_graph (F:=Q)))) 3)) = 2%Z)
    by (vm_compute; reflexivity).
  assert (Hi : Forall fits_int (mk_RotamerSidechain_ints 2 2))
    by (apply fits_int_check; vm_compute; reflexivity).
  pose proof (mk_RotamerSidechain_sizes_holders 4 ex_graph
                [{| value := va_fill f_zero; deriv := va_fill f_zero |}]
                [0; 1; 2; 3; 4; 5; 6; 7]%Z f_tenth f_tiny 4 2 s) as H.
  cbv zeta in H. rewrite E1, E3 in H.
  specialize (H Hi Hs).
  destruct H as (_ & A1 & A3 & _ & _ & _ & N3 & _ & _ & (W & _ & C) & _).
  split; [exact Hi|].
  split; [exact Hs|]. split; [exact A1|]. split; [exact A3|]. split; [exact N3|].
  split; [exact W|]. exact C.
Defined.
